(** * MergeTree: a shallow embedding of core/baseCode/taskedTree/MergeTree.cpp

    The development follows the C++ file function by function.  The tree
    store is a record of vectors (lists indexed by [Z]), the tasks of the
    OpenMP regions are run one after the other in creation order, and every
    atomic section is one step of the state-passing functions below.

    Vector accesses outside the vector are undefined behaviour in the C++
    code.  The model reads a default value there and drops the write; the
    theorems that depend on an access carry the hypothesis that it is in
    range.  The ids are integers; where the source computes outside the
    range of the type [idNode], in [getVertInRange], the wrap-around is
    written out.

    A [DebugTimer] measures wall-clock time: what [printTime] writes of it
    on the terminal, the elapsed time and the speed, are items of the
    output that the model does not compute.  The code under the statistics
    flags ([withStatsTime], [withStatsHeight], [withStatsRatio]), which are
    off, is left out; [stats] is then empty. *)

From Stdlib Require Import ZArith Bool Lia String.
From stdpp Require Import base list list_numbers.

Local Open Scope Z_scope.

(** ** Identifiers and vectors *)

Abbreviation idVertex := Z (only parsing).
Abbreviation idNode := Z (only parsing).
Abbreviation idSuperArc := Z (only parsing).
Abbreviation valence := Z (only parsing).

(** A pointer to an [AtomicUF] object: an index in the arena [ufHeap] of the
    tree, [None] for [nullptr]. *)
Abbreviation UF := (option Z) (only parsing).

Inductive TreeType := Join | Split | Contour.

Module Vec.

(** [v[i]] as an option: [None] outside the vector. *)
Definition at_ {A} (l : list A) (i : Z) : option A :=
  if Z.ltb i 0 then None else l !! Z.to_nat i.

(** [v[i]] with a default for the out-of-range read. *)
Definition get {A} (d : A) (l : list A) (i : Z) : A :=
  default d (at_ l i).

(** [v[i] = x]; the write is dropped outside the vector. *)
Definition set {A} (i : Z) (x : A) (l : list A) : list A :=
  if Z.ltb i 0 then l else <[Z.to_nat i := x]> l.

(** [v[i] = f (v[i])]. *)
Definition upd {A} (i : Z) (f : A -> A) (l : list A) : list A :=
  match at_ l i with
  | Some x => set i (f x) l
  | None => l
  end.

(** [v.size()]. *)
Definition size {A} (l : list A) : Z := Z.of_nat (length l).

(** [AtomicVector::getNext]: reserves the next slot, filled with the
    default-constructed element, and returns its index. *)
Definition getNext {A} (d : A) (l : list A) : list A * Z :=
  (l ++ [d], size l).

End Vec.

(** ** Terminal output

    What the tree operations write on [cout]/[cerr], piece by piece. *)

Inductive LogItem :=
| LStr (s : string)
| LNum (n : Z)
| LEndl
(** The items of a line of [printTime]: spaces up to a column of the line,
    the elapsed time of the timer, and the speed, which is the number of
    vertices over that time. *)
| LPad (column : Z)
| LElapsed
| LSpeed (nbScalars : Z).

(** ** Nodes and super-arcs *)

(** Modelled from the spec: the [Node] class is declared in a header that is
    not part of the sources.  A node has the mesh vertex it sits on, an
    origin, an ordered list of up super-arc ids and an ordered list of down
    super-arc ids. *)
Record Node := mkNode {
  vertexId_ : idVertex;
  termination_ : idVertex;
  vect_upSuperArcList_ : list idSuperArc;
  vect_downSuperArcList_ : list idSuperArc
}.

Module NodeOps.

Definition setVertexId (v : idVertex) (n : Node) : Node :=
  mkNode v (termination_ n) (vect_upSuperArcList_ n) (vect_downSuperArcList_ n).

Definition setTerminaison (t : idVertex) (n : Node) : Node :=
  mkNode (vertexId_ n) t (vect_upSuperArcList_ n) (vect_downSuperArcList_ n).

Definition addUpSuperArcId (a : idSuperArc) (n : Node) : Node :=
  mkNode (vertexId_ n) (termination_ n) (vect_upSuperArcList_ n ++ [a])
         (vect_downSuperArcList_ n).

Definition addDownSuperArcId (a : idSuperArc) (n : Node) : Node :=
  mkNode (vertexId_ n) (termination_ n) (vect_upSuperArcList_ n)
         (vect_downSuperArcList_ n ++ [a]).

(** Removes the first occurrence of [a]. *)
Fixpoint removeArc (a : idSuperArc) (l : list idSuperArc) : list idSuperArc :=
  match l with
  | [] => []
  | b :: l' => if Z.eqb a b then l' else b :: removeArc a l'
  end.

Definition removeUpSuperArc (a : idSuperArc) (n : Node) : Node :=
  mkNode (vertexId_ n) (termination_ n) (removeArc a (vect_upSuperArcList_ n))
         (vect_downSuperArcList_ n).

Definition removeDownSuperArc (a : idSuperArc) (n : Node) : Node :=
  mkNode (vertexId_ n) (termination_ n) (vect_upSuperArcList_ n)
         (removeArc a (vect_downSuperArcList_ n)).

Definition clearUpSuperArcs (n : Node) : Node :=
  mkNode (vertexId_ n) (termination_ n) [] (vect_downSuperArcList_ n).

Definition clearDownSuperArcs (n : Node) : Node :=
  mkNode (vertexId_ n) (termination_ n) (vect_upSuperArcList_ n) [].

Definition getNumberOfUpSuperArcs (n : Node) : Z :=
  Vec.size (vect_upSuperArcList_ n).

Definition getNumberOfDownSuperArcs (n : Node) : Z :=
  Vec.size (vect_downSuperArcList_ n).

End NodeOps.

(** Modelled from the spec: the [SuperArc] class is declared in a header that
    is not part of the sources.  A super-arc has a down node, an up node, a
    last-visited vertex, a visited count, a region (the vertex lists
    concatenated to it) and a replacant arc. *)
Record SuperArc := mkSuperArc {
  downNodeId_ : idNode;
  upNodeId_ : idNode;
  lastVisited_ : idVertex;
  verticesSeen_ : Z;
  region_ : list (list idVertex);
  replacantId_ : idSuperArc
}.

Module ArcOps.

Definition setDownNodeId (n : idNode) (a : SuperArc) : SuperArc :=
  mkSuperArc n (upNodeId_ a) (lastVisited_ a) (verticesSeen_ a) (region_ a)
             (replacantId_ a).

Definition setUpNodeId (n : idNode) (a : SuperArc) : SuperArc :=
  mkSuperArc (downNodeId_ a) n (lastVisited_ a) (verticesSeen_ a) (region_ a)
             (replacantId_ a).

(** [setLastVisited]: records the vertex and counts the visit.  The count
    is the size of the segment: [buildSegmentation] allocates it less one,
    and [processTask] takes back with [decrNbSeen] the visit of the vertex
    that it turns into the node that closes the arc. *)
Definition setLastVisited (v : idVertex) (a : SuperArc) : SuperArc :=
  mkSuperArc (downNodeId_ a) (upNodeId_ a) v (verticesSeen_ a + 1) (region_ a)
             (replacantId_ a).

Definition atomicIncVisited (nb : Z) (a : SuperArc) : SuperArc :=
  mkSuperArc (downNodeId_ a) (upNodeId_ a) (lastVisited_ a) (verticesSeen_ a + nb)
             (region_ a) (replacantId_ a).

Definition decrNbSeen (a : SuperArc) : SuperArc :=
  mkSuperArc (downNodeId_ a) (upNodeId_ a) (lastVisited_ a) (verticesSeen_ a - 1)
             (region_ a) (replacantId_ a).

Definition getNbVertSeen (a : SuperArc) : Z := verticesSeen_ a.

(** [concat(begin, end)]: one more vertex list in the region. *)
Definition concat (seg : list idVertex) (a : SuperArc) : SuperArc :=
  mkSuperArc (downNodeId_ a) (upNodeId_ a) (lastVisited_ a) (verticesSeen_ a)
             (region_ a ++ [seg]) (replacantId_ a).

End ArcOps.

(** Modelled from the spec: the vertex to tree map has one entry per vertex,
    in one of three states (nil, node, arc); the integer encoding of the
    header, which is not part of the sources, is the tagged sum of the
    spec's design notes. *)
Inductive Corresp :=
| CNull
| CNode (n : idNode)
| CArc (a : idSuperArc).

(** ** Front queues and the union-find arena *)

(** Modelled from the spec: [CurrentState] is declared in a header that is not
    part of the sources.  A front queue holds the vertex popped last and the
    candidate vertices, duplicates allowed, ordered "by the comparator
    supplied at construction". *)
Record CurrentState := mkState {
  vertex : idVertex;
  vertComp : idVertex -> idVertex -> bool;
  queue : list idVertex
}.

Module StateOps.

Definition addNewVertex (v : idVertex) (s : CurrentState) : CurrentState :=
  mkState (vertex s) (vertComp s) (queue s ++ [v]).

Definition empty (s : CurrentState) : bool :=
  match queue s with [] => true | _ => false end.

(** The top of a priority queue ordered by [comp]: the element that [comp]
    puts before no other one. *)
Fixpoint top (comp : idVertex -> idVertex -> bool) (t : idVertex)
         (l : list idVertex) : idVertex :=
  match l with
  | [] => t
  | y :: l' => top comp (if comp t y then y else t) l'
  end.

Fixpoint removeOne (x : idVertex) (l : list idVertex) : list idVertex :=
  match l with
  | [] => []
  | y :: l' => if Z.eqb x y then l' else y :: removeOne x l'
  end.

(** [getNextMinVertex]: removes the top vertex and returns it; the state
    remembers it as its current vertex.  Popping an empty queue (never done
    by the sweep) leaves the state as it is. *)
Definition getNextMinVertex (s : CurrentState) : CurrentState * idVertex :=
  match queue s with
  | [] => (s, vertex s)
  | x :: l =>
      let t := top (vertComp s) x l in
      (mkState t (vertComp s) (removeOne t (x :: l)), t)
  end.

(** [merge]: the two queues concatenated. *)
Definition merge (other s : CurrentState) : CurrentState :=
  mkState (vertex s) (vertComp s) (queue s ++ queue other).

End StateOps.

(** Modelled from the spec: [AtomicUF] is declared in a header that is not part
    of the sources.  An element owns a parent link (itself for a
    representative), a list of states, a list of open arcs and its extremum
    vertex. *)
Record AtomicUF := mkUF {
  parent_ : Z;
  extrema_ : idVertex;
  states_ : list CurrentState;
  openedArcs_ : list idSuperArc
}.

Module UFOps.

Definition setParent (p : Z) (c : AtomicUF) : AtomicUF :=
  mkUF p (extrema_ c) (states_ c) (openedArcs_ c).

Definition setExtrema (v : idVertex) (c : AtomicUF) : AtomicUF :=
  mkUF (parent_ c) v (states_ c) (openedArcs_ c).

Definition setStates (f : list CurrentState -> list CurrentState) (c : AtomicUF)
  : AtomicUF :=
  mkUF (parent_ c) (extrema_ c) (f (states_ c)) (openedArcs_ c).

Definition setOpenedArcs (f : list idSuperArc -> list idSuperArc) (c : AtomicUF)
  : AtomicUF :=
  mkUF (parent_ c) (extrema_ c) (states_ c) (f (openedArcs_ c)).

Definition addArcToClose (a : idSuperArc) : AtomicUF -> AtomicUF :=
  setOpenedArcs (fun l => l ++ [a]).

Definition clearOpenedArcs : AtomicUF -> AtomicUF :=
  setOpenedArcs (fun _ => []).

Definition addState (s : CurrentState) : AtomicUF -> AtomicUF :=
  setStates (fun l => l ++ [s]).

Definition getNbStates (c : AtomicUF) : Z := Vec.size (states_ c).

(** [mergeStates]: all the states collapsed into the first. *)
Definition mergeStates : AtomicUF -> AtomicUF :=
  setStates (fun l =>
    match l with
    | [] => []
    | s :: others => [fold_left (fun acc o => StateOps.merge o acc) others s]
    end).

(** [new AtomicUF(v)]: a fresh representative in the arena. *)
Definition alloc (v : idVertex) (h : list AtomicUF) : list AtomicUF * Z :=
  (h ++ [mkUF (Vec.size h) v [] []], Vec.size h).

(** The parent link of element [i]; an index outside the arena is its own
    parent. *)
Definition parentOf (h : list AtomicUF) (i : Z) : Z :=
  match Vec.at_ h i with
  | Some c => parent_ c
  | None => i
  end.

(** [find] with path compression: every element on the way is linked to the
    representative.  The recursion of the source is bounded by the number
    of elements of the arena. *)
Fixpoint findFuel (fuel : nat) (h : list AtomicUF) (i : Z) : list AtomicUF * Z :=
  match fuel with
  | O => (h, i)
  | S f =>
      let p := parentOf h i in
      if Z.eqb p i then (h, i)
      else
        let '(h1, r) := findFuel f h p in
        (Vec.upd i (setParent r) h1, r)
  end.

Definition find (h : list AtomicUF) (i : Z) : list AtomicUF * Z :=
  findFuel (length h) h i.

(** [root n h i]: the element reached from [i] after at most [n] parent
    links, without compression. *)
Fixpoint root (fuel : nat) (h : list AtomicUF) (i : Z) : Z :=
  match fuel with
  | O => i
  | S f => let p := parentOf h i in if Z.eqb p i then i else root f h p
  end.

(** Moves the states and open arcs of [src] to [dst] and links [src] under
    [dst]. *)
Definition attach (src dst : Z) (h : list AtomicUF) : list AtomicUF :=
  match Vec.at_ h src with
  | None => h
  | Some cs =>
      let h1 := Vec.upd dst (fun cd =>
                  mkUF (parent_ cd) (extrema_ cd) (states_ cd ++ states_ cs)
                       (openedArcs_ cd ++ openedArcs_ cs)) h in
      Vec.upd src (fun c => mkUF dst (extrema_ c) [] []) h1
  end.

(** [makeUnion]: the representative whose extremum is earlier in the sweep
    goes under the other one, which receives its open arcs and states and
    is returned. *)
Definition makeUnion (lower : idVertex -> idVertex -> bool)
           (h : list AtomicUF) (a b : Z) : list AtomicUF * Z :=
  let '(h1, ra) := find h a in
  let '(h2, rb) := find h1 b in
  if Z.eqb ra rb then (h2, ra)
  else
    match Vec.at_ h2 ra, Vec.at_ h2 rb with
    | Some ca, Some cb =>
        if lower (extrema_ ca) (extrema_ cb)
        then (attach ra rb h2, rb)
        else (attach rb ra h2, ra)
    | _, _ => (h2, ra)
    end.

End UFOps.

(** ** The tree object *)

(** [comp_]: the two order predicates of the sweep. *)
Record Comparison := mkComp {
  vertLower : idVertex -> idVertex -> bool;
  vertHigher : idVertex -> idVertex -> bool
}.

(** The members of [MergeTree] and of its [treeData_]: the tree store, the
    arrays of the sweep, the arena of the union-find elements they point to
    and what was written on the terminal. *)
Record MergeTree := mkMT {
  treeType : TreeType;
  superArcs : list SuperArc;
  nodes : list Node;
  roots : list idNode;
  leaves : list idNode;
  vert2tree : list Corresp;
  ufs : list UF;
  propagation : list UF;
  valences : list valence;
  openedNodes : list bool;
  activeTasks : Z;
  segments_ : list (list idVertex);
  comp_ : Comparison;
  ufHeap : list AtomicUF;
  console : list LogItem
}.

(** Field updates: [set_x f t] is [t] with [x] replaced by [f (x t)]. *)

Definition set_superArcs (f : list SuperArc -> list SuperArc) (t : MergeTree) : MergeTree :=
  mkMT (treeType t) (f (superArcs t)) (nodes t) (roots t) (leaves t) (vert2tree t)
       (ufs t) (propagation t) (valences t) (openedNodes t) (activeTasks t)
       (segments_ t) (comp_ t) (ufHeap t) (console t).

Definition set_nodes (f : list Node -> list Node) (t : MergeTree) : MergeTree :=
  mkMT (treeType t) (superArcs t) (f (nodes t)) (roots t) (leaves t) (vert2tree t)
       (ufs t) (propagation t) (valences t) (openedNodes t) (activeTasks t)
       (segments_ t) (comp_ t) (ufHeap t) (console t).

Definition set_roots (f : list idNode -> list idNode) (t : MergeTree) : MergeTree :=
  mkMT (treeType t) (superArcs t) (nodes t) (f (roots t)) (leaves t) (vert2tree t)
       (ufs t) (propagation t) (valences t) (openedNodes t) (activeTasks t)
       (segments_ t) (comp_ t) (ufHeap t) (console t).

Definition set_leaves (f : list idNode -> list idNode) (t : MergeTree) : MergeTree :=
  mkMT (treeType t) (superArcs t) (nodes t) (roots t) (f (leaves t)) (vert2tree t)
       (ufs t) (propagation t) (valences t) (openedNodes t) (activeTasks t)
       (segments_ t) (comp_ t) (ufHeap t) (console t).

Definition set_vert2tree (f : list Corresp -> list Corresp) (t : MergeTree) : MergeTree :=
  mkMT (treeType t) (superArcs t) (nodes t) (roots t) (leaves t) (f (vert2tree t))
       (ufs t) (propagation t) (valences t) (openedNodes t) (activeTasks t)
       (segments_ t) (comp_ t) (ufHeap t) (console t).

Definition set_ufs (f : list UF -> list UF) (t : MergeTree) : MergeTree :=
  mkMT (treeType t) (superArcs t) (nodes t) (roots t) (leaves t) (vert2tree t)
       (f (ufs t)) (propagation t) (valences t) (openedNodes t) (activeTasks t)
       (segments_ t) (comp_ t) (ufHeap t) (console t).

Definition set_propagation (f : list UF -> list UF) (t : MergeTree) : MergeTree :=
  mkMT (treeType t) (superArcs t) (nodes t) (roots t) (leaves t) (vert2tree t) (ufs t)
       (f (propagation t)) (valences t) (openedNodes t) (activeTasks t) (segments_ t)
       (comp_ t) (ufHeap t) (console t).

Definition set_valences (f : list valence -> list valence) (t : MergeTree) : MergeTree :=
  mkMT (treeType t) (superArcs t) (nodes t) (roots t) (leaves t) (vert2tree t) (ufs t)
       (propagation t) (f (valences t)) (openedNodes t) (activeTasks t) (segments_ t)
       (comp_ t) (ufHeap t) (console t).

Definition set_openedNodes (f : list bool -> list bool) (t : MergeTree) : MergeTree :=
  mkMT (treeType t) (superArcs t) (nodes t) (roots t) (leaves t) (vert2tree t) (ufs t)
       (propagation t) (valences t) (f (openedNodes t)) (activeTasks t) (segments_ t)
       (comp_ t) (ufHeap t) (console t).

Definition set_activeTasks (f : Z -> Z) (t : MergeTree) : MergeTree :=
  mkMT (treeType t) (superArcs t) (nodes t) (roots t) (leaves t) (vert2tree t) (ufs t)
       (propagation t) (valences t) (openedNodes t) (f (activeTasks t)) (segments_ t)
       (comp_ t) (ufHeap t) (console t).

Definition set_segments_ (f : list (list idVertex) -> list (list idVertex)) (t : MergeTree) : MergeTree :=
  mkMT (treeType t) (superArcs t) (nodes t) (roots t) (leaves t) (vert2tree t) (ufs t)
       (propagation t) (valences t) (openedNodes t) (activeTasks t) (f (segments_ t))
       (comp_ t) (ufHeap t) (console t).

Definition set_comp_ (f : Comparison -> Comparison) (t : MergeTree) : MergeTree :=
  mkMT (treeType t) (superArcs t) (nodes t) (roots t) (leaves t) (vert2tree t) (ufs t)
       (propagation t) (valences t) (openedNodes t) (activeTasks t) (segments_ t)
       (f (comp_ t)) (ufHeap t) (console t).

Definition set_ufHeap (f : list AtomicUF -> list AtomicUF) (t : MergeTree) : MergeTree :=
  mkMT (treeType t) (superArcs t) (nodes t) (roots t) (leaves t) (vert2tree t) (ufs t)
       (propagation t) (valences t) (openedNodes t) (activeTasks t) (segments_ t)
       (comp_ t) (f (ufHeap t)) (console t).

Definition set_console (f : list LogItem -> list LogItem) (t : MergeTree) : MergeTree :=
  mkMT (treeType t) (superArcs t) (nodes t) (roots t) (leaves t) (vert2tree t) (ufs t)
       (propagation t) (valences t) (openedNodes t) (activeTasks t) (segments_ t)
       (comp_ t) (ufHeap t) (f (console t)).

(** ** Collaborators *)

(** The mesh: neighbour queries only. *)
Record Triangulation := mkMesh {
  getVertexNeighborNumber : idVertex -> Z;
  getVertexNeighbor : idVertex -> Z -> idVertex
}.

(** The scalar array with its two order predicates, the vertices in
    ascending order and the inverse permutation. *)
Record Scalars := mkScalars {
  scalars_size : Z;
  isLower : idVertex -> idVertex -> bool;
  isHigher : idVertex -> idVertex -> bool;
  sortedVertices : list idVertex;
  mirrorVertices : list idVertex
}.

(** What the headers and the build fix and the source file only uses: the
    [withKamikaze] compilation flag, the debug level, the default-constructed
    node and super-arc, the default of the second argument of [makeNode], the
    content of a segment slot that was not written yet, the sort of the
    segments ([Segments::sortAll], which receives the scalars), the chunk
    policy ([None] for an argument left to its default), the default of
    the last argument of [printTime], the [__clang__] macro of the compiler,
    and the size in bytes and the signedness of the type [idNode]. *)
Record Build := mkBuild {
  withKamikaze : bool;
  debugLevel_ : Z;
  defaultNode : Node;
  defaultSuperArc : SuperArc;
  defaultTerm : idVertex;
  segmentFill : idVertex;
  segmentsSortAll : Scalars -> list (list idVertex) -> list (list idVertex);
  getChunkSize : option Z -> option Z -> Z;
  getChunkCount : option Z -> option Z -> Z;
  printTimeLevel : Z;
  clang_ : bool;
  idNodeBytes : positive;
  idNodeSigned : bool
}.

(** Modelled from the spec: [idNode] is an integer type declared in a
    header that is not part of the sources; its size in bytes and its
    signedness are left to the build.  The arithmetic of the type where the
    source leaves its range: the number of its values, the largest of them,
    and the conversion of an integer to the type, with wrap-around. *)
Definition idNodeCard (cfg : Build) : Z := 2 ^ (8 * Z.pos (idNodeBytes cfg)).

Definition idNodeMax (cfg : Build) : Z :=
  if idNodeSigned cfg then idNodeCard cfg / 2 - 1 else idNodeCard cfg - 1.

Definition toIdNode (cfg : Build) (x : Z) : idNode :=
  if idNodeSigned cfg
  then (x + idNodeCard cfg / 2) mod idNodeCard cfg - idNodeCard cfg / 2
  else x mod idNodeCard cfg.

(** [for (i = lo; i < hi; ++i) body]. *)
Definition forRange {S} (lo hi : Z) (body : Z -> S -> S) (s : S) : S :=
  fold_left (fun acc i => body i acc) (seqZ lo (hi - lo)) s.

(** [for (i = hi; i > lo; --i) body]. *)
Definition forRangeDown {S} (hi lo : Z) (body : Z -> S -> S) (s : S) : S :=
  fold_left (fun acc i => body i acc) (reverse (seqZ (lo + 1) (hi - lo))) s.

(** [std::sort] with a comparator, as an insertion sort. *)
Fixpoint insertBy (lt : Z -> Z -> bool) (x : Z) (l : list Z) : list Z :=
  match l with
  | [] => [x]
  | y :: l' => if lt y x then y :: insertBy lt x l' else x :: y :: l'
  end.

Definition sortBy (lt : Z -> Z -> bool) (l : list Z) : list Z :=
  fold_right (insertBy lt) [] l.

(** ** Accessors of the header

    Modelled from the spec: the inline accessors of [MergeTree.h], which is
    not part of the sources ([getNumberOfNodes], [isCorrespondingNode],
    [updateCorrespondingArc] and the like), over the tri-state vertex to
    tree map. *)

Definition getNumberOfNodes (t : MergeTree) : Z := Vec.size (nodes t).

Definition getNumberOfSuperArcs (t : MergeTree) : Z := Vec.size (superArcs t).

Definition isJT (t : MergeTree) : bool :=
  match treeType t with Join => true | _ => false end.

Definition corresp (t : MergeTree) (v : idVertex) : Corresp :=
  Vec.get CNull (vert2tree t) v.

Definition isCorrespondingNull (t : MergeTree) (v : idVertex) : bool :=
  match corresp t v with CNull => true | _ => false end.

Definition isCorrespondingNode (t : MergeTree) (v : idVertex) : bool :=
  match corresp t v with CNode _ => true | _ => false end.

Definition isCorrespondingArc (t : MergeTree) (v : idVertex) : bool :=
  match corresp t v with CArc _ => true | _ => false end.

(** The node of a vertex; for a vertex that is not a node the source
    computes a meaningless id, here the invalid id [-1]. *)
Definition getCorrespondingNodeId (t : MergeTree) (v : idVertex) : idNode :=
  match corresp t v with CNode n => n | _ => -1 end.

(** The arc of a vertex, [-1] for a vertex that is not on an arc. *)
Definition getCorrespondingSuperArcId (t : MergeTree) (v : idVertex) : idSuperArc :=
  match corresp t v with CArc a => a | _ => -1 end.

Definition updateCorrespondingArc (v : idVertex) (a : idSuperArc) : MergeTree -> MergeTree :=
  set_vert2tree (Vec.set v (CArc a)).

Definition updateCorrespondingNode (v : idVertex) (n : idNode) : MergeTree -> MergeTree :=
  set_vert2tree (Vec.set v (CNode n)).

(** [cout << ...]. *)
Definition log (items : list LogItem) : MergeTree -> MergeTree :=
  set_console (fun c => c ++ items).

(** A null [UF] pointer dereferenced is undefined behaviour; the model uses
    an index outside the arena. *)
Definition deref (u : UF) : Z := default (-1) u.

Definition ufCell (t : MergeTree) (u : Z) : AtomicUF :=
  Vec.get (mkUF u 0 [] []) (ufHeap t) u.

(** The state a task works on is the first state of its representative. *)
Definition getFirstState (t : MergeTree) (u : Z) : CurrentState :=
  match states_ (ufCell t u) with
  | s :: _ => s
  | [] => mkState 0 (fun _ _ => false) []
  end.

Definition updFirstState (u : Z) (f : CurrentState -> CurrentState)
  : MergeTree -> MergeTree :=
  set_ufHeap (Vec.upd u (UFOps.setStates (fun l =>
    match l with
    | s :: l' => f s :: l'
    | [] => []
    end))).

(** [uf->find()] on the arena of the tree. *)
Definition ufFind (t : MergeTree) (u : Z) : MergeTree * Z :=
  let '(h, r) := UFOps.find (ufHeap t) u in
  (set_ufHeap (fun _ => h) t, r).

(** What a loop iteration of [processTask] does next. *)
Inductive LoopCtl :=
| Continue (t : MergeTree) (seenFirst : bool)
| Return (t : MergeTree)
| Recurse (t : MergeTree) (startVert : idVertex) (d : idNode) (orig : idVertex).

Section Model.

Variable cfg : Build.
Variable mesh_ : Triangulation.
Variable scalars_ : Scalars.

Definition getNode (t : MergeTree) (n : idNode) : Node :=
  Vec.get (defaultNode cfg) (nodes t) n.

Definition getSuperArc (t : MergeTree) (a : idSuperArc) : SuperArc :=
  Vec.get (defaultSuperArc cfg) (superArcs t) a.

Definition getUpSuperArcId (n : Node) (i : Z) : idSuperArc :=
  Vec.get (-1) (vect_upSuperArcList_ n) i.

Definition getDownSuperArcId (n : Node) (i : Z) : idSuperArc :=
  Vec.get (-1) (vect_downSuperArcList_ n) i.

Definition upArcFromVert (t : MergeTree) (v : idVertex) : idSuperArc :=
  getUpSuperArcId (getNode t (getCorrespondingNodeId t v)) 0.

(** *** Timings *)

(** [printTime (t, s, nbScalars, debugLevel)]: at a debug level that
    reaches [debugLevel], one line with a dash for every level above 2,
    the label, the elapsed time and the speed.  The value it returns is 1
    and no caller reads it. *)
Definition printTime (s : string) (nbScalars : idVertex) (debugLevel : Z) (t : MergeTree)
  : MergeTree :=
  let nbScalars := if nbScalars =? -1 then scalars_size scalars_ else nbScalars in
  if debugLevel_ cfg >=? debugLevel then
    log (replicate (Z.to_nat (debugLevel - 2)) (LStr "-")
         ++ [LStr s; LStr " in "; LPad 25; LElapsed; LPad 35;
             LStr " at "; LSpeed nbScalars; LStr " vert/s"; LEndl]) t
  else t.

(** *** Arcs and nodes *)

Definition openSuperArc (t : MergeTree) (downNodeId : idNode) : MergeTree * idSuperArc :=
  if negb (withKamikaze cfg)
     && ((downNodeId <? 0) || (downNodeId >=? getNumberOfNodes t))
  then (log [LStr "[Merge Tree] openSuperArc on a inexisting node !"; LEndl] t, -2)
  else
    let '(sas, newSuperArcId) := Vec.getNext (defaultSuperArc cfg) (superArcs t) in
    let t1 := set_superArcs (fun _ => sas) t in
    let t2 := set_superArcs (Vec.upd newSuperArcId (ArcOps.setDownNodeId downNodeId)) t1 in
    let t3 := set_nodes (Vec.upd downNodeId (NodeOps.addUpSuperArcId newSuperArcId)) t2 in
    (t3, newSuperArcId).

Definition makeSuperArc (t : MergeTree) (downNodeId upNodeId : idNode)
  : MergeTree * idSuperArc :=
  let '(sas, newSuperArcId) := Vec.getNext (defaultSuperArc cfg) (superArcs t) in
  let t1 := set_superArcs (fun _ => sas) t in
  let t2 := set_superArcs (Vec.upd newSuperArcId (ArcOps.setDownNodeId downNodeId)) t1 in
  let t3 := set_superArcs (Vec.upd newSuperArcId (ArcOps.setUpNodeId upNodeId)) t2 in
  let t4 := set_nodes (Vec.upd downNodeId (NodeOps.addUpSuperArcId newSuperArcId)) t3 in
  let t5 := set_nodes (Vec.upd upNodeId (NodeOps.addDownSuperArcId newSuperArcId)) t4 in
  (t5, newSuperArcId).

Definition closeSuperArc (t : MergeTree) (superArcId : idSuperArc) (upNodeId : idNode)
  : MergeTree :=
  if negb (withKamikaze cfg)
     && ((superArcId <? 0) || (superArcId >=? getNumberOfSuperArcs t))
  then log [LStr "[Merge Tree] closeSuperArc on a inexisting arc !"; LEndl] t
  else if negb (withKamikaze cfg)
          && ((upNodeId <? 0) || (upNodeId >=? getNumberOfNodes t))
  then log [LStr "[Merge Tree] closeOpenedArc on a inexisting node !"; LEndl] t
  else
    let t1 := set_superArcs (Vec.upd superArcId (ArcOps.setUpNodeId upNodeId)) t in
    set_nodes (Vec.upd upNodeId (NodeOps.addDownSuperArcId superArcId)) t1.

Definition makeNode (t : MergeTree) (vertexId term : idVertex) : MergeTree * idNode :=
  if negb (withKamikaze cfg)
     && ((vertexId <? 0) || (vertexId >=? scalars_size scalars_))
  then (log [LStr "[Merge Tree] make node, wrong vertex :"; LNum vertexId;
             LStr " on "; LNum (scalars_size scalars_); LEndl] t, -1)
  else if isCorrespondingNode t vertexId
  then (t, getCorrespondingNodeId t vertexId)
  else
    let '(ns, newNodeId) := Vec.getNext (defaultNode cfg) (nodes t) in
    let t1 := set_nodes (fun _ => ns) t in
    let t2 := set_nodes (Vec.upd newNodeId (NodeOps.setVertexId vertexId)) t1 in
    let t3 := set_nodes (Vec.upd newNodeId (NodeOps.setTerminaison term)) t2 in
    (updateCorrespondingNode vertexId newNodeId t3, newNodeId).

Definition delNode (t : MergeTree) (node : idNode) : MergeTree :=
  let mainNode := getNode t node in
  if NodeOps.getNumberOfUpSuperArcs mainNode =? 0 then
    (* Root: No Superarc *)
    if negb (withKamikaze cfg)
       && negb (NodeOps.getNumberOfDownSuperArcs mainNode =? 1)
    then
      log [LEndl; LStr "[MergeTree]:delNode won't delete ";
           LNum (vertexId_ mainNode); LStr " (root) with ";
           LNum (NodeOps.getNumberOfDownSuperArcs mainNode); LStr " down ";
           LNum (NodeOps.getNumberOfUpSuperArcs mainNode); LStr " up "] t
    else
      let downArc := getDownSuperArcId mainNode 0 in
      let downNode := downNodeId_ (getSuperArc t downArc) in
      let t1 := set_nodes (Vec.upd downNode (NodeOps.removeUpSuperArc downArc)) t in
      set_nodes (Vec.upd node NodeOps.clearDownSuperArcs) t1
  else if NodeOps.getNumberOfDownSuperArcs mainNode <? 2 then
    (* Have one up arc *)
    let upArc := getUpSuperArcId mainNode 0 in
    let upId := upNodeId_ (getSuperArc t upArc) in
    let t1 := set_nodes (Vec.upd upId (NodeOps.removeDownSuperArc upArc)) t in
    let t2 := set_nodes (Vec.upd node NodeOps.clearUpSuperArcs) t1 in
    if negb (NodeOps.getNumberOfDownSuperArcs (getNode t2 node) =? 0) then
      (* Have one down arc: reconnect *)
      let downArc := getDownSuperArcId (getNode t2 node) 0 in
      let t3 := set_superArcs (Vec.upd downArc (ArcOps.setUpNodeId upId)) t2 in
      let t4 := set_nodes (Vec.upd upId (NodeOps.addDownSuperArcId downArc)) t3 in
      let t5 := set_nodes (Vec.upd node NodeOps.clearDownSuperArcs) t4 in
      let upRegion := region_ (getSuperArc t5 upArc) in
      set_superArcs (Vec.upd downArc (fun a =>
        fold_left (fun acc seg => ArcOps.concat seg acc) upRegion a)) t5
    else t2
  else if negb (withKamikaze cfg)
  then log [LStr "delete node with multiple childrens "; LEndl] t
  else t.

(** *** Precompute *)

Definition precomputeVertex (v : idVertex) (t : MergeTree) : MergeTree :=
  let neighNumb := getVertexNeighborNumber mesh_ v in
  let val :=
    forRange 0 neighNumb (fun n val =>
      let neigh := getVertexNeighbor mesh_ v n in
      if vertLower (comp_ t) neigh v then val + 1 else val) 0 in
  let t1 := set_valences (Vec.set v val) t in
  if val =? 0 then fst (makeNode t1 v (defaultTerm cfg)) else t1.

Definition precompute (t : MergeTree) : MergeTree * Z :=
  let '(t1, ret) :=
    (* if not already computed by CT *)
    if getNumberOfNodes t =? 0 then
      let nbScalars := scalars_size scalars_ in
      let chunkSize := getChunkSize cfg None None in
      let chunkNb := getChunkCount cfg None None in
      (forRange 0 chunkNb (fun chunkId t' =>
         let lowerBound := chunkId * chunkSize in
         let upperBound := Z.min nbScalars ((chunkId + 1) * chunkSize) in
         forRange lowerBound upperBound precomputeVertex t') t, 0)
    else (t, 1) in
  (* fill leaves *)
  let nbLeaves := Vec.size (nodes t1) in
  let t2 := set_leaves (fun _ => seqZ 0 nbLeaves) t1 in
  let t3 := if debugLevel_ cfg >=? 3
            then log [LStr "nb leaves "; LNum nbLeaves; LEndl] t2
            else t2 in
  (t3, ret).

(** *** The sweep *)

(** [propage (currentState, curUF)]: the state passed by reference is the
    first state of the element [owner]. *)
Definition propageNeighbor (owner curUFF : Z) (v : idVertex) (n : Z)
           (acc : MergeTree * bool * valence) : MergeTree * bool * valence :=
  let '(t, becameSaddle, decr) := acc in
  let neigh := getVertexNeighbor mesh_ v n in
  if vertLower (comp_ t) neigh v then
    match Vec.get None (ufs t) neigh with
    | None => (t, true, decr)
    | Some neighUF =>
        let '(t1, r) := ufFind t neighUF in
        (* is saddle *)
        if negb (r =? curUFF) then (t1, true, decr)
        else (t1, becameSaddle, decr + 1)
    end
  else
    let enqueue (t' : MergeTree) :=
      let t1 := updFirstState owner (StateOps.addNewVertex neigh) t' in
      set_propagation (Vec.set neigh (Some curUFF)) t1 in
    match Vec.get None (propagation t) neigh with
    | None => (enqueue t, becameSaddle, decr)
    | Some p =>
        let '(t1, r) := ufFind t p in
        if negb (r =? curUFF) then (enqueue t1, becameSaddle, decr)
        else (t1, becameSaddle, decr)
    end.

Definition propage (t : MergeTree) (owner curUF : Z) : MergeTree * bool * bool :=
  let v := vertex (getFirstState t owner) in
  let nbNeigh := getVertexNeighborNumber mesh_ v in
  (* once for all *)
  let '(t0, curUFF) := ufFind t curUF in
  (* propagation / is saddle *)
  let '(t1, becameSaddle, decr) :=
    forRange 0 nbNeigh (propageNeighbor owner curUFF v) (t0, false, 0) in
  (* is last *)
  let oldVal := Vec.get 0 (valences t1) v in
  let t2 := set_valences (Vec.upd v (fun x => x - decr)) t1 in
  (t2, becameSaddle, oldVal =? decr).

Definition closeArcsUF (t : MergeTree) (closeNode : idNode) (uf : UF) : MergeTree :=
  let '(t1, r) := ufFind t (deref uf) in
  let t2 := fold_left (fun t' sa => closeSuperArc t' sa closeNode)
                      (openedArcs_ (ufCell t1 r)) t1 in
  let '(t3, r') := ufFind t2 (deref uf) in
  set_ufHeap (Vec.upd r' UFOps.clearOpenedArcs) t3.

(** The union of the fronts that arrive on [saddleVert]; [checkNull] is the
    test on [ufs[neigh]] that only [closeOnBackBone] makes. *)
Definition unionNeighbor (checkNull : bool) (saddleVert : idVertex) (n : Z)
           (t : MergeTree) : MergeTree :=
  let neigh := getVertexNeighbor mesh_ saddleVert n in
  if vertLower (comp_ t) neigh saddleVert then
    match checkNull, Vec.get None (ufs t) neigh with
    | true, None => t
    | _, neighUF =>
        let '(t1, rn) := ufFind t (deref neighUF) in
        let '(t2, rs) := ufFind t1 (deref (Vec.get None (ufs t1) saddleVert)) in
        if negb (rn =? rs) then
          let '(h, r) := UFOps.makeUnion (vertLower (comp_ t2)) (ufHeap t2)
                           (deref (Vec.get None (ufs t2) saddleVert))
                           (deref (Vec.get None (ufs t2) neigh)) in
          set_ufs (Vec.set saddleVert (Some r)) (set_ufHeap (fun _ => h) t2)
        else t2
    end
  else t.

Definition closeAndMergeOnSaddle (t : MergeTree) (saddleVert : idVertex) : MergeTree :=
  let '(t1, closeNode) := makeNode t saddleVert (defaultTerm cfg) in
  (* Union of the UF coming here (merge propagation and closing arcs) *)
  let nbNeigh := getVertexNeighborNumber mesh_ saddleVert in
  let t2 := forRange 0 nbNeigh (unionNeighbor false saddleVert) t1 in
  (* close arcs on this node *)
  let t3 := closeArcsUF t2 closeNode (Vec.get None (ufs t2) saddleVert) in
  let '(t4, r) := ufFind t3 (deref (Vec.get None (ufs t3) saddleVert)) in
  let t5 := set_ufHeap (Vec.upd r UFOps.mergeStates) t4 in
  let '(t6, r') := ufFind t5 (deref (Vec.get None (ufs t5) saddleVert)) in
  set_ufHeap (Vec.upd r' (UFOps.setExtrema saddleVert)) t6.

Definition closeOnBackBone (t : MergeTree) (saddleVert : idVertex) : MergeTree :=
  let '(t1, closeNode) := makeNode t saddleVert (defaultTerm cfg) in
  let nbNeigh := getVertexNeighborNumber mesh_ saddleVert in
  let t2 := forRange 0 nbNeigh (unionNeighbor true saddleVert) t1 in
  closeArcsUF t2 closeNode (Vec.get None (ufs t2) saddleVert).

(** The head of [processTask]: the representative, its state and the arc
    opened on the node of [startVert]. *)
Definition openTask (t : MergeTree) (startVert : idVertex) : MergeTree * Z * idSuperArc :=
  let '(t1, startUF) := ufFind t (deref (Vec.get None (ufs t) startVert)) in
  (* get or recover states *)
  let t2 :=
    if negb (UFOps.getNbStates (ufCell t1 startUF) =? 0) then t1
    else set_ufHeap (Vec.upd startUF
           (UFOps.addState (mkState startVert (vertHigher (comp_ t1)) []))) t1 in
  let t3 := updFirstState startUF (StateOps.addNewVertex startVert) t2 in
  (* ARC OPENING *)
  let startNode := getCorrespondingNodeId t3 startVert in
  let '(t4, currentArc) := openSuperArc t3 startNode in
  let t5 := set_ufHeap (Vec.upd startUF (UFOps.addArcToClose currentArc)) t4 in
  (t5, startUF, currentArc).

(** The saddle case of the loop: [t] is the state after [propage] and the
    publication of [ufs[currentVert]]. *)
Definition saddleCase (t : MergeTree) (currentVert : idVertex) (d : idNode)
           (orig : idVertex) (isLast : bool) : LoopCtl :=
  (* need a node on this vertex *)
  let t1 := set_openedNodes (Vec.set currentVert true) t in
  (* If last close all and merge *)
  if isLast then
    (* last task detection *)
    let remainingTasks := activeTasks t1 in
    if remainingTasks =? 1 then
      (* only backbone remaining *)
      Return t1
    else
      (* finish works here *)
      let t2 := closeAndMergeOnSaddle t1 currentVert in
      (* made a node on this vertex *)
      let t3 := set_openedNodes (Vec.set currentVert false) t2 in
      (* recursively continue *)
      Recurse t3 currentVert (d + 1) orig
  else
    (* Active tasks / threads *)
    Return (set_activeTasks (fun n => n - 1) t1).

(** Saddle and last detection, propagation, and what follows. *)
Definition processVertex (t : MergeTree) (startVert : idVertex) (d : idNode)
           (orig : idVertex) (startUF : Z) (currentArc : idSuperArc)
           (seenFirst : bool) (currentVert : idVertex) : LoopCtl :=
  let '(t1, isSaddle, isLast) := propage t startUF startUF in
  (* regular propagation *)
  let t2 := set_ufs (Vec.set currentVert (Some startUF)) t1 in
  if isSaddle then saddleCase t2 currentVert d orig isLast
  else
    let t3 := if negb (currentVert =? startVert)
              then updateCorrespondingArc currentVert currentArc t2
              else t2 in
    Continue (set_superArcs (Vec.upd currentArc (ArcOps.setLastVisited currentVert)) t3)
             seenFirst.

(** One iteration of the [while] loop. *)
Definition loopBody (t : MergeTree) (startVert : idVertex) (d : idNode)
           (orig : idVertex) (startUF : Z) (currentArc : idSuperArc)
           (seenFirst : bool) : LoopCtl :=
  (* Next vertex *)
  let '(s, currentVert) := StateOps.getNextMinVertex (getFirstState t startUF) in
  let t1 := updFirstState startUF (fun _ => s) t in
  (* ignore duplicate *)
  if negb (isCorrespondingNull t1 currentVert) && negb (isCorrespondingNode t1 currentVert)
  then Continue t1 seenFirst
  else
    (* first node can be duplicate, avoid duplicate process *)
    if currentVert =? startVert then
      if negb seenFirst
      then processVertex t1 startVert d orig startUF currentArc true currentVert
      else Continue t1 seenFirst
    else processVertex t1 startVert d orig startUF currentArc seenFirst currentVert.

(** The end of [processTask], after the loop: close root. *)
Definition closeRoot (t : MergeTree) (currentArc : idSuperArc) : MergeTree :=
  let closeVert := lastVisited_ (getSuperArc t currentArc) in
  let existCloseNode := isCorrespondingNode t closeVert in
  let '(t1, closeNode) :=
    if existCloseNode then (t, getCorrespondingNodeId t closeVert)
    else makeNode t closeVert (defaultTerm cfg) in
  let t2 := closeSuperArc t1 currentArc closeNode in
  let t3 := set_superArcs (Vec.upd currentArc ArcOps.decrNbSeen) t2 in
  let '(rs, rootPos) := Vec.getNext 0 (roots t3) in
  set_roots (fun _ => Vec.set rootPos closeNode rs) t3.

(** [processTask] and its [while] loop.  Every iteration and every
    recursive call takes one unit of [fuel]; [None] when it runs out. *)
Fixpoint processTask (fuel : nat) (t : MergeTree) (startVert : idVertex) (d : idNode)
         (orig : idVertex) {struct fuel} : option MergeTree :=
  match fuel with
  | O => None
  | S f =>
      let '(t1, startUF, currentArc) := openTask t startVert in
      sweep f t1 startVert d orig startUF currentArc false
  end
with sweep (fuel : nat) (t : MergeTree) (startVert : idVertex) (d : idNode)
           (orig : idVertex) (startUF : Z) (currentArc : idSuperArc)
           (seenFirst : bool) {struct fuel} : option MergeTree :=
  match fuel with
  | O => None
  | S f =>
      if StateOps.empty (getFirstState t startUF)
      then Some (closeRoot t currentArc)
      else
        match loopBody t startVert d orig startUF currentArc seenFirst with
        | Continue t' seenFirst' =>
            sweep f t' startVert d orig startUF currentArc seenFirst'
        | Return t' => Some t'
        | Recurse t' v d' orig' => processTask f t' v d' orig'
        end
  end.

(** [leaves]: one task per leaf. *)
Definition launchLeaf (fuel : nat) (n : Z) (acc : option MergeTree) : option MergeTree :=
  match acc with
  | None => None
  | Some t =>
      let l := Vec.get 0 (leaves t) n in
      let v := vertexId_ (getNode t l) in
      (* for each node: get vert, create uf and lauch *)
      let '(h, u) := UFOps.alloc v (ufHeap t) in
      let t1 := set_ufs (Vec.set v (Some u)) (set_ufHeap (fun _ => h) t) in
      processTask fuel t1 v 0 n
  end.

Definition leaves_ (fuel : nat) (t : MergeTree) : option MergeTree :=
  let nbLeaves := Vec.size (leaves t) in
  (* elevation: backbone only *)
  if nbLeaves =? 1 then
    let v := vertexId_ (getNode t 0) in
    let t1 := set_openedNodes (Vec.set v true) t in
    let '(h, u) := UFOps.alloc v (ufHeap t1) in
    Some (set_ufs (Vec.set v (Some u)) (set_ufHeap (fun _ => h) t1))
  else
    let t1 := set_activeTasks (fun _ => nbLeaves) t in
    let comp a b := vertLower (comp_ t1) (vertexId_ (getNode t1 a))
                              (vertexId_ (getNode t1 b)) in
    let t2 := set_leaves (sortBy comp) t1 in
    forRange 0 nbLeaves (launchLeaf fuel) (Some t2).

(** *** Trunk *)

(** [getVertInRange]: [idRes + 1] and [range.size()] are values of the type
    [idNode].  From a position below the largest [idNode] the loop advances
    [idRes] up to the end of the range at most; from another position the
    addition wraps around, and the loop ends within as many turns as the
    type has values. *)
Fixpoint getVertInRangeFrom (fuel : nat) (t : MergeTree) (range : list idVertex)
         (rangeSize : idNode) (v : idVertex) (idRes : idNode) : idNode :=
  match fuel with
  | O => idRes
  | S f =>
      if (toIdNode cfg (idRes + 1) <? rangeSize)
         && vertLower (comp_ t) (Vec.get 0 range (toIdNode cfg (idRes + 1))) v
      then getVertInRangeFrom f t range rangeSize v (toIdNode cfg (idRes + 1))
      else idRes
  end.

Definition getVertInRange (t : MergeTree) (range : list idVertex) (v : idVertex)
           (last : idNode) : idNode :=
  let idRes := last in
  let rangeSize := toIdNode cfg (Vec.size range) in
  let turns := if (0 <=? idRes) && (idRes <? idNodeMax cfg)
               then rangeSize - 1 - idRes
               else idNodeCard cfg in
  getVertInRangeFrom (Z.to_nat turns) t range rangeSize v idRes.

Definition getBoundsFromVerts (t : MergeTree) (nodes_ : list idVertex)
  : idVertex * idVertex :=
  if isJT t
  then (Vec.get 0 (mirrorVertices scalars_) (Vec.get 0 nodes_ 0), scalars_size scalars_)
  else (Vec.get 0 (mirrorVertices scalars_) (Vec.get 0 nodes_ 0), -1).

(** [lastVertInRange] and [acc] are the copies of the running task. *)
Definition assignChunkTrunk (pendingVerts : list idVertex) (v : idVertex)
           (st : MergeTree * idNode * idVertex) : MergeTree * idNode * idVertex :=
  let '(t, lastVertInRange, acc) := st in
  let s := Vec.get 0 (sortedVertices scalars_) v in
  if isCorrespondingNull t s then
    let oldVertInRange := lastVertInRange in
    let lastVertInRange' := getVertInRange t pendingVerts s lastVertInRange in
    let thisArc := upArcFromVert t (Vec.get 0 pendingVerts lastVertInRange') in
    let t1 := updateCorrespondingArc s thisArc t in
    if oldVertInRange =? lastVertInRange' then (t1, lastVertInRange', acc + 1)
    else
      (* accumulated to have only one atomic update when needed *)
      let oldArc := upArcFromVert t1 (Vec.get 0 pendingVerts oldVertInRange) in
      (set_superArcs (Vec.upd oldArc (ArcOps.atomicIncVisited acc)) t1,
       lastVertInRange', 1)
  else st.

(** The end of a chunk task: force increment last arc. *)
Definition flushChunk (pendingVerts : list idVertex)
           (st : MergeTree * idNode * idVertex) : MergeTree :=
  let '(t, lastVertInRange, acc) := st in
  let baseNode := getCorrespondingNodeId t (Vec.get 0 pendingVerts lastVertInRange) in
  let upArc := getUpSuperArcId (getNode t baseNode) 0 in
  set_superArcs (Vec.upd upArc (ArcOps.atomicIncVisited acc)) t.

(** The vertices whose opened-nodes bit is set, in sweep order. *)
Definition pendingVertsOf (t : MergeTree) : list idVertex :=
  sortBy (vertLower (comp_ t))
         (List.filter (fun v => Vec.get false (openedNodes t) v)
                      (seqZ 0 (scalars_size scalars_))).

(** The arcs between consecutive nodes of the backbone. *)
Definition chainArc (pendingVerts : list idVertex) (n : Z) (t : MergeTree) : MergeTree :=
  let '(t1, na) :=
    makeSuperArc t (getCorrespondingNodeId t (Vec.get 0 pendingVerts (n - 1)))
                   (getCorrespondingNodeId t (Vec.get 0 pendingVerts n)) in
  set_superArcs (Vec.upd na (ArcOps.setLastVisited (Vec.get 0 pendingVerts n))) t1.

(** The sequential part of [trunk], up to the closed root arc; [None] is the
    early return on an empty backbone. *)
Definition trunkBackBone (t : MergeTree) : MergeTree * option (list idVertex) :=
  let pendingVerts := pendingVertsOf t in
  let t1 := fold_left closeOnBackBone pendingVerts t in
  (* Arcs *)
  let nbNodes := Vec.size pendingVerts in
  let t2 := forRange 1 nbNodes (chainArc pendingVerts) t1 in
  if nbNodes =? 0 then (t2, None)
  else
    let '(t3, lastArc) :=
      openSuperArc t2 (getCorrespondingNodeId t2 (Vec.get 0 pendingVerts (nbNodes - 1))) in
    (* debug close Root *)
    let '(t4, rootNode) :=
      makeNode t3 (Vec.get 0 (sortedVertices scalars_)
                           (if isJT t3 then scalars_size scalars_ - 1 else 0))
               (defaultTerm cfg) in
    let t5 := closeSuperArc t4 lastArc rootNode in
    let t6 := set_superArcs
                (Vec.upd lastArc (ArcOps.setLastVisited (vertexId_ (getNode t5 rootNode))))
                t5 in
    (printTime "Backbone seq." (-1) 3 t6, Some pendingVerts).

(** The chunked assignment of the vertices of the trunk to its arcs. *)
Definition trunkSegmentation (t : MergeTree) (pendingVerts : list idVertex)
  : MergeTree * idVertex :=
  (* bounds *)
  let '(begin, stop) := getBoundsFromVerts t pendingVerts in
  let sizeBackBone := Z.abs (stop - begin) in
  let nbTasksThreads := 40 in
  let chunkSize := getChunkSize cfg (Some sizeBackBone) (Some nbTasksThreads) in
  let chunkNb := getChunkCount cfg (Some sizeBackBone) (Some nbTasksThreads) in
  let lastVertInRange := 0 in
  let acc := 0 in
  let t1 :=
    if isJT t then
      forRange 0 chunkNb (fun chunkId t' =>
        let lowerBound := begin + chunkId * chunkSize in
        let upperBound := Z.min stop (begin + (chunkId + 1) * chunkSize) in
        flushChunk pendingVerts
          (forRange lowerBound upperBound (assignChunkTrunk pendingVerts)
                    (t', lastVertInRange, acc))) t
    else
      forRangeDown (chunkNb - 1) (-1) (fun chunkId t' =>
        let upperBound := begin - chunkId * chunkSize in
        let lowerBound := Z.max stop (begin - (chunkId + 1) * chunkSize) in
        flushChunk pendingVerts
          (forRangeDown upperBound lowerBound (assignChunkTrunk pendingVerts)
                        (t', lastVertInRange, acc))) t in
  (printTime "Backbone para." (-1) 3 t1, sizeBackBone).

Definition trunk (t : MergeTree) : MergeTree * idVertex :=
  match trunkBackBone t with
  | (t1, None) => (t1, 0)
  | (t1, Some pendingVerts) => trunkSegmentation t1 pendingVerts
  end.

(** *** Segmentation *)

(** Modelled from the spec: [Segments::resize] is declared in a header that
    is not part of the sources; it allocates the region of every arc to the
    given size. *)
Definition resizeSegments (sizes : list idVertex) : list (list idVertex) :=
  map (fun s => replicate (Z.to_nat s) (segmentFill cfg)) sizes.

(** [treeData_.segments_.sortAll(scalars_)]: [Segments::sortAll] is declared
    in a header that is not part of the sources; the call passes it the
    scalars alone, for a split tree as for a join tree. *)
Definition sortAll (segs : list (list idVertex)) : list (list idVertex) :=
  segmentsSortAll cfg scalars_ segs.

(** The first pass: the size of each segment. *)
Definition segmentSizes (t : MergeTree) : list idVertex :=
  let nbArcs := Vec.size (superArcs t) in
  let arcChunkSize := getChunkSize cfg (Some nbArcs) None in
  let arcChunkNb := getChunkCount cfg (Some nbArcs) None in
  forRange 0 arcChunkNb (fun arcChunkId sizes =>
    let lowerBound := arcChunkId * arcChunkSize in
    let upperBound := Z.min nbArcs ((arcChunkId + 1) * arcChunkSize) in
    forRange lowerBound upperBound (fun a sizes' =>
      Vec.set a (Z.max 0 (ArcOps.getNbVertSeen (Vec.get (defaultSuperArc cfg)
                                                         (superArcs t) a) - 1))
              sizes') sizes)
    (replicate (Z.to_nat nbArcs) 0).

(** The second pass, for the vertex at position [i] of the sorted
    vertices; [posSegm] is the current status of each segment. *)
Definition fillSegment (i : Z) (st : MergeTree * list idVertex)
  : MergeTree * list idVertex :=
  let '(t, posSegm) := st in
  let vert := Vec.get 0 (sortedVertices scalars_) i in
  if isCorrespondingArc t vert then
    let sa := getCorrespondingSuperArcId t vert in
    let vertToAdd := Vec.get 0 posSegm sa in
    let posSegm' := Vec.upd sa (fun p => p + 1) posSegm in
    (set_segments_ (Vec.upd sa (Vec.set vertToAdd vert)) t, posSegm')
  else st.

Definition fillSegments (t : MergeTree) : MergeTree :=
  let nbArcs := Vec.size (superArcs t) in
  let nbVert := scalars_size scalars_ in
  let chunkSize := getChunkSize cfg None None in
  let chunkNb := getChunkCount cfg None None in
  fst (forRange 0 chunkNb (fun chunkId st =>
         let lowerBound := chunkId * chunkSize in
         let upperBound := Z.min nbVert ((chunkId + 1) * chunkSize) in
         forRange lowerBound upperBound fillSegment st)
       (t, replicate (Z.to_nat nbArcs) 0)).

(** The last pass: update SuperArc region. *)
Definition updateRegions (t : MergeTree) : MergeTree :=
  let nbArcs := Vec.size (superArcs t) in
  let arcChunkSize := getChunkSize cfg (Some nbArcs) None in
  let arcChunkNb := getChunkCount cfg (Some nbArcs) None in
  forRange 0 arcChunkNb (fun arcChunkId t' =>
    let lowerBound := arcChunkId * arcChunkSize in
    let upperBound := Z.min nbArcs ((arcChunkId + 1) * arcChunkSize) in
    forRange lowerBound upperBound (fun a t'' =>
      (* avoid empty region *)
      if negb (Vec.size (Vec.get [] (segments_ t'') a) =? 0)
      then set_superArcs (Vec.upd a (ArcOps.concat (Vec.get [] (segments_ t'') a))) t''
      else t'') t') t.

Definition buildSegmentation (t : MergeTree) : MergeTree :=
  (* Make reserve *)
  let sizes := segmentSizes t in
  let t1 := set_segments_ (fun _ => resizeSegments sizes) t in
  (* Fill segments using vert2tree *)
  let t2 := printTime "segm. set verts" (-1) 3 (fillSegments t1) in
  let t3 := printTime "segm. sort verts" (-1) 3 (set_segments_ sortAll t2) in
  (* Update SuperArc region *)
  updateRegions t3.

(** *** Build *)

(** Comparator init. *)
Definition initComp (t : MergeTree) : MergeTree :=
  match treeType t with
  | Join => set_comp_ (fun _ => mkComp (isLower scalars_) (isHigher scalars_)) t
  | _ => set_comp_ (fun _ => mkComp (isHigher scalars_) (isLower scalars_)) t
  end.

(** [treeString], set with the comparators. *)
Definition treeString (t : MergeTree) : string :=
  match treeType t with Join => "JT" | _ => "ST" end.

Definition build (fuel : nat) (t : MergeTree) (ct : bool) : option MergeTree :=
  let t0 := initComp t in
  let '(t1, alreadyDone) := precompute t0 in
  let t1 := printTime (String.append "3 precompute " (treeString t))
                      (scalars_size scalars_) (2 + alreadyDone) t1 in
  match leaves_ fuel t1 with
  | None => None
  | Some t2 =>
      let t2 := printTime (String.append "4 leaves " (treeString t))
                          (scalars_size scalars_) (printTimeLevel cfg) t2 in
      let '(t3, bbSize) := trunk t2 in
      let t3 := printTime (String.append "5 trunk " (treeString t)) bbSize
                          (printTimeLevel cfg) t3 in
      (* Segmentation; the call of stats that follows does nothing *)
      Some (if ct
            then printTime (String.append "6 segmentation " (treeString t))
                           (scalars_size scalars_) (printTimeLevel cfg)
                           (buildSegmentation t3)
            else t3)
  end.

End Model.

(** ** Operations on a built tree

    The operations of the file that [build] does not call. *)

Section Assembly.

Variable cfg : Build.
Variable scalars_ : Scalars.

(** Modelled from the spec: [nullSuperArc] and the two cuts of a region,
    [SuperArc::splitFront] and [SuperArc::splitBack], are declared in
    headers that are not part of the sources.  A cut receives the vertex
    and the scalars and gives the arc it leaves and the part it hands
    over. *)
Variable nullSuperArc : idSuperArc.
Variable splitFront : idVertex -> Scalars -> SuperArc -> SuperArc * list idVertex.
Variable splitBack : idVertex -> Scalars -> SuperArc -> SuperArc * list idVertex.

(** Modelled from the spec: [__gnu_parallel::sort], the parallel sort of
    the library of the compiler, is not part of the sources.  It receives
    the comparator and the vector. *)
Variable parallelSort : (idNode -> idNode -> bool) -> list idNode -> list idNode.

(** [sortedNodes]: the node ids, sorted by the vertices of their nodes.  The
    parallel branch calls the parallel sort, unless the compiler is clang;
    the sequential branch calls [std::sort]. *)
Definition sortedNodes (t : MergeTree) (para : bool) : list idNode :=
  let sortedNodes := seqZ 0 (Vec.size (nodes t)) in
  let indirect_sort a b :=
    vertLower (comp_ t) (vertexId_ (getNode cfg t a)) (vertexId_ (getNode cfg t b)) in
  if para then
    if clang_ cfg then sortBy indirect_sort sortedNodes
    else parallelSort indirect_sort sortedNodes
  else sortBy indirect_sort sortedNodes.

(** [makeNode (const Node *n, idVertex term)]: the call inside leaves the
    second argument to its default. *)
Definition makeNodeOf (t : MergeTree) (n : Node) (term : idVertex) : MergeTree * idNode :=
  makeNode cfg scalars_ t (vertexId_ n) (defaultTerm cfg).

(** [vertex2Node], [getOrigin] and [getReplacantArcId] of the headers. *)
Definition vertex2Node (t : MergeTree) (v : idVertex) : Node :=
  getNode cfg t (getCorrespondingNodeId t v).

Definition getOrigin (n : Node) : idVertex := termination_ n.

Definition getReplacantArcId (a : SuperArc) : idSuperArc := replacantId_ a.

(** Normal insert: the existing arc stays below the inserted node. *)
Definition insertNode (t : MergeTree) (node : Node) (segm : bool) : MergeTree * idSuperArc :=
  let t0 :=
    (* already present *)
    if isCorrespondingNode t (vertexId_ node) then
      let myNode := vertex2Node t (vertexId_ node) in
      (* If it has been hidden / replaced we need to re-make it *)
      let sa := getSuperArc cfg t (getUpSuperArcId myNode 0) in
      let correspondingArcId :=
        if getReplacantArcId sa =? nullSuperArc
        then getUpSuperArcId myNode 0
        else getReplacantArcId sa in
      updateCorrespondingArc (vertexId_ myNode) correspondingArcId t
    else t in
  (* Create new node *)
  let currentSA := getCorrespondingSuperArcId t0 (vertexId_ node) in
  let upNodeId := upNodeId_ (Vec.get (defaultSuperArc cfg) (superArcs t0) currentSA) in
  let origin :=
    getOrigin (Vec.get (defaultNode cfg) (nodes t0)
                 (downNodeId_ (Vec.get (defaultSuperArc cfg) (superArcs t0) currentSA))) in
  let '(t1, newNodeId) := makeNodeOf t0 node origin in
  (* Connectivity *)
  let '(t2, newSA) := makeSuperArc cfg t1 newNodeId upNodeId in
  let t3 := set_superArcs (Vec.upd currentSA (ArcOps.setUpNodeId newNodeId)) t2 in
  let t4 := set_nodes (Vec.upd upNodeId (NodeOps.removeDownSuperArc currentSA)) t3 in
  let t5 := set_nodes (Vec.upd newNodeId (NodeOps.addDownSuperArcId currentSA)) t4 in
  (* cut the vertex list at the node position and give each arc its part *)
  let t6 :=
    if segm then
      let cut := match treeType t5 with
                 | Split => splitBack
                 | _ => splitFront
                 end in
      let '(rest, part) :=
        cut (vertexId_ node) scalars_ (Vec.get (defaultSuperArc cfg) (superArcs t5) currentSA) in
      let t' := set_superArcs (Vec.set currentSA rest) t5 in
      set_superArcs (Vec.upd newSA (ArcOps.concat part)) t'
    else t5 in
  (t6, newSA).

(** [getDownNode] and [getUpNode]: the two ends of an arc. *)
Definition getDownNode (t : MergeTree) (a : SuperArc) : Node :=
  Vec.get (defaultNode cfg) (nodes t) (downNodeId_ a).

Definition getUpNode (t : MergeTree) (a : SuperArc) : Node :=
  Vec.get (defaultNode cfg) (nodes t) (upNodeId_ a).

End Assembly.

(** ** Example inputs

    A chain of five vertices [0 - 1 - 2 - 3 - 4] with the scalars
    [0, 2, 1, 3, 0], ties broken by vertex id: the ascending order is
    [0, 4, 2, 1, 3]. *)

Module Ex.

Definition chain5 : Triangulation :=
  mkMesh (fun v => if (v =? 0) || (v =? 4) then 1 else 2)
         (fun v i => if v =? 0 then 1 else if v =? 4 then 3
                     else if i =? 0 then v - 1 else v + 1).

Definition mirror : list idVertex := [0; 3; 2; 4; 1].

Definition sc : Scalars :=
  mkScalars 5
            (fun a b => Vec.get 0 mirror a <? Vec.get 0 mirror b)
            (fun a b => Vec.get 0 mirror b <? Vec.get 0 mirror a)
            [0; 4; 2; 1; 3] mirror.

(** A mesh without vertices. *)
Definition sc0 : Scalars :=
  mkScalars 0 (fun a b => a <? b) (fun a b => b <? a) [] [].

Definition mesh0 : Triangulation := mkMesh (fun _ => 0) (fun _ _ => 0).

(** The sort of every region in ascending order, by the [isLower] of the
    scalars: the order that the comments of [buildSegmentation] announce. *)
Definition ascending (s : Scalars) (segs : list (list idVertex)) : list (list idVertex) :=
  map (sortBy (isLower s)) segs.

(** A build with chunks of two items; [k] is the [withKamikaze] flag and
    [srt] the sort of the segments. *)
Definition cfgWith (k : bool) (srt : Scalars -> list (list idVertex) -> list (list idVertex))
  : Build :=
  mkBuild k 0 (mkNode (-1) (-1) [] []) (mkSuperArc (-1) (-1) (-1) 0 [] (-1)) (-1) (-1)
          srt (fun _ _ => 2) (fun n _ => 1 + default 5 n / 2) 2 false 4 false.

Definition cfg (k : bool) : Build := cfgWith k ascending.

(** The same build at debug level 3, where every [printTime] writes. *)
Definition verbose : Build :=
  mkBuild false 3 (mkNode (-1) (-1) [] []) (mkSuperArc (-1) (-1) (-1) 0 [] (-1)) (-1) (-1)
          ascending (fun _ _ => 2) (fun n _ => 1 + default 5 n / 2) 2 false 4 false.

(** A sort for the place of the parallel sort: the insertion sort of the
    reversed vector. *)
Definition reverseSort (lt : Z -> Z -> bool) (l : list Z) : list Z := sortBy lt (reverse l).

(** The tree object before [build], for [n] vertices. *)
Definition fresh (ty : TreeType) (n : nat) : MergeTree :=
  mkMT ty [] [] [] [] (replicate n CNull) (replicate n None) (replicate n None)
       (replicate n 0) (replicate n false) 0 []
       (mkComp (fun _ _ => false) (fun _ _ => false)) [] [].

(** A root (node 0, on vertex 3) with the two children 1 and 2. *)
Definition twoChildren : MergeTree :=
  mkMT Join
       [mkSuperArc 1 0 3 0 [] (-1); mkSuperArc 2 0 3 0 [] (-1)]
       [mkNode 3 (-1) [] [0; 1]; mkNode 0 (-1) [0] []; mkNode 4 (-1) [1] []]
       [0] [1; 2] [CNode 1; CNull; CNull; CNode 0; CNode 2]
       (replicate 5 None) (replicate 5 None) (replicate 5 0) (replicate 5 false) 0 []
       (mkComp (isLower sc) (isHigher sc)) [] [].

(** The sweep on the chain: the state after [precompute], the launch of a
    leaf task, and the states left by the tasks of the leaves 0 and 4. *)

Definition prepared : MergeTree :=
  fst (precompute (cfg false) chain5 sc (initComp sc (fresh Join 5))).

Definition started : MergeTree := set_activeTasks (fun _ => 3) prepared.

Definition launch (v : idVertex) (t : MergeTree) : MergeTree :=
  let '(h, u) := UFOps.alloc v (ufHeap t) in
  set_ufs (Vec.set v (Some u)) (set_ufHeap (fun _ => h) t).

Definition run0 : MergeTree :=
  default started (processTask (cfg false) chain5 sc 10 (launch 0 started) 0 0 0).

Definition run04 : MergeTree :=
  default run0 (processTask (cfg false) chain5 sc 10 (launch 4 run0) 4 0 1).

(** The task of leaf [v] launched from [t], after the iteration that
    processes [v]: the state, the representative, the arc and the flag at
    the head of the second iteration. *)
Definition loopHead (t : MergeTree) (v : idVertex) : MergeTree * Z * idSuperArc * bool :=
  let '(t1, uf, arc) := openTask (cfg false) (launch v t) v in
  match loopBody (cfg false) chain5 sc t1 v 0 0 uf arc false with
  | Continue t2 sf => (t2, uf, arc, sf)
  | _ => (t1, uf, arc, false)
  end.

(** The task of leaf [v] launched from [t], at its second iteration, after
    the pop. *)
Definition popped (t : MergeTree) (v : idVertex) : MergeTree :=
  let '(t1, uf, _, _) := loopHead t v in
  updFirstState uf (fun _ => fst (StateOps.getNextMinVertex (getFirstState t1 uf))) t1.

(** The same chain with increasing scalars [0, 1, 2, 3, 4]: one leaf. *)
Definition scMono : Scalars :=
  mkScalars 5 (fun a b => a <? b) (fun a b => b <? a) [0; 1; 2; 3; 4] [0; 1; 2; 3; 4].

(** The tree of the increasing chain before its segmentation. *)
Definition monoTree (ty : TreeType) : MergeTree :=
  default (fresh ty 5) (build (cfg false) chain5 scMono 10 (fresh ty 5) false).

(** A chain of six vertices with the scalars [0, 2, 5, 4, 3, 1]: two
    minima, at the ends, with regular vertices on the way up to the
    maximum, vertex 2. *)
Definition chain6 : Triangulation :=
  mkMesh (fun v => if (v =? 0) || (v =? 5) then 1 else 2)
         (fun v i => if v =? 0 then 1 else if v =? 5 then 4
                     else if i =? 0 then v - 1 else v + 1).

Definition mirror6 : list idVertex := [0; 2; 5; 4; 3; 1].

Definition sc6 : Scalars :=
  mkScalars 6
            (fun a b => Vec.get 0 mirror6 a <? Vec.get 0 mirror6 b)
            (fun a b => Vec.get 0 mirror6 b <? Vec.get 0 mirror6 a)
            [0; 5; 1; 4; 3; 2] mirror6.

(** The join tree of that chain before its segmentation. *)
Definition wells : MergeTree :=
  default (fresh Join 6) (build (cfg false) chain6 sc6 20 (fresh Join 6) false).

(** The chain after the leaf tasks: the saddles 1 and 3 are left to the
    trunk. *)
Definition swept : MergeTree :=
  default prepared (leaves_ (cfg false) chain5 sc 10 prepared).

End Ex.

(** ** Union-find classes

    The notions the statements about [propage] are written with. *)

(** [UFpath h i r n]: following the parent links from [i] reaches the
    representative [r] in [n] steps. *)
Inductive UFpath (h : list AtomicUF) : Z -> Z -> nat -> Prop :=
| path_root i : UFOps.parentOf h i = i -> UFpath h i i 0
| path_step i r n :
    UFOps.parentOf h i <> i -> UFpath h (UFOps.parentOf h i) r n -> UFpath h i r (S n).

(** The arena is a forest: every element reaches a representative, in no
    more steps than there are elements. *)
Definition wfUF (h : list AtomicUF) : Prop :=
  forall i, exists r n, UFpath h i r n /\ (n <= length h)%nat.

(** The same, as a test on the elements of the arena. *)
Definition wfUFb (h : list AtomicUF) : bool :=
  forallb (fun i => UFOps.parentOf h (UFOps.root (length h) h i)
                    =? UFOps.root (length h) h i)
          (seqZ 0 (Vec.size h)).

(** The representative of an element, without compression. *)
Definition rootOf (h : list AtomicUF) (i : Z) : Z := UFOps.root (length h) h i.

(** [neigh] is owned by a front of the class of [curUF]. *)
Definition inClass (t : MergeTree) (curUF : Z) (neigh : idVertex) : bool :=
  match Vec.get None (ufs t) neigh with
  | None => false
  | Some u => rootOf (ufHeap t) u =? rootOf (ufHeap t) curUF
  end.

(** The neighbours of [v] that are lower in sweep order, one entry per
    neighbour slot of the mesh. *)
Definition lowerNeighbors (mesh_ : Triangulation) (t : MergeTree) (v : idVertex)
  : list idVertex :=
  List.filter (fun n => vertLower (comp_ t) n v)
              (map (getVertexNeighbor mesh_ v) (seqZ 0 (getVertexNeighborNumber mesh_ v))).

(** The number of lower neighbours of [v] owned by the class of [curUF]. *)
Definition sameClassLower (mesh_ : Triangulation) (t : MergeTree) (curUF : Z)
           (v : idVertex) : Z :=
  Vec.size (List.filter (inClass t curUF) (lowerNeighbors mesh_ t v)).

(** Some lower neighbour of [v] is not owned by the class of [curUF]. *)
Definition otherClassLower (mesh_ : Triangulation) (t : MergeTree) (curUF : Z)
           (v : idVertex) : bool :=
  existsb (fun n => negb (inClass t curUF n)) (lowerNeighbors mesh_ t v).

(** [h'] has the elements of [h], each with its parent link as it was or
    moved to its representative: what [find] does to the arena. *)
Definition relinked (h h' : list AtomicUF) : Prop :=
  length h' = length h
  /\ forall j, UFOps.parentOf h' j = UFOps.parentOf h j
               \/ exists n, UFpath h j (UFOps.parentOf h' j) n.

(** What the loop of [propage] keeps of the state [t0] it starts from: the
    classes of the union-find, the [ufs] and [valences] arrays and the
    comparators. *)
Definition sameFronts (t0 t : MergeTree) : Prop :=
  wfUF (ufHeap t)
  /\ (forall i, rootOf (ufHeap t) i = rootOf (ufHeap t0) i)
  /\ ufs t = ufs t0 /\ valences t = valences t0 /\ comp_ t = comp_ t0.

(** ** Leaves of the sweep

    The notions the statements about [precompute] are written with. *)

(** The number of neighbours of [v] that are lower in sweep order. *)
Definition lowerCount (mesh_ : Triangulation) (t : MergeTree) (v : idVertex) : Z :=
  Vec.size (lowerNeighbors mesh_ t v).

(** The vertices below [m] without a lower neighbour, in increasing order. *)
Definition localMinima (mesh_ : Triangulation) (t : MergeTree) (m : Z) : list idVertex :=
  List.filter (fun v => lowerCount mesh_ t v =? 0) (seqZ 0 m).

(** The node [makeNode] creates on a leaf. *)
Definition leafNodeOf (cfg : Build) (v : idVertex) : Node :=
  NodeOps.setTerminaison (defaultTerm cfg) (NodeOps.setVertexId v (defaultNode cfg)).

(** The state of [precompute] from [t0] once the vertices below [m] are
    done. *)
Definition precomputedUpTo (cfg : Build) (mesh_ : Triangulation) (t0 : MergeTree) (m : Z)
           (t : MergeTree) : Prop :=
  comp_ t = comp_ t0
  /\ Vec.size (valences t) = Vec.size (valences t0)
  /\ Vec.size (vert2tree t) = Vec.size (vert2tree t0)
  /\ (forall v, 0 <= v < m -> Vec.get 0 (valences t) v = lowerCount mesh_ t0 v)
  /\ nodes t = map (leafNodeOf cfg) (localMinima mesh_ t0 m)
  /\ (forall v, 0 <= v < m ->
        match corresp t v with
        | CNode id => lowerCount mesh_ t0 v = 0
                      /\ Vec.at_ (nodes t) id = Some (leafNodeOf cfg v)
        | CNull => lowerCount mesh_ t0 v <> 0
        | CArc _ => False
        end)
  /\ (forall v, m <= v -> corresp t v = corresp t0 v).

(** ** Regions

    The notions the statements about [buildSegmentation] and [trunk] are
    written with. *)

(** No element of [l] is followed by one that [lt] puts before it. *)
Fixpoint sortedBy (lt : Z -> Z -> bool) (l : list Z) : bool :=
  match l with
  | [] => true
  | x :: l' =>
      match l' with
      | [] => true
      | y :: _ => negb (lt y x) && sortedBy lt l'
      end
  end.

(** A strict order never puts two elements each before the other. *)
Definition asymmetric (lt : Z -> Z -> bool) : Prop :=
  forall a b, lt a b = true -> lt b a = false.

(** A strict order is transitive; it is total on a list when it compares
    any two distinct elements of the list. *)
Definition transitiveOrder (lt : Z -> Z -> bool) : Prop :=
  forall a b c, lt a b = true -> lt b c = true -> lt a c = true.

Definition totalOn (lt : Z -> Z -> bool) (l : list Z) : Prop :=
  forall a b, a ∈ l -> b ∈ l -> a <> b -> lt a b = true \/ lt b a = true.

(** What is expected of a sort, for a strict order that is total on the
    list: the same elements, and no element followed by one that the order
    puts before it. *)
Definition sortsBy (srt : (Z -> Z -> bool) -> list Z -> list Z) : Prop :=
  forall lt l, asymmetric lt -> transitiveOrder lt -> totalOn lt l ->
    srt lt l ≡ₚ l /\ sortedBy lt (srt lt l) = true.

(** The vertices among the first [m] sorted vertices whose vertex to tree
    entry is the arc [a], in the order of the scan. *)
Definition arcVertices (scalars_ : Scalars) (t : MergeTree) (a : idSuperArc) (m : Z)
  : list idVertex :=
  List.filter (fun v => match corresp t v with CArc b => b =? a | _ => false end)
              (map (Vec.get 0 (sortedVertices scalars_)) (seqZ 0 m)).

(** The size of the segment of arc [a]: its visit count less one, not below
    zero. *)
Definition segmentSizeOf (cfg : Build) (t : MergeTree) (a : idSuperArc) : Z :=
  Z.max 0 (ArcOps.getNbVertSeen (getSuperArc cfg t a) - 1).

(** The second pass of [buildSegmentation] from [t0], once the first [m]
    sorted vertices are done: [posSegm] counts the vertices of each arc and
    the segment of the arc holds them in the order of the scan, as far as
    it has room, and after them what it was allocated with. *)
Definition filledUpTo (cfg : Build) (scalars_ : Scalars) (t0 : MergeTree) (m : Z)
           (st : MergeTree * list Z) : Prop :=
  vert2tree (fst st) = vert2tree t0
  /\ superArcs (fst st) = superArcs t0
  /\ forall a, 0 <= a < Vec.size (superArcs t0) ->
       Vec.at_ (snd st) a = Some (Vec.size (arcVertices scalars_ t0 a m))
       /\ (exists seg, Vec.at_ (segments_ (fst st)) a = Some seg
             /\ Vec.size seg = segmentSizeOf cfg t0 a
             /\ (forall k, 0 <= k < Vec.size (arcVertices scalars_ t0 a m) ->
                  k < segmentSizeOf cfg t0 a ->
                  Vec.at_ seg k = Vec.at_ (arcVertices scalars_ t0 a m) k)
             /\ (forall k, Vec.size (arcVertices scalars_ t0 a m) <= k
                           < segmentSizeOf cfg t0 a ->
                  Vec.at_ seg k = Some (segmentFill cfg))).

(** ** Backbone

    The notions the statements about [trunk] are written with. *)

(** The vertices of the nodes, by node id. *)
Definition nodeVerts (t : MergeTree) : list idVertex := map vertexId_ (nodes t).

(** A vertex recorded as a node is the vertex of that node. *)
Definition nodesConsistent (t : MergeTree) : Prop :=
  forall v id, corresp t v = CNode id -> Vec.at_ (nodeVerts t) id = Some v.

(** [t'] has the vertex to tree map, the node vertices, the number of
    super-arcs, the comparators and the opened-nodes bits of [t]. *)
Definition sameSkeleton (t t' : MergeTree) : Prop :=
  vert2tree t' = vert2tree t /\ nodeVerts t' = nodeVerts t
  /\ Vec.size (superArcs t') = Vec.size (superArcs t)
  /\ comp_ t' = comp_ t /\ treeType t' = treeType t.

(** The global extremum of the sweep: the last sorted vertex for a join
    tree, the first one otherwise. *)
Definition sweepExtremum (scalars_ : Scalars) (t : MergeTree) : idVertex :=
  Vec.get 0 (sortedVertices scalars_) (if isJT t then scalars_size scalars_ - 1 else 0).

(** The arc between the backbone vertices [j - 1] and [j], with the node
    ids of the state [t1]. *)
Definition chainArcOf (cfg : Build) (t1 : MergeTree) (pendingVerts : list idVertex) (j : Z)
  : SuperArc :=
  ArcOps.setLastVisited (Vec.get 0 pendingVerts j)
    (ArcOps.setUpNodeId (getCorrespondingNodeId t1 (Vec.get 0 pendingVerts j))
       (ArcOps.setDownNodeId (getCorrespondingNodeId t1 (Vec.get 0 pendingVerts (j - 1)))
          (defaultSuperArc cfg))).

(** The arc from the last backbone vertex to the root node. *)
Definition rootArcOf (cfg : Build) (t1 : MergeTree) (pendingVerts : list idVertex)
           (rootNode : idNode) (rootVert : idVertex) : SuperArc :=
  ArcOps.setLastVisited rootVert
    (ArcOps.setUpNodeId rootNode
       (ArcOps.setDownNodeId
          (getCorrespondingNodeId t1
             (Vec.get 0 pendingVerts (Vec.size pendingVerts - 1)))
          (defaultSuperArc cfg))).

(** [nodesConsistent] as a test on the entries of the vertex to tree map. *)
Definition nodesConsistentb (t : MergeTree) : bool :=
  forallb (fun v => match corresp t v with
                    | CNode id => match Vec.at_ (nodeVerts t) id with
                                  | Some w => w =? v
                                  | None => false
                                  end
                    | _ => true
                    end)
          (seqZ 0 (Vec.size (vert2tree t))).

(** ** Further notions

    The notions the statements about the other operations are written
    with. *)

(** Node [a] is before node [b] in the sweep: the comparator of
    [sortedNodes]. *)
Definition nodeLower (cfg : Build) (t : MergeTree) (a b : idNode) : bool :=
  vertLower (comp_ t) (vertexId_ (getNode cfg t a)) (vertexId_ (getNode cfg t b)).

(** The number of turns of the loop of one task that process its start
    vertex, up to the end of the loop or to the turn that leaves it: the
    turns that pop the start vertex, find no arc recorded for it and find
    the seen-first flag down, and so go on to [propage]. *)
Fixpoint startVertexTurns (cfg : Build) (mesh_ : Triangulation) (scalars_ : Scalars)
         (fuel : nat) (t : MergeTree) (startVert : idVertex) (d : idNode)
         (orig : idVertex) (startUF : Z) (currentArc : idSuperArc) (seenFirst : bool)
  : nat :=
  match fuel with
  | O => 0%nat
  | S f =>
      if StateOps.empty (getFirstState t startUF) then 0%nat
      else
        let '(s, currentVert) := StateOps.getNextMinVertex (getFirstState t startUF) in
        let t1 := updFirstState startUF (fun _ => s) t in
        let here :=
          if negb (isCorrespondingArc t1 currentVert) && (currentVert =? startVert)
             && negb seenFirst
          then 1%nat else 0%nat in
        match loopBody cfg mesh_ scalars_ t startVert d orig startUF currentArc seenFirst with
        | Continue t' seenFirst' =>
            (here + startVertexTurns cfg mesh_ scalars_ f t' startVert d orig startUF
                                     currentArc seenFirst')%nat
        | _ => here
        end
  end.

(** The loop of a task with that count kept along: what the loop returns,
    and the number of its turns that process the start vertex. *)
Fixpoint sweepCounting (cfg : Build) (mesh_ : Triangulation) (scalars_ : Scalars)
         (fuel : nat) (t : MergeTree) (startVert : idVertex) (d : idNode)
         (orig : idVertex) (startUF : Z) (currentArc : idSuperArc) (seenFirst : bool)
  : option MergeTree * nat :=
  match fuel with
  | O => (None, 0%nat)
  | S f =>
      if StateOps.empty (getFirstState t startUF)
      then (Some (closeRoot cfg scalars_ t currentArc), 0%nat)
      else
        let '(s, currentVert) := StateOps.getNextMinVertex (getFirstState t startUF) in
        let t1 := updFirstState startUF (fun _ => s) t in
        let here :=
          if negb (isCorrespondingArc t1 currentVert) && (currentVert =? startVert)
             && negb seenFirst
          then 1%nat else 0%nat in
        match loopBody cfg mesh_ scalars_ t startVert d orig startUF currentArc seenFirst with
        | Continue t' seenFirst' =>
            let '(r, k) := sweepCounting cfg mesh_ scalars_ f t' startVert d orig startUF
                                         currentArc seenFirst' in
            (r, (here + k)%nat)
        | Return t' => (Some t', here)
        | Recurse t' v d' orig' => (processTask cfg mesh_ scalars_ f t' v d' orig', here)
        end
  end.

(** What the assignment of the vertices to the arcs keeps of an arc: all
    but its visit count. *)
Definition arcEnds (a : SuperArc)
  : idNode * idNode * idVertex * list (list idVertex) * idSuperArc :=
  (downNodeId_ a, upNodeId_ a, lastVisited_ a, region_ a, replacantId_ a).

(** [t'] is [t] where some nil vertices were given an arc and some visit
    counts were raised; nothing else differs. *)
Definition assignedOnly (t t' : MergeTree) : Prop :=
  nodes t' = nodes t /\ roots t' = roots t /\ leaves t' = leaves t
  /\ comp_ t' = comp_ t /\ treeType t' = treeType t
  /\ ufs t' = ufs t /\ ufHeap t' = ufHeap t
  /\ map arcEnds (superArcs t') = map arcEnds (superArcs t)
  /\ Vec.size (vert2tree t') = Vec.size (vert2tree t)
  /\ forall w, corresp t' w = corresp t w
               \/ (corresp t w = CNull /\ exists a, corresp t' w = CArc a).

(** The vertex [w] is nil in [t] and on the arc [a] in [t']. *)
Definition assignedTo (t t' : MergeTree) (a : idSuperArc) (w : idVertex) : bool :=
  isCorrespondingNull t w
  && match corresp t' w with CArc b => b =? a | _ => false end.

(** The vertices that are nil in [t] and on the arc [a] in [t']. *)
Definition newlyAssigned (t t' : MergeTree) (a : idSuperArc) : list idVertex :=
  List.filter (assignedTo t t' a) (seqZ 0 (Vec.size (vert2tree t))).

(** The visit count of the arc [a]. *)
Definition visitCount (cfg : Build) (t : MergeTree) (a : idSuperArc) : Z :=
  verticesSeen_ (getSuperArc cfg t a).

(** The arc that counts the visits above the backbone vertex at position
    [k]: the first up arc of its node. *)
Definition backboneArc (cfg : Build) (t : MergeTree) (pv : list idVertex) (k : idNode)
  : idSuperArc :=
  upArcFromVert cfg t (Vec.get 0 pv k).

(** The state of a chunk task of the trunk started from [t0]: the tree,
    the position in the backbone and the visits not counted yet, which are
    visits of the arc of that position. *)
Definition chunkInv (cfg : Build) (t0 : MergeTree) (pv : list idVertex)
           (st : MergeTree * idNode * idVertex) : Prop :=
  assignedOnly t0 st.1.1
  /\ forall a, 0 <= a < Vec.size (superArcs t0) ->
       visitCount cfg st.1.1 a + (if a =? backboneArc cfg t0 pv st.1.2 then st.2 else 0)
       = visitCount cfg t0 a + Vec.size (newlyAssigned t0 st.1.1 a).

(** Between two chunk tasks every visit is counted. *)
Definition counted (cfg : Build) (t0 t : MergeTree) : Prop :=
  assignedOnly t0 t
  /\ forall a, 0 <= a < Vec.size (superArcs t0) ->
       visitCount cfg t a = visitCount cfg t0 a + Vec.size (newlyAssigned t0 t a).

(** What the segmentation keeps of an arc: all but its region. *)
Definition arcLinks (a : SuperArc) : idNode * idNode * idVertex * Z * idSuperArc :=
  (downNodeId_ a, upNodeId_ a, lastVisited_ a, verticesSeen_ a, replacantId_ a).

(** [t'] is [t] but for the segments, the regions of the arcs and the
    terminal output. *)
Definition sameButRegions (t t' : MergeTree) : Prop :=
  treeType t' = treeType t /\ nodes t' = nodes t /\ roots t' = roots t
  /\ leaves t' = leaves t /\ vert2tree t' = vert2tree t /\ ufs t' = ufs t
  /\ propagation t' = propagation t /\ valences t' = valences t
  /\ openedNodes t' = openedNodes t /\ activeTasks t' = activeTasks t
  /\ comp_ t' = comp_ t /\ ufHeap t' = ufHeap t
  /\ map arcLinks (superArcs t') = map arcLinks (superArcs t).

(** What the propagation from a vertex keeps of the tree: everything but
    the arena of the union-find, the propagation marks and the valences. *)
Definition sameTree (t t' : MergeTree) : Prop :=
  treeType t' = treeType t /\ superArcs t' = superArcs t /\ nodes t' = nodes t
  /\ roots t' = roots t /\ leaves t' = leaves t /\ vert2tree t' = vert2tree t
  /\ ufs t' = ufs t /\ openedNodes t' = openedNodes t
  /\ activeTasks t' = activeTasks t /\ segments_ t' = segments_ t
  /\ comp_ t' = comp_ t /\ console t' = console t.

(** What most steps of [build] keep: the tree type, the comparators, the
    vertex to tree map, the vertices of the nodes, the down nodes of the super-arcs, the
    terminal output and the sizes of the arrays of the sweep. *)
Definition sameCore (t t' : MergeTree) : Prop :=
  treeType t' = treeType t /\ comp_ t' = comp_ t /\ vert2tree t' = vert2tree t
  /\ nodeVerts t' = nodeVerts t
  /\ map downNodeId_ (superArcs t') = map downNodeId_ (superArcs t)
  /\ console t' = console t
  /\ Vec.size (ufs t') = Vec.size (ufs t)
  /\ Vec.size (propagation t') = Vec.size (propagation t)
  /\ Vec.size (valences t') = Vec.size (valences t)
  /\ Vec.size (openedNodes t') = Vec.size (openedNodes t).

(** What every step of [build] keeps: the tree type, the comparators and
    the sizes of the arrays indexed by the vertices; the nodes with their ids and vertices,
    the super-arcs with their ids and down nodes, and the terminal output,
    to which it only appends; and the consistency of the node entries. *)
Definition grows (t t' : MergeTree) : Prop :=
  treeType t' = treeType t
  /\ comp_ t' = comp_ t
  /\ Vec.size (vert2tree t') = Vec.size (vert2tree t)
  /\ Vec.size (ufs t') = Vec.size (ufs t)
  /\ Vec.size (propagation t') = Vec.size (propagation t)
  /\ Vec.size (valences t') = Vec.size (valences t)
  /\ Vec.size (openedNodes t') = Vec.size (openedNodes t)
  /\ (exists more, nodeVerts t' = nodeVerts t ++ more)
  /\ (exists more, map downNodeId_ (superArcs t') = map downNodeId_ (superArcs t) ++ more)
  /\ (exists more, console t' = console t ++ more)
  /\ (nodesConsistent t -> nodesConsistent t').

(** Every vertex that is not as in [t0] is on the first up arc of the node
    of a backbone vertex. *)
Definition onBackbone (cfg : Build) (t0 : MergeTree) (pv : list idVertex) (t : MergeTree)
  : Prop :=
  forall w, corresp t w = corresp t0 w
            \/ exists k, 0 <= k /\ (k = 0 \/ k < Vec.size pv)
                         /\ corresp t w = CArc (backboneArc cfg t0 pv k).

(** The state of a chunk task of the trunk started from [t0], as to the
    position in the backbone: it is 0 or a position of the backbone. *)
Definition chunkPos (cfg : Build) (t0 : MergeTree) (pv : list idVertex)
           (st : MergeTree * idNode * idVertex) : Prop :=
  assignedOnly t0 st.1.1 /\ onBackbone cfg t0 pv st.1.1
  /\ 0 <= st.1.2 /\ (st.1.2 = 0 \/ st.1.2 < toIdNode cfg (Vec.size pv)).

(** The state that a loop iteration of [processTask] leaves. *)
Definition ctlState (c : LoopCtl) : MergeTree :=
  match c with
  | Continue t _ => t
  | Return t => t
  | Recurse t _ _ _ => t
  end.

(** The loops of [trunkSegmentation] over the chunks, for a join tree and
    for a split tree: what [trunkSegmentation] returns is this tree with the
    line of [printTime] written. *)
Definition trunkChunks (cfg : Build) (scalars_ : Scalars) (t : MergeTree)
    (pv : list idVertex) : MergeTree :=
  let '(begin, stop) := getBoundsFromVerts scalars_ t pv in
  let cs := getChunkSize cfg (Some (Z.abs (stop - begin))) (Some 40) in
  let cn := getChunkCount cfg (Some (Z.abs (stop - begin))) (Some 40) in
  if isJT t
  then forRange 0 cn (fun c t' =>
         flushChunk cfg pv
           (forRange (begin + c * cs) (Z.min stop (begin + (c + 1) * cs))
                     (assignChunkTrunk cfg scalars_ pv) (t', 0, 0))) t
  else forRangeDown (cn - 1) (-1) (fun c t' =>
         flushChunk cfg pv
           (forRangeDown (begin - c * cs) (Z.max stop (begin - (c + 1) * cs))
                         (assignChunkTrunk cfg scalars_ pv) (t', 0, 0))) t.

(** The lists and arrays that only the sweep of the leaves writes. *)
Definition sweepLists (t : MergeTree)
  : list idNode * list idNode * list valence * list UF * list bool * Z :=
  (roots t, leaves t, valences t, propagation t, openedNodes t, activeTasks t).

(** The positions of the sorted vertices that the trunk goes through: from
    the first backbone vertex to the last sorted vertex for a join tree,
    down to the first sorted vertex otherwise. *)
Definition trunkRange (scalars_ : Scalars) (t : MergeTree) (pv : list idVertex) (i : Z)
  : Prop :=
  let '(begin, stop) := getBoundsFromVerts scalars_ t pv in
  if isJT t then begin <= i < stop else stop < i <= begin.

Module Trees.

(** A chain of three nodes: node 0 on vertex 0, node 1 on vertex 2 and node
    2 on vertex 3, with arc 0 from node 0 to node 1 and arc 1 from node 1 to
    node 2; vertex 1 is on arc 0. *)
Definition chainTree : MergeTree :=
  mkMT Join
       [mkSuperArc 0 1 2 2 [] (-1); mkSuperArc 1 2 3 1 [] (-1)]
       [mkNode 0 (-1) [0] []; mkNode 2 (-1) [1] [0]; mkNode 3 (-1) [] [1]]
       [2] [0] [CNode 0; CArc 0; CNode 1; CNode 2; CNull]
       (replicate 5 None) (replicate 5 None) (replicate 5 0) (replicate 5 false) 0 []
       (mkComp (isLower Ex.sc) (isHigher Ex.sc)) [] [].

(** A saddle (node 0, on vertex 2) with the two children 1 and 2 and the
    parent 3. *)
Definition saddleTree : MergeTree :=
  mkMT Join
       [mkSuperArc 1 0 2 0 [] (-1); mkSuperArc 2 0 2 0 [] (-1); mkSuperArc 0 3 3 0 [] (-1)]
       [mkNode 2 (-1) [2] [0; 1]; mkNode 0 (-1) [0] []; mkNode 4 (-1) [1] [];
        mkNode 3 (-1) [] [2]]
       [3] [1; 2] [CNode 1; CNull; CNode 0; CNode 3; CNode 2]
       (replicate 5 None) (replicate 5 None) (replicate 5 0) (replicate 5 false) 0 []
       (mkComp (isLower Ex.sc) (isHigher Ex.sc)) [] [].

(** The increasing chain after the backbone of its join tree: nodes on the
    vertices 0 and 4, one arc between them, the vertices 1, 2 and 3 nil. *)
Definition monoBackbone : MergeTree :=
  let p := fst (precompute (Ex.cfg false) Ex.chain5 Ex.scMono
                  (initComp Ex.scMono (Ex.fresh Join 5))) in
  let l := default p (leaves_ (Ex.cfg false) Ex.chain5 Ex.scMono 10 p) in
  fst (trunkBackBone (Ex.cfg false) Ex.chain5 Ex.scMono l).

(** The chain after the task of the leaf 0 has opened its arc: the
    union-find element of the task holds the arc 0 open. *)
Definition opened0 : MergeTree :=
  (openTask (Ex.cfg false) (Ex.launch 0 Ex.started) 0).1.1.

End Trees.

(** * Properties *)

(** ** Vectors *)

Section VecFacts.

Context {A : Type}.
Implicit Types (l : list A) (i j : Z) (x d : A).

Lemma at_Some l i x : Vec.at_ l i = Some x -> 0 <= i < Vec.size l.
Proof.
  unfold Vec.at_, Vec.size. destruct (Z.ltb_spec i 0) as [Hneg|Hpos]; [discriminate|].
  intros Hl%lookup_lt_Some. lia.
Qed.

Lemma at_in_range l i : 0 <= i < Vec.size l -> exists x, Vec.at_ l i = Some x.
Proof.
  unfold Vec.at_, Vec.size. intros Hi.
  destruct (Z.ltb_spec i 0); [lia|].
  destruct (lookup_lt_is_Some_2 l (Z.to_nat i)) as [x Hx]; [lia|eauto].
Qed.

Lemma at_out l i : ~ (0 <= i < Vec.size l) -> Vec.at_ l i = None.
Proof.
  intros Hi. destruct (Vec.at_ l i) eqn:E; [|done].
  apply at_Some in E. lia.
Qed.

Lemma size_set l i x : Vec.size (Vec.set i x l) = Vec.size l.
Proof.
  unfold Vec.set, Vec.size. destruct (i <? 0); [done|]. by rewrite length_insert.
Qed.

Lemma size_upd l i (f : A -> A) : Vec.size (Vec.upd i f l) = Vec.size l.
Proof. unfold Vec.upd. destruct (Vec.at_ l i); [apply size_set|done]. Qed.

Lemma size_nonneg l : 0 <= Vec.size l.
Proof. unfold Vec.size. lia. Qed.

Lemma at_set_eq l i x : 0 <= i < Vec.size l -> Vec.at_ (Vec.set i x l) i = Some x.
Proof.
  unfold Vec.at_, Vec.set, Vec.size. intros Hi.
  destruct (Z.ltb_spec i 0); [lia|].
  apply list_lookup_insert_eq. lia.
Qed.

Lemma at_set_ne l i j x : i <> j -> Vec.at_ (Vec.set i x l) j = Vec.at_ l j.
Proof.
  unfold Vec.at_, Vec.set. intros Hij.
  destruct (Z.ltb_spec j 0); [done|].
  destruct (Z.ltb_spec i 0); [done|].
  apply list_lookup_insert_ne. lia.
Qed.

Lemma at_upd_eq l i (f : A -> A) x :
  Vec.at_ l i = Some x -> Vec.at_ (Vec.upd i f l) i = Some (f x).
Proof.
  intros H. unfold Vec.upd. rewrite H. apply at_set_eq. by apply at_Some in H.
Qed.

Lemma at_upd_ne l i j (f : A -> A) : i <> j -> Vec.at_ (Vec.upd i f l) j = Vec.at_ l j.
Proof.
  intros H. unfold Vec.upd. destruct (Vec.at_ l i); [by apply at_set_ne|done].
Qed.

Lemma upd_out l i (f : A -> A) : ~ (0 <= i < Vec.size l) -> Vec.upd i f l = l.
Proof. intros H. unfold Vec.upd. by rewrite at_out. Qed.

Lemma get_set_eq d l i x : 0 <= i < Vec.size l -> Vec.get d (Vec.set i x l) i = x.
Proof. intros H. unfold Vec.get. by rewrite at_set_eq. Qed.

Lemma get_set_ne d l i j x : i <> j -> Vec.get d (Vec.set i x l) j = Vec.get d l j.
Proof. intros H. unfold Vec.get. by rewrite at_set_ne. Qed.

Lemma get_upd_eq d l i (f : A -> A) :
  0 <= i < Vec.size l -> Vec.get d (Vec.upd i f l) i = f (Vec.get d l i).
Proof.
  intros H. destruct (at_in_range l i H) as [x Hx].
  unfold Vec.get. by rewrite (at_upd_eq _ _ _ _ Hx), Hx.
Qed.

Lemma get_upd_ne d l i j (f : A -> A) :
  i <> j -> Vec.get d (Vec.upd i f l) j = Vec.get d l j.
Proof. intros H. unfold Vec.get. by rewrite at_upd_ne. Qed.

Lemma at_app_l l l' i : 0 <= i < Vec.size l -> Vec.at_ (l ++ l') i = Vec.at_ l i.
Proof.
  unfold Vec.at_, Vec.size. intros H. destruct (i <? 0); [done|].
  apply lookup_app_l. lia.
Qed.

Lemma at_app_new l x : Vec.at_ (l ++ [x]) (Vec.size l) = Some x.
Proof.
  unfold Vec.at_, Vec.size. destruct (Z.ltb_spec (Z.of_nat (length l)) 0); [lia|].
  rewrite Nat2Z.id. apply list_lookup_middle. done.
Qed.

Lemma size_app l l' : Vec.size (l ++ l') = Vec.size l + Vec.size l'.
Proof. unfold Vec.size. rewrite length_app. lia. Qed.

End VecFacts.

Lemma upd_app_new {A} (l : list A) (f : A -> A) (x : A) :
  Vec.upd (Vec.size l) f (l ++ [x]) = l ++ [f x].
Proof.
  unfold Vec.upd. rewrite at_app_new. unfold Vec.set.
  destruct (Z.ltb_spec (Vec.size l) 0) as [Hlt|_].
  { pose proof (size_nonneg l). lia. }
  unfold Vec.size. rewrite Nat2Z.id.
  rewrite insert_app_r_alt by done. by rewrite Nat.sub_diag.
Qed.

(** ** Arcs and nodes: the two cases of [makeNode] *)

Section MakeNode.

Variable cfg : Build.
Variable scalars_ : Scalars.

Lemma makeNode_guard v :
  0 <= v < scalars_size scalars_ ->
  negb (withKamikaze cfg) && ((v <? 0) || (v >=? scalars_size scalars_)) = false.
Proof.
  intros Hv. replace (v <? 0) with false by lia.
  replace (v >=? scalars_size scalars_) with false by lia.
  apply andb_false_r.
Qed.

Lemma makeNode_existing t v term :
  0 <= v < scalars_size scalars_ ->
  isCorrespondingNode t v = true ->
  makeNode cfg scalars_ t v term = (t, getCorrespondingNodeId t v).
Proof. intros Hv Hn. unfold makeNode. by rewrite makeNode_guard, Hn. Qed.

Lemma makeNode_fresh t v term :
  0 <= v < scalars_size scalars_ ->
  isCorrespondingNode t v = false ->
  makeNode cfg scalars_ t v term
  = (updateCorrespondingNode v (getNumberOfNodes t)
       (set_nodes (fun ns => ns ++ [NodeOps.setTerminaison term
                                      (NodeOps.setVertexId v (defaultNode cfg))]) t),
     getNumberOfNodes t).
Proof.
  intros Hv Hn. unfold makeNode. rewrite makeNode_guard, Hn by done. cbn.
  unfold getNumberOfNodes, updateCorrespondingNode, set_vert2tree, set_nodes. cbn.
  f_equal. f_equal. by rewrite !upd_app_new.
Qed.

End MakeNode.

(** ** Arcs and nodes *)

Section TreeOps.

Variable cfg : Build.
Variable scalars_ : Scalars.

(** A message on the terminal leaves the tree as it is. *)
Lemma log_tree msg t :
  superArcs (log msg t) = superArcs t /\ nodes (log msg t) = nodes t
  /\ roots (log msg t) = roots t /\ leaves (log msg t) = leaves t
  /\ vert2tree (log msg t) = vert2tree t.
Proof. done. Qed.

(** C8. In a build with the guard compiled in ([withKamikaze] off),
    [closeSuperArc] with an arc id outside [0, number of super-arcs), or
    with a node id outside [0, number of nodes), only writes a message: no
    super-arc and no node changes.  With valid ids it sets the up node of
    the arc and appends the arc to the down-arc list of that node, and
    touches nothing else. *)
Theorem closeSuperArc_safe_mode t superArcId upNodeId :
  withKamikaze cfg = false ->
  let t' := closeSuperArc cfg t superArcId upNodeId in
  (~ (0 <= superArcId < getNumberOfSuperArcs t) ->
     t' = log [LStr "[Merge Tree] closeSuperArc on a inexisting arc !"; LEndl] t
     /\ superArcs t' = superArcs t /\ nodes t' = nodes t)
  /\ (0 <= superArcId < getNumberOfSuperArcs t ->
      ~ (0 <= upNodeId < getNumberOfNodes t) ->
      t' = log [LStr "[Merge Tree] closeOpenedArc on a inexisting node !"; LEndl] t
      /\ superArcs t' = superArcs t /\ nodes t' = nodes t)
  /\ (0 <= superArcId < getNumberOfSuperArcs t ->
      0 <= upNodeId < getNumberOfNodes t ->
      upNodeId_ (getSuperArc cfg t' superArcId) = upNodeId
      /\ getSuperArc cfg t' superArcId
         = ArcOps.setUpNodeId upNodeId (getSuperArc cfg t superArcId)
      /\ vect_downSuperArcList_ (getNode cfg t' upNodeId)
         = vect_downSuperArcList_ (getNode cfg t upNodeId) ++ [superArcId]
      /\ getNode cfg t' upNodeId
         = NodeOps.addDownSuperArcId superArcId (getNode cfg t upNodeId)
      /\ (forall a, a <> superArcId -> Vec.at_ (superArcs t') a = Vec.at_ (superArcs t) a)
      /\ (forall n, n <> upNodeId -> Vec.at_ (nodes t') n = Vec.at_ (nodes t) n)
      /\ getNumberOfSuperArcs t' = getNumberOfSuperArcs t
      /\ getNumberOfNodes t' = getNumberOfNodes t
      /\ console t' = console t).
Proof.
  intros Hk t'. subst t'. unfold closeSuperArc. rewrite Hk. cbn [negb andb].
  split; [|split].
  - intros Hout.
    destruct ((superArcId <? 0) || (superArcId >=? getNumberOfSuperArcs t)) eqn:E.
    + done.
    + apply orb_false_iff in E as [E1 E2]. lia.
  - intros Hin Hout.
    destruct ((superArcId <? 0) || (superArcId >=? getNumberOfSuperArcs t)) eqn:E.
    { apply orb_true_iff in E. lia. }
    destruct ((upNodeId <? 0) || (upNodeId >=? getNumberOfNodes t)) eqn:E'.
    + done.
    + apply orb_false_iff in E' as [E1 E2]. lia.
  - intros Ha Hn.
    destruct ((superArcId <? 0) || (superArcId >=? getNumberOfSuperArcs t)) eqn:E.
    { apply orb_true_iff in E. lia. }
    destruct ((upNodeId <? 0) || (upNodeId >=? getNumberOfNodes t)) eqn:E'.
    { apply orb_true_iff in E'. lia. }
    unfold getSuperArc, getNode, getNumberOfSuperArcs, getNumberOfNodes in *. cbn.
    rewrite !get_upd_eq by done. rewrite !size_upd.
    repeat split; try done.
    + intros a Hne. by apply at_upd_ne.
    + intros n Hne. by apply at_upd_ne.
Qed.

(** C7. For a vertex in range, [makeNode] on a vertex that is already a
    node returns the id of that node and changes nothing; otherwise it
    reserves the next node, sets its vertex, records the vertex as a node
    and returns the new id.  A second call returns the same id and creates
    nothing. *)
Theorem makeNode_idempotent t v term term' :
  0 <= v < scalars_size scalars_ ->
  Vec.size (vert2tree t) = scalars_size scalars_ ->
  (isCorrespondingNode t v = true ->
     makeNode cfg scalars_ t v term = (t, getCorrespondingNodeId t v))
  /\ (isCorrespondingNode t v = false ->
      let t' := fst (makeNode cfg scalars_ t v term) in
      let id := snd (makeNode cfg scalars_ t v term) in
      id = getNumberOfNodes t
      /\ nodes t' = nodes t
                    ++ [NodeOps.setTerminaison term (NodeOps.setVertexId v (defaultNode cfg))]
      /\ vertexId_ (getNode cfg t' id) = v
      /\ corresp t' v = CNode id
      /\ (forall w, w <> v -> corresp t' w = corresp t w)
      /\ superArcs t' = superArcs t)
  /\ (let t1 := fst (makeNode cfg scalars_ t v term) in
      let id1 := snd (makeNode cfg scalars_ t v term) in
      makeNode cfg scalars_ t1 v term' = (t1, id1)).
Proof.
  intros Hv Hsz. split; [by apply makeNode_existing|]. split.
  - intros Hn. rewrite (makeNode_fresh cfg scalars_ t v term Hv Hn). cbn [fst snd].
    split; [done|]. split; [done|]. split.
    { unfold getNode, updateCorrespondingNode, getNumberOfNodes. cbn.
      unfold Vec.get. by rewrite at_app_new. }
    split.
    { unfold corresp, updateCorrespondingNode. cbn. apply get_set_eq. lia. }
    split; [|done].
    intros w Hw. unfold corresp, updateCorrespondingNode. cbn. by apply get_set_ne.
  - destruct (isCorrespondingNode t v) eqn:Hn.
    + rewrite (makeNode_existing cfg scalars_ t v term Hv Hn). cbn [fst snd].
      by apply makeNode_existing.
    + rewrite (makeNode_fresh cfg scalars_ t v term Hv Hn). cbn [fst snd].
      rewrite makeNode_existing; [|done|].
      * f_equal. unfold getCorrespondingNodeId, corresp, updateCorrespondingNode. cbn.
        rewrite get_set_eq by lia. done.
      * unfold isCorrespondingNode, corresp, updateCorrespondingNode. cbn.
        rewrite get_set_eq by lia. done.
Qed.

(** C9, as the code has it: the guard of [delNode] is compiled in only
    when [withKamikaze] is off.  In such a build, [delNode] on a root (no
    up super-arc) with more than one down super-arc writes a message and
    leaves every node and every super-arc as it is. *)
Theorem delNode_root_several_children t node :
  withKamikaze cfg = false ->
  NodeOps.getNumberOfUpSuperArcs (getNode cfg t node) = 0 ->
  1 < NodeOps.getNumberOfDownSuperArcs (getNode cfg t node) ->
  let t' := delNode cfg t node in
  t' = log [LEndl; LStr "[MergeTree]:delNode won't delete ";
            LNum (vertexId_ (getNode cfg t node)); LStr " (root) with ";
            LNum (NodeOps.getNumberOfDownSuperArcs (getNode cfg t node)); LStr " down ";
            LNum (NodeOps.getNumberOfUpSuperArcs (getNode cfg t node)); LStr " up "] t
  /\ nodes t' = nodes t /\ superArcs t' = superArcs t.
Proof.
  intros Hk Hup Hdown t'. subst t'. unfold delNode.
  rewrite Hk, Hup. cbn [negb andb Z.eqb].
  destruct (Z.eqb_spec (NodeOps.getNumberOfDownSuperArcs (getNode cfg t node)) 1); [lia|].
  done.
Qed.

End TreeOps.

Lemma closeSuperArc_safe_mode_witness :
  closeSuperArc (Ex.cfg false) Ex.twoChildren 7 0
  = log [LStr "[Merge Tree] closeSuperArc on a inexisting arc !"; LEndl] Ex.twoChildren
  /\ closeSuperArc (Ex.cfg false) Ex.twoChildren 0 3
     = log [LStr "[Merge Tree] closeOpenedArc on a inexisting node !"; LEndl] Ex.twoChildren
  /\ upNodeId_ (getSuperArc (Ex.cfg false)
                  (closeSuperArc (Ex.cfg false) Ex.twoChildren 0 1) 0) = 1.
Proof.
  split; [|split].
  - apply (closeSuperArc_safe_mode (Ex.cfg false) Ex.twoChildren 7 0 eq_refl).
    vm_compute. intros [_ H]. discriminate H.
  - apply (closeSuperArc_safe_mode (Ex.cfg false) Ex.twoChildren 0 3 eq_refl).
    + vm_compute. split; [discriminate|reflexivity].
    + vm_compute. intros [_ H]. discriminate H.
  - apply (closeSuperArc_safe_mode (Ex.cfg false) Ex.twoChildren 0 1 eq_refl).
    + vm_compute. split; [discriminate|reflexivity].
    + vm_compute. split; [discriminate|reflexivity].
Defined.

Lemma makeNode_idempotent_witness :
  makeNode (Ex.cfg false) Ex.sc
           (fst (makeNode (Ex.cfg false) Ex.sc Ex.twoChildren 1 (-1))) 1 (-1)
  = (fst (makeNode (Ex.cfg false) Ex.sc Ex.twoChildren 1 (-1)),
     snd (makeNode (Ex.cfg false) Ex.sc Ex.twoChildren 1 (-1))).
Proof.
  apply (makeNode_idempotent (Ex.cfg false) Ex.sc Ex.twoChildren 1 (-1) (-1)).
  - vm_compute. split; [discriminate|reflexivity].
  - reflexivity.
Defined.

Lemma delNode_root_several_children_witness :
  nodes (delNode (Ex.cfg false) Ex.twoChildren 0) = nodes Ex.twoChildren
  /\ superArcs (delNode (Ex.cfg false) Ex.twoChildren 0) = superArcs Ex.twoChildren.
Proof.
  apply (delNode_root_several_children (Ex.cfg false) Ex.twoChildren 0).
  - reflexivity.
  - reflexivity.
  - reflexivity.
Defined.

(** In a build with [withKamikaze] on, the same call on a root with two
    children writes nothing, unlinks the first child and empties the
    down-arc list of the root. *)
Lemma delNode_kamikaze_counterexample :
  NodeOps.getNumberOfUpSuperArcs (getNode (Ex.cfg true) Ex.twoChildren 0) = 0
  /\ 1 < NodeOps.getNumberOfDownSuperArcs (getNode (Ex.cfg true) Ex.twoChildren 0)
  /\ console (delNode (Ex.cfg true) Ex.twoChildren 0) = []
  /\ vect_downSuperArcList_ (getNode (Ex.cfg true) Ex.twoChildren 0) = [0; 1]
  /\ vect_downSuperArcList_
       (getNode (Ex.cfg true) (delNode (Ex.cfg true) Ex.twoChildren 0) 0) = []
  /\ nodes (delNode (Ex.cfg true) Ex.twoChildren 0) <> nodes Ex.twoChildren.
Proof.
  repeat split; try reflexivity. vm_compute. discriminate.
Qed.

Lemma size_nil {A} : Vec.size (@nil A) = 0.
Proof. reflexivity. Qed.

(** ** Loops *)

Lemma forRange_empty {S} lo hi (body : Z -> S -> S) s :
  hi <= lo -> forRange lo hi body s = s.
Proof.
  intros H. unfold forRange, seqZ.
  replace (Z.to_nat (hi - lo)) with 0%nat by lia. done.
Qed.

Lemma fold_left_fixed {S B} (f : S -> B -> S) (l : list B) s :
  (forall x s', x ∈ l -> f s' x = s') -> fold_left f l s = s.
Proof.
  induction l as [|x l IH]; intros H; cbn; [done|].
  rewrite H by (apply elem_of_cons; by left).
  apply IH. intros y s' Hy. apply H. apply elem_of_cons. by right.
Qed.

(** The chunked loops over an empty range run no iteration, whatever the
    chunk policy. *)
Lemma chunks_nothing {S} n cs k (body : Z -> S -> S) s :
  n <= 0 ->
  forRange 0 k (fun c s' => forRange (c * cs) (Z.min n ((c + 1) * cs)) body s') s = s.
Proof.
  intros Hn. unfold forRange at 1. apply fold_left_fixed.
  intros c s' Hc. apply elem_of_seqZ in Hc.
  apply forRange_empty. nia.
Qed.

(** ** Empty input *)

(** ** Timings *)

(** [printTime] only writes on the terminal. *)
Lemma printTime_log cfg scalars_ s n l t :
  exists items, printTime cfg scalars_ s n l t = log items t.
Proof.
  unfold printTime. destruct (debugLevel_ cfg >=? l); [by eexists|].
  exists []. destruct t. unfold log, set_console. cbn. by rewrite app_nil_r.
Qed.

(** Below the level of the call it writes nothing. *)
Lemma printTime_quiet cfg scalars_ s n l t :
  debugLevel_ cfg < l -> printTime cfg scalars_ s n l t = t.
Proof.
  intros H. unfold printTime.
  destruct (Z.geb_spec (debugLevel_ cfg) l); [lia|done].
Qed.

Ltac timings :=
  repeat match goal with
         | |- context [printTime ?c ?sc ?s ?n ?l ?t] =>
             let items := fresh "items" in
             destruct (printTime_log c sc s n l t) as [items ->]
         end.

(** A line written changes the terminal output only. *)
Ltac unlog :=
  repeat match goal with
         | |- context C [log ?items ?x] => let G := context C [x] in change G
         end.

(** The tree after a line of [printTime] takes the place of the tree
    before it, in the goal and in what is known of the tree but for its
    terminal output. *)
Ltac relog p p' :=
  repeat match goal with
         | H : _ |- _ =>
             match type of H with
             | context [p] =>
                 pattern p in H;
                 match type of H with
                 | ?F p => change (F p') in H; cbv beta in H
                 end
             end
         end.

Ltac absorb p :=
  match goal with
  | |- context [printTime ?c ?sc ?s ?n ?l p] =>
      let items := fresh "items" in
      let p' := fresh "p" in
      destruct (printTime_log c sc s n l p) as [items ->];
      set (p' := log items p);
      relog p p'; clearbody p'; clear items; clear p; rename p' into p
  end.

Section EmptyMesh.

Variable cfg : Build.
Variable mesh_ : Triangulation.
Variable scalars_ : Scalars.
Hypothesis no_vertex : scalars_size scalars_ = 0.

Lemma precompute_empty t :
  nodes t = [] ->
  nodes (fst (precompute cfg mesh_ scalars_ t)) = []
  /\ leaves (fst (precompute cfg mesh_ scalars_ t)) = []
  /\ superArcs (fst (precompute cfg mesh_ scalars_ t)) = superArcs t
  /\ ufHeap (fst (precompute cfg mesh_ scalars_ t)) = ufHeap t
  /\ snd (precompute cfg mesh_ scalars_ t) = 0.
Proof.
  intros Hn. unfold precompute, getNumberOfNodes. rewrite Hn.
  change (Vec.size (@nil Node) =? 0) with true. cbv iota.
  rewrite no_vertex, chunks_nothing by lia.
  destruct (debugLevel_ cfg >=? 3); cbn; by rewrite ?Hn.
Qed.

Lemma leaves_empty fuel t :
  leaves t = [] ->
  exists t', leaves_ cfg mesh_ scalars_ fuel t = Some t'
    /\ nodes t' = nodes t /\ superArcs t' = superArcs t /\ ufHeap t' = ufHeap t
    /\ ufs t' = ufs t /\ openedNodes t' = openedNodes t /\ leaves t' = []
    /\ activeTasks t' = 0.
Proof.
  intros Hl. unfold leaves_. rewrite Hl.
  change (Vec.size (@nil idNode) =? 1) with false. cbv iota.
  change (Vec.size (@nil idNode)) with 0.
  rewrite forRange_empty by lia. eexists. split; [done|]. cbn. by rewrite Hl.
Qed.

Lemma trunk_empty t : trunk cfg mesh_ scalars_ t = (t, 0).
Proof.
  unfold trunk, trunkBackBone, pendingVertsOf. rewrite no_vertex.
  change (seqZ 0 0) with (@nil Z). cbn.
  rewrite !size_nil. cbn.
  by rewrite forRange_empty by lia.
Qed.

Lemma segmentSizes_empty t : superArcs t = [] -> segmentSizes cfg t = [].
Proof.
  intros Ha. unfold segmentSizes. cbv zeta. rewrite Ha, (@size_nil SuperArc).
  by rewrite chunks_nothing by lia.
Qed.

Lemma fillSegments_empty t : fillSegments cfg scalars_ t = t.
Proof.
  unfold fillSegments. cbv zeta. rewrite no_vertex.
  by rewrite chunks_nothing by lia.
Qed.

Lemma updateRegions_empty t : superArcs t = [] -> updateRegions cfg t = t.
Proof.
  intros Ha. unfold updateRegions. cbv zeta. rewrite Ha, (@size_nil SuperArc).
  by rewrite chunks_nothing by lia.
Qed.

Lemma buildSegmentation_empty t :
  superArcs t = [] ->
  nodes (buildSegmentation cfg scalars_ t) = nodes t
  /\ superArcs (buildSegmentation cfg scalars_ t) = []
  /\ leaves (buildSegmentation cfg scalars_ t) = leaves t
  /\ ufHeap (buildSegmentation cfg scalars_ t) = ufHeap t.
Proof.
  intros Ha. unfold buildSegmentation. cbv zeta.
  rewrite segmentSizes_empty, fillSegments_empty by done. timings.
  rewrite updateRegions_empty by done. done.
Qed.

(** C10. On a mesh without vertices and a tree without nodes and arcs,
    [build] returns (whatever the fuel), [precompute] creates no node, no
    leaf task is launched (no union-find element is created), [trunk] returns
    0 before it creates an arc, and the built tree has no node and no
    super-arc. *)
Theorem build_empty_mesh fuel t ct :
  nodes t = [] -> superArcs t = [] ->
  let t1 := fst (precompute cfg mesh_ scalars_ (initComp scalars_ t)) in
  getNumberOfNodes t1 = 0
  /\ (exists t2, leaves_ cfg mesh_ scalars_ fuel t1 = Some t2
        /\ ufHeap t2 = ufHeap t /\ trunk cfg mesh_ scalars_ t2 = (t2, 0))
  /\ (exists t', build cfg mesh_ scalars_ fuel t ct = Some t'
        /\ getNumberOfNodes t' = 0 /\ getNumberOfSuperArcs t' = 0
        /\ nodes t' = [] /\ superArcs t' = [] /\ leaves t' = []).
Proof.
  intros Hn Ha t1.
  assert (Hn0 : nodes (initComp scalars_ t) = []).
  { unfold initComp. by destruct (treeType t). }
  assert (Ha0 : superArcs (initComp scalars_ t) = []).
  { unfold initComp. by destruct (treeType t). }
  assert (Hh0 : ufHeap (initComp scalars_ t) = ufHeap t).
  { unfold initComp. by destruct (treeType t). }
  destruct (precompute_empty _ Hn0) as (P1 & P2 & P3 & P4 & P5). fold t1 in P1, P2, P3, P4.
  destruct (leaves_empty fuel t1 P2) as (t2 & L1 & L2 & L3 & L4 & L5 & L6 & L7 & L8).
  split; [unfold getNumberOfNodes; by rewrite P1|]. split.
  - exists t2. split; [done|]. split; [congruence|apply trunk_empty].
  - unfold build.
    destruct (precompute cfg mesh_ scalars_ (initComp scalars_ t)) as [t1' r] eqn:E.
    cbn in t1. subst t1. cbv zeta.
    destruct (printTime_log cfg scalars_ (String.append "3 precompute " (treeString t))
                (scalars_size scalars_) (2 + r) t1') as [i1 ->].
    destruct (leaves_empty fuel (log i1 t1') P2) as (t3 & M1 & M2 & M3 & M4 & M5 & M6 & M7 & M8).
    rewrite M1, trunk_empty. cbv beta iota.
    destruct (printTime_log cfg scalars_ (String.append "4 leaves " (treeString t))
                (scalars_size scalars_) (printTimeLevel cfg) t3) as [i2 ->].
    destruct (printTime_log cfg scalars_ (String.append "5 trunk " (treeString t))
                0 (printTimeLevel cfg) (log i2 t3)) as [i3 ->].
    assert (Ha2 : superArcs (log i3 (log i2 t3)) = []).
    { change (superArcs t3 = []). rewrite M3. cbn in *. congruence. }
    assert (Hn2 : nodes (log i3 (log i2 t3)) = []).
    { change (nodes t3 = []). rewrite M2. cbn in *. congruence. }
    destruct ct.
    + destruct (buildSegmentation_empty (log i3 (log i2 t3)) Ha2) as (B1 & B2 & B3 & B4).
      eexists. split; [done|]. timings.
      unfold getNumberOfNodes, getNumberOfSuperArcs.
      cbn [nodes superArcs leaves log set_console]. rewrite B1, B2, B3, Hn2. done.
    + eexists. split; [done|].
      unfold getNumberOfNodes, getNumberOfSuperArcs. rewrite Ha2, Hn2. done.
Qed.

End EmptyMesh.

Lemma build_empty_mesh_witness :
  exists t', build (Ex.cfg false) Ex.mesh0 Ex.sc0 0 (Ex.fresh Join 0) true = Some t'
    /\ getNumberOfNodes t' = 0 /\ getNumberOfSuperArcs t' = 0
    /\ nodes t' = [] /\ superArcs t' = [] /\ leaves t' = [].
Proof.
  apply (build_empty_mesh (Ex.cfg false) Ex.mesh0 Ex.sc0 eq_refl 0%nat (Ex.fresh Join 0) true).
  - reflexivity.
  - reflexivity.
Defined.

(** ** The loop of a leaf task *)

Section Sweep.

Variable cfg : Build.
Variable mesh_ : Triangulation.
Variable scalars_ : Scalars.

(** The tri-state of the vertex to tree map: neither nil nor a node is an
    arc. *)
Lemma not_null_not_node_is_arc t v :
  negb (isCorrespondingNull t v) && negb (isCorrespondingNode t v)
  = isCorrespondingArc t v.
Proof.
  unfold isCorrespondingNull, isCorrespondingNode, isCorrespondingArc.
  by destruct (corresp t v).
Qed.

(** [processVertex] hands the seen-first flag on as it got it. *)
Lemma processVertex_keeps_flag t startVert d orig startUF currentArc seenFirst cur t' sf :
  processVertex cfg mesh_ scalars_ t startVert d orig startUF currentArc seenFirst cur
  = Continue t' sf ->
  sf = seenFirst.
Proof.
  unfold processVertex, saddleCase.
  destruct (propage mesh_ t startUF startUF) as [[t1 isSaddle] isLast].
  destruct isSaddle.
  - destruct isLast; [|discriminate].
    destruct (activeTasks _ =? 1); discriminate.
  - intros H. by injection H.
Qed.

(** One iteration of the loop, with [cur] the popped vertex and [t1] the
    state after the pop, by the entry of [cur] and the seen-first flag. *)
Lemma loopBody_cases t startVert d orig startUF currentArc seenFirst :
  let cur := snd (StateOps.getNextMinVertex (getFirstState t startUF)) in
  let t1 := updFirstState startUF
              (fun _ => fst (StateOps.getNextMinVertex (getFirstState t startUF))) t in
  let body := loopBody cfg mesh_ scalars_ t startVert d orig startUF currentArc seenFirst in
  (isCorrespondingArc t1 cur = true -> body = Continue t1 seenFirst)
  /\ (isCorrespondingArc t1 cur = false -> cur <> startVert ->
      body = processVertex cfg mesh_ scalars_ t1 startVert d orig startUF currentArc
                           seenFirst cur)
  /\ (isCorrespondingArc t1 cur = false -> cur = startVert -> seenFirst = false ->
      body = processVertex cfg mesh_ scalars_ t1 startVert d orig startUF currentArc
                           true cur)
  /\ (isCorrespondingArc t1 cur = false -> cur = startVert -> seenFirst = true ->
      body = Continue t1 true)
  /\ (forall t' sf, body = Continue t' sf -> seenFirst = true -> sf = true)
  /\ (forall t' sf, body = Continue t' sf -> isCorrespondingArc t1 cur = false ->
      cur = startVert -> sf = true).
Proof.
  intros cur t1 body. subst body. unfold loopBody.
  destruct (StateOps.getNextMinVertex (getFirstState t startUF)) as [s c] eqn:E.
  cbn [fst snd] in cur, t1. fold t1. subst cur.
  rewrite not_null_not_node_is_arc.
  repeat split.
  - intros Harc. by rewrite Harc.
  - intros Harc Hne. rewrite Harc.
    destruct (Z.eqb_spec c startVert); [done|]. done.
  - intros Harc Heq Hsf. rewrite Harc.
    destruct (Z.eqb_spec c startVert); [|done]. by rewrite Hsf.
  - intros Harc Heq Hsf. rewrite Harc.
    destruct (Z.eqb_spec c startVert); [|done]. by rewrite Hsf.
  - intros t' sf Hb Hsf. subst seenFirst.
    destruct (isCorrespondingArc t1 c); [by injection Hb|].
    destruct (c =? startVert); cbn [negb] in Hb.
    + by injection Hb.
    + by apply processVertex_keeps_flag in Hb.
  - intros t' sf Hb Harc Heq. rewrite Harc in Hb.
    destruct (Z.eqb_spec c startVert); [|done].
    destruct seenFirst; cbn [negb] in Hb.
    + by injection Hb.
    + by apply processVertex_keeps_flag in Hb.
Qed.

(** The loop with the count returns what the loop returns, and counts the
    turns that process the start vertex. *)
Lemma sweepCounting_sweep fuel t startVert d orig startUF currentArc seenFirst :
  sweepCounting cfg mesh_ scalars_ fuel t startVert d orig startUF currentArc seenFirst
  = (sweep cfg mesh_ scalars_ fuel t startVert d orig startUF currentArc seenFirst,
     startVertexTurns cfg mesh_ scalars_ fuel t startVert d orig startUF currentArc
                      seenFirst).
Proof.
  revert t seenFirst. induction fuel as [|fuel IH]; intros t seenFirst; [done|].
  cbn [sweepCounting sweep startVertexTurns].
  destruct (StateOps.empty (getFirstState t startUF)); [done|].
  destruct (StateOps.getNextMinVertex (getFirstState t startUF)) as [s c]. cbv zeta.
  destruct (loopBody cfg mesh_ scalars_ t startVert d orig startUF currentArc seenFirst)
    as [t' sf| |]; [|done|done].
  by rewrite IH.
Qed.

(** Once the flag is up, no turn processes the start vertex. *)
Lemma startVertexTurns_flag_up fuel t startVert d orig startUF currentArc :
  startVertexTurns cfg mesh_ scalars_ fuel t startVert d orig startUF currentArc true = 0%nat.
Proof.
  revert t. induction fuel as [|fuel IH]; intros t; [done|].
  cbn [startVertexTurns].
  destruct (StateOps.empty (getFirstState t startUF)); [done|].
  destruct (loopBody_cases t startVert d orig startUF currentArc true)
    as (_ & _ & _ & _ & Hup & _).
  destruct (StateOps.getNextMinVertex (getFirstState t startUF)) as [s c].
  cbv zeta. rewrite andb_false_r.
  destruct (loopBody cfg mesh_ scalars_ t startVert d orig startUF currentArc true)
    as [t' sf| |]; [|done|done].
  rewrite (Hup t' sf eq_refl eq_refl). by rewrite IH.
Qed.

Lemma startVertexTurns_once fuel t startVert d orig startUF currentArc seenFirst :
  (startVertexTurns cfg mesh_ scalars_ fuel t startVert d orig startUF currentArc seenFirst
   <= 1)%nat.
Proof.
  revert t seenFirst. induction fuel as [|fuel IH]; intros t seenFirst; [cbn; lia|].
  cbn [startVertexTurns].
  destruct (StateOps.empty (getFirstState t startUF)); [lia|].
  destruct (loopBody_cases t startVert d orig startUF currentArc seenFirst)
    as (_ & _ & _ & _ & _ & Hraise).
  destruct (StateOps.getNextMinVertex (getFirstState t startUF)) as [s c].
  cbn [fst snd] in Hraise. cbv zeta.
  destruct (negb (isCorrespondingArc _ c) && (c =? startVert) && negb seenFirst) eqn:Ehere.
  - apply andb_true_iff in Ehere as [Ehere _].
    apply andb_true_iff in Ehere as [Earc Estart].
    apply negb_true_iff in Earc. apply Z.eqb_eq in Estart.
    destruct (loopBody cfg mesh_ scalars_ t startVert d orig startUF currentArc seenFirst)
      as [t' sf| |]; [|lia|lia].
    rewrite (Hraise t' sf eq_refl Earc Estart), startVertexTurns_flag_up. lia.
  - destruct (loopBody cfg mesh_ scalars_ t startVert d orig startUF currentArc seenFirst)
      as [t' sf| |]; [|lia|lia].
    specialize (IH t' sf). lia.
Qed.

(** The first turn pops the start vertex, which has no arc recorded: it is
    the one turn that processes it. *)
Lemma startVertexTurns_first fuel t startVert d orig startUF currentArc :
  let st := getFirstState t startUF in
  let cur := snd (StateOps.getNextMinVertex st) in
  let t1 := updFirstState startUF (fun _ => fst (StateOps.getNextMinVertex st)) t in
  StateOps.empty st = false -> isCorrespondingArc t1 cur = false -> cur = startVert ->
  startVertexTurns cfg mesh_ scalars_ (S fuel) t startVert d orig startUF currentArc false
  = 1%nat.
Proof.
  intros st cur t1 Hne Harc Heq.
  destruct (loopBody_cases t startVert d orig startUF currentArc false)
    as (_ & _ & _ & _ & _ & Hraise).
  fold st in Hraise. fold cur t1 in Hraise.
  cbn [startVertexTurns]. fold st. rewrite Hne.
  subst cur t1.
  destruct (StateOps.getNextMinVertex st) as [s c]. cbn [fst snd] in *. cbv zeta.
  rewrite Harc, Heq, Z.eqb_refl. cbn [negb andb].
  destruct (loopBody cfg mesh_ scalars_ t startVert d orig startUF currentArc false)
    as [t' sf| |]; [|done|done].
  rewrite (Hraise t' sf eq_refl Harc Heq), startVertexTurns_flag_up. done.
Qed.

(** The head of a task on a union-find element of its own, without a
    state, as [leaves] makes one for every leaf: the queue of the task holds
    the start vertex and nothing else. *)
Lemma openTask_fresh t v u :
  Vec.get None (ufs t) v = Some u -> 0 <= u < Vec.size (ufHeap t) ->
  parent_ (ufCell t u) = u -> states_ (ufCell t u) = [] ->
  (openTask cfg t v).1.2 = u
  /\ vert2tree (openTask cfg t v).1.1 = vert2tree t
  /\ queue (getFirstState (openTask cfg t v).1.1 u) = [v].
Proof.
  intros Hu Hin Hp Hs. unfold openTask, ufFind. rewrite Hu.
  change (deref (Some u)) with u.
  destruct (at_in_range (ufHeap t) u Hin) as [c Hc].
  assert (Ec : ufCell t u = c) by (unfold ufCell, Vec.get; by rewrite Hc).
  rewrite Ec in Hp, Hs.
  assert (Ef : UFOps.find (ufHeap t) u = (ufHeap t, u)).
  { unfold UFOps.find. destruct (ufHeap t) as [|x h] eqn:Eh.
    - unfold Vec.size in Hin. cbn in Hin. lia.
    - cbn [length UFOps.findFuel]. unfold UFOps.parentOf. rewrite Hc, Hp.
      by rewrite Z.eqb_refl. }
  rewrite Ef.
  set (t1 := set_ufHeap (fun _ => ufHeap t) t).
  assert (E1 : ufCell t1 u = c) by exact Ec.
  rewrite E1. unfold UFOps.getNbStates. rewrite Hs.
  change (negb (Vec.size (@nil CurrentState) =? 0)) with false. cbv iota.
  set (t3 := updFirstState u (StateOps.addNewVertex v) _).
  assert (H3 : ufCell t3 u
               = UFOps.setStates (fun _ => [mkState v (vertHigher (comp_ t1)) [v]]) c).
  { unfold t3, updFirstState, ufCell. cbn [ufHeap set_ufHeap].
    change (ufHeap t1) with (ufHeap t).
    rewrite get_upd_eq by (by rewrite size_upd).
    rewrite get_upd_eq by done.
    unfold Vec.get. rewrite Hc. cbn [default].
    unfold UFOps.addState, UFOps.setStates. cbn. by rewrite Hs. }
  assert (V3 : vert2tree t3 = vert2tree t) by done.
  assert (S3 : Vec.size (ufHeap t3) = Vec.size (ufHeap t)).
  { unfold t3, updFirstState. cbn [ufHeap set_ufHeap]. by rewrite !size_upd. }
  assert (Hopen : ufHeap (openSuperArc cfg t3 (getCorrespondingNodeId t3 v)).1 = ufHeap t3
                  /\ vert2tree (openSuperArc cfg t3 (getCorrespondingNodeId t3 v)).1
                     = vert2tree t3).
  { unfold openSuperArc. by destruct (negb _ && _). }
  destruct (openSuperArc cfg t3 (getCorrespondingNodeId t3 v)) as [t4 arc].
  cbn [fst snd] in *. destruct Hopen as [H4 V4].
  split; [done|]. split; [cbn [vert2tree set_ufHeap]; by rewrite V4|].
  unfold getFirstState, ufCell. cbn [ufHeap set_ufHeap]. rewrite H4.
  rewrite get_upd_eq by (by rewrite S3).
  fold (ufCell t3 u). rewrite H3. done.
Qed.

(** C4.  The loop of a task, turn by turn.  [processTask] enters the loop
    with the seen-first flag down.  A turn on a non-empty queue pops [cur],
    which gives the state [t1].  When [vert2tree[cur]] records an arc the
    turn is skipped: the loop goes on from [t1] with the flag as it was,
    nothing is propagated.  When it is nil or a node, a vertex other than
    the start vertex is processed, and the flag is handed on; the start
    vertex is processed when the flag is down, and the loop goes on with
    the flag up; it is skipped when the flag is up, which stays up.  To
    process is: [propage], the publication of [ufs[cur]], then at a saddle
    the way out of the loop, and otherwise the record of the arc for [cur]
    (but for the start vertex), [setLastVisited], and the next turn.  The
    turns that process the start vertex are counted along the loop.  So
    over the turns of a task the start vertex is processed at most once,
    never once the flag is up, and exactly once when the first turn pops it
    with no arc recorded: so it is for a task on a union-find element of
    its own that has no state yet, as [leaves] makes one for every leaf,
    when the start vertex is not on an arc. *)
Theorem sweep_skips_arcs fuel t startVert d orig startUF currentArc seenFirst :
  let st := getFirstState t startUF in
  let cur := snd (StateOps.getNextMinVertex st) in
  let t1 := updFirstState startUF (fun _ => fst (StateOps.getNextMinVertex st)) t in
  let turn := sweep cfg mesh_ scalars_ (S fuel) t startVert d orig startUF currentArc
                    seenFirst in
  let skipped := sweep cfg mesh_ scalars_ fuel t1 startVert d orig startUF currentArc
                       seenFirst in
  let processed (flag : bool) :=
    let '(t2, isSaddle, isLast) := propage mesh_ t1 startUF startUF in
    let t3 := set_ufs (Vec.set cur (Some startUF)) t2 in
    if isSaddle then
      let t4 := set_openedNodes (Vec.set cur true) t3 in
      if isLast then
        if activeTasks t4 =? 1 then Some t4
        else processTask cfg mesh_ scalars_ fuel
               (set_openedNodes (Vec.set cur false)
                  (closeAndMergeOnSaddle cfg mesh_ scalars_ t4 cur))
               cur (d + 1) orig
      else Some (set_activeTasks (fun n => n - 1) t4)
    else
      let t4 := if negb (cur =? startVert)
                then updateCorrespondingArc cur currentArc t3 else t3 in
      sweep cfg mesh_ scalars_ fuel
            (set_superArcs (Vec.upd currentArc (ArcOps.setLastVisited cur)) t4)
            startVert d orig startUF currentArc flag in
  let turns := startVertexTurns cfg mesh_ scalars_ in
  (forall t0 v d0 orig0,
      processTask cfg mesh_ scalars_ (S fuel) t0 v d0 orig0
      = let '(t', u, a) := openTask cfg t0 v in
        sweep cfg mesh_ scalars_ fuel t' v d0 orig0 u a false)
  /\ (StateOps.empty st = false ->
        (isCorrespondingArc t1 cur = true -> turn = skipped)
        /\ (isCorrespondingArc t1 cur = false -> cur <> startVert ->
            turn = processed seenFirst)
        /\ (isCorrespondingArc t1 cur = false -> cur = startVert -> seenFirst = false ->
            turn = processed true)
        /\ (isCorrespondingArc t1 cur = false -> cur = startVert -> seenFirst = true ->
            turn = skipped))
  /\ sweepCounting cfg mesh_ scalars_ fuel t startVert d orig startUF currentArc seenFirst
     = (sweep cfg mesh_ scalars_ fuel t startVert d orig startUF currentArc seenFirst,
        turns fuel t startVert d orig startUF currentArc seenFirst)
  /\ (turns fuel t startVert d orig startUF currentArc seenFirst <= 1)%nat
  /\ (seenFirst = true ->
      turns fuel t startVert d orig startUF currentArc seenFirst = 0%nat)
  /\ (StateOps.empty st = false -> isCorrespondingArc t1 cur = false ->
      cur = startVert -> seenFirst = false ->
      turns (S fuel) t startVert d orig startUF currentArc seenFirst = 1%nat)
  /\ (forall t0 v d0 orig0 u,
        Vec.get None (ufs t0) v = Some u -> 0 <= u < Vec.size (ufHeap t0) ->
        parent_ (ufCell t0 u) = u -> states_ (ufCell t0 u) = [] ->
        isCorrespondingArc t0 v = false ->
        turns (S fuel) (openTask cfg t0 v).1.1 v d0 orig0
              (openTask cfg t0 v).1.2 (openTask cfg t0 v).2 false = 1%nat).
Proof.
  intros st cur t1 turn skipped processed turns.
  destruct (loopBody_cases t startVert d orig startUF currentArc seenFirst)
    as (Hskip & Hother & Hfirst & Hagain & _ & Hraise).
  fold st in Hskip, Hother, Hfirst, Hagain, Hraise. fold cur t1 in Hskip, Hother, Hfirst, Hagain, Hraise.
  assert (Hproc : forall flag,
            match processVertex cfg mesh_ scalars_ t1 startVert d orig startUF currentArc
                                flag cur with
            | Continue t' sf =>
                sweep cfg mesh_ scalars_ fuel t' startVert d orig startUF currentArc sf
            | Return t' => Some t'
            | Recurse t' v d' orig' => processTask cfg mesh_ scalars_ fuel t' v d' orig'
            end = processed flag).
  { intros flag. subst processed. unfold processVertex, saddleCase. cbv beta zeta.
    destruct (propage mesh_ t1 startUF startUF) as [[t2 isSaddle] isLast].
    destruct isSaddle; [|done].
    destruct isLast; [|done].
    cbn [activeTasks set_openedNodes].
    by destruct (activeTasks _ =? 1). }
  split; [done|]. split.
  { intros Hne. subst turn. cbn [sweep]. fold st. rewrite Hne.
    split; [|split; [|split]].
    - intros Harc. by rewrite (Hskip Harc).
    - intros Harc Hneq. rewrite (Hother Harc Hneq). apply Hproc.
    - intros Harc Heq Hsf. rewrite (Hfirst Harc Heq Hsf). apply Hproc.
    - intros Harc Heq Hsf. rewrite (Hagain Harc Heq Hsf). unfold skipped. by rewrite Hsf. }
  split; [apply sweepCounting_sweep|].
  split; [apply startVertexTurns_once|].
  split; [intros ->; apply startVertexTurns_flag_up|].
  split.
  { intros Hne Harc Heq ->. by apply startVertexTurns_first. }
  intros t0 v d0 orig0 u Hu Hin Hp Hs Harc0.
  destruct (openTask_fresh t0 v u Hu Hin Hp Hs) as (E1 & E2 & E3).
  rewrite E1.
  assert (Hpop : StateOps.getNextMinVertex (getFirstState (openTask cfg t0 v).1.1 u)
                 = (mkState v (vertComp (getFirstState (openTask cfg t0 v).1.1 u)) [], v)).
  { unfold StateOps.getNextMinVertex. rewrite E3. cbn. by rewrite Z.eqb_refl. }
  apply startVertexTurns_first.
  - unfold StateOps.empty. by rewrite E3.
  - rewrite Hpop. cbn [fst snd].
    unfold isCorrespondingArc, corresp, updFirstState in *.
    cbn [vert2tree set_ufHeap]. by rewrite E2.
  - by rewrite Hpop.
Qed.

(** The saddle case, by the three answers of the arbitration. *)
Lemma saddleCase_not_last t cur d orig :
  saddleCase cfg mesh_ scalars_ t cur d orig false
  = Return (set_activeTasks (fun n => n - 1) (set_openedNodes (Vec.set cur true) t)).
Proof. done. Qed.

Lemma saddleCase_last_alone t cur d orig :
  activeTasks t = 1 ->
  saddleCase cfg mesh_ scalars_ t cur d orig true
  = Return (set_openedNodes (Vec.set cur true) t).
Proof. intros H. unfold saddleCase. cbn. by rewrite H. Qed.

Lemma saddleCase_last_merge t cur d orig :
  activeTasks t <> 1 ->
  saddleCase cfg mesh_ scalars_ t cur d orig true
  = Recurse (set_openedNodes (Vec.set cur false)
               (closeAndMergeOnSaddle cfg mesh_ scalars_
                  (set_openedNodes (Vec.set cur true) t) cur))
            cur (d + 1) orig.
Proof.
  intros H. unfold saddleCase. cbn.
  destruct (Z.eqb_spec (activeTasks t) 1); [done|]. done.
Qed.

(** C1. A task at the head of its loop, with a non-empty queue, pops [cur];
    [cur] is accepted (no arc recorded, not a second pop of the start
    vertex) and [propage] finds a saddle.  With [t2] the state after
    [propage] and the publication of [ufs[cur]]:
    - not last: the task returns, with the bit of [cur] set and the
      active-task counter one lower, and nothing is closed;
    - last and the counter is 1: the task returns with the bit of [cur]
      set, the counter, the nodes and the super-arcs as they were;
    - last otherwise: the task goes on as [processTask] on [cur] at depth
      [d + 1], from the state where [closeAndMergeOnSaddle cur] was run and
      the bit of [cur] cleared. *)
Theorem sweep_on_saddle fuel t startVert d orig startUF currentArc seenFirst tp isLast :
  let cur := snd (StateOps.getNextMinVertex (getFirstState t startUF)) in
  let t1 := updFirstState startUF
              (fun _ => fst (StateOps.getNextMinVertex (getFirstState t startUF))) t in
  let t2 := set_ufs (Vec.set cur (Some startUF)) tp in
  let run := sweep cfg mesh_ scalars_ (S fuel) t startVert d orig startUF currentArc
                   seenFirst in
  StateOps.empty (getFirstState t startUF) = false ->
  isCorrespondingArc t1 cur = false ->
  (cur = startVert -> seenFirst = false) ->
  propage mesh_ t1 startUF startUF = (tp, true, isLast) ->
  (isLast = false ->
     run = Some (set_activeTasks (fun n => n - 1) (set_openedNodes (Vec.set cur true) t2))
     /\ forall t', run = Some t' ->
          activeTasks t' = activeTasks tp - 1
          /\ openedNodes t' = Vec.set cur true (openedNodes tp)
          /\ nodes t' = nodes tp /\ superArcs t' = superArcs tp)
  /\ (isLast = true -> activeTasks tp = 1 ->
      run = Some (set_openedNodes (Vec.set cur true) t2)
      /\ forall t', run = Some t' ->
           activeTasks t' = 1
           /\ openedNodes t' = Vec.set cur true (openedNodes tp)
           /\ nodes t' = nodes tp /\ superArcs t' = superArcs tp)
  /\ (isLast = true -> activeTasks tp <> 1 ->
      run = processTask cfg mesh_ scalars_ fuel
              (set_openedNodes (Vec.set cur false)
                 (closeAndMergeOnSaddle cfg mesh_ scalars_
                    (set_openedNodes (Vec.set cur true) t2) cur))
              cur (d + 1) orig).
Proof.
  intros cur t1 t2 run Hne Harc Hstart Hprop.
  assert (Hbody : loopBody cfg mesh_ scalars_ t startVert d orig startUF currentArc seenFirst
                  = saddleCase cfg mesh_ scalars_ t2 cur d orig isLast).
  { unfold loopBody.
    destruct (StateOps.getNextMinVertex (getFirstState t startUF)) as [s c] eqn:E.
    cbn [fst snd] in cur, t1. fold t1. subst cur.
    rewrite not_null_not_node_is_arc, Harc.
    assert (Hpv : forall sf, processVertex cfg mesh_ scalars_ t1 startVert d orig startUF
                               currentArc sf c
                             = saddleCase cfg mesh_ scalars_ t2 c d orig isLast).
    { intros sf. unfold processVertex. by rewrite Hprop. }
    destruct (Z.eqb_spec c startVert) as [Heq|Hneq].
    - rewrite (Hstart Heq). apply Hpv.
    - apply Hpv. }
  assert (Hrun : run = match saddleCase cfg mesh_ scalars_ t2 cur d orig isLast with
                       | Continue t' sf =>
                           sweep cfg mesh_ scalars_ fuel t' startVert d orig startUF
                                 currentArc sf
                       | Return t' => Some t'
                       | Recurse t' v d' orig' =>
                           processTask cfg mesh_ scalars_ fuel t' v d' orig'
                       end).
  { subst run. cbn [sweep]. by rewrite Hne, Hbody. }
  split; [|split].
  - intros ->. rewrite saddleCase_not_last in Hrun. split; [done|].
    intros t' Ht'. rewrite Hrun in Ht'. injection Ht' as <-. done.
  - intros -> Hone. rewrite saddleCase_last_alone in Hrun by done. split; [done|].
    intros t' Ht'. rewrite Hrun in Ht'. injection Ht' as <-. done.
  - intros -> Hmore. by rewrite saddleCase_last_merge in Hrun by done.
Qed.

End Sweep.

(** The task of leaf 0 of the chain, launched as [leaves] does on a new
    union-find element: the first turn pops vertex 0, the start vertex,
    which is a node; over the ten turns allowed it is processed once. *)
Lemma sweep_skips_arcs_witness :
  startVertexTurns (Ex.cfg false) Ex.chain5 Ex.sc 10
                   (openTask (Ex.cfg false) (Ex.launch 0 Ex.started) 0).1.1 0 0 0
                   (openTask (Ex.cfg false) (Ex.launch 0 Ex.started) 0).1.2
                   (openTask (Ex.cfg false) (Ex.launch 0 Ex.started) 0).2 false
  = 1%nat.
Proof.
  destruct (sweep_skips_arcs (Ex.cfg false) Ex.chain5 Ex.sc 9 Ex.started 0 0 0 0 0 false)
    as (_ & _ & _ & _ & _ & _ & H).
  apply (H (Ex.launch 0 Ex.started) 0 0 0 0).
  - vm_compute. reflexivity.
  - vm_compute. split; [discriminate|reflexivity].
  - vm_compute. reflexivity.
  - vm_compute. reflexivity.
  - vm_compute. reflexivity.
Defined.

(** The three arbitrations on the chain: the task of leaf 0 reaches the
    saddle 1 first; the task of leaf 2 reaches it last, with two tasks
    alive after the task of leaf 0, and with one after those of 0 and 4. *)
Lemma sweep_on_saddle_witness :
  (exists t', sweep (Ex.cfg false) Ex.chain5 Ex.sc 1 (Ex.loopHead Ex.started 0).1.1.1 0 0 0
                    (Ex.loopHead Ex.started 0).1.1.2 (Ex.loopHead Ex.started 0).1.2
                    (Ex.loopHead Ex.started 0).2 = Some t'
              /\ activeTasks t' = 2 /\ Vec.get false (openedNodes t') 1 = true)
  /\ (exists t', sweep (Ex.cfg false) Ex.chain5 Ex.sc 1 (Ex.loopHead Ex.run04 2).1.1.1 2 0 2
                       (Ex.loopHead Ex.run04 2).1.1.2 (Ex.loopHead Ex.run04 2).1.2
                       (Ex.loopHead Ex.run04 2).2 = Some t'
                 /\ activeTasks t' = 1 /\ Vec.get false (openedNodes t') 1 = true)
  /\ sweep (Ex.cfg false) Ex.chain5 Ex.sc 9 (Ex.loopHead Ex.run0 2).1.1.1 2 0 2
           (Ex.loopHead Ex.run0 2).1.1.2 (Ex.loopHead Ex.run0 2).1.2
           (Ex.loopHead Ex.run0 2).2
     = processTask (Ex.cfg false) Ex.chain5 Ex.sc 8
         (set_openedNodes (Vec.set 1 false)
            (closeAndMergeOnSaddle (Ex.cfg false) Ex.chain5 Ex.sc
               (set_openedNodes (Vec.set 1 true)
                  (set_ufs (Vec.set 1 (Some (Ex.loopHead Ex.run0 2).1.1.2))
                     (propage Ex.chain5
                        (updFirstState (Ex.loopHead Ex.run0 2).1.1.2
                           (fun _ => (StateOps.getNextMinVertex
                                        (getFirstState (Ex.loopHead Ex.run0 2).1.1.1
                                           (Ex.loopHead Ex.run0 2).1.1.2)).1)
                           (Ex.loopHead Ex.run0 2).1.1.1)
                        (Ex.loopHead Ex.run0 2).1.1.2
                        (Ex.loopHead Ex.run0 2).1.1.2).1.1)) 1))
         1 1 2.
Proof.
  split; [|split].
  - destruct (sweep_on_saddle (Ex.cfg false) Ex.chain5 Ex.sc 0
               (Ex.loopHead Ex.started 0).1.1.1 0 0 0
               (Ex.loopHead Ex.started 0).1.1.2 (Ex.loopHead Ex.started 0).1.2
               (Ex.loopHead Ex.started 0).2
               (propage Ex.chain5
                  (updFirstState (Ex.loopHead Ex.started 0).1.1.2
                     (fun _ => (StateOps.getNextMinVertex
                                  (getFirstState (Ex.loopHead Ex.started 0).1.1.1
                                     (Ex.loopHead Ex.started 0).1.1.2)).1)
                     (Ex.loopHead Ex.started 0).1.1.1)
                  (Ex.loopHead Ex.started 0).1.1.2
                  (Ex.loopHead Ex.started 0).1.1.2).1.1
               false
               ltac:(vm_compute; reflexivity)
               ltac:(vm_compute; reflexivity)
               ltac:(vm_compute; discriminate)
               ltac:(vm_compute; reflexivity)) as (A & _ & _).
    destruct (A eq_refl) as [E _].
    eexists. split; [exact E|]. vm_compute. split; reflexivity.
  - destruct (sweep_on_saddle (Ex.cfg false) Ex.chain5 Ex.sc 0
               (Ex.loopHead Ex.run04 2).1.1.1 2 0 2
               (Ex.loopHead Ex.run04 2).1.1.2 (Ex.loopHead Ex.run04 2).1.2
               (Ex.loopHead Ex.run04 2).2
               (propage Ex.chain5
                  (updFirstState (Ex.loopHead Ex.run04 2).1.1.2
                     (fun _ => (StateOps.getNextMinVertex
                                  (getFirstState (Ex.loopHead Ex.run04 2).1.1.1
                                     (Ex.loopHead Ex.run04 2).1.1.2)).1)
                     (Ex.loopHead Ex.run04 2).1.1.1)
                  (Ex.loopHead Ex.run04 2).1.1.2
                  (Ex.loopHead Ex.run04 2).1.1.2).1.1
               true
               ltac:(vm_compute; reflexivity)
               ltac:(vm_compute; reflexivity)
               ltac:(vm_compute; discriminate)
               ltac:(vm_compute; reflexivity)) as (_ & B & _).
    destruct (B eq_refl ltac:(vm_compute; reflexivity)) as [E _].
    eexists. split; [exact E|]. vm_compute. split; reflexivity.
  - destruct (sweep_on_saddle (Ex.cfg false) Ex.chain5 Ex.sc 8
               (Ex.loopHead Ex.run0 2).1.1.1 2 0 2
               (Ex.loopHead Ex.run0 2).1.1.2 (Ex.loopHead Ex.run0 2).1.2
               (Ex.loopHead Ex.run0 2).2
               (propage Ex.chain5
                  (updFirstState (Ex.loopHead Ex.run0 2).1.1.2
                     (fun _ => (StateOps.getNextMinVertex
                                  (getFirstState (Ex.loopHead Ex.run0 2).1.1.1
                                     (Ex.loopHead Ex.run0 2).1.1.2)).1)
                     (Ex.loopHead Ex.run0 2).1.1.1)
                  (Ex.loopHead Ex.run0 2).1.1.2
                  (Ex.loopHead Ex.run0 2).1.1.2).1.1
               true
               ltac:(vm_compute; reflexivity)
               ltac:(vm_compute; reflexivity)
               ltac:(vm_compute; discriminate)
               ltac:(vm_compute; reflexivity)) as (_ & _ & C).
    apply (C eq_refl). vm_compute. discriminate.
Defined.

(** ** The union-find arena *)

Section UnionFind.

Implicit Types (h : list AtomicUF) (i j r : Z) (n : nat).

Lemma UFpath_det h i r n r' n' :
  UFpath h i r n -> UFpath h i r' n' -> r = r' /\ n = n'.
Proof.
  intros H. revert r' n'. induction H as [i Hi|i r n Hi H IH]; intros r' n' H'.
  - inversion H'; subst; [done|congruence].
  - inversion H'; subst; [congruence|].
    destruct (IH _ _ H1) as [-> ->]. done.
Qed.

Lemma UFpath_root_fixed h i r n : UFpath h i r n -> UFOps.parentOf h r = r.
Proof. induction 1; done. Qed.

(** Past the end of the path, [root] is the representative. *)
Lemma root_path h i r n fuel :
  UFpath h i r n -> (n <= fuel)%nat -> UFOps.root fuel h i = r.
Proof.
  intros H. revert fuel. induction H as [i Hi|i r n Hi H IH]; intros fuel Hf.
  - destruct fuel; cbn; [done|]. rewrite Hi, Z.eqb_refl. done.
  - destruct fuel; [lia|]. cbn.
    destruct (Z.eqb_spec (UFOps.parentOf h i) i); [done|].
    apply IH. lia.
Qed.

Lemma rootOf_path h i r n : wfUF h -> UFpath h i r n -> rootOf h i = r.
Proof.
  intros Hwf H. destruct (Hwf i) as (r' & n' & H' & Hn').
  destruct (UFpath_det _ _ _ _ _ _ H H') as [-> ->].
  by apply (root_path h i r' n').
Qed.

Lemma wfUF_path h i : wfUF h -> exists n, UFpath h i (rootOf h i) n /\ (n <= length h)%nat.
Proof.
  intros Hwf. destruct (Hwf i) as (r & n & H & Hn).
  exists n. by rewrite (rootOf_path h i r n).
Qed.

Lemma relinked_refl h : relinked h h.
Proof. split; [done|]. intros j. by left. Qed.

Lemma relinked_path h h' j r n :
  relinked h h' -> UFpath h j r n -> exists n', UFpath h' j r n' /\ (n' <= n)%nat.
Proof.
  intros [_ Hrel] H. induction H as [i Hi|i r n Hi H IH].
  - exists 0%nat. split; [|done]. apply path_root.
    destruct (Hrel i) as [E|[m E]]; [congruence|].
    destruct (UFpath_det _ _ _ _ _ _ E (path_root h i Hi)) as [E' _]. done.
  - destruct (Hrel i) as [E|[m E]].
    + destruct IH as (n' & IH & Hn'). exists (S n'). split; [|lia].
      apply path_step; [congruence|]. by rewrite E.
    + destruct (UFpath_det _ _ _ _ _ _ E (path_step h i r n Hi H)) as [E' _].
      exists 1%nat. split; [|lia].
      assert (Hr : UFOps.parentOf h r = r) by (eapply UFpath_root_fixed; eauto).
      assert (Hr' : UFOps.parentOf h' r = r).
      { destruct (Hrel r) as [E2|[m2 E2]]; [congruence|].
        destruct (UFpath_det _ _ _ _ _ _ E2 (path_root h r Hr)) as [E3 _]. done. }
      apply path_step.
      * rewrite E'. intros ->. congruence.
      * rewrite E'. by apply path_root.
Qed.

Lemma relinked_wf h h' : wfUF h -> relinked h h' -> wfUF h'.
Proof.
  intros Hwf Hrel i. destruct (Hwf i) as (r & n & H & Hn).
  destruct (relinked_path _ _ _ _ _ Hrel H) as (n' & H' & Hn').
  exists r, n'. split; [done|]. destruct Hrel as [-> _]. lia.
Qed.

Lemma relinked_rootOf h h' i : wfUF h -> relinked h h' -> rootOf h' i = rootOf h i.
Proof.
  intros Hwf Hrel. destruct (wfUF_path h i Hwf) as (n & H & Hn).
  destruct (relinked_path _ _ _ _ _ Hrel H) as (n' & H' & Hn').
  apply (rootOf_path h' i _ n'); [by eapply relinked_wf|done].
Qed.

Lemma parentOf_upd h i (f : AtomicUF -> AtomicUF) j :
  UFOps.parentOf (Vec.upd i f h) j
  = if Z.eqb i j then match Vec.at_ h i with
                      | Some c => parent_ (f c)
                      | None => j
                      end
    else UFOps.parentOf h j.
Proof.
  unfold UFOps.parentOf. destruct (Z.eqb_spec i j) as [->|Hne].
  - destruct (Vec.at_ h j) as [c|] eqn:E.
    + by rewrite (at_upd_eq _ _ _ _ E).
    + rewrite upd_out; [by rewrite E|]. intros Hin.
      destruct (at_in_range _ _ Hin) as [x Hx]. congruence.
  - by rewrite at_upd_ne.
Qed.

(** An update that keeps the parent link of the element. *)
Lemma relinked_upd_same h i (f : AtomicUF -> AtomicUF) :
  (forall c, parent_ (f c) = parent_ c) -> relinked h (Vec.upd i f h).
Proof.
  intros Hf. split.
  - apply Nat2Z.inj. apply (size_upd h i f).
  - intros j. left. rewrite parentOf_upd.
    destruct (Z.eqb_spec i j) as [->|]; [|done].
    unfold UFOps.parentOf. destruct (Vec.at_ h j); [apply Hf|done].
Qed.

Lemma relinked_trans h1 h2 h3 :
  wfUF h1 -> relinked h1 h2 -> relinked h2 h3 ->
  length h3 = length h1 /\ wfUF h3 /\ forall i, rootOf h3 i = rootOf h1 i.
Proof.
  intros Hwf H12 H23.
  assert (Hwf2 : wfUF h2) by (by eapply relinked_wf).
  split; [destruct H12, H23; congruence|]. split; [by eapply relinked_wf|].
  intros i. rewrite (relinked_rootOf h2 h3), (relinked_rootOf h1 h2); done.
Qed.

(** [find] returns the representative and only moves parent links to
    representatives. *)
Lemma findFuel_spec h i r n fuel :
  UFpath h i r n -> (n <= fuel)%nat ->
  snd (UFOps.findFuel fuel h i) = r /\ relinked h (fst (UFOps.findFuel fuel h i)).
Proof.
  intros H. revert fuel. induction H as [i Hi|i r n Hi H IH]; intros fuel Hf.
  - destruct fuel; cbn; [split; [done|apply relinked_refl]|].
    rewrite Hi, Z.eqb_refl. split; [done|apply relinked_refl].
  - destruct fuel; [lia|]. cbn.
    destruct (Z.eqb_spec (UFOps.parentOf h i) i); [done|].
    destruct (IH fuel ltac:(lia)) as [Er Hrel].
    destruct (UFOps.findFuel fuel h (UFOps.parentOf h i)) as [h1 r1]. cbn in *. subst r1.
    split; [done|]. destruct Hrel as [Hlen Hrel]. split.
    + rewrite <- Hlen. apply Nat2Z.inj. apply (size_upd h1 i).
    + intros j. rewrite parentOf_upd.
      destruct (Z.eqb_spec i j) as [<-|Hne]; [|apply Hrel].
      destruct (Vec.at_ h1 i) as [c|] eqn:E.
      * right. exists (S n). cbn. by apply path_step.
      * exfalso. unfold UFOps.parentOf in Hi.
        destruct (Vec.at_ h i) eqn:E'; [|done].
        apply at_Some in E'.
        destruct (at_in_range h1 i) as [x Hx]; [unfold Vec.size in *; lia|congruence].
Qed.

Lemma find_spec h i :
  wfUF h ->
  snd (UFOps.find h i) = rootOf h i /\ relinked h (fst (UFOps.find h i)).
Proof.
  intros Hwf. destruct (wfUF_path h i Hwf) as (n & H & Hn).
  unfold UFOps.find. by apply (findFuel_spec h i _ n).
Qed.

(** The test [wfUFb] is sound. *)
Lemma root_fixed_path h fuel i :
  UFOps.parentOf h (UFOps.root fuel h i) = UFOps.root fuel h i ->
  exists n, UFpath h i (UFOps.root fuel h i) n /\ (n <= fuel)%nat.
Proof.
  revert i. induction fuel as [|fuel IH]; intros i; cbn.
  - intros Hi. exists 0%nat. split; [by apply path_root|done].
  - destruct (Z.eqb_spec (UFOps.parentOf h i) i) as [E|E].
    + intros _. exists 0%nat. split; [by apply path_root|lia].
    + intros Hr. destruct (IH _ Hr) as (n & H & Hn).
      exists (S n). split; [by apply path_step|lia].
Qed.

Lemma wfUFb_sound h : wfUFb h = true -> wfUF h.
Proof.
  unfold wfUFb. rewrite forallb_forall. intros Hb i.
  destruct (decide (0 <= i < Vec.size h)) as [Hin|Hout].
  - assert (Hi : In i (seqZ 0 (Vec.size h))).
    { apply list_elem_of_In, elem_of_seqZ. lia. }
    apply Hb, Z.eqb_eq in Hi.
    destruct (root_fixed_path h (length h) i Hi) as (n & H & Hn). eauto.
  - exists i, 0%nat. split; [|lia]. apply path_root.
    unfold UFOps.parentOf. by rewrite at_out.
Qed.

End UnionFind.

(** ** Propagation *)

Section Propage.

Variable mesh_ : Triangulation.

Lemma sameFronts_refl t : wfUF (ufHeap t) -> sameFronts t t.
Proof. intros H. by repeat split. Qed.

Lemma sameFronts_relinked t0 t t' :
  sameFronts t0 t -> relinked (ufHeap t) (ufHeap t') ->
  ufs t' = ufs t -> valences t' = valences t -> comp_ t' = comp_ t ->
  sameFronts t0 t'.
Proof.
  intros (Hwf & Hroot & Hu & Hv & Hc) Hrel Hu' Hv' Hc'.
  split; [by eapply relinked_wf|]. split.
  - intros i. rewrite <- Hroot. by apply relinked_rootOf.
  - split; [congruence|]. split; congruence.
Qed.

Lemma ufFind_spec t u :
  wfUF (ufHeap t) ->
  snd (ufFind t u) = rootOf (ufHeap t) u
  /\ relinked (ufHeap t) (ufHeap (fst (ufFind t u)))
  /\ ufs (fst (ufFind t u)) = ufs t
  /\ valences (fst (ufFind t u)) = valences t
  /\ comp_ (fst (ufFind t u)) = comp_ t.
Proof.
  intros Hwf. destruct (find_spec (ufHeap t) u Hwf) as [Hr Hrel].
  unfold ufFind. destruct (UFOps.find (ufHeap t) u) as [h r]. done.
Qed.

Lemma updFirstState_relinked u f t :
  relinked (ufHeap t) (ufHeap (updFirstState u f t)).
Proof. unfold updFirstState. cbn. by apply relinked_upd_same. Qed.

(** One neighbour of the loop: the classes stay, the saddle flag is raised
    by a lower neighbour of another class (or of none), the counter counts
    a lower neighbour of the class of [curUF]. *)
Lemma propageNeighbor_spec t0 owner curUF v n t bs decr :
  sameFronts t0 t ->
  let neigh := getVertexNeighbor mesh_ v n in
  let res := propageNeighbor mesh_ owner (rootOf (ufHeap t0) curUF) v n (t, bs, decr) in
  sameFronts t0 (fst (fst res))
  /\ snd (fst res) = (bs || (vertLower (comp_ t0) neigh v && negb (inClass t0 curUF neigh)))
  /\ snd res = decr + (if vertLower (comp_ t0) neigh v && inClass t0 curUF neigh
                       then 1 else 0).
Proof.
  intros Hsf neigh res. subst res. unfold propageNeighbor. fold neigh.
  pose proof Hsf as (Hwf & Hroot & Hu & Hv & Hc).
  rewrite Hc, Hu. unfold inClass.
  destruct (vertLower (comp_ t0) neigh v) eqn:Hlow; cbn [andb].
  - destruct (Vec.get None (ufs t0) neigh) as [u|] eqn:Eu.
    + destruct (ufFind_spec t u Hwf) as (Hr & Hrel & Hu' & Hv' & Hc').
      destruct (ufFind t u) as [t1 r]. cbn [fst snd] in *. subst r.
      rewrite Hroot.
      destruct (Z.eqb_spec (rootOf (ufHeap t0) u) (rootOf (ufHeap t0) curUF)); cbn.
      * split; [by eapply sameFronts_relinked|]. split; [by rewrite orb_false_r|done].
      * split; [by eapply sameFronts_relinked|]. split; [by rewrite orb_true_r|lia].
    + cbn. split; [done|]. split; [by rewrite orb_true_r|lia].
  - rewrite orb_false_r, Z.add_0_r.
    destruct (Vec.get None (propagation t) neigh) as [p|] eqn:Ep.
    + destruct (ufFind_spec t p Hwf) as (Hr & Hrel & Hu' & Hv' & Hc').
      destruct (ufFind t p) as [t1 r]. cbn [fst snd] in *.
      assert (Hsf1 : sameFronts t0 t1) by (by eapply sameFronts_relinked).
      destruct (negb (r =? rootOf (ufHeap t0) curUF)); cbn [fst snd]; [|done].
      split; [|done].
      eapply sameFronts_relinked; [exact Hsf1| |done..].
      cbn. apply (updFirstState_relinked owner _ t1).
    + cbn [fst snd]. split; [|done].
      eapply sameFronts_relinked; [exact Hsf| |done..].
      cbn. apply (updFirstState_relinked owner _ t).
Qed.

Lemma propage_loop t0 owner curUF v l t bs decr :
  sameFronts t0 t ->
  let nbs := map (getVertexNeighbor mesh_ v) l in
  let lower := List.filter (fun n => vertLower (comp_ t0) n v) nbs in
  let res := fold_left (fun acc n =>
               propageNeighbor mesh_ owner (rootOf (ufHeap t0) curUF) v n acc)
               l (t, bs, decr) in
  sameFronts t0 (fst (fst res))
  /\ snd (fst res) = (bs || existsb (fun n => negb (inClass t0 curUF n)) lower)
  /\ snd res = decr + Vec.size (List.filter (inClass t0 curUF) lower).
Proof.
  revert t bs decr. induction l as [|n l IH]; intros t bs decr Hsf.
  - cbn. split; [exact Hsf|]. split; [by rewrite orb_false_r|]. rewrite size_nil. lia.
  - cbn [fold_left map List.filter].
    destruct (propageNeighbor_spec t0 owner curUF v n t bs decr Hsf) as (H1 & H2 & H3).
    destruct (propageNeighbor mesh_ owner (rootOf (ufHeap t0) curUF) v n (t, bs, decr))
      as [[t1 bs1] d1]. cbn [fst snd] in H1, H2, H3.
    destruct (IH t1 bs1 d1 H1) as (I1 & I2 & I3). cbn zeta in I1, I2, I3.
    split; [exact I1|]. rewrite I2, I3, H2, H3.
    destruct (vertLower (comp_ t0) (getVertexNeighbor mesh_ v n) v);
      cbn [andb existsb List.filter].
    + destruct (inClass t0 curUF (getVertexNeighbor mesh_ v n));
        cbn [negb orb existsb List.filter].
      * rewrite orb_false_r. split; [done|].
        unfold Vec.size. cbn [length]. lia.
      * rewrite orb_true_r. split; [done|]. lia.
    + rewrite orb_false_r. split; [done|]. lia.
Qed.

(** C2. On an arena that is a forest, [propage] on the current vertex [v]
    of the state counts in [decr] the lower neighbours of [v] whose front
    is in the class of [curUF], captures the value of [valences[v]] and
    subtracts [decr] from it, and answers last exactly when the captured
    value is [decr].  It answers saddle exactly when some lower neighbour
    is in no class or in another one. *)
Theorem propage_last_arrival t owner curUF :
  wfUF (ufHeap t) ->
  let v := vertex (getFirstState t owner) in
  let decr := sameClassLower mesh_ t curUF v in
  let oldVal := Vec.get 0 (valences t) v in
  let res := propage mesh_ t owner curUF in
  snd res = (oldVal =? decr)
  /\ (snd res = true <-> oldVal = decr)
  /\ valences (fst (fst res)) = Vec.upd v (fun x => x - decr) (valences t)
  /\ snd (fst res) = otherClassLower mesh_ t curUF v.
Proof.
  intros Hwf v decr oldVal res. subst res. unfold propage. fold v.
  destruct (ufFind_spec t curUF Hwf) as (Hr & Hrel & Hu' & Hv' & Hc').
  destruct (ufFind t curUF) as [t0 curUFF]. cbn [fst snd] in *. subst curUFF.
  assert (Hsf : sameFronts t t0).
  { eapply sameFronts_relinked; [by apply sameFronts_refl|done..]. }
  unfold forRange. rewrite Z.sub_0_r.
  destruct (propage_loop t owner curUF v (seqZ 0 (getVertexNeighborNumber mesh_ v))
              t0 false 0 Hsf) as (L1 & L2 & L3).
  cbn zeta in L1, L2, L3.
  match goal with
  | |- context [fold_left ?f ?l ?a] => set (F := fold_left f l a) in *
  end.
  change (fold_left _ _ _) with F in L1, L2, L3.
  clearbody F. destruct F as [[t1 bs] d]. cbn [fst snd] in *.
  destruct L1 as (_ & _ & _ & Hval & _).
  assert (Hd : d = decr).
  { rewrite L3. unfold decr, sameClassLower, lowerNeighbors. lia. }
  cbn [valences set_valences]. rewrite !Hval, Hd. fold oldVal.
  split; [done|]. split; [apply Z.eqb_eq|]. split; [done|].
  rewrite L2. done.
Qed.

End Propage.

(** On the chain, the front of leaf 0 arrives on vertex 1 first (valence 2,
    one lower neighbour of its class), the front of leaf 2 last (valence 1
    left, one lower neighbour of its class). *)
Lemma propage_last_arrival_witness :
  (snd (propage Ex.chain5 (Ex.popped Ex.started 0) 0 0) = false
   /\ Vec.get 0 (valences (Ex.popped Ex.started 0)) 1 = 2
   /\ sameClassLower Ex.chain5 (Ex.popped Ex.started 0) 0 1 = 1
   /\ valences (fst (fst (propage Ex.chain5 (Ex.popped Ex.started 0) 0 0))) = [0; 1; 0; 2; 0])
  /\ (snd (propage Ex.chain5 (Ex.popped Ex.run0 2) 1 1) = true
      /\ Vec.get 0 (valences (Ex.popped Ex.run0 2)) 1 = 1
      /\ sameClassLower Ex.chain5 (Ex.popped Ex.run0 2) 1 1 = 1
      /\ valences (fst (fst (propage Ex.chain5 (Ex.popped Ex.run0 2) 1 1))) = [0; 0; 0; 2; 0]).
Proof.
  split.
  - destruct (propage_last_arrival Ex.chain5 (Ex.popped Ex.started 0) 0 0
                (wfUFb_sound (ufHeap (Ex.popped Ex.started 0))
                             ltac:(vm_compute; reflexivity))) as (A & _ & C & _).
    rewrite A, C. vm_compute. repeat split; reflexivity.
  - destruct (propage_last_arrival Ex.chain5 (Ex.popped Ex.run0 2) 1 1
                (wfUFb_sound (ufHeap (Ex.popped Ex.run0 2))
                             ltac:(vm_compute; reflexivity))) as (A & _ & C & _).
    rewrite A, C. vm_compute. repeat split; reflexivity.
Defined.

Lemma forRange_snoc {S} lo hi (body : Z -> S -> S) s :
  lo <= hi -> forRange lo (hi + 1) body s = body hi (forRange lo hi body s).
Proof.
  intros H. unfold forRange.
  replace (hi + 1 - lo) with ((hi - lo) + 1) by lia.
  rewrite seqZ_app by lia. rewrite fold_left_app.
  replace (lo + (hi - lo)) with hi by lia. done.
Qed.

Lemma forRange_split {S} lo mid hi (body : Z -> S -> S) s :
  lo <= mid <= hi ->
  forRange lo hi body s = forRange mid hi body (forRange lo mid body s).
Proof.
  intros H. unfold forRange.
  replace (hi - lo) with ((mid - lo) + (hi - mid)) by lia.
  rewrite seqZ_app by lia. rewrite fold_left_app.
  replace (lo + (mid - lo)) with mid by lia. done.
Qed.

(** The chunks [[c * cs, min n ((c + 1) * cs))], [c < k], run one after the
    other are the loop over [[0, min n (k * cs))]. *)
Lemma chunks_prefix {S} n cs (k : nat) (body : Z -> S -> S) s :
  0 < cs -> 0 <= n ->
  forRange 0 (Z.of_nat k)
           (fun c s' => forRange (c * cs) (Z.min n ((c + 1) * cs)) body s') s
  = forRange 0 (Z.min n (Z.of_nat k * cs)) body s.
Proof.
  intros Hcs Hn. induction k as [|k IH].
  - cbn. rewrite !forRange_empty by lia. done.
  - rewrite Nat2Z.inj_succ. unfold Z.succ.
    rewrite forRange_snoc by lia. rewrite IH.
    destruct (Z_le_gt_dec n (Z.of_nat k * cs)) as [Hle|Hgt].
    + rewrite forRange_empty by nia.
      replace (Z.min n ((Z.of_nat k + 1) * cs)) with (Z.min n (Z.of_nat k * cs)) by nia.
      done.
    + replace (Z.min n (Z.of_nat k * cs)) with (Z.of_nat k * cs) by lia.
      symmetry. apply forRange_split. nia.
Qed.

Lemma chunks_cover {S} n cs k (body : Z -> S -> S) s :
  0 < cs -> 0 <= n -> n <= k * cs ->
  forRange 0 k (fun c s' => forRange (c * cs) (Z.min n ((c + 1) * cs)) body s') s
  = forRange 0 n body s.
Proof.
  intros Hcs Hn Hk.
  assert (0 <= k) by nia.
  rewrite <- (Z2Nat.id k) at 1 by done.
  rewrite chunks_prefix by done. rewrite Z2Nat.id by done.
  by replace (Z.min n (k * cs)) with n by lia.
Qed.

(** ** Precompute *)

Section Precompute.

Variable cfg : Build.
Variable mesh_ : Triangulation.
Variable scalars_ : Scalars.

Lemma count_loop (p : Z -> bool) (l : list Z) (acc : Z) :
  fold_left (fun val n => if p n then val + 1 else val) l acc
  = acc + Vec.size (List.filter p l).
Proof.
  revert acc. induction l as [|n l IH]; intros acc; cbn.
  - rewrite size_nil. lia.
  - rewrite IH. destruct (p n); [|done].
    unfold Vec.size. cbn [length]. lia.
Qed.

(** The inner loop of [precompute] counts the lower neighbours. *)
Lemma precompute_count t v :
  forRange 0 (getVertexNeighborNumber mesh_ v)
           (fun n val => if vertLower (comp_ t) (getVertexNeighbor mesh_ v n) v
                         then val + 1 else val) 0
  = lowerCount mesh_ t v.
Proof.
  unfold forRange, lowerCount, lowerNeighbors. rewrite Z.sub_0_r.
  rewrite (count_loop (fun n => vertLower (comp_ t) (getVertexNeighbor mesh_ v n) v)).
  rewrite Z.add_0_l. unfold Vec.size. f_equal.
  induction (seqZ 0 (getVertexNeighborNumber mesh_ v)) as [|n l IH]; cbn; [done|].
  destruct (vertLower _ _ _); cbn; by rewrite IH.
Qed.

Lemma lowerCount_comp t t0 v :
  comp_ t = comp_ t0 -> lowerCount mesh_ t v = lowerCount mesh_ t0 v.
Proof. intros H. unfold lowerCount, lowerNeighbors. by rewrite H. Qed.

Lemma localMinima_succ t m :
  0 <= m ->
  localMinima mesh_ t (m + 1)
  = localMinima mesh_ t m ++ (if lowerCount mesh_ t m =? 0 then [m] else []).
Proof.
  intros Hm. unfold localMinima. rewrite seqZ_app by lia.
  rewrite List.filter_app. cbn. by rewrite Z.add_0_l.
Qed.

Lemma precomputeVertex_step t0 m t :
  0 <= m < scalars_size scalars_ ->
  Vec.size (valences t0) = scalars_size scalars_ ->
  Vec.size (vert2tree t0) = scalars_size scalars_ ->
  corresp t0 m = CNull ->
  precomputedUpTo cfg mesh_ t0 m t ->
  precomputedUpTo cfg mesh_ t0 (m + 1) (precomputeVertex cfg mesh_ scalars_ m t).
Proof.
  intros Hm Hsv Hs2 Hnull (Hc & Hv & H2 & Hval & Hnodes & Hcor & Hrest).
  unfold precomputeVertex. rewrite precompute_count.
  rewrite !(lowerCount_comp t t0 m Hc).
  assert (Hnn : isCorrespondingNode (set_valences (Vec.set m (lowerCount mesh_ t0 m)) t) m
                = false).
  { unfold isCorrespondingNode. change (corresp (set_valences _ t) m) with (corresp t m).
    rewrite (Hrest m) by lia. by rewrite Hnull. }
  destruct (Z.eqb_spec (lowerCount mesh_ t0 m) 0) as [Hz|Hnz].
  - rewrite makeNode_fresh by done. cbn [fst].
    unfold precomputedUpTo, updateCorrespondingNode, corresp. cbn.
    rewrite !size_set. split; [done|]. split; [done|]. split; [done|]. split.
    { intros v Hv'. destruct (Z.eq_dec v m) as [->|Hne].
      - rewrite get_set_eq by lia. done.
      - rewrite get_set_ne by done. apply Hval. lia. }
    split.
    { rewrite localMinima_succ by lia. rewrite Hz.
      change (0 =? 0) with true. cbv iota.
      rewrite List.map_app, Hnodes. reflexivity. }
    split.
    { intros v Hv'. destruct (Z.eq_dec v m) as [->|Hne].
      - rewrite get_set_eq by lia. split; [done|]. apply at_app_new.
      - rewrite get_set_ne by done.
        specialize (Hcor v ltac:(lia)). unfold corresp in Hcor.
        destruct (Vec.get CNull (vert2tree t) v) as [|id|a]; [done| |done].
        destruct Hcor as [Hz' Hat]. split; [done|].
        rewrite at_app_l; [done|]. by apply at_Some in Hat. }
    intros v Hv'. rewrite get_set_ne by lia. apply Hrest. lia.
  - unfold precomputedUpTo, corresp. cbn.
    rewrite !size_set. split; [done|]. split; [done|]. split; [done|]. split.
    { intros v Hv'. destruct (Z.eq_dec v m) as [->|Hne].
      - rewrite get_set_eq by lia. done.
      - rewrite get_set_ne by done. apply Hval. lia. }
    split.
    { rewrite localMinima_succ by lia.
      destruct (Z.eqb_spec (lowerCount mesh_ t0 m) 0); [done|].
      by rewrite app_nil_r. }
    split.
    { intros v Hv'. destruct (Z.eq_dec v m) as [->|Hne].
      - fold (corresp t m). rewrite (Hrest m) by lia. by rewrite Hnull.
      - apply Hcor. lia. }
    intros v Hv'. apply Hrest. lia.
Qed.

Lemma precompute_loop t0 (k : nat) :
  Z.of_nat k <= scalars_size scalars_ ->
  Vec.size (valences t0) = scalars_size scalars_ ->
  Vec.size (vert2tree t0) = scalars_size scalars_ ->
  nodes t0 = [] ->
  (forall v, 0 <= v < scalars_size scalars_ -> corresp t0 v = CNull) ->
  precomputedUpTo cfg mesh_ t0 (Z.of_nat k)
    (forRange 0 (Z.of_nat k) (precomputeVertex cfg mesh_ scalars_) t0).
Proof.
  intros Hk Hsv Hs2 Hn Hnull. induction k as [|k IH].
  - rewrite forRange_empty by done. unfold precomputedUpTo, localMinima. cbn.
    repeat split; try done; intros v Hv; lia.
  - rewrite Nat2Z.inj_succ. unfold Z.succ. rewrite forRange_snoc by lia.
    apply precomputeVertex_step; try done; [lia|apply Hnull; lia|apply IH; lia].
Qed.

(** C3. On a tree without nodes whose vertex to tree map is nil everywhere,
    with chunks that cover the vertices, [precompute] leaves in
    [valences[v]] the number of neighbours of [v] that are lower in sweep
    order, creates a node for [v] exactly when this number is zero (the
    nodes are the leaves, in vertex order), and fills the leaves list with
    the node ids [0, nbLeaves). *)
Theorem precompute_valences_leaves t :
  0 <= scalars_size scalars_ ->
  0 < getChunkSize cfg None None ->
  scalars_size scalars_ <= getChunkCount cfg None None * getChunkSize cfg None None ->
  Vec.size (valences t) = scalars_size scalars_ ->
  Vec.size (vert2tree t) = scalars_size scalars_ ->
  nodes t = [] ->
  (forall v, 0 <= v < scalars_size scalars_ -> corresp t v = CNull) ->
  let t' := fst (precompute cfg mesh_ scalars_ t) in
  (forall v, 0 <= v < scalars_size scalars_ ->
     Vec.get 0 (valences t') v = lowerCount mesh_ t v)
  /\ nodes t' = map (leafNodeOf cfg) (localMinima mesh_ t (scalars_size scalars_))
  /\ (forall v, 0 <= v < scalars_size scalars_ ->
        (isCorrespondingNode t' v = true <-> lowerCount mesh_ t v = 0)
        /\ (lowerCount mesh_ t v = 0 ->
            vertexId_ (getNode cfg t' (getCorrespondingNodeId t' v)) = v
            /\ 0 <= getCorrespondingNodeId t' v < getNumberOfNodes t'))
  /\ leaves t' = seqZ 0 (getNumberOfNodes t')
  /\ snd (precompute cfg mesh_ scalars_ t) = 0.
Proof.
  intros Hn Hcs Hcover Hsv Hs2 Hnodes Hnull t'.
  assert (Hpre : exists t1,
            precomputedUpTo cfg mesh_ t (scalars_size scalars_) t1
            /\ valences t' = valences t1 /\ nodes t' = nodes t1
            /\ vert2tree t' = vert2tree t1
            /\ leaves t' = seqZ 0 (Vec.size (nodes t1))
            /\ snd (precompute cfg mesh_ scalars_ t) = 0).
  { subst t'. unfold precompute, getNumberOfNodes. rewrite Hnodes, size_nil.
    change (0 =? 0) with true. cbv iota.
    rewrite chunks_cover by done.
    pose proof (precompute_loop t (Z.to_nat (scalars_size scalars_))) as Hloop.
    rewrite Z2Nat.id in Hloop by done.
    specialize (Hloop ltac:(lia) Hsv Hs2 Hnodes Hnull).
    eexists. split; [exact Hloop|].
    destruct (debugLevel_ cfg >=? 3); done. }
  destruct Hpre as (t1 & (Hc & Hv & H2 & Hval & Hnd & Hcor & Hrest) & E1 & E2 & E3 & E4 & E5).
  split; [intros v Hv'; rewrite E1; by apply Hval|].
  split; [by rewrite E2|]. split.
  - intros v Hv'. specialize (Hcor v Hv').
    unfold isCorrespondingNode, getCorrespondingNodeId, corresp, getNode, getNumberOfNodes.
    rewrite E3, E2. fold (corresp t1 v).
    destruct (corresp t1 v) as [|id|a]; [|destruct Hcor as [Hz Hat]|done].
    + split; [split; [done|by intros]|by intros].
    + split; [done|]. intros _. unfold Vec.get. rewrite Hat. cbn.
      split; [done|]. by apply at_Some in Hat.
  - split; [|done]. unfold getNumberOfNodes. by rewrite E2.
Qed.

End Precompute.

(** On the chain: the valences are [0, 2, 0, 2, 0], the leaves are the
    vertices 0, 2 and 4, and the leaves list is [0, 1, 2]. *)
Lemma precompute_valences_leaves_witness :
  nodes (fst (precompute (Ex.cfg false) Ex.chain5 Ex.sc (initComp Ex.sc (Ex.fresh Join 5))))
  = map (leafNodeOf (Ex.cfg false)) [0; 2; 4]
  /\ leaves (fst (precompute (Ex.cfg false) Ex.chain5 Ex.sc
                    (initComp Ex.sc (Ex.fresh Join 5))))
     = [0; 1; 2]
  /\ Vec.get 0 (valences (fst (precompute (Ex.cfg false) Ex.chain5 Ex.sc
                                 (initComp Ex.sc (Ex.fresh Join 5))))) 3
     = 2.
Proof.
  assert (Hnull : forall v, 0 <= v < scalars_size Ex.sc ->
                    corresp (initComp Ex.sc (Ex.fresh Join 5)) v = CNull).
  { intros v Hv.
    assert (Hcases : v = 0 \/ v = 1 \/ v = 2 \/ v = 3 \/ v = 4) by (cbn in Hv; lia).
    destruct Hcases as [->|[->|[->|[->| ->]]]]; reflexivity. }
  destruct (precompute_valences_leaves (Ex.cfg false) Ex.chain5 Ex.sc
              (initComp Ex.sc (Ex.fresh Join 5))
              ltac:(vm_compute; discriminate) eq_refl ltac:(vm_compute; discriminate)
              eq_refl eq_refl eq_refl Hnull)
    as (A & B & _ & D & _).
  split; [|split].
  - rewrite B. reflexivity.
  - rewrite D. unfold getNumberOfNodes. rewrite B. reflexivity.
  - rewrite A; [reflexivity|]. vm_compute. split; [discriminate|reflexivity].
Defined.

(** ** Sorting *)

Section Sorting.

Variable lt : Z -> Z -> bool.

Lemma insertBy_perm x l : insertBy lt x l ≡ₚ x :: l.
Proof.
  induction l as [|y l IH]; cbn; [done|].
  destruct (lt y x); [|done].
  rewrite IH. apply Permutation_swap.
Qed.

Lemma sortBy_perm l : sortBy lt l ≡ₚ l.
Proof.
  induction l as [|x l IH]; cbn; [done|].
  rewrite insertBy_perm. by rewrite IH.
Qed.

Lemma sortBy_length l : length (sortBy lt l) = length l.
Proof. apply Permutation_length, sortBy_perm. Qed.

Lemma sortedBy_cons x y l :
  sortedBy lt (x :: y :: l) = negb (lt y x) && sortedBy lt (y :: l).
Proof. done. Qed.

Lemma insertBy_sorted x l :
  asymmetric lt -> sortedBy lt l = true -> sortedBy lt (insertBy lt x l) = true.
Proof.
  intros Hasym. induction l as [|y l IH]; intros Hs; [done|].
  cbn [insertBy]. destruct (lt y x) eqn:E.
  - assert (Hl : sortedBy lt l = true).
    { destruct l; [done|]. rewrite sortedBy_cons in Hs.
      apply andb_true_iff in Hs as [_ Hs]. exact Hs. }
    specialize (IH Hl).
    destruct l as [|z l]; cbn [insertBy] in *.
    + cbn. by rewrite (Hasym _ _ E).
    + rewrite sortedBy_cons in Hs. apply andb_true_iff in Hs as [Hzy _].
      destruct (lt z x) eqn:E'.
      * rewrite sortedBy_cons, Hzy, IH. done.
      * rewrite sortedBy_cons, (Hasym _ _ E), IH. done.
  - rewrite sortedBy_cons, E, Hs. done.
Qed.

Lemma sortBy_sorted l : asymmetric lt -> sortedBy lt (sortBy lt l) = true.
Proof.
  intros Hasym. induction l as [|x l IH]; [done|].
  cbn. by apply insertBy_sorted.
Qed.

Lemma sortedBy_tail x l : sortedBy lt (x :: l) = true -> sortedBy lt l = true.
Proof.
  destruct l as [|y l]; [done|]. rewrite sortedBy_cons.
  by intros [_ H]%andb_true_iff.
Qed.

(** In a sorted list of distinct elements that the order compares, the
    head is before every other element. *)
Lemma sortedBy_head x l :
  transitiveOrder lt -> totalOn lt (x :: l) -> NoDup (x :: l) ->
  sortedBy lt (x :: l) = true -> forall y, y ∈ l -> lt x y = true.
Proof.
  intros Htrans. revert x. induction l as [|y l IH]; intros x Htot Hnd Hs z Hz.
  { by apply elem_of_nil in Hz. }
  rewrite sortedBy_cons in Hs. apply andb_true_iff in Hs as [Hyx Hs].
  apply NoDup_cons in Hnd as [Hx Hnd].
  assert (Hxy : lt x y = true).
  { destruct (Htot x y) as [H|H]; [by left|right; by left| |done|].
    - intros ->. apply Hx. by left.
    - by rewrite H in Hyx. }
  apply elem_of_cons in Hz as [->|Hz]; [done|].
  apply (Htrans x y z); [done|].
  apply IH; [|done|done|done].
  intros a b Ha Hb. apply Htot; by right.
Qed.

(** Two sorted lists of the same distinct elements are the same list. *)
Lemma sortedBy_unique l1 l2 :
  asymmetric lt -> transitiveOrder lt -> totalOn lt l1 -> NoDup l1 ->
  l1 ≡ₚ l2 -> sortedBy lt l1 = true -> sortedBy lt l2 = true -> l1 = l2.
Proof.
  intros Hasym Htrans. revert l2.
  induction l1 as [|x l1 IH]; intros l2 Htot Hnd Hperm H1 H2.
  { symmetry. by apply Permutation_nil. }
  destruct l2 as [|y l2].
  { symmetry in Hperm. by apply Permutation_nil_cons in Hperm. }
  assert (Htot2 : totalOn lt (y :: l2)).
  { intros a b Ha Hb. apply Htot; by rewrite Hperm. }
  assert (Hnd2 : NoDup (y :: l2)) by (by rewrite <- Hperm).
  destruct (Z.eq_dec x y) as [->|Hne].
  - f_equal. apply IH.
    + intros a b Ha Hb. apply Htot; by right.
    + by apply NoDup_cons in Hnd as [_ Hnd].
    + by apply Permutation_cons_inv in Hperm.
    + by apply sortedBy_tail in H1.
    + by apply sortedBy_tail in H2.
  - exfalso.
    assert (Hy : y ∈ l1).
    { assert (Hin : y ∈ x :: l1) by (rewrite Hperm; by left).
      apply elem_of_cons in Hin as [->|Hin]; done. }
    assert (Hx : x ∈ l2).
    { assert (Hin : x ∈ y :: l2) by (rewrite <- Hperm; by left).
      apply elem_of_cons in Hin as [->|Hin]; done. }
    pose proof (sortedBy_head x l1 Htrans Htot Hnd H1 y Hy) as Hxy.
    pose proof (sortedBy_head y l2 Htrans Htot2 Hnd2 H2 x Hx) as Hyx.
    apply Hasym in Hxy. congruence.
Qed.

End Sorting.

(** ** Loops that keep a property *)

Lemma forRange_keeps {S} (P : S -> Prop) lo hi (body : Z -> S -> S) s :
  (forall i s', lo <= i < hi -> P s' -> P (body i s')) ->
  P s -> P (forRange lo hi body s).
Proof.
  intros Hbody. unfold forRange.
  assert (Hl : forall i, i ∈ seqZ lo (hi - lo) -> lo <= i < hi).
  { intros i Hi%elem_of_seqZ. lia. }
  revert s Hl. induction (seqZ lo (hi - lo)) as [|i l IH]; intros s Hl Hs; cbn; [done|].
  apply IH.
  - intros j Hj. apply Hl, elem_of_cons. by right.
  - apply Hbody; [|done]. apply Hl, elem_of_cons. by left.
Qed.

(** A loop that writes entry [a] of a vector for every [a] of the range. *)
Lemma forRange_set_each (g : Z -> Z) (n : nat) (l : list Z) :
  Z.of_nat n <= Vec.size l ->
  let l' := forRange 0 (Z.of_nat n) (fun a acc => Vec.set a (g a) acc) l in
  Vec.size l' = Vec.size l
  /\ (forall a, 0 <= a < Z.of_nat n -> Vec.at_ l' a = Some (g a))
  /\ (forall a, Z.of_nat n <= a -> Vec.at_ l' a = Vec.at_ l a).
Proof.
  induction n as [|n IH]; intros Hn; cbn zeta.
  - rewrite forRange_empty by done. split; [done|]. split; [|done].
    intros a Ha. cbn in Ha. lia.
  - rewrite Nat2Z.inj_succ. unfold Z.succ. rewrite forRange_snoc by lia.
    destruct IH as (I1 & I2 & I3); [lia|].
    rewrite size_set. split; [done|]. split.
    + intros a Ha. destruct (Z.eq_dec a (Z.of_nat n)) as [->|Hne].
      * apply at_set_eq. lia.
      * rewrite at_set_ne by done. apply I2. lia.
    + intros a Ha. rewrite at_set_ne by lia. apply I3. lia.
Qed.

(** ** Segmentation *)

Section Segmentation.

Variable cfg : Build.
Variable scalars_ : Scalars.

Lemma size_replicate {A} (n : nat) (x : A) : Vec.size (replicate n x) = Z.of_nat n.
Proof. unfold Vec.size. by rewrite length_replicate. Qed.

Lemma at_replicate {A} (n : nat) (x : A) a :
  0 <= a < Z.of_nat n -> Vec.at_ (replicate n x) a = Some x.
Proof.
  intros Ha. unfold Vec.at_. destruct (Z.ltb_spec a 0); [lia|].
  apply lookup_replicate_2. lia.
Qed.

(** The first pass: one size per arc. *)
Lemma segmentSizes_spec t :
  0 < getChunkSize cfg (Some (getNumberOfSuperArcs t)) None ->
  getNumberOfSuperArcs t
  <= getChunkCount cfg (Some (getNumberOfSuperArcs t)) None
     * getChunkSize cfg (Some (getNumberOfSuperArcs t)) None ->
  forall a, 0 <= a < getNumberOfSuperArcs t ->
    Vec.at_ (segmentSizes cfg t) a = Some (segmentSizeOf cfg t a).
Proof.
  unfold getNumberOfSuperArcs. intros Hcs Hcover a Ha.
  unfold segmentSizes. cbv zeta.
  rewrite chunks_cover by (done || apply size_nonneg).
  pose proof (forRange_set_each (segmentSizeOf cfg t) (Z.to_nat (Vec.size (superArcs t)))
                (replicate (Z.to_nat (Vec.size (superArcs t))) 0)) as Hset.
  rewrite size_replicate in Hset. cbv zeta in Hset.
  rewrite Z2Nat.id in Hset by apply size_nonneg.
  destruct Hset as (_ & Hset & _); [lia|]. by apply Hset.
Qed.

Lemma resizeSegments_at sizes a s :
  Vec.at_ sizes a = Some s ->
  Vec.at_ (resizeSegments cfg sizes) a = Some (replicate (Z.to_nat s) (segmentFill cfg)).
Proof.
  unfold Vec.at_, resizeSegments. destruct (a <? 0); [done|].
  intros H. change (map ?f ?l) with (f <$> l). by rewrite list_lookup_fmap, H.
Qed.

Lemma arcVertices_succ t a m :
  0 <= m ->
  arcVertices scalars_ t a (m + 1)
  = arcVertices scalars_ t a m
    ++ (match corresp t (Vec.get 0 (sortedVertices scalars_) m) with
        | CArc b => if b =? a then [Vec.get 0 (sortedVertices scalars_) m] else []
        | _ => []
        end).
Proof.
  intros Hm. unfold arcVertices. rewrite seqZ_app by lia.
  rewrite List.map_app, List.filter_app. f_equal.
  rewrite Z.add_0_l. change (seqZ m 1) with [m]. cbn [map List.filter].
  destruct (corresp t (Vec.get 0 (sortedVertices scalars_) m)) as [|n|b]; [done|done|].
  by destruct (b =? a).
Qed.

(** The second pass, vertex by vertex. *)
Lemma fillSegment_step t0 m st :
  0 <= m ->
  filledUpTo cfg scalars_ t0 m st ->
  filledUpTo cfg scalars_ t0 (m + 1) (fillSegment scalars_ m st).
Proof.
  intros Hm (Hv2t & Harcs & Hinv). destruct st as [t pos]. cbn [fst snd] in *.
  unfold fillSegment, isCorrespondingArc, getCorrespondingSuperArcId, corresp.
  rewrite Hv2t. fold (corresp t0 (Vec.get 0 (sortedVertices scalars_) m)).
  set (vert := Vec.get 0 (sortedVertices scalars_) m).
  destruct (corresp t0 vert) as [|n|sa] eqn:Ec.
  - split; [done|]. split; [done|]. intros a Ha.
    rewrite arcVertices_succ by done. fold vert. rewrite Ec, app_nil_r. by apply Hinv.
  - split; [done|]. split; [done|]. intros a Ha.
    rewrite arcVertices_succ by done. fold vert. rewrite Ec, app_nil_r. by apply Hinv.
  - split; [done|]. split; [done|]. intros a Ha. cbn [fst snd segments_ set_segments_].
    rewrite arcVertices_succ by done. fold vert. rewrite Ec.
    destruct (Hinv a Ha) as (Hpos & seg & Hseg & Hsize & Hcontent & Hrest).
    destruct (Z.eqb_spec sa a) as [->|Hne].
    + rewrite (at_upd_eq _ _ _ _ Hpos), (at_upd_eq _ _ _ _ Hseg).
      rewrite size_app. split; [done|].
      eexists. split; [done|]. rewrite size_set. split; [done|].
      assert (Eg : Vec.get 0 pos a = Vec.size (arcVertices scalars_ t0 a m))
        by (unfold Vec.get; by rewrite Hpos).
      rewrite Eg. change (Vec.size [vert]) with 1. split.
      * intros k Hk Hroom.
        destruct (Z.eq_dec k (Vec.size (arcVertices scalars_ t0 a m))) as [->|Hlt].
        -- rewrite at_set_eq by (split; [apply size_nonneg|lia]).
           by rewrite at_app_new.
        -- rewrite at_set_ne by done. rewrite at_app_l by lia. apply Hcontent; lia.
      * intros k Hk. rewrite at_set_ne by lia. apply Hrest. lia.
    + rewrite !at_upd_ne by done. rewrite app_nil_r. split; [done|].
      exists seg. done.
Qed.

Lemma fillSegments_loop t0 st (k : nat) :
  filledUpTo cfg scalars_ t0 0 st ->
  filledUpTo cfg scalars_ t0 (Z.of_nat k) (forRange 0 (Z.of_nat k) (fillSegment scalars_) st).
Proof.
  intros H0. induction k as [|k IH].
  - by rewrite forRange_empty.
  - rewrite Nat2Z.inj_succ. unfold Z.succ. rewrite forRange_snoc by lia.
    apply fillSegment_step; [lia|done].
Qed.

(** The last pass leaves the segments as they are. *)
Lemma updateRegions_segments t : segments_ (updateRegions cfg t) = segments_ t.
Proof.
  unfold updateRegions. cbv zeta.
  apply (forRange_keeps (fun s => segments_ s = segments_ t)); [|done].
  intros c s _ Hs.
  apply (forRange_keeps (fun s => segments_ s = segments_ t)); [|done].
  intros a s' _ Hs'.
  by destruct (negb (Vec.size (Vec.get [] (segments_ s') a) =? 0)).
Qed.

(** The last pass of the segmentation, arc by arc. *)
Lemma updateRegions_loop t (k : nat) :
  Z.of_nat k <= Vec.size (superArcs t) ->
  let body := fun a t'' =>
    if negb (Vec.size (Vec.get [] (segments_ t'') a) =? 0)
    then set_superArcs (Vec.upd a (ArcOps.concat (Vec.get [] (segments_ t'') a))) t''
    else t'' in
  let t' := forRange 0 (Z.of_nat k) body t in
  segments_ t' = segments_ t
  /\ Vec.size (superArcs t') = Vec.size (superArcs t)
  /\ (forall a, 0 <= a < Z.of_nat k ->
        region_ (getSuperArc cfg t' a)
        = region_ (getSuperArc cfg t a)
          ++ (if Vec.size (Vec.get [] (segments_ t) a) =? 0 then []
              else [Vec.get [] (segments_ t) a]))
  /\ (forall a, Z.of_nat k <= a -> getSuperArc cfg t' a = getSuperArc cfg t a).
Proof.
  intros Hk body. induction k as [|k IH]; cbv zeta.
  - rewrite forRange_empty by lia. split; [done|]. split; [done|]. split; [lia|done].
  - rewrite Nat2Z.inj_succ. unfold Z.succ. rewrite forRange_snoc by lia.
    destruct IH as (I1 & I2 & I3 & I4); [lia|].
    set (tk := forRange 0 (Z.of_nat k) body t) in *.
    assert (Eb : body (Z.of_nat k) tk
                 = if negb (Vec.size (Vec.get [] (segments_ t) (Z.of_nat k)) =? 0)
                   then set_superArcs
                          (Vec.upd (Z.of_nat k)
                             (ArcOps.concat (Vec.get [] (segments_ t) (Z.of_nat k)))) tk
                   else tk).
    { unfold body. by rewrite I1. }
    rewrite Eb. clear Eb.
    destruct (Z.eqb_spec (Vec.size (Vec.get [] (segments_ t) (Z.of_nat k))) 0) as [E|E];
      cbn [negb].
    + split; [done|]. split; [done|]. split.
      * intros a Ha. destruct (Z.eq_dec a (Z.of_nat k)) as [->|Hne].
        -- rewrite I4 by lia. rewrite E. cbn. by rewrite app_nil_r.
        -- apply I3. lia.
      * intros a Ha. apply I4. lia.
    + split; [done|]. split; [cbn; by rewrite size_upd|]. split.
      * intros a Ha. unfold getSuperArc. cbn [superArcs set_superArcs].
        destruct (Z.eq_dec a (Z.of_nat k)) as [->|Hne].
        -- rewrite get_upd_eq by lia. cbn [region_ ArcOps.concat].
           fold (getSuperArc cfg tk (Z.of_nat k)). rewrite I4 by lia.
           by destruct (Z.eqb_spec (Vec.size (Vec.get [] (segments_ t) (Z.of_nat k))) 0).
        -- rewrite get_upd_ne by done. apply I3. lia.
      * intros a Ha. unfold getSuperArc. cbn [superArcs set_superArcs].
        rewrite get_upd_ne by lia. apply I4. lia.
Qed.

(** The region of an arc after the segmentation: its final segment, as one
    more vertex list, when that is not empty. *)
Lemma buildSegmentation_region t a :
  0 < getChunkSize cfg (Some (getNumberOfSuperArcs t)) None ->
  getNumberOfSuperArcs t
  <= getChunkCount cfg (Some (getNumberOfSuperArcs t)) None
     * getChunkSize cfg (Some (getNumberOfSuperArcs t)) None ->
  0 <= a < getNumberOfSuperArcs t ->
  let t' := buildSegmentation cfg scalars_ t in
  let segment := Vec.get [] (segments_ t') a in
  region_ (getSuperArc cfg t' a)
  = region_ (getSuperArc cfg t a) ++ (if Vec.size segment =? 0 then [] else [segment]).
Proof.
  intros Hcs Hcover Ha t' segment. subst t' segment.
  unfold buildSegmentation. cbv zeta.
  set (t3 := printTime cfg scalars_ "segm. sort verts" (-1) 3 _).
  assert (A3 : superArcs t3 = superArcs t).
  { unfold t3. timings. cbn [superArcs set_segments_ log set_console].
    unfold fillSegments. cbv zeta.
    apply (forRange_keeps (fun st => superArcs st.1 = superArcs t)); [|done].
    intros c st _ Hst.
    apply (forRange_keeps (fun st => superArcs st.1 = superArcs t)); [|done].
    intros i [tc pos] _ Hc. unfold fillSegment. by destruct (isCorrespondingArc tc _). }
  rewrite updateRegions_segments.
  unfold updateRegions. cbv zeta. unfold getNumberOfSuperArcs in *. rewrite A3.
  rewrite chunks_cover by (done || apply size_nonneg).
  pose proof (updateRegions_loop t3 (Z.to_nat (Vec.size (superArcs t)))) as L.
  rewrite Z2Nat.id in L by apply size_nonneg. rewrite A3 in L.
  destruct L as (_ & _ & L & _); [lia|].
  rewrite (L a Ha). unfold getSuperArc. by rewrite A3.
Qed.

(** Two loops that run side by side. *)
Lemma forRange_rel {S} (R : S -> S -> Prop) lo hi (body1 body2 : Z -> S -> S) s1 s2 :
  (forall i x y, R x y -> R (body1 i x) (body2 i y)) ->
  R s1 s2 -> R (forRange lo hi body1 s1) (forRange lo hi body2 s2).
Proof.
  intros Hbody. unfold forRange. revert s1 s2.
  induction (seqZ lo (hi - lo)) as [|i l IH]; intros s1 s2 Hs; cbn; [done|].
  apply IH. by apply Hbody.
Qed.

(** The second pass reads the vertex to tree map, the segments and the
    number of super-arcs, and nothing else of the tree. *)
Lemma fillSegments_reads t1 t2 :
  vert2tree t2 = vert2tree t1 -> segments_ t2 = segments_ t1 ->
  Vec.size (superArcs t2) = Vec.size (superArcs t1) ->
  segments_ (fillSegments cfg scalars_ t2) = segments_ (fillSegments cfg scalars_ t1).
Proof.
  intros Hv Hs Hn. unfold fillSegments. cbv zeta. rewrite Hn.
  set (R := fun st2 st1 : MergeTree * list Z =>
              vert2tree st2.1 = vert2tree st1.1 /\ segments_ st2.1 = segments_ st1.1
              /\ st2.2 = st1.2).
  assert (H : R (forRange 0 (getChunkCount cfg None None) (fun chunkId st =>
                   forRange (chunkId * getChunkSize cfg None None)
                            (Z.min (scalars_size scalars_)
                                   ((chunkId + 1) * getChunkSize cfg None None))
                            (fillSegment scalars_) st)
                   (t2, replicate (Z.to_nat (Vec.size (superArcs t1))) 0))
                (forRange 0 (getChunkCount cfg None None) (fun chunkId st =>
                   forRange (chunkId * getChunkSize cfg None None)
                            (Z.min (scalars_size scalars_)
                                   ((chunkId + 1) * getChunkSize cfg None None))
                            (fillSegment scalars_) st)
                   (t1, replicate (Z.to_nat (Vec.size (superArcs t1))) 0))).
  { apply forRange_rel; [|done]. intros c x y Hxy. apply forRange_rel; [|done].
    intros i [x1 p1] [y1 p1'] (X1 & X2 & X3). cbn [fst snd] in *. subst p1'.
    unfold fillSegment, isCorrespondingArc, getCorrespondingSuperArcId, corresp.
    rewrite X1. destruct (Vec.get CNull (vert2tree y1) _); [done|done|].
    split; [done|]. split; [|done]. cbn [fst segments_ set_segments_]. by rewrite X2. }
  apply H.
Qed.

(** A segment by its parts. *)
Lemma segment_parts (seg own : list idVertex) (fill : idVertex) :
  Vec.size own <= Vec.size seg ->
  (forall k, 0 <= k < Vec.size own -> Vec.at_ seg k = Vec.at_ own k) ->
  (forall k, Vec.size own <= k < Vec.size seg -> Vec.at_ seg k = Some fill) ->
  seg = own ++ replicate (Z.to_nat (Vec.size seg - Vec.size own)) fill.
Proof.
  unfold Vec.size, Vec.at_. intros Hroom Hown Hfill. apply list_eq. intros i.
  destruct (decide (i < length own)%nat) as [Hi|Hi].
  - rewrite lookup_app_l by done.
    specialize (Hown (Z.of_nat i) ltac:(lia)).
    destruct (Z.ltb_spec (Z.of_nat i) 0); [lia|]. by rewrite Nat2Z.id in Hown.
  - rewrite lookup_app_r by lia.
    destruct (decide (i < length seg)%nat) as [Hs|Hs].
    + specialize (Hfill (Z.of_nat i) ltac:(lia)).
      destruct (Z.ltb_spec (Z.of_nat i) 0); [lia|]. rewrite Nat2Z.id in Hfill.
      rewrite Hfill. symmetry. apply lookup_replicate_2. lia.
    + rewrite lookup_ge_None_2 by lia. symmetry. apply lookup_ge_None_2.
      rewrite length_replicate. lia.
Qed.

(** C6, as the code has it.  With chunks that cover the arcs and the
    vertices: the segment of every arc [a] is allocated to size
    [max 0 (visit count of a - 1)]; the second pass writes the vertices
    whose vertex to tree entry is [a], in the order of the scan of the
    sorted vertices, at the positions 0, 1, ... of the segment, as far as
    the segment has room, and leaves the other positions as allocated: a
    segment with room holds the vertices of its arc and then what is left
    of the allocation, a segment of their number holds exactly them.  The
    segments are then what the sort of the segments makes of them and of
    the scalars: it does not receive the comparator of the sweep, and a
    tree of another type or with another comparator, with the same
    super-arcs and the same vertex to tree map, gets the same segments.
    The region of the arc receives the sorted segment when that is not
    empty. *)
Theorem buildSegmentation_regions t a :
  0 <= scalars_size scalars_ ->
  0 < getChunkSize cfg None None ->
  scalars_size scalars_ <= getChunkCount cfg None None * getChunkSize cfg None None ->
  0 < getChunkSize cfg (Some (getNumberOfSuperArcs t)) None ->
  getNumberOfSuperArcs t
  <= getChunkCount cfg (Some (getNumberOfSuperArcs t)) None
     * getChunkSize cfg (Some (getNumberOfSuperArcs t)) None ->
  0 <= a < getNumberOfSuperArcs t ->
  let sized := set_segments_ (fun _ => resizeSegments cfg (segmentSizes cfg t)) t in
  let filled := fillSegments cfg scalars_ sized in
  let own := arcVertices scalars_ t a (scalars_size scalars_) in
  let t' := buildSegmentation cfg scalars_ t in
  let sorted := Vec.get [] (segments_ t') a in
  Vec.at_ (segments_ sized) a
  = Some (replicate (Z.to_nat (segmentSizeOf cfg t a)) (segmentFill cfg))
  /\ (exists seg,
        Vec.at_ (segments_ filled) a = Some seg
        /\ Vec.size seg = segmentSizeOf cfg t a
        /\ (forall k, 0 <= k < Vec.size own -> k < segmentSizeOf cfg t a ->
              Vec.at_ seg k = Vec.at_ own k)
        /\ (forall k, Vec.size own <= k < segmentSizeOf cfg t a ->
              Vec.at_ seg k = Some (segmentFill cfg))
        /\ (Vec.size own <= segmentSizeOf cfg t a ->
            seg = own ++ replicate (Z.to_nat (segmentSizeOf cfg t a - Vec.size own))
                                   (segmentFill cfg))
        /\ (Vec.size own = segmentSizeOf cfg t a -> seg = own))
  /\ segments_ t' = segmentsSortAll cfg scalars_ (segments_ filled)
  /\ (forall t2, superArcs t2 = superArcs t -> vert2tree t2 = vert2tree t ->
        segments_ (buildSegmentation cfg scalars_ t2) = segments_ t')
  /\ region_ (getSuperArc cfg t' a)
     = region_ (getSuperArc cfg t a) ++ (if Vec.size sorted =? 0 then [] else [sorted]).
Proof.
  intros Hn Hcs Hcover Hacs Hacover Ha sized filled own t' sorted.
  assert (Hsized : forall b, 0 <= b < getNumberOfSuperArcs t ->
            Vec.at_ (segments_ sized) b
            = Some (replicate (Z.to_nat (segmentSizeOf cfg t b)) (segmentFill cfg))).
  { intros b Hb. subst sized. cbn [segments_ set_segments_].
    apply resizeSegments_at. by apply segmentSizes_spec. }
  split; [by apply Hsized|].
  assert (H0 : filledUpTo cfg scalars_ t 0
                 (sized, replicate (Z.to_nat (Vec.size (superArcs sized))) 0)).
  { split; [done|]. split; [done|]. intros b Hb. cbn [fst snd].
    change (arcVertices scalars_ t b 0) with (@nil Z). rewrite (@size_nil Z).
    split.
    - apply at_replicate. change (superArcs sized) with (superArcs t).
      rewrite Z2Nat.id by apply size_nonneg. done.
    - eexists. split; [by apply Hsized|]. split.
      + rewrite size_replicate. apply Z2Nat.id. unfold segmentSizeOf. lia.
      + split; [intros k Hk; lia|]. intros k Hk. apply at_replicate.
        rewrite Z2Nat.id by (unfold segmentSizeOf; lia). done. }
  assert (Hfilled : filledUpTo cfg scalars_ t (scalars_size scalars_)
                      (forRange 0 (scalars_size scalars_) (fillSegment scalars_)
                         (sized, replicate (Z.to_nat (Vec.size (superArcs sized))) 0))).
  { pose proof (fillSegments_loop t _ (Z.to_nat (scalars_size scalars_)) H0) as Hl.
    by rewrite Z2Nat.id in Hl. }
  destruct Hfilled as (_ & _ & Hinv).
  destruct (Hinv a Ha) as (_ & seg & Hseg & Hsize & Hcontent & Hrest).
  assert (Efilled : filled = fst (forRange 0 (scalars_size scalars_) (fillSegment scalars_)
                         (sized, replicate (Z.to_nat (Vec.size (superArcs sized))) 0))).
  { subst filled. unfold fillSegments. cbv zeta. by rewrite chunks_cover. }
  assert (Hparts : Vec.size own <= segmentSizeOf cfg t a ->
            seg = own ++ replicate (Z.to_nat (segmentSizeOf cfg t a - Vec.size own))
                                   (segmentFill cfg)).
  { intros Hroom. rewrite <- Hsize. apply segment_parts.
    - by rewrite Hsize.
    - intros k Hk. apply Hcontent; [done|]. fold own. lia.
    - intros k Hk. apply Hrest. fold own. lia. }
  split.
  { exists seg. rewrite Efilled. split; [done|]. split; [done|]. split; [done|].
    split; [done|]. split; [done|].
    intros Hfit. rewrite Hparts by lia. rewrite Hfit, Z.sub_diag. apply app_nil_r. }
  assert (Hsegs : forall x,
            segments_ (buildSegmentation cfg scalars_ x)
            = segmentsSortAll cfg scalars_
                (segments_ (fillSegments cfg scalars_
                   (set_segments_ (fun _ => resizeSegments cfg (segmentSizes cfg x)) x)))).
  { intros x. unfold buildSegmentation. cbv zeta. rewrite updateRegions_segments.
    timings. done. }
  split; [apply Hsegs|]. split.
  { intros t2 Harcs Hv2t. unfold t'. rewrite !Hsegs. f_equal.
    apply fillSegments_reads; [done| |cbn [superArcs set_segments_]; by rewrite Harcs].
    cbn [segments_ set_segments_]. unfold segmentSizes. by rewrite Harcs. }
  by apply buildSegmentation_region.
Qed.

End Segmentation.

Lemma isLower_scMono_asymmetric : asymmetric (isLower Ex.scMono).
Proof. intros a b H. cbn in *. lia. Qed.

(** The join tree of the chain with two wells: the arc of the leaf on
    vertex 5 has visit count 3, so its segment two entries; the vertices of
    the arc are 4 and 3, in the order of the scan; they fill the segment,
    and the ascending sort of the example leaves them in that order in the
    region. *)
Lemma buildSegmentation_regions_witness :
  Ex.wells = default Ex.wells (build (Ex.cfg false) Ex.chain6 Ex.sc6 20 (Ex.fresh Join 6) false)
  /\ map ArcOps.getNbVertSeen (superArcs Ex.wells) = [2; 3; 1]
  /\ arcVertices Ex.sc6 Ex.wells 1 6 = [4; 3]
  /\ Vec.at_ (segments_ (fillSegments (Ex.cfg false) Ex.sc6
                           (set_segments_
                              (fun _ => resizeSegments (Ex.cfg false)
                                          (segmentSizes (Ex.cfg false) Ex.wells))
                              Ex.wells))) 1
     = Some [4; 3]
  /\ region_ (getSuperArc (Ex.cfg false)
                 (buildSegmentation (Ex.cfg false) Ex.sc6 Ex.wells) 1)
     = [[4; 3]].
Proof.
  destruct (buildSegmentation_regions (Ex.cfg false) Ex.sc6 Ex.wells 1
              ltac:(vm_compute; discriminate) eq_refl ltac:(vm_compute; discriminate)
              eq_refl ltac:(vm_compute; discriminate)
              ltac:(vm_compute; split; [discriminate|reflexivity]))
    as (_ & (seg & Hseg & _ & _ & _ & _ & Hfit) & _ & _ & Hreg).
  split; [vm_compute; reflexivity|]. split; [vm_compute; reflexivity|].
  split; [vm_compute; reflexivity|]. split.
  - rewrite Hseg, Hfit; vm_compute; reflexivity.
  - rewrite Hreg. vm_compute. reflexivity.
Defined.

(** The segmentation is the last step of [build]. *)
Lemma build_segmentation cfg mesh_ scalars_ fuel t t' :
  build cfg mesh_ scalars_ fuel t false = Some t' ->
  build cfg mesh_ scalars_ fuel t true
  = Some (printTime cfg scalars_ (String.append "6 segmentation " (treeString t))
            (scalars_size scalars_) (printTimeLevel cfg)
            (buildSegmentation cfg scalars_ t')).
Proof.
  unfold build. cbv zeta.
  destruct (precompute cfg mesh_ scalars_ (initComp scalars_ t)) as [t1 d].
  destruct (leaves_ cfg mesh_ scalars_ fuel _) as [t2|]; [|done].
  destruct (trunk cfg mesh_ scalars_ _) as [t3 bb]. by intros [= <-].
Qed.

(** The segmentation leaves the comparator as it is. *)
Lemma updateRegions_comp cfg t : comp_ (updateRegions cfg t) = comp_ t.
Proof.
  unfold updateRegions. cbv zeta.
  apply (forRange_keeps (fun s => comp_ s = comp_ t)); [|done].
  intros c s _ Hs.
  apply (forRange_keeps (fun s => comp_ s = comp_ t)); [|done].
  intros a s' _ Hs'.
  by destruct (negb (Vec.size (Vec.get [] (segments_ s') a) =? 0)).
Qed.

(** The build of the increasing chain with the sort [srt]: the segments are
    what [srt] makes of the one region [1, 2, 3], for a split tree as for a
    join tree, and the comparator is the one of the tree type. *)
Lemma build_mono_segments srt ty :
  exists t',
    build (Ex.cfgWith false srt) Ex.chain5 Ex.scMono 10 (Ex.fresh ty 5) true = Some t'
    /\ segments_ t' = srt Ex.scMono [[1; 2; 3]]
    /\ comp_ t' = comp_ (initComp Ex.scMono (Ex.fresh ty 5)).
Proof.
  destruct ty.
  all: eexists; split; [apply build_segmentation; vm_compute; reflexivity|].
  all: unfold buildSegmentation; cbv zeta.
  all: rewrite !printTime_quiet by reflexivity.
  all: rewrite updateRegions_segments, updateRegions_comp.
  all: cbn [segments_ comp_ set_segments_]; unfold sortAll.
  all: cbn [segmentsSortAll Ex.cfgWith].
  all: split; [f_equal|]; vm_compute; reflexivity.
Qed.

(** No list that holds 1, 2 and 3 once each is sorted by both orders of the
    increasing chain. *)
Lemma not_both_orders r :
  r ≡ₚ [1; 2; 3] ->
  sortedBy (isLower Ex.scMono) r && sortedBy (isHigher Ex.scMono) r = false.
Proof.
  intros Hperm. pose proof (Permutation_length Hperm) as Hlen.
  destruct r as [|a [|b [|c [|]]]]; try discriminate Hlen. clear Hlen.
  assert (Hnd : NoDup [a; b; c]).
  { rewrite Hperm. apply (bool_decide_unpack _). vm_compute. exact I. }
  assert (Ha : a ∈ [1; 2; 3]) by (rewrite <- Hperm; left).
  assert (Hb : b ∈ [1; 2; 3]) by (rewrite <- Hperm; right; left).
  assert (Hc : c ∈ [1; 2; 3]) by (rewrite <- Hperm; right; right; left).
  clear Hperm. rewrite !elem_of_cons, elem_of_nil in Ha, Hb, Hc.
  destruct Ha as [->|[->|[->|[]]]], Hb as [->|[->|[->|[]]]], Hc as [->|[->|[->|[]]]];
    first [ vm_compute; reflexivity
          | exfalso; revert Hnd; apply (bool_decide_unpack (¬ _)); vm_compute; exact I ].
Qed.

(** The split tree of the increasing chain sweeps the vertices from 4 down
    to 0; the region of its arc is [1, 2, 3] with the ascending sort:
    against the sweep order.  And whatever the sort of the segments makes of
    the scalars and the segments it receives, the join tree and the split
    tree of the chain hand it the same segments and get the same regions,
    while their sweep orders are opposite: a region that holds the vertices
    1, 2 and 3 of the arc is not in sweep order in both. *)
Lemma buildSegmentation_split_counterexample :
  (exists t',
     build (Ex.cfg false) Ex.chain5 Ex.scMono 10 (Ex.fresh Split 5) true = Some t'
     /\ treeType t' = Split
     /\ segments_ t' = [[1; 2; 3]]
     /\ map region_ (superArcs t') = [[[1; 2; 3]]]
     /\ vertLower (comp_ t') 3 1 = true
     /\ sortedBy (vertLower (comp_ t')) [1; 2; 3] = false
     /\ sortedBy (isLower Ex.scMono) [1; 2; 3] = true)
  /\ (forall srt, exists tj ts,
        build (Ex.cfgWith false srt) Ex.chain5 Ex.scMono 10 (Ex.fresh Join 5) true = Some tj
        /\ build (Ex.cfgWith false srt) Ex.chain5 Ex.scMono 10 (Ex.fresh Split 5) true
           = Some ts
        /\ segments_ tj = segments_ ts
        /\ forall r, Vec.at_ (segments_ tj) 0 = Some r -> r ≡ₚ [1; 2; 3] ->
             sortedBy (vertLower (comp_ tj)) r && sortedBy (vertLower (comp_ ts)) r = false).
Proof.
  split.
  - eexists. split; [vm_compute; reflexivity|].
    repeat split; vm_compute; reflexivity.
  - intros srt.
    destruct (build_mono_segments srt Join) as (tj & Hj & Sj & Cj).
    destruct (build_mono_segments srt Split) as (ts & Hs & Ss & Cs).
    exists tj, ts. split; [done|]. split; [done|]. split; [congruence|].
    intros r _ Hperm. rewrite Cj, Cs. by apply not_both_orders.
Qed.

(** ** Trunk *)

Section Skeleton.

Variable cfg : Build.
Variable mesh_ : Triangulation.
Variable scalars_ : Scalars.

Lemma sameSkeleton_refl t : sameSkeleton t t.
Proof. by repeat split. Qed.

Lemma sameSkeleton_trans t1 t2 t3 :
  sameSkeleton t1 t2 -> sameSkeleton t2 t3 -> sameSkeleton t1 t3.
Proof.
  intros (A1 & A2 & A3 & A4 & A5) (B1 & B2 & B3 & B4 & B5).
  repeat split; congruence.
Qed.

Lemma map_upd_keeps {A B} (g : A -> B) (f : A -> A) i (l : list A) :
  (forall x, g (f x) = g x) -> map g (Vec.upd i f l) = map g l.
Proof.
  intros Hf. unfold Vec.upd. destruct (Vec.at_ l i) as [x|] eqn:E; [|done].
  unfold Vec.set, Vec.at_ in *. destruct (i <? 0); [done|].
  change (map g ?l) with (g <$> l).
  rewrite list_fmap_insert, Hf.
  apply list_insert_id. by rewrite list_lookup_fmap, E.
Qed.

Lemma nodeVerts_upd_down i a t :
  nodeVerts (set_nodes (Vec.upd i (NodeOps.addDownSuperArcId a)) t) = nodeVerts t.
Proof. unfold nodeVerts. cbn. by apply map_upd_keeps. Qed.

Lemma nodeVerts_upd_up i a t :
  nodeVerts (set_nodes (Vec.upd i (NodeOps.addUpSuperArcId a)) t) = nodeVerts t.
Proof. unfold nodeVerts. cbn. by apply map_upd_keeps. Qed.

Lemma closeSuperArc_skeleton t a n : sameSkeleton t (closeSuperArc cfg t a n).
Proof.
  unfold closeSuperArc.
  destruct (negb (withKamikaze cfg) && _); [by repeat split|].
  destruct (negb (withKamikaze cfg) && _); [by repeat split|].
  split; [done|]. split; [by rewrite nodeVerts_upd_down|].
  split; [|done]. cbn. apply size_upd.
Qed.

Lemma ufFind_skeleton t u : sameSkeleton t (fst (ufFind t u)).
Proof. unfold ufFind. destruct (UFOps.find (ufHeap t) u). by repeat split. Qed.

Lemma ufFind_ufs t u : ufs (fst (ufFind t u)) = ufs t.
Proof. unfold ufFind. by destruct (UFOps.find (ufHeap t) u). Qed.

Lemma unionNeighbor_skeleton b v n t :
  sameSkeleton t (unionNeighbor mesh_ b v n t).
Proof.
  unfold unionNeighbor.
  destruct (vertLower (comp_ t) (getVertexNeighbor mesh_ v n) v); [|apply sameSkeleton_refl].
  assert (Hgo : forall u,
    sameSkeleton t
      (let '(t1, rn) := ufFind t (deref u) in
       let '(t2, rs) := ufFind t1 (deref (Vec.get None (ufs t1) v)) in
       if negb (rn =? rs)
       then let '(h, r) := UFOps.makeUnion (vertLower (comp_ t2)) (ufHeap t2)
                             (deref (Vec.get None (ufs t2) v))
                             (deref (Vec.get None (ufs t2) (getVertexNeighbor mesh_ v n))) in
            set_ufs (Vec.set v (Some r)) (set_ufHeap (fun _ => h) t2)
       else t2)).
  { intros u. pose proof (ufFind_skeleton t (deref u)) as H1.
    destruct (ufFind t (deref u)) as [t1 rn]. cbn [fst] in H1.
    pose proof (ufFind_skeleton t1 (deref (Vec.get None (ufs t1) v))) as H2.
    destruct (ufFind t1 (deref (Vec.get None (ufs t1) v))) as [t2 rs]. cbn [fst] in H2.
    assert (H12 : sameSkeleton t t2) by (by eapply sameSkeleton_trans).
    destruct (negb (rn =? rs)); [|done].
    destruct (UFOps.makeUnion _ _ _ _) as [h r].
    destruct H12 as (? & ? & ? & ? & ?). by repeat split. }
  destruct b; [|apply Hgo].
  destruct (Vec.get None (ufs t) (getVertexNeighbor mesh_ v n)) as [u|] eqn:E.
  - apply (Hgo (Some u)).
  - apply sameSkeleton_refl.
Qed.

Lemma fold_closeSuperArc_skeleton n l t :
  sameSkeleton t (fold_left (fun t' sa => closeSuperArc cfg t' sa n) l t).
Proof.
  revert t. induction l as [|a l IH]; intros t; cbn; [apply sameSkeleton_refl|].
  eapply sameSkeleton_trans; [apply closeSuperArc_skeleton|apply IH].
Qed.

Lemma closeArcsUF_skeleton t n uf : sameSkeleton t (closeArcsUF cfg t n uf).
Proof.
  unfold closeArcsUF.
  pose proof (ufFind_skeleton t (deref uf)) as H1.
  destruct (ufFind t (deref uf)) as [t1 r]. cbn [fst] in H1.
  pose proof (fold_closeSuperArc_skeleton n (openedArcs_ (ufCell t1 r)) t1) as H2.
  set (t2 := fold_left _ _ t1) in *.
  pose proof (ufFind_skeleton t2 (deref uf)) as H3.
  destruct (ufFind t2 (deref uf)) as [t3 r']. cbn [fst] in H3.
  eapply sameSkeleton_trans; [exact H1|].
  eapply sameSkeleton_trans; [exact H2|].
  destruct H3 as (? & ? & ? & ? & ?). by repeat split.
Qed.

Lemma forRange_skeleton lo hi (body : Z -> MergeTree -> MergeTree) t :
  (forall i s, sameSkeleton s (body i s)) -> sameSkeleton t (forRange lo hi body t).
Proof.
  intros Hb. apply (forRange_keeps (sameSkeleton t)); [|apply sameSkeleton_refl].
  intros i s _ Hs. eapply sameSkeleton_trans; [exact Hs|apply Hb].
Qed.

(** [closeOnBackBone] is [makeNode] as far as the skeleton goes. *)
Lemma closeOnBackBone_skeleton t v :
  sameSkeleton (fst (makeNode cfg scalars_ t v (defaultTerm cfg)))
               (closeOnBackBone cfg mesh_ scalars_ t v).
Proof.
  unfold closeOnBackBone.
  destruct (makeNode cfg scalars_ t v (defaultTerm cfg)) as [t1 closeNode]. cbn [fst].
  eapply sameSkeleton_trans; [|apply closeArcsUF_skeleton].
  apply forRange_skeleton. intros i s. apply unionNeighbor_skeleton.
Qed.

(** What [makeNode] does to the skeleton, for a vertex in range. *)
Lemma makeNode_skeleton t v term :
  0 <= v < scalars_size scalars_ ->
  Vec.size (vert2tree t) = scalars_size scalars_ ->
  nodesConsistent t ->
  let t' := fst (makeNode cfg scalars_ t v term) in
  let id := snd (makeNode cfg scalars_ t v term) in
  nodesConsistent t'
  /\ Vec.size (vert2tree t') = scalars_size scalars_
  /\ corresp t' v = CNode id
  /\ (forall w i, corresp t w = CNode i -> corresp t' w = CNode i)
  /\ (forall i x, Vec.at_ (nodeVerts t) i = Some x -> Vec.at_ (nodeVerts t') i = Some x)
  /\ superArcs t' = superArcs t /\ comp_ t' = comp_ t /\ treeType t' = treeType t.
Proof.
  intros Hv Hsz Hcons t' id. subst t' id.
  destruct (isCorrespondingNode t v) eqn:Hn.
  - rewrite makeNode_existing by done. cbn [fst snd].
    split; [done|]. split; [done|]. split; [|done].
    unfold isCorrespondingNode, getCorrespondingNodeId in *.
    by destruct (corresp t v).
  - rewrite makeNode_fresh by done. cbn [fst snd].
    unfold nodesConsistent, corresp, updateCorrespondingNode, nodeVerts, getNumberOfNodes in *.
    cbn. rewrite size_set.
    assert (Hmap : map vertexId_ (nodes t ++ [NodeOps.setTerminaison term
                                    (NodeOps.setVertexId v (defaultNode cfg))])
                   = map vertexId_ (nodes t) ++ [v]).
    { by rewrite List.map_app. }
    assert (Hlen : Vec.size (map vertexId_ (nodes t)) = Vec.size (nodes t)).
    { unfold Vec.size. by rewrite length_map. }
    rewrite Hmap.
    assert (Hne : forall w i, Vec.get CNull (vert2tree t) w = CNode i -> w <> v).
    { intros w i Hw ->. unfold isCorrespondingNode, corresp in Hn. by rewrite Hw in Hn. }
    split.
    { intros w i Hw. destruct (Z.eq_dec w v) as [->|Hwv].
      - rewrite get_set_eq in Hw by lia. injection Hw as <-.
        rewrite <- Hlen. apply at_app_new.
      - rewrite get_set_ne in Hw by done.
        specialize (Hcons w i Hw). rewrite at_app_l; [done|]. by apply at_Some in Hcons. }
    split; [done|]. split; [apply get_set_eq; lia|]. split.
    { intros w i Hw. rewrite get_set_ne; [done|]. intros ->. by eapply Hne. }
    split; [|done].
    intros i x Hi. rewrite at_app_l; [done|]. by apply at_Some in Hi.
Qed.

End Skeleton.

Section Trunk.

Variable cfg : Build.
Variable mesh_ : Triangulation.
Variable scalars_ : Scalars.

Lemma nodeVerts_at t id v :
  Vec.at_ (nodeVerts t) id = Some v ->
  0 <= id < getNumberOfNodes t /\ vertexId_ (getNode cfg t id) = v.
Proof.
  intros H. pose proof (at_Some _ _ _ H) as Hr.
  unfold nodeVerts, getNumberOfNodes, getNode, Vec.get, Vec.size, Vec.at_ in *.
  rewrite length_map in Hr. split; [done|].
  destruct (id <? 0); [done|].
  change (map ?f ?l) with (f <$> l) in H. rewrite list_lookup_fmap in H.
  destruct (nodes t !! Z.to_nat id); [|done]. by injection H.
Qed.

Lemma corresp_skeleton t t' v : vert2tree t' = vert2tree t -> corresp t' v = corresp t v.
Proof. intros H. unfold corresp. by rewrite H. Qed.

(** The backbone vertices: the vertices with the bit set, in sweep
    order. *)
Lemma pendingVertsOf_spec t :
  (forall v, v ∈ pendingVertsOf scalars_ t
             <-> 0 <= v < scalars_size scalars_ /\ Vec.get false (openedNodes t) v = true)
  /\ pendingVertsOf scalars_ t
     ≡ₚ List.filter (fun v => Vec.get false (openedNodes t) v) (seqZ 0 (scalars_size scalars_))
  /\ (asymmetric (vertLower (comp_ t)) ->
      sortedBy (vertLower (comp_ t)) (pendingVertsOf scalars_ t) = true).
Proof.
  unfold pendingVertsOf. split; [|split].
  - intros v. rewrite sortBy_perm. rewrite list_elem_of_In, List.filter_In.
    rewrite <- list_elem_of_In, elem_of_seqZ. split; intros [H1 H2]; (split; [lia|done]).
  - apply sortBy_perm.
  - apply sortBy_sorted.
Qed.

(** [closeOnBackBone] on a vertex in range. *)
Lemma closeOnBackBone_spec t p :
  0 <= p < scalars_size scalars_ ->
  Vec.size (vert2tree t) = scalars_size scalars_ ->
  nodesConsistent t ->
  let t' := closeOnBackBone cfg mesh_ scalars_ t p in
  nodesConsistent t'
  /\ Vec.size (vert2tree t') = scalars_size scalars_
  /\ Vec.size (superArcs t') = Vec.size (superArcs t)
  /\ comp_ t' = comp_ t /\ treeType t' = treeType t
  /\ (forall w i, corresp t w = CNode i -> corresp t' w = CNode i)
  /\ isCorrespondingNode t' p = true.
Proof.
  intros Hp Hsz Hcons t'.
  destruct (makeNode_skeleton cfg scalars_ t p (defaultTerm cfg) Hp Hsz Hcons)
    as (M1 & M2 & M3 & M4 & M5 & M6 & M7 & M8).
  destruct (closeOnBackBone_skeleton cfg mesh_ scalars_ t p) as (S1 & S2 & S3 & S4 & S5).
  fold t' in S1, S2, S3, S4, S5.
  split.
  { intros w i Hw. rewrite S2. apply M1. by rewrite <- (corresp_skeleton _ _ _ S1). }
  split; [by rewrite S1|]. split; [by rewrite S3, M6|].
  split; [congruence|]. split; [congruence|]. split.
  - intros w i Hw. rewrite (corresp_skeleton _ _ _ S1). by apply M4.
  - unfold isCorrespondingNode. by rewrite (corresp_skeleton _ _ _ S1), M3.
Qed.

Lemma closeOnBackBone_fold l t :
  (forall p, p ∈ l -> 0 <= p < scalars_size scalars_) ->
  Vec.size (vert2tree t) = scalars_size scalars_ ->
  nodesConsistent t ->
  let t1 := fold_left (closeOnBackBone cfg mesh_ scalars_) l t in
  nodesConsistent t1
  /\ Vec.size (vert2tree t1) = scalars_size scalars_
  /\ Vec.size (superArcs t1) = Vec.size (superArcs t)
  /\ comp_ t1 = comp_ t /\ treeType t1 = treeType t
  /\ (forall w i, corresp t w = CNode i -> corresp t1 w = CNode i)
  /\ (forall p, p ∈ l -> isCorrespondingNode t1 p = true).
Proof.
  revert t. induction l as [|p l IH]; intros t Hl Hsz Hcons; cbn zeta.
  - cbn. repeat split; try done. intros p Hp. by apply elem_of_nil in Hp.
  - cbn [fold_left].
    destruct (closeOnBackBone_spec t p) as (C1 & C2 & C3 & C4 & C5 & C6 & C7);
      [apply Hl, elem_of_cons; by left|done|done|].
    destruct (IH (closeOnBackBone cfg mesh_ scalars_ t p)) as (I1 & I2 & I3 & I4 & I5 & I6 & I7);
      [intros q Hq; apply Hl, elem_of_cons; by right|done|done|].
    split; [done|]. split; [done|]. split; [congruence|].
    split; [congruence|]. split; [congruence|]. split.
    + intros w i Hw. by apply I6, C6.
    + intros q Hq. apply elem_of_cons in Hq as [->|Hq]; [|by apply I7].
      unfold isCorrespondingNode in *.
      destruct (corresp (closeOnBackBone cfg mesh_ scalars_ t p) p) as [|i|] eqn:E; try done.
      by rewrite (I6 _ _ E).
Qed.

(** [makeSuperArc] appends the arc and keeps the skeleton. *)
Lemma makeSuperArc_spec t d u :
  let t' := fst (makeSuperArc cfg t d u) in
  snd (makeSuperArc cfg t d u) = Vec.size (superArcs t)
  /\ superArcs t' = superArcs t
                    ++ [ArcOps.setUpNodeId u (ArcOps.setDownNodeId d (defaultSuperArc cfg))]
  /\ vert2tree t' = vert2tree t /\ nodeVerts t' = nodeVerts t
  /\ comp_ t' = comp_ t /\ treeType t' = treeType t.
Proof.
  unfold makeSuperArc, Vec.getNext. cbv beta iota zeta. cbn [fst snd].
  split; [done|]. split.
  { cbn [superArcs set_superArcs set_nodes]. by rewrite !upd_app_new. }
  split; [done|]. split; [|done].
  by rewrite nodeVerts_upd_down, nodeVerts_upd_up.
Qed.

Lemma chainArc_spec t1 pv j t :
  vert2tree t = vert2tree t1 ->
  let t' := chainArc cfg pv j t in
  superArcs t' = superArcs t ++ [chainArcOf cfg t1 pv j]
  /\ vert2tree t' = vert2tree t /\ nodeVerts t' = nodeVerts t
  /\ comp_ t' = comp_ t /\ treeType t' = treeType t.
Proof.
  intros Hv t'. subst t'. unfold chainArc.
  destruct (makeSuperArc_spec t (getCorrespondingNodeId t (Vec.get 0 pv (j - 1)))
              (getCorrespondingNodeId t (Vec.get 0 pv j))) as (M1 & M2 & M3 & M4 & M5 & M6).
  destruct (makeSuperArc cfg t _ _) as [t2 na]. cbn [fst snd] in *. subst na.
  cbn. rewrite M2, upd_app_new.
  unfold chainArcOf, getCorrespondingNodeId.
  rewrite !(corresp_skeleton t1 t _ Hv). done.
Qed.

Lemma chain_loop t1 pv (k : nat) :
  let t2 := forRange 1 (1 + Z.of_nat k) (chainArc cfg pv) t1 in
  superArcs t2 = superArcs t1 ++ map (chainArcOf cfg t1 pv) (seqZ 1 (Z.of_nat k))
  /\ vert2tree t2 = vert2tree t1 /\ nodeVerts t2 = nodeVerts t1
  /\ comp_ t2 = comp_ t1 /\ treeType t2 = treeType t1.
Proof.
  induction k as [|k IH]; cbn zeta.
  - rewrite forRange_empty by lia. cbn. by rewrite app_nil_r.
  - rewrite Nat2Z.inj_succ. unfold Z.succ.
    replace (1 + (Z.of_nat k + 1)) with ((1 + Z.of_nat k) + 1) by lia.
    rewrite forRange_snoc by lia.
    destruct IH as (I1 & I2 & I3 & I4 & I5).
    destruct (chainArc_spec t1 pv (1 + Z.of_nat k) _ I2) as (C1 & C2 & C3 & C4 & C5).
    split.
    { rewrite C1, I1, <- app_assoc. f_equal.
      rewrite seqZ_app by lia. by rewrite List.map_app. }
    split; [congruence|]. split; [congruence|]. split; congruence.
Qed.

(** [openSuperArc] on an existing node. *)
Lemma openSuperArc_spec t d :
  0 <= d < getNumberOfNodes t ->
  let t' := fst (openSuperArc cfg t d) in
  snd (openSuperArc cfg t d) = Vec.size (superArcs t)
  /\ superArcs t' = superArcs t ++ [ArcOps.setDownNodeId d (defaultSuperArc cfg)]
  /\ vert2tree t' = vert2tree t /\ nodeVerts t' = nodeVerts t
  /\ comp_ t' = comp_ t /\ treeType t' = treeType t.
Proof.
  intros Hd. unfold openSuperArc.
  replace ((d <? 0) || (d >=? getNumberOfNodes t)) with false.
  2: { symmetry. apply orb_false_iff. lia. }
  rewrite andb_false_r. unfold Vec.getNext. cbv beta iota zeta. cbn [fst snd].
  split; [done|]. split.
  { cbn [superArcs set_superArcs set_nodes]. by rewrite !upd_app_new. }
  split; [done|]. split; [|done].
  by rewrite nodeVerts_upd_up.
Qed.

End Trunk.

Section TrunkBackBone.

Variable cfg : Build.
Variable mesh_ : Triangulation.
Variable scalars_ : Scalars.

Lemma nodesConsistent_skeleton t t' :
  vert2tree t' = vert2tree t -> nodeVerts t' = nodeVerts t ->
  nodesConsistent t -> nodesConsistent t'.
Proof.
  intros Hv Hn Hc w i Hw. rewrite Hn. apply Hc. by rewrite <- (corresp_skeleton _ _ _ Hv).
Qed.

Lemma getCorrespondingNodeId_skeleton t t' v :
  vert2tree t' = vert2tree t -> getCorrespondingNodeId t' v = getCorrespondingNodeId t v.
Proof. intros H. unfold getCorrespondingNodeId. by rewrite (corresp_skeleton _ _ _ H). Qed.

Lemma getNumberOfNodes_nodeVerts t : getNumberOfNodes t = Vec.size (nodeVerts t).
Proof. unfold getNumberOfNodes, nodeVerts, Vec.size. by rewrite length_map. Qed.

(** [closeSuperArc] with valid ids, whatever the build. *)
Lemma closeSuperArc_valid t a n :
  0 <= a < getNumberOfSuperArcs t -> 0 <= n < getNumberOfNodes t ->
  closeSuperArc cfg t a n
  = set_nodes (Vec.upd n (NodeOps.addDownSuperArcId a))
              (set_superArcs (Vec.upd a (ArcOps.setUpNodeId n)) t).
Proof.
  intros Ha Hn. unfold closeSuperArc.
  replace ((a <? 0) || (a >=? getNumberOfSuperArcs t)) with false.
  2: { symmetry. apply orb_false_iff. lia. }
  replace ((n <? 0) || (n >=? getNumberOfNodes t)) with false.
  2: { symmetry. apply orb_false_iff. lia. }
  by rewrite !andb_false_r.
Qed.

Lemma backbone_node t1 p :
  nodesConsistent t1 -> isCorrespondingNode t1 p = true ->
  Vec.at_ (nodeVerts t1) (getCorrespondingNodeId t1 p) = Some p.
Proof.
  intros Hc Hp. unfold isCorrespondingNode, getCorrespondingNodeId in *.
  destruct (corresp t1 p) as [|i|] eqn:E; try done. by apply Hc.
Qed.

Lemma size_zero_nil {A} (l : list A) : Vec.size l = 0 -> l = [].
Proof. unfold Vec.size. destruct l; [done|]. cbn. lia. Qed.

Lemma last_elem (l : list Z) : 0 < Vec.size l -> Vec.get 0 l (Vec.size l - 1) ∈ l.
Proof.
  intros H. destruct (at_in_range l (Vec.size l - 1)) as [x Hx]; [lia|].
  unfold Vec.get. rewrite Hx. cbn. unfold Vec.at_ in Hx.
  destruct (Vec.size l - 1 <? 0); [done|]. by eapply list_elem_of_lookup_2.
Qed.

(** C5. The backbone part of [trunk], on a tree whose vertex to tree map
    has one entry per vertex and whose nodes are consistent with it.  The
    pending vertices are exactly the vertices whose opened-nodes bit is set,
    in sweep order; [closeOnBackBone] is called on each in that sequence,
    which makes each of them a node and creates no arc.  An empty backbone
    returns at once.  Otherwise the arcs created are, in this order, one arc
    from the node of each backbone vertex to the node of the next one, and a
    last arc from the node of the last backbone vertex to a node on the
    global extremum of the sweep: [sortedVertices[size - 1]] for a join tree,
    [sortedVertices[0]] otherwise. *)
Theorem trunk_backbone t :
  asymmetric (vertLower (comp_ t)) ->
  Vec.size (vert2tree t) = scalars_size scalars_ ->
  nodesConsistent t ->
  0 <= sweepExtremum scalars_ t < scalars_size scalars_ ->
  let pv := pendingVertsOf scalars_ t in
  let t1 := fold_left (closeOnBackBone cfg mesh_ scalars_) pv t in
  let k := Vec.size pv in
  let res := trunkBackBone cfg mesh_ scalars_ t in
  (forall v, v ∈ pv
             <-> 0 <= v < scalars_size scalars_ /\ Vec.get false (openedNodes t) v = true)
  /\ pv ≡ₚ List.filter (fun v => Vec.get false (openedNodes t) v)
                       (seqZ 0 (scalars_size scalars_))
  /\ sortedBy (vertLower (comp_ t)) pv = true
  /\ getNumberOfSuperArcs t1 = getNumberOfSuperArcs t
  /\ (forall p, p ∈ pv ->
        0 <= getCorrespondingNodeId t1 p < getNumberOfNodes t1
        /\ vertexId_ (getNode cfg t1 (getCorrespondingNodeId t1 p)) = p)
  /\ (k = 0 -> res = (t, None) /\ trunk cfg mesh_ scalars_ t = (t, 0))
  /\ (0 < k ->
      exists rootNode,
        snd res = Some pv
        /\ superArcs (fst res)
           = superArcs t1 ++ map (chainArcOf cfg t1 pv) (seqZ 1 (k - 1))
             ++ [rootArcOf cfg t1 pv rootNode (sweepExtremum scalars_ t)]
        /\ corresp (fst res) (sweepExtremum scalars_ t) = CNode rootNode
        /\ vertexId_ (getNode cfg (fst res) rootNode) = sweepExtremum scalars_ t
        /\ (forall p, p ∈ pv ->
              vertexId_ (getNode cfg (fst res) (getCorrespondingNodeId t1 p)) = p)).
Proof.
  intros Hasym Hsz Hcons Hroot pv t1 k res.
  destruct (pendingVertsOf_spec scalars_ t) as (P1 & P2 & P3). fold pv in P1, P2, P3.
  assert (Hrange : forall p, p ∈ pv -> 0 <= p < scalars_size scalars_).
  { intros p Hp. by apply P1 in Hp as [Hp _]. }
  destruct (closeOnBackBone_fold cfg mesh_ scalars_ pv t Hrange Hsz Hcons)
    as (F1 & F2 & F3 & F4 & F5 & F6 & F7). fold t1 in F1, F2, F3, F4, F5, F6, F7.
  assert (Hnode : forall p, p ∈ pv ->
            Vec.at_ (nodeVerts t1) (getCorrespondingNodeId t1 p) = Some p).
  { intros p Hp. apply backbone_node; [done|by apply F7]. }
  split; [done|]. split; [done|]. split; [by apply P3|]. split; [done|]. split.
  { intros p Hp. by apply nodeVerts_at, Hnode. }
  split.
  { intros Hk. apply size_zero_nil in Hk.
    assert (E : res = (t, None)).
    { subst res t1. unfold trunkBackBone. fold pv. rewrite Hk. cbn [fold_left].
      rewrite (@size_nil Z). rewrite forRange_empty by lia. done. }
    split; [done|]. unfold trunk. fold res. by rewrite E. }
  intros Hk.
  (* the chain *)
  destruct (chain_loop cfg t1 pv (Z.to_nat (k - 1))) as (C1 & C2 & C3 & C4 & C5).
  assert (Ek : Z.of_nat (Z.to_nat (k - 1)) = k - 1) by lia.
  rewrite Ek in C1, C2, C3, C4, C5. clear Ek.
  replace (1 + (k - 1)) with k in C1, C2, C3, C4, C5 by lia.
  set (t2 := forRange 1 k (chainArc cfg pv) t1) in *.
  (* the last arc *)
  set (d := getCorrespondingNodeId t1 (Vec.get 0 pv (k - 1))).
  assert (Hd : Vec.at_ (nodeVerts t1) d = Some (Vec.get 0 pv (k - 1))).
  { apply Hnode. by apply last_elem. }
  assert (Hd2 : 0 <= d < getNumberOfNodes t2).
  { rewrite getNumberOfNodes_nodeVerts, C3. by apply at_Some in Hd. }
  destruct (openSuperArc_spec cfg t2 d Hd2) as (O1 & O2 & O3 & O4 & O5 & O6).
  set (t3 := fst (openSuperArc cfg t2 d)) in *.
  set (lastArc := snd (openSuperArc cfg t2 d)) in *.
  assert (Hjt : isJT t3 = isJT t).
  { unfold isJT. by rewrite O6, C5, F5. }
  assert (Hsz3 : Vec.size (vert2tree t3) = scalars_size scalars_) by congruence.
  assert (Hcons3 : nodesConsistent t3).
  { apply (nodesConsistent_skeleton t1); [congruence|congruence|done]. }
  destruct (makeNode_skeleton cfg scalars_ t3 (sweepExtremum scalars_ t) (defaultTerm cfg)
              Hroot Hsz3 Hcons3) as (M1 & M2 & M3 & M4 & M5 & M6 & M7 & M8).
  set (t4 := fst (makeNode cfg scalars_ t3 (sweepExtremum scalars_ t) (defaultTerm cfg))) in *.
  set (rootNode := snd (makeNode cfg scalars_ t3 (sweepExtremum scalars_ t)
                          (defaultTerm cfg))) in *.
  assert (Hrn : Vec.at_ (nodeVerts t4) rootNode = Some (sweepExtremum scalars_ t)).
  { by apply M1. }
  assert (Hclose : closeSuperArc cfg t4 lastArc rootNode
                   = set_nodes (Vec.upd rootNode (NodeOps.addDownSuperArcId lastArc))
                       (set_superArcs (Vec.upd lastArc (ArcOps.setUpNodeId rootNode)) t4)).
  { apply closeSuperArc_valid.
    - unfold getNumberOfSuperArcs. rewrite M6, O2, size_app, O1.
      change (Vec.size [_]) with 1. pose proof (size_nonneg (superArcs t2)). lia.
    - rewrite getNumberOfNodes_nodeVerts. by apply at_Some in Hrn. }
  set (t5 := closeSuperArc cfg t4 lastArc rootNode) in *.
  assert (Hnv5 : nodeVerts t5 = nodeVerts t4).
  { rewrite Hclose. by rewrite nodeVerts_upd_down. }
  assert (Hv5 : vertexId_ (getNode cfg t5 rootNode) = sweepExtremum scalars_ t).
  { apply nodeVerts_at. by rewrite Hnv5. }
  assert (Eres : exists items,
            res = (log items
                     (set_superArcs
                        (Vec.upd lastArc (ArcOps.setLastVisited
                                            (vertexId_ (getNode cfg t5 rootNode)))) t5),
                   Some pv)).
  { subst res. unfold trunkBackBone. fold pv. fold t1. fold k. fold t2.
    destruct (Z.eqb_spec k 0) as [|_]; [lia|].
    rewrite (getCorrespondingNodeId_skeleton t1 t2) by done. fold d.
    rewrite (surjective_pairing (openSuperArc cfg t2 d)). fold t3. fold lastArc.
    rewrite Hjt. fold (sweepExtremum scalars_ t).
    rewrite (surjective_pairing (makeNode cfg scalars_ t3 _ _)). fold t4. fold rootNode.
    fold t5. timings. by eexists. }
  destruct Eres as [items Eres].
  exists rootNode. rewrite Eres. cbn [fst snd]. split; [done|]. split.
  { cbn [superArcs set_superArcs log set_console]. rewrite Hv5, Hclose.
    cbn [superArcs set_superArcs set_nodes].
    rewrite M6, O2, O1, !upd_app_new, C1, <- app_assoc. done. }
  split.
  { unfold corresp in *. cbn [vert2tree set_superArcs log set_console]. rewrite Hclose.
    exact M3. }
  split.
  { rewrite <- Hv5. unfold getNode. done. }
  intros p Hp.
  change (getNode cfg (log items (set_superArcs _ t5))) with (getNode cfg t5).
  apply nodeVerts_at. rewrite Hnv5. apply M5. rewrite O4, C3. by apply Hnode.
Qed.

End TrunkBackBone.

Lemma nodesConsistentb_sound t : nodesConsistentb t = true -> nodesConsistent t.
Proof.
  unfold nodesConsistentb. rewrite forallb_forall. intros Hb v id Hv.
  assert (Hin : 0 <= v < Vec.size (vert2tree t)).
  { unfold corresp, Vec.get in Hv. destruct (Vec.at_ (vert2tree t) v) eqn:E; [|done].
    by apply at_Some in E. }
  assert (Hi : In v (seqZ 0 (Vec.size (vert2tree t)))).
  { apply list_elem_of_In, elem_of_seqZ. lia. }
  apply Hb in Hi. rewrite Hv in Hi.
  destruct (Vec.at_ (nodeVerts t) id) as [w|]; [|done].
  apply Z.eqb_eq in Hi. by subst.
Qed.

Lemma isLower_sc_asymmetric : asymmetric (isLower Ex.sc).
Proof. intros a b H. cbn in *. lia. Qed.

(** On the chain after the leaf tasks, the backbone is the saddles 1 and
    3; the trunk adds the arc from the node of 1 to the node of 3 and the
    arc from the node of 3 to the root node, on vertex 3, the last sorted
    vertex. *)
Lemma trunk_backbone_witness :
  pendingVertsOf Ex.sc Ex.swept = [1; 3]
  /\ exists rootNode,
       snd (trunkBackBone (Ex.cfg false) Ex.chain5 Ex.sc Ex.swept) = Some [1; 3]
       /\ vertexId_ (getNode (Ex.cfg false)
                       (fst (trunkBackBone (Ex.cfg false) Ex.chain5 Ex.sc Ex.swept)) rootNode)
          = 3
       /\ Vec.size (superArcs (fst (trunkBackBone (Ex.cfg false) Ex.chain5 Ex.sc Ex.swept)))
          = 5.
Proof.
  split; [vm_compute; reflexivity|].
  destruct (trunk_backbone (Ex.cfg false) Ex.chain5 Ex.sc Ex.swept
              isLower_sc_asymmetric eq_refl
              (nodesConsistentb_sound Ex.swept ltac:(vm_compute; reflexivity))
              ltac:(vm_compute; split; [discriminate|reflexivity]))
    as (_ & _ & _ & _ & _ & _ & W).
  destruct (W ltac:(vm_compute; reflexivity)) as (rootNode & W1 & W2 & _ & W4 & _).
  exists rootNode. split; [exact W1|]. split; [exact W4|].
  rewrite W2. vm_compute. reflexivity.
Defined.

(** * Further properties

    The other operations of the file, and what the statements above leave
    out of the steps of [build], function by function. *)

(** ** Opening and making arcs *)

Section ArcOpsMore.

Variable cfg : Build.

Lemma guard_in_range (k : bool) x n :
  0 <= x < n -> k && ((x <? 0) || (x >=? n)) = false.
Proof.
  intros Hx. replace (x <? 0) with false by lia.
  replace (x >=? n) with false by lia. apply andb_false_r.
Qed.

Lemma guard_out_of_range x n :
  ~ (0 <= x < n) -> (x <? 0) || (x >=? n) = true.
Proof. intros Hx. apply orb_true_iff. lia. Qed.

(** X1.  In a build with the guard compiled in ([withKamikaze] off),
    [openSuperArc] on a node id outside [0, number of nodes) returns -2 and
    only writes a message: no super-arc is created and no node changes.  On
    an existing node it returns the former number of super-arcs, appends one
    super-arc whose down node is the given node, appends the new id to the
    up-arc list of that node and touches no other node. *)
Theorem openSuperArc_safe_mode t downNodeId :
  withKamikaze cfg = false ->
  let t' := fst (openSuperArc cfg t downNodeId) in
  let id := snd (openSuperArc cfg t downNodeId) in
  (~ (0 <= downNodeId < getNumberOfNodes t) ->
     id = -2
     /\ t' = log [LStr "[Merge Tree] openSuperArc on a inexisting node !"; LEndl] t
     /\ superArcs t' = superArcs t /\ nodes t' = nodes t)
  /\ (0 <= downNodeId < getNumberOfNodes t ->
      id = getNumberOfSuperArcs t
      /\ superArcs t'
         = superArcs t ++ [ArcOps.setDownNodeId downNodeId (defaultSuperArc cfg)]
      /\ getNode cfg t' downNodeId
         = NodeOps.addUpSuperArcId id (getNode cfg t downNodeId)
      /\ (forall n, n <> downNodeId -> Vec.at_ (nodes t') n = Vec.at_ (nodes t) n)
      /\ getNumberOfNodes t' = getNumberOfNodes t
      /\ console t' = console t).
Proof.
  intros Hk t' id. subst t' id. unfold openSuperArc. rewrite Hk. cbn [negb andb].
  split.
  - intros Hout. by rewrite guard_out_of_range.
  - intros Hin.
    pose proof (guard_in_range true _ _ Hin) as G. cbn [andb] in G. rewrite G.
    unfold Vec.getNext. cbv beta iota zeta. cbn [fst snd].
    unfold getNode, getNumberOfNodes, getNumberOfSuperArcs in *.
    cbn [superArcs nodes console set_superArcs set_nodes].
    rewrite !upd_app_new, get_upd_eq, size_upd by done.
    repeat split; try done.
    intros n Hne. by apply at_upd_ne.
Qed.

(** X2.  Opening an arc on a node and closing it on another one is making
    the arc between the two: for two existing nodes, [openSuperArc] followed
    by [closeSuperArc] on the returned id gives the state and the id of
    [makeSuperArc], whatever the build. *)
Theorem open_then_close_is_make t downNodeId upNodeId :
  0 <= downNodeId < getNumberOfNodes t ->
  0 <= upNodeId < getNumberOfNodes t ->
  (closeSuperArc cfg (fst (openSuperArc cfg t downNodeId))
                 (snd (openSuperArc cfg t downNodeId)) upNodeId,
   snd (openSuperArc cfg t downNodeId))
  = makeSuperArc cfg t downNodeId upNodeId.
Proof.
  intros Hd Hu. unfold openSuperArc. rewrite (guard_in_range _ _ _ Hd).
  unfold makeSuperArc, Vec.getNext. cbv beta iota zeta. cbn [fst snd].
  unfold closeSuperArc.
  rewrite guard_in_range.
  2: { unfold getNumberOfSuperArcs. cbn [superArcs set_superArcs set_nodes].
       rewrite size_upd, size_app. pose proof (size_nonneg (superArcs t)).
       change (Vec.size [defaultSuperArc cfg]) with 1. lia. }
  rewrite guard_in_range.
  2: { unfold getNumberOfNodes in *. cbn [nodes set_superArcs set_nodes].
       by rewrite size_upd. }
  done.
Qed.

End ArcOpsMore.

(** On the root with two children: node 7 does not exist, node 1 does and
    gets the arc 2. *)
Lemma openSuperArc_safe_mode_witness :
  snd (openSuperArc (Ex.cfg false) Ex.twoChildren 7) = -2
  /\ snd (openSuperArc (Ex.cfg false) Ex.twoChildren 1) = 2
  /\ vect_upSuperArcList_
       (getNode (Ex.cfg false) (fst (openSuperArc (Ex.cfg false) Ex.twoChildren 1)) 1)
     = [0; 2].
Proof.
  split; [|split].
  - apply (openSuperArc_safe_mode (Ex.cfg false) Ex.twoChildren 7 eq_refl).
    vm_compute. intros [_ H]. discriminate H.
  - apply (openSuperArc_safe_mode (Ex.cfg false) Ex.twoChildren 1 eq_refl).
    vm_compute. split; [discriminate|reflexivity].
  - destruct (openSuperArc_safe_mode (Ex.cfg false) Ex.twoChildren 1 eq_refl) as [_ H].
    destruct H as (_ & _ & H & _).
    + vm_compute. split; [discriminate|reflexivity].
    + rewrite H. vm_compute. reflexivity.
Defined.

Lemma open_then_close_is_make_witness :
  (closeSuperArc (Ex.cfg true) (fst (openSuperArc (Ex.cfg true) Ex.twoChildren 1))
                 (snd (openSuperArc (Ex.cfg true) Ex.twoChildren 1)) 2, 2)
  = makeSuperArc (Ex.cfg true) Ex.twoChildren 1 2.
Proof.
  apply (open_then_close_is_make (Ex.cfg true) Ex.twoChildren 1 2).
  - vm_compute. split; [discriminate|reflexivity].
  - vm_compute. split; [discriminate|reflexivity].
Defined.

(** ** Making nodes *)

Section MakeNodeMore.

Variable cfg : Build.
Variable scalars_ : Scalars.

(** X3.  [makeNode] and the vertex to tree map.  In a build with the guard
    compiled in, a vertex outside the scalars gives -1 and a message, and no
    node.  For a vertex of the scalars, on a tree whose node entries are
    consistent, the vertex is a node afterwards, the returned id is its
    entry and the id of a node on that vertex; the nodes that were there
    keep their ids, at most one node is added, and the entries stay
    consistent. *)
Theorem makeNode_lookup t v term :
  withKamikaze cfg = false ->
  Vec.size (vert2tree t) = scalars_size scalars_ ->
  nodesConsistent t ->
  let t' := fst (makeNode cfg scalars_ t v term) in
  let id := snd (makeNode cfg scalars_ t v term) in
  (~ (0 <= v < scalars_size scalars_) ->
     id = -1 /\ nodes t' = nodes t /\ vert2tree t' = vert2tree t
     /\ console t'
        = console t ++ [LStr "[Merge Tree] make node, wrong vertex :"; LNum v;
                        LStr " on "; LNum (scalars_size scalars_); LEndl])
  /\ (0 <= v < scalars_size scalars_ ->
      isCorrespondingNode t' v = true
      /\ getCorrespondingNodeId t' v = id
      /\ 0 <= id < getNumberOfNodes t'
      /\ vertexId_ (getNode cfg t' id) = v
      /\ (exists added, nodes t' = nodes t ++ added /\ (length added <= 1)%nat)
      /\ (forall w, w <> v -> corresp t' w = corresp t w)
      /\ nodesConsistent t').
Proof.
  intros Hk Hsz Hcons t' id. subst t' id. split.
  - intros Hout. unfold makeNode. rewrite Hk. cbn [negb andb].
    by rewrite guard_out_of_range.
  - intros Hv.
    destruct (makeNode_skeleton cfg scalars_ t v term Hv Hsz Hcons)
      as (K1 & K2 & K3 & K4 & K5 & K6).
    assert (Hid : Vec.at_ (nodeVerts (fst (makeNode cfg scalars_ t v term)))
                    (snd (makeNode cfg scalars_ t v term)) = Some v) by by apply K1.
    split. { unfold isCorrespondingNode. by rewrite K3. }
    split. { unfold getCorrespondingNodeId. by rewrite K3. }
    split. { apply at_Some in Hid. unfold getNumberOfNodes, nodeVerts, Vec.size in *.
             by rewrite length_map in Hid. }
    split.
    { unfold getNode, Vec.get, nodeVerts, Vec.at_ in *.
      destruct (snd (makeNode cfg scalars_ t v term) <? 0); [done|].
      change (map ?f ?l) with (f <$> l) in Hid. rewrite list_lookup_fmap in Hid.
      destruct (nodes _ !! _); [|done]. cbn in *. congruence. }
    split.
    { destruct (isCorrespondingNode t v) eqn:Hn.
      - rewrite makeNode_existing by done. exists []. split; [by rewrite app_nil_r|cbn; lia].
      - rewrite makeNode_fresh by done. eexists [_]. split; [done|]. cbn. lia. }
    split; [|done].
    intros w Hw. destruct (isCorrespondingNode t v) eqn:Hn.
    + by rewrite makeNode_existing.
    + rewrite makeNode_fresh by done. unfold corresp, updateCorrespondingNode. cbn.
      by rewrite get_set_ne.
Qed.

End MakeNodeMore.

Lemma twoChildren_consistent : nodesConsistent Ex.twoChildren.
Proof. apply nodesConsistentb_sound. vm_compute. reflexivity. Qed.

(** On the root with two children: vertex 9 is refused, vertex 1 gets the
    node 3. *)
Lemma makeNode_lookup_witness :
  snd (makeNode (Ex.cfg false) Ex.sc Ex.twoChildren 9 0) = -1
  /\ getCorrespondingNodeId (fst (makeNode (Ex.cfg false) Ex.sc Ex.twoChildren 1 0)) 1
     = snd (makeNode (Ex.cfg false) Ex.sc Ex.twoChildren 1 0).
Proof.
  split.
  - destruct (makeNode_lookup (Ex.cfg false) Ex.sc Ex.twoChildren 9 0 eq_refl eq_refl
                twoChildren_consistent) as [H _].
    apply H. vm_compute. intros [_ H']. discriminate H'.
  - destruct (makeNode_lookup (Ex.cfg false) Ex.sc Ex.twoChildren 1 0 eq_refl eq_refl
                twoChildren_consistent) as [_ H].
    apply H. vm_compute. split; [discriminate|reflexivity].
Defined.

(** ** Deleting nodes *)

Section DelNodeMore.

Variable cfg : Build.

Lemma removeArc_notin a l : a ∉ l -> NodeOps.removeArc a l = l.
Proof.
  induction l as [|b l IH]; [done|]. intros Hn. cbn.
  apply not_elem_of_cons in Hn as [Hab Hl].
  destruct (Z.eqb_spec a b); [done|]. by rewrite IH.
Qed.

Lemma removeArc_perm a l : a ∈ l -> a :: NodeOps.removeArc a l ≡ₚ l.
Proof.
  induction l as [|b l IH]; intros Hin.
  - by apply elem_of_nil in Hin.
  - cbn. destruct (Z.eqb_spec a b) as [->|Hab]; [done|].
    apply elem_of_cons in Hin as [->|Hin]; [done|].
    rewrite Permutation_swap. by rewrite IH.
Qed.

Lemma size_zero_list {A} (l : list A) : Vec.size l = 0 -> l = [].
Proof. destruct l; [done|]. unfold Vec.size. cbn. lia. Qed.

(** X4.  [delNode] never deletes a node with an up arc and several down
    arcs, whatever the build: the nodes, the super-arcs, the roots and the
    vertex to tree map are left as they are, and the build with the guard
    compiled in writes a message. *)
Theorem delNode_several_children t node :
  0 < NodeOps.getNumberOfUpSuperArcs (getNode cfg t node) ->
  1 < NodeOps.getNumberOfDownSuperArcs (getNode cfg t node) ->
  let t' := delNode cfg t node in
  nodes t' = nodes t /\ superArcs t' = superArcs t /\ roots t' = roots t
  /\ vert2tree t' = vert2tree t
  /\ console t'
     = console t ++ (if withKamikaze cfg then []
                     else [LStr "delete node with multiple childrens "; LEndl]).
Proof.
  intros Hup Hdown t'. subst t'. unfold delNode.
  destruct (Z.eqb_spec (NodeOps.getNumberOfUpSuperArcs (getNode cfg t node)) 0); [lia|].
  destruct (Z.ltb_spec (NodeOps.getNumberOfDownSuperArcs (getNode cfg t node)) 2); [lia|].
  destruct (withKamikaze cfg); cbn; by rewrite ?app_nil_r.
Qed.

(** X5.  [delNode] on an existing node with at most one down arc (and, for
    a root, exactly one) whose arcs lead to other nodes: the node stays in
    the node vector, on its vertex, with no up arc and no down arc left;
    the number of nodes and of super-arcs, the roots and the vertex to tree
    map do not change, and nothing is written. *)
Theorem delNode_isolates t node :
  0 <= node < getNumberOfNodes t ->
  let mainNode := getNode cfg t node in
  NodeOps.getNumberOfDownSuperArcs mainNode <= 1 ->
  (NodeOps.getNumberOfUpSuperArcs mainNode = 0 ->
   NodeOps.getNumberOfDownSuperArcs mainNode = 1
   /\ downNodeId_ (getSuperArc cfg t (getDownSuperArcId mainNode 0)) <> node) ->
  (NodeOps.getNumberOfUpSuperArcs mainNode <> 0 ->
   upNodeId_ (getSuperArc cfg t (getUpSuperArcId mainNode 0)) <> node) ->
  let t' := delNode cfg t node in
  getNode cfg t' node = mkNode (vertexId_ mainNode) (termination_ mainNode) [] []
  /\ getNumberOfNodes t' = getNumberOfNodes t
  /\ getNumberOfSuperArcs t' = getNumberOfSuperArcs t
  /\ roots t' = roots t /\ vert2tree t' = vert2tree t /\ console t' = console t.
Proof.
  intros Hnode mainNode Hdown Hroot Hup t'. subst t'. unfold delNode. fold mainNode.
  unfold getNumberOfNodes, getNumberOfSuperArcs in *.
  destruct (Z.eqb_spec (NodeOps.getNumberOfUpSuperArcs mainNode) 0) as [E|E].
  - destruct (Hroot E) as [Hone Hne]. rewrite Hone. cbn [Z.eqb Pos.eqb negb andb].
    rewrite andb_false_r. cbv zeta. unfold getNode in *.
    cbn [nodes superArcs roots vert2tree console set_nodes].
    rewrite get_upd_eq by (rewrite size_upd; lia).
    rewrite get_upd_ne by done.
    rewrite !size_upd. fold mainNode.
    apply size_zero_list in E. unfold NodeOps.clearDownSuperArcs. by rewrite E.
  - specialize (Hup E).
    destruct (Z.ltb_spec (NodeOps.getNumberOfDownSuperArcs mainNode) 2); [|lia].
    cbv zeta.
    set (upArc := getUpSuperArcId mainNode 0) in *.
    set (upId := upNodeId_ (getSuperArc cfg t upArc)) in *.
    set (t2 := set_nodes (Vec.upd node NodeOps.clearUpSuperArcs)
                 (set_nodes (Vec.upd upId (NodeOps.removeDownSuperArc upArc)) t)).
    assert (E2 : getNode cfg t2 node = NodeOps.clearUpSuperArcs mainNode).
    { unfold getNode, t2. cbn [nodes set_nodes].
      rewrite get_upd_eq by (rewrite size_upd; lia). by rewrite get_upd_ne. }
    rewrite E2.
    change (NodeOps.getNumberOfDownSuperArcs (NodeOps.clearUpSuperArcs mainNode))
      with (NodeOps.getNumberOfDownSuperArcs mainNode).
    destruct (Z.eqb_spec (NodeOps.getNumberOfDownSuperArcs mainNode) 0) as [E0|E0];
      cbn [negb].
    + unfold getNode in E2 |- *. rewrite E2. unfold t2.
      cbn [nodes superArcs roots vert2tree console set_nodes]. rewrite !size_upd.
      apply size_zero_list in E0. unfold NodeOps.clearUpSuperArcs. by rewrite E0.
    + assert (S2 : Vec.size (nodes t2) = Vec.size (nodes t)).
      { unfold t2. cbn [nodes set_nodes]. by rewrite !size_upd. }
      assert (R2 : roots t2 = roots t /\ vert2tree t2 = vert2tree t
                   /\ console t2 = console t /\ superArcs t2 = superArcs t) by done.
      destruct R2 as (R2 & V2 & C2 & A2).
      unfold getNode in *.
      cbn [nodes superArcs roots vert2tree console set_nodes set_superArcs].
      rewrite !size_upd, S2, A2.
      rewrite get_upd_eq by (rewrite !size_upd; lia).
      rewrite get_upd_ne by done. by rewrite E2.
Qed.

Lemma fold_concat_ends (l : list (list Z)) a :
  let a' := fold_left (fun acc seg => ArcOps.concat seg acc) l a in
  upNodeId_ a' = upNodeId_ a /\ downNodeId_ a' = downNodeId_ a
  /\ lastVisited_ a' = lastVisited_ a /\ verticesSeen_ a' = verticesSeen_ a.
Proof.
  revert a. induction l as [|seg l IH]; intros a; [done|].
  cbn. destruct (IH (ArcOps.concat seg a)) as (I1 & I2 & I3 & I4). done.
Qed.

(** X6.  [delNode] on a node with no down arc and an up arc that leads to
    another existing node: the up node loses one entry of its down-arc list,
    the arc (when it was listed), and keeps the others; no super-arc
    changes, so the arc still names the deleted node as its down node; the
    other nodes are left as they are. *)
Theorem delNode_leaf t node :
  0 <= node < getNumberOfNodes t ->
  let mainNode := getNode cfg t node in
  let upArc := getUpSuperArcId mainNode 0 in
  let upId := upNodeId_ (getSuperArc cfg t upArc) in
  NodeOps.getNumberOfUpSuperArcs mainNode <> 0 ->
  NodeOps.getNumberOfDownSuperArcs mainNode = 0 ->
  0 <= upId < getNumberOfNodes t ->
  upId <> node ->
  let t' := delNode cfg t node in
  let before := vect_downSuperArcList_ (getNode cfg t upId) in
  let after := vect_downSuperArcList_ (getNode cfg t' upId) in
  superArcs t' = superArcs t
  /\ (upArc ∈ before -> upArc :: after ≡ₚ before)
  /\ (upArc ∉ before -> after = before)
  /\ vect_upSuperArcList_ (getNode cfg t' upId) = vect_upSuperArcList_ (getNode cfg t upId)
  /\ (forall n, n <> node -> n <> upId -> Vec.at_ (nodes t') n = Vec.at_ (nodes t) n).
Proof.
  intros Hnode mainNode upArc upId Hup Hdown HupId Hne t' before after.
  subst t' before after. unfold delNode. fold mainNode.
  unfold getNumberOfNodes in *.
  destruct (Z.eqb_spec (NodeOps.getNumberOfUpSuperArcs mainNode) 0) as [E|E]; [done|].
  rewrite Hdown. cbn [Z.ltb Z.compare]. cbv zeta. fold upArc. fold upId.
  set (t2 := set_nodes (Vec.upd node NodeOps.clearUpSuperArcs)
               (set_nodes (Vec.upd upId (NodeOps.removeDownSuperArc upArc)) t)).
  assert (E2 : getNode cfg t2 node = NodeOps.clearUpSuperArcs mainNode).
  { unfold getNode, t2. cbn [nodes set_nodes].
    rewrite get_upd_eq by (rewrite size_upd; lia). by rewrite get_upd_ne. }
  rewrite E2.
  change (NodeOps.getNumberOfDownSuperArcs (NodeOps.clearUpSuperArcs mainNode))
    with (NodeOps.getNumberOfDownSuperArcs mainNode).
  rewrite Hdown. cbn [Z.eqb negb].
  assert (E3 : getNode cfg t2 upId
               = NodeOps.removeDownSuperArc upArc (getNode cfg t upId)).
  { unfold getNode, t2. cbn [nodes set_nodes].
    rewrite get_upd_ne by done. by rewrite get_upd_eq. }
  rewrite E3. cbn [vect_downSuperArcList_ vect_upSuperArcList_ NodeOps.removeDownSuperArc].
  split; [done|]. split; [apply removeArc_perm|]. split; [apply removeArc_notin|].
  split; [done|].
  intros n Hn1 Hn2. unfold t2. cbn [nodes set_nodes].
  by rewrite !at_upd_ne.
Qed.

(** X7.  [delNode] on a node with one down arc and an up arc that leads to
    another existing node reconnects the child to the parent: the down arc
    gets the up node of the deleted node's up arc as its up node and keeps
    its down node; in the down-arc list of that up node the up arc (when it
    was listed) is replaced by the down arc; the other super-arcs and the
    other nodes are left as they are. *)
Theorem delNode_reconnects t node :
  0 <= node < getNumberOfNodes t ->
  let mainNode := getNode cfg t node in
  let upArc := getUpSuperArcId mainNode 0 in
  let upId := upNodeId_ (getSuperArc cfg t upArc) in
  let downArc := getDownSuperArcId mainNode 0 in
  NodeOps.getNumberOfUpSuperArcs mainNode <> 0 ->
  NodeOps.getNumberOfDownSuperArcs mainNode = 1 ->
  0 <= upId < getNumberOfNodes t ->
  upId <> node ->
  0 <= downArc < getNumberOfSuperArcs t ->
  let t' := delNode cfg t node in
  let before := vect_downSuperArcList_ (getNode cfg t upId) in
  let after := vect_downSuperArcList_ (getNode cfg t' upId) in
  upNodeId_ (getSuperArc cfg t' downArc) = upId
  /\ downNodeId_ (getSuperArc cfg t' downArc) = downNodeId_ (getSuperArc cfg t downArc)
  /\ (forall a, a <> downArc -> Vec.at_ (superArcs t') a = Vec.at_ (superArcs t) a)
  /\ downArc ∈ after
  /\ (upArc ∈ before -> upArc :: after ≡ₚ before ++ [downArc])
  /\ (upArc ∉ before -> after = before ++ [downArc])
  /\ (forall n, n <> node -> n <> upId -> Vec.at_ (nodes t') n = Vec.at_ (nodes t) n).
Proof.
  intros Hnode mainNode upArc upId downArc Hup Hdown HupId Hne Harc t' before after.
  subst t' before after. unfold delNode. fold mainNode.
  unfold getNumberOfNodes, getNumberOfSuperArcs in *.
  destruct (Z.eqb_spec (NodeOps.getNumberOfUpSuperArcs mainNode) 0) as [E|E]; [done|].
  rewrite Hdown. cbn [Z.ltb Z.compare Pos.compare Pos.compare_cont]. cbv zeta.
  fold upArc. fold upId.
  set (t2 := set_nodes (Vec.upd node NodeOps.clearUpSuperArcs)
               (set_nodes (Vec.upd upId (NodeOps.removeDownSuperArc upArc)) t)).
  assert (E2 : getNode cfg t2 node = NodeOps.clearUpSuperArcs mainNode).
  { unfold getNode, t2. cbn [nodes set_nodes].
    rewrite get_upd_eq by (rewrite size_upd; lia). by rewrite get_upd_ne. }
  rewrite E2.
  change (NodeOps.getNumberOfDownSuperArcs (NodeOps.clearUpSuperArcs mainNode))
    with (NodeOps.getNumberOfDownSuperArcs mainNode).
  rewrite Hdown. cbn [Z.eqb Pos.eqb negb].
  change (getDownSuperArcId (NodeOps.clearUpSuperArcs mainNode) 0) with downArc.
  assert (E3 : getNode cfg t2 upId
               = NodeOps.removeDownSuperArc upArc (getNode cfg t upId)).
  { unfold getNode, t2. cbn [nodes set_nodes].
    rewrite get_upd_ne by done. by rewrite get_upd_eq. }
  assert (S2 : Vec.size (nodes t2) = Vec.size (nodes t)).
  { unfold t2. cbn [nodes set_nodes]. by rewrite !size_upd. }
  assert (A2 : superArcs t2 = superArcs t) by done.
  assert (N2 : forall n, n <> node -> n <> upId -> Vec.at_ (nodes t2) n = Vec.at_ (nodes t) n).
  { intros n Hn1 Hn2. unfold t2. cbn [nodes set_nodes]. by rewrite !at_upd_ne. }
  unfold getSuperArc, getNode in *.
  cbn [nodes superArcs set_nodes set_superArcs].
  rewrite !get_upd_eq by (rewrite ?size_upd, ?A2; lia).
  rewrite (get_upd_ne (defaultNode cfg) _ node upId) by lia.
  rewrite (get_upd_eq (defaultNode cfg) _ upId) by (rewrite ?size_upd, ?S2; lia).
  rewrite E3, A2.
  match goal with
  | |- context [fold_left ?f ?l ?a] => pose proof (fold_concat_ends l a) as F
  end.
  cbv zeta in F. destruct F as (F1 & F2 & _).
  split; [by rewrite F1|]. split; [by rewrite F2|].
  split. { intros a Ha. by rewrite !at_upd_ne. }
  cbn [vect_downSuperArcList_ NodeOps.addDownSuperArcId NodeOps.removeDownSuperArc].
  split. { apply elem_of_app. right. by left. }
  split. { intros Hin. by rewrite app_comm_cons, removeArc_perm. }
  split. { intros Hnin. by rewrite removeArc_notin. }
  intros n Hn1 Hn2. rewrite !at_upd_ne by done. by apply N2.
Qed.

End DelNodeMore.

(** In the saddle tree the node 0 has an up arc and two down arcs. *)
Lemma delNode_several_children_witness :
  nodes (delNode (Ex.cfg true) Trees.saddleTree 0) = nodes Trees.saddleTree
  /\ console (delNode (Ex.cfg false) Trees.saddleTree 0)
     = [LStr "delete node with multiple childrens "; LEndl].
Proof.
  split.
  - apply (delNode_several_children (Ex.cfg true) Trees.saddleTree 0); reflexivity.
  - destruct (delNode_several_children (Ex.cfg false) Trees.saddleTree 0
                eq_refl eq_refl) as (_ & _ & _ & _ & H).
    exact H.
Defined.

(** The middle node of the chain and the root of the chain, deleted. *)
Lemma delNode_isolates_witness :
  getNode (Ex.cfg false) (delNode (Ex.cfg false) Trees.chainTree 1) 1 = mkNode 2 (-1) [] []
  /\ getNode (Ex.cfg true) (delNode (Ex.cfg true) Trees.chainTree 2) 2 = mkNode 3 (-1) [] [].
Proof.
  split.
  - destruct (delNode_isolates (Ex.cfg false) Trees.chainTree 1) as [H _].
    + vm_compute. split; [discriminate|reflexivity].
    + vm_compute. discriminate.
    + vm_compute. discriminate.
    + intros _. vm_compute. discriminate.
    + exact H.
  - destruct (delNode_isolates (Ex.cfg true) Trees.chainTree 2) as [H _].
    + vm_compute. split; [discriminate|reflexivity].
    + vm_compute. discriminate.
    + intros _. split; [reflexivity|]. vm_compute. discriminate.
    + vm_compute. intros H. by exfalso.
    + exact H.
Defined.

(** The leaf 1 of the root with two children: the root keeps the arc 1. *)
Lemma delNode_leaf_witness :
  superArcs (delNode (Ex.cfg false) Ex.twoChildren 1) = superArcs Ex.twoChildren
  /\ 0 :: vect_downSuperArcList_
            (getNode (Ex.cfg false) (delNode (Ex.cfg false) Ex.twoChildren 1) 0)
     ≡ₚ [0; 1].
Proof.
  destruct (delNode_leaf (Ex.cfg false) Ex.twoChildren 1) as (H1 & H2 & _).
  - vm_compute. split; [discriminate|reflexivity].
  - vm_compute. discriminate.
  - reflexivity.
  - vm_compute. split; [discriminate|reflexivity].
  - vm_compute. discriminate.
  - split; [exact H1|]. apply H2. vm_compute. left.
Defined.

(** The middle node of the chain: the arc 0 now ends on the node 2. *)
Lemma delNode_reconnects_witness :
  upNodeId_ (getSuperArc (Ex.cfg false) (delNode (Ex.cfg false) Trees.chainTree 1) 0) = 2
  /\ 0 ∈ vect_downSuperArcList_
           (getNode (Ex.cfg false) (delNode (Ex.cfg false) Trees.chainTree 1) 2).
Proof.
  destruct (delNode_reconnects (Ex.cfg false) Trees.chainTree 1) as (H1 & _ & _ & H2 & _).
  - vm_compute. split; [discriminate|reflexivity].
  - vm_compute. discriminate.
  - reflexivity.
  - vm_compute. split; [discriminate|reflexivity].
  - vm_compute. discriminate.
  - vm_compute. split; [discriminate|reflexivity].
  - split; [exact H1|exact H2].
Defined.

(** ** The type of the node ids *)

Lemma idNodeCard_half cfg :
  idNodeCard cfg = 2 * (idNodeCard cfg / 2) /\ 128 <= idNodeCard cfg / 2.
Proof.
  unfold idNodeCard.
  replace (8 * Z.pos (idNodeBytes cfg)) with (Z.succ (8 * Z.pos (idNodeBytes cfg) - 1)) by lia.
  rewrite Z.pow_succ_r by lia.
  rewrite (Z.mul_comm 2), Z.div_mul by lia.
  split; [lia|]. change 128 with (2 ^ 7). apply Z.pow_le_mono_r; lia.
Qed.

Lemma idNodeMax_ge cfg : 127 <= idNodeMax cfg.
Proof. destruct (idNodeCard_half cfg). unfold idNodeMax. destruct (idNodeSigned cfg); lia. Qed.

Lemma toIdNode_id cfg x : 0 <= x <= idNodeMax cfg -> toIdNode cfg x = x.
Proof.
  destruct (idNodeCard_half cfg) as [E H]. unfold idNodeMax, toIdNode.
  destruct (idNodeSigned cfg); intros Hx.
  - rewrite Z.mod_small by lia. lia.
  - apply Z.mod_small. lia.
Qed.

Lemma toIdNode_le cfg x : 0 <= x -> toIdNode cfg x <= x.
Proof.
  destruct (idNodeCard_half cfg) as [E H]. unfold toIdNode. intros Hx.
  destruct (idNodeSigned cfg).
  - pose proof (Z.mod_le (x + idNodeCard cfg / 2) (idNodeCard cfg)). lia.
  - apply Z.mod_le; lia.
Qed.

Lemma toIdNode_max cfg x : toIdNode cfg x <= idNodeMax cfg.
Proof.
  destruct (idNodeCard_half cfg) as [E H]. unfold toIdNode, idNodeMax.
  destruct (idNodeSigned cfg).
  - pose proof (Z.mod_pos_bound (x + idNodeCard cfg / 2) (idNodeCard cfg)). lia.
  - pose proof (Z.mod_pos_bound x (idNodeCard cfg)). lia.
Qed.

(** The loop of [getVertInRange] from a position of the range, or from the
    start. *)
Lemma getVertInRangeFrom_bounds cfg fuel t range v last :
  let rs := toIdNode cfg (Vec.size range) in
  0 <= last -> (last = 0 \/ last < rs) ->
  let r := getVertInRangeFrom cfg fuel t range rs v last in
  last <= r /\ (r = 0 \/ r < rs).
Proof.
  intros rs. revert last. induction fuel as [|fuel IH]; intros last H0 Hl; cbn.
  - split; [lia|done].
  - assert (Hmax : last < idNodeMax cfg).
    { pose proof (idNodeMax_ge cfg). pose proof (toIdNode_max cfg (Vec.size range)).
      fold rs in H1. lia. }
    rewrite toIdNode_id by lia.
    destruct (Z.ltb_spec (last + 1) rs) as [Hlt|Hge]; cbn [andb]; [|split; [lia|done]].
    destruct (vertLower (comp_ t) (Vec.get 0 range (last + 1)) v); [|split; [lia|done]].
    destruct (IH (last + 1)) as [I1 I2]; [lia|by right|].
    split; [lia|done].
Qed.

Lemma getVertInRange_bounds cfg t range v last :
  0 <= last -> (last = 0 \/ last < toIdNode cfg (Vec.size range)) ->
  let r := getVertInRange cfg t range v last in
  last <= r /\ (r = 0 \/ r < toIdNode cfg (Vec.size range)).
Proof. intros H0 Hl. unfold getVertInRange. cbv zeta. by apply getVertInRangeFrom_bounds. Qed.

(** ** Sorted nodes and the search in a range *)

Section SortedNodes.

Variable cfg : Build.

Variable parallelSort : (idNode -> idNode -> bool) -> list idNode -> list idNode.

(** X8.  [sortedNodes], when the sweep order of the vertices is a strict
    order that compares the vertices of any two nodes, and the parallel
    sort of the library sorts: the parallel call and the sequential call
    both return every node id once, with no node followed by one that the
    sweep puts before it (by the vertices of the nodes), and they return
    the same list, though they do not call the same sort. *)
Theorem sortedNodes_sorted t para :
  sortsBy parallelSort ->
  asymmetric (vertLower (comp_ t)) ->
  transitiveOrder (vertLower (comp_ t)) ->
  totalOn (nodeLower cfg t) (seqZ 0 (getNumberOfNodes t)) ->
  let l := sortedNodes cfg parallelSort t para in
  l ≡ₚ seqZ 0 (getNumberOfNodes t)
  /\ (forall n, n ∈ l <-> 0 <= n < getNumberOfNodes t)
  /\ NoDup l
  /\ sortedBy (nodeLower cfg t) l = true
  /\ sortedNodes cfg parallelSort t (negb para) = l.
Proof.
  intros Hpar Hasym Htrans Htot l.
  assert (Ha : asymmetric (nodeLower cfg t)).
  { intros a b. unfold nodeLower. apply Hasym. }
  assert (Ht : transitiveOrder (nodeLower cfg t)).
  { intros a b c. unfold nodeLower. apply Htrans. }
  assert (Hboth : forall p,
            sortedNodes cfg parallelSort t p ≡ₚ seqZ 0 (getNumberOfNodes t)
            /\ sortedBy (nodeLower cfg t) (sortedNodes cfg parallelSort t p) = true).
  { intros p. unfold sortedNodes. cbv zeta.
    change (fun a b => vertLower (comp_ t) (vertexId_ (getNode cfg t a))
                                 (vertexId_ (getNode cfg t b)))
      with (nodeLower cfg t).
    change (Vec.size (nodes t)) with (getNumberOfNodes t).
    assert (Hseq : sortBy (nodeLower cfg t) (seqZ 0 (getNumberOfNodes t))
                     ≡ₚ seqZ 0 (getNumberOfNodes t)
                   /\ sortedBy (nodeLower cfg t)
                        (sortBy (nodeLower cfg t) (seqZ 0 (getNumberOfNodes t))) = true).
    { split; [apply sortBy_perm|by apply sortBy_sorted]. }
    destruct p; [|done]. destruct (clang_ cfg); [done|]. by apply Hpar. }
  destruct (Hboth para) as [Hperm Hsorted]. fold l in Hperm, Hsorted.
  assert (Hnd : NoDup l) by (rewrite Hperm; apply NoDup_seqZ).
  split; [done|]. split.
  { intros n. rewrite Hperm, elem_of_seqZ. lia. }
  split; [done|]. split; [done|].
  destruct (Hboth (negb para)) as [Hperm' Hsorted'].
  symmetry. apply (sortedBy_unique (nodeLower cfg t)); try done.
  - intros a b Hin Hin'. apply Htot; by rewrite <- Hperm.
  - by rewrite Hperm, Hperm'.
Qed.

(** X9.  [getVertInRange] from a position [last] that is not negative
    and below the largest [idNode], in a range whose size is an [idNode]:
    it returns a position [r] with [last <= r]; every position it went
    past holds a vertex that the sweep puts before [v]; and it stops at the
    end of the range or before a vertex that the sweep does not put before
    [v].  It never returns a position outside the range unless [last]
    is.  (At the largest [idNode] the addition [idRes + 1] leaves the
    type.) *)
Theorem getVertInRange_spec t range v last :
  0 <= last < idNodeMax cfg ->
  Vec.size range <= idNodeMax cfg ->
  let r := getVertInRange cfg t range v last in
  last <= r
  /\ (last < Vec.size range -> r < Vec.size range)
  /\ (forall i, last < i <= r ->
        vertLower (comp_ t) (Vec.get 0 range i) v = true)
  /\ (r + 1 < Vec.size range ->
        vertLower (comp_ t) (Vec.get 0 range (r + 1)) v = false).
Proof.
  intros Hlast Hsize r. subst r. unfold getVertInRange. cbv zeta.
  rewrite (toIdNode_id cfg (Vec.size range)) by (pose proof (size_nonneg range); lia).
  replace ((0 <=? last) && (last <? idNodeMax cfg)) with true
    by (symmetry; apply andb_true_iff; split; [apply Z.leb_le|apply Z.ltb_lt]; lia).
  assert (Hgen : forall fuel idRes,
            0 <= idRes < idNodeMax cfg ->
            Vec.size range - idRes - 1 <= Z.of_nat fuel ->
            let r := getVertInRangeFrom cfg fuel t range (Vec.size range) v idRes in
            idRes <= r
            /\ (idRes < Vec.size range -> r < Vec.size range)
            /\ (forall i, idRes < i <= r ->
                  vertLower (comp_ t) (Vec.get 0 range i) v = true)
            /\ (r + 1 < Vec.size range ->
                  vertLower (comp_ t) (Vec.get 0 range (r + 1)) v = false)).
  { induction fuel as [|fuel IH]; intros idRes Hid Hfuel; cbn.
    - split; [lia|]. split; [done|]. split; [lia|lia].
    - rewrite toIdNode_id by lia.
      destruct (Z.ltb_spec (idRes + 1) (Vec.size range)) as [Hlt|Hge]; cbn [andb].
      + destruct (vertLower (comp_ t) (Vec.get 0 range (idRes + 1)) v) eqn:Elow.
        * destruct (IH (idRes + 1)) as (I1 & I2 & I3 & I4); [lia|lia|].
          split; [lia|]. split; [intros _; by apply I2|]. split; [|done].
          intros i Hi. destruct (Z.eq_dec i (idRes + 1)) as [->|Hne]; [done|].
          apply I3. lia.
        * split; [lia|]. split; [done|]. split; [lia|done].
      + split; [lia|]. split; [done|]. split; [lia|lia]. }
  apply Hgen; [done|]. lia.
Qed.

End SortedNodes.

(** A sort that is not [std::sort]: the same insertion sort, of the
    reversed vector. *)
Lemma sortBy_reverse_sorts : sortsBy Ex.reverseSort.
Proof.
  intros lt l Hasym _ _. unfold Ex.reverseSort. split.
  - rewrite sortBy_perm. apply reverse_Permutation.
  - by apply sortBy_sorted.
Qed.

Lemma isLower_sc_transitive : transitiveOrder (isLower Ex.sc).
Proof. intros a b c H1 H2. cbn in *. lia. Qed.

(** The three nodes of the tree with two children, with that sort as the
    parallel sort. *)
Lemma sortedNodes_sorted_witness :
  sortedNodes (Ex.cfg false) Ex.reverseSort Ex.twoChildren true ≡ₚ [0; 1; 2]
  /\ sortedBy (nodeLower (Ex.cfg false) Ex.twoChildren)
              (sortedNodes (Ex.cfg false) Ex.reverseSort Ex.twoChildren true) = true
  /\ sortedNodes (Ex.cfg false) Ex.reverseSort Ex.twoChildren false
     = sortedNodes (Ex.cfg false) Ex.reverseSort Ex.twoChildren true.
Proof.
  destruct (sortedNodes_sorted (Ex.cfg false) Ex.reverseSort Ex.twoChildren true
              sortBy_reverse_sorts isLower_sc_asymmetric isLower_sc_transitive)
    as (H1 & _ & _ & H2 & H3).
  - intros a b Ha Hb Hne.
    apply elem_of_seqZ in Ha. apply elem_of_seqZ in Hb.
    change (getNumberOfNodes Ex.twoChildren) with 3 in *.
    assert (Ea : a = 0 \/ a = 1 \/ a = 2) by lia.
    assert (Eb : b = 0 \/ b = 1 \/ b = 2) by lia.
    destruct Ea as [-> | [-> | ->]], Eb as [-> | [-> | ->]];
      try done; vm_compute; auto.
  - split; [exact H1|]. split; [exact H2|exact H3].
Defined.

(** In the range [0, 2, 1] of the chain, vertex 3 is above all of them. *)
Lemma getVertInRange_spec_witness :
  0 <= getVertInRange (Ex.cfg false) Ex.twoChildren [0; 2; 1] 3 0 < 3.
Proof.
  destruct (getVertInRange_spec (Ex.cfg false) Ex.twoChildren [0; 2; 1] 3 0)
    as (H1 & H2 & _).
  - vm_compute. split; [discriminate|reflexivity].
  - vm_compute. discriminate.
  - split; [exact H1|]. apply H2. reflexivity.
Defined.

(** ** Inserting a node on an arc *)

Section InsertNode.

Variable cfg : Build.
Variable scalars_ : Scalars.
Variable nullSuperArc : idSuperArc.
Variable splitFront : idVertex -> Scalars -> SuperArc -> SuperArc * list idVertex.
Variable splitBack : idVertex -> Scalars -> SuperArc -> SuperArc * list idVertex.

(** X10.  [insertNode] without segmentation, for a vertex of the scalars
    that is on an existing arc whose up node exists: a node is appended on
    the vertex (its second field is the default one, not the origin that
    [insertNode] computes) and the vertex becomes a node vertex; a super-arc
    is appended from the new node to the former up node and its id is
    returned; the existing arc now ends on the new node and keeps its down
    node; the new node has the new arc as up arc and the existing arc as
    down arc; in the down-arc list of the former up node the existing arc
    (when it was listed) is replaced by the new one; the other entries,
    super-arcs and nodes are left as they are. *)
Theorem insertNode_connectivity t node currentSA :
  let v := vertexId_ node in
  0 <= v < scalars_size scalars_ ->
  v < Vec.size (vert2tree t) ->
  corresp t v = CArc currentSA ->
  0 <= currentSA < getNumberOfSuperArcs t ->
  let upNodeId := upNodeId_ (getSuperArc cfg t currentSA) in
  0 <= upNodeId < getNumberOfNodes t ->
  let t' := fst (insertNode cfg scalars_ nullSuperArc splitFront splitBack t node false) in
  let newSA := snd (insertNode cfg scalars_ nullSuperArc splitFront splitBack t node false) in
  let newNodeId := getNumberOfNodes t in
  let before := vect_downSuperArcList_ (getNode cfg t upNodeId) in
  let after := vect_downSuperArcList_ (getNode cfg t' upNodeId) in
  newSA = getNumberOfSuperArcs t
  /\ getNumberOfNodes t' = getNumberOfNodes t + 1
  /\ getNumberOfSuperArcs t' = getNumberOfSuperArcs t + 1
  /\ corresp t' v = CNode newNodeId
  /\ (forall w, w <> v -> corresp t' w = corresp t w)
  /\ getNode cfg t' newNodeId
     = NodeOps.addDownSuperArcId currentSA
         (NodeOps.addUpSuperArcId newSA
            (NodeOps.setTerminaison (defaultTerm cfg)
               (NodeOps.setVertexId v (defaultNode cfg))))
  /\ getSuperArc cfg t' currentSA
     = ArcOps.setUpNodeId newNodeId (getSuperArc cfg t currentSA)
  /\ getSuperArc cfg t' newSA
     = ArcOps.setUpNodeId upNodeId (ArcOps.setDownNodeId newNodeId (defaultSuperArc cfg))
  /\ newSA ∈ after
  /\ (currentSA ∈ before -> currentSA :: after ≡ₚ before ++ [newSA])
  /\ (forall a, 0 <= a < getNumberOfSuperArcs t -> a <> currentSA ->
        Vec.at_ (superArcs t') a = Vec.at_ (superArcs t) a)
  /\ (forall n, 0 <= n < getNumberOfNodes t -> n <> upNodeId ->
        Vec.at_ (nodes t') n = Vec.at_ (nodes t) n).
Proof.
  intros v Hv Hv2 Hc Ha upNodeId Hu t' newSA newNodeId before after.
  subst t' newSA newNodeId before after.
  assert (Hn : isCorrespondingNode t v = false).
  { unfold isCorrespondingNode. by rewrite Hc. }
  assert (Hsa : getCorrespondingSuperArcId t v = currentSA).
  { unfold getCorrespondingSuperArcId. by rewrite Hc. }
  unfold insertNode. fold v. rewrite Hn, Hsa. unfold makeNodeOf. fold v.
  rewrite makeNode_fresh by done.
  change (Vec.get (defaultSuperArc cfg) (superArcs t) currentSA)
    with (getSuperArc cfg t currentSA).
  fold upNodeId.
  unfold makeSuperArc, Vec.getNext. cbv beta iota zeta. cbn [fst snd].
  unfold getNumberOfNodes, getNumberOfSuperArcs, getNode, getSuperArc, corresp,
    updateCorrespondingNode in *.
  cbn [nodes superArcs vert2tree set_nodes set_superArcs set_vert2tree].
  set (n0 := NodeOps.setTerminaison (defaultTerm cfg)
               (NodeOps.setVertexId v (defaultNode cfg))).
  set (N := Vec.size (nodes t)) in *.
  set (A := Vec.size (superArcs t)) in *.
  pose proof (size_nonneg (nodes t)) as HN. fold N in HN.
  pose proof (size_nonneg (superArcs t)) as HA. fold A in HA.
  assert (SzN : Vec.size (nodes t ++ [n0]) = N + 1) by by rewrite size_app.
  assert (SzA : forall x : SuperArc, Vec.size (superArcs t ++ [x]) = A + 1).
  { intros x. by rewrite size_app. }
  split; [done|].
  split. { by rewrite !size_upd. }
  split. { by rewrite !size_upd, SzA. }
  split. { apply get_set_eq. lia. }
  split. { intros w Hw. by apply get_set_ne. }
  split.
  { rewrite (get_upd_eq _ _ N) by (rewrite !size_upd; lia).
    rewrite (get_upd_ne _ _ upNodeId N) by lia.
    rewrite (get_upd_ne _ _ upNodeId N) by lia.
    rewrite (get_upd_eq _ _ N) by lia.
    unfold Vec.get. subst N. by rewrite at_app_new. }
  split.
  { rewrite (get_upd_eq _ _ currentSA) by (rewrite !size_upd, SzA; lia).
    rewrite !(get_upd_ne _ _ A currentSA) by lia.
    unfold Vec.get. by rewrite at_app_l. }
  split.
  { rewrite (get_upd_ne _ _ currentSA A) by lia.
    rewrite !(get_upd_eq _ _ A) by (rewrite ?size_upd, SzA; lia).
    unfold Vec.get. subst A. by rewrite at_app_new. }
  assert (Eafter :
    vect_downSuperArcList_
      (Vec.get (defaultNode cfg)
         (Vec.upd N (NodeOps.addDownSuperArcId currentSA)
            (Vec.upd upNodeId (NodeOps.removeDownSuperArc currentSA)
               (Vec.upd upNodeId (NodeOps.addDownSuperArcId A)
                  (Vec.upd N (NodeOps.addUpSuperArcId A) (nodes t ++ [n0])))))
         upNodeId)
    = NodeOps.removeArc currentSA
        (vect_downSuperArcList_ (Vec.get (defaultNode cfg) (nodes t) upNodeId) ++ [A])).
  { rewrite (get_upd_ne _ _ N upNodeId) by lia.
    rewrite (get_upd_eq _ _ upNodeId) by (rewrite !size_upd; lia).
    rewrite (get_upd_eq _ _ upNodeId) by (rewrite !size_upd; lia).
    rewrite (get_upd_ne _ _ N upNodeId) by lia.
    unfold Vec.get at 1. by rewrite at_app_l. }
  rewrite Eafter.
  split.
  { destruct (decide (currentSA ∈ vect_downSuperArcList_
                        (Vec.get (defaultNode cfg) (nodes t) upNodeId))) as [Hin|Hnin].
    - assert (Hp := removeArc_perm currentSA
                      (vect_downSuperArcList_
                         (Vec.get (defaultNode cfg) (nodes t) upNodeId) ++ [A])).
      assert (Hin' : A ∈ currentSA :: NodeOps.removeArc currentSA
                (vect_downSuperArcList_
                   (Vec.get (defaultNode cfg) (nodes t) upNodeId) ++ [A])).
      { rewrite Hp; [|apply elem_of_app; by left]. apply elem_of_app. right. by left. }
      apply elem_of_cons in Hin' as [Heq|Hin']; [lia|done].
    - rewrite removeArc_notin; [apply elem_of_app; right; by left|].
      intros Hin. apply elem_of_app in Hin as [Hin|Hin]; [done|].
      apply elem_of_cons in Hin as [Hin|Hin]; [lia|by apply elem_of_nil in Hin]. }
  split.
  { intros Hin. apply removeArc_perm. apply elem_of_app. by left. }
  split.
  { intros a Ha1 Ha2. rewrite !at_upd_ne by lia. by apply at_app_l. }
  intros n Hn1 Hn2. rewrite !at_upd_ne by lia. by apply at_app_l.
Qed.

End InsertNode.

(** On the chain, vertex 1 is on arc 0, between the nodes 0 and 1: the
    inserted node is node 3 and the new arc is arc 2. *)
Lemma insertNode_connectivity_witness :
  snd (insertNode (Ex.cfg false) Ex.sc (-1) (fun _ _ a => (a, [])) (fun _ _ a => (a, []))
                  Trees.chainTree (mkNode 1 0 [] []) false) = 2
  /\ corresp (fst (insertNode (Ex.cfg false) Ex.sc (-1) (fun _ _ a => (a, []))
                              (fun _ _ a => (a, [])) Trees.chainTree (mkNode 1 0 [] [])
                              false)) 1
     = CNode 3.
Proof.
  destruct (insertNode_connectivity (Ex.cfg false) Ex.sc (-1) (fun _ _ a => (a, []))
              (fun _ _ a => (a, [])) Trees.chainTree (mkNode 1 0 [] []) 0)
    as (H1 & _ & _ & H2 & _).
  - vm_compute. split; [discriminate|reflexivity].
  - reflexivity.
  - reflexivity.
  - vm_compute. split; [discriminate|reflexivity].
  - vm_compute. split; [discriminate|reflexivity].
  - split; [exact H1|exact H2].
Defined.

(** ** The assignment of the trunk vertices *)

Lemma fold_left_keeps {S B} (P : S -> Prop) (f : S -> B -> S) (l : list B) s :
  (forall x s', x ∈ l -> P s' -> P (f s' x)) -> P s -> P (fold_left f l s).
Proof.
  revert s. induction l as [|x l IH]; intros s Hf Hs; cbn; [done|].
  apply IH.
  - intros y s' Hy. apply Hf. apply elem_of_cons. by right.
  - apply Hf; [|done]. apply elem_of_cons. by left.
Qed.

Lemma forRangeDown_keeps {S} (P : S -> Prop) hi lo (body : Z -> S -> S) s :
  (forall i s', P s' -> P (body i s')) -> P s -> P (forRangeDown hi lo body s).
Proof.
  intros Hbody Hs. unfold forRangeDown.
  apply (fold_left_keeps P); [|done]. intros x s' _. apply Hbody.
Qed.

(** A predicate that changes at one point of a range changes the count by
    one. *)
Lemma filter_count_change (p q : Z -> bool) (n : nat) s :
  0 <= s < Z.of_nat n ->
  (forall w, w <> s -> q w = p w) ->
  p s = false -> q s = true ->
  Vec.size (List.filter q (seqZ 0 (Z.of_nat n)))
  = Vec.size (List.filter p (seqZ 0 (Z.of_nat n))) + 1.
Proof.
  intros Hs Hext Hp Hq. induction n as [|n IH]; [lia|].
  rewrite Nat2Z.inj_succ. unfold Z.succ. rewrite seqZ_app by lia.
  rewrite !List.filter_app, !size_app.
  change (seqZ (0 + Z.of_nat n) 1) with [0 + Z.of_nat n]. cbn [List.filter].
  destruct (Z.eq_dec s (Z.of_nat n)) as [->|Hne].
  - rewrite Z.add_0_l, Hp, Hq.
    replace (List.filter q (seqZ 0 (Z.of_nat n)))
      with (List.filter p (seqZ 0 (Z.of_nat n))).
    2: { apply List.filter_ext_in. intros w Hw. symmetry. apply Hext.
         apply list_elem_of_In, elem_of_seqZ in Hw. lia. }
    unfold Vec.size. cbn. lia.
  - rewrite IH by lia. rewrite (Hext (0 + Z.of_nat n)) by lia. lia.
Qed.

Lemma filter_count_same (p q : Z -> bool) (l : list Z) :
  (forall w, w ∈ l -> q w = p w) -> List.filter q l = List.filter p l.
Proof.
  intros H. apply List.filter_ext_in. intros w Hw. apply H. by apply list_elem_of_In.
Qed.

Section TrunkSegmentation.

Variable cfg : Build.
Variable scalars_ : Scalars.

Lemma assignedOnly_refl t : assignedOnly t t.
Proof. repeat split; try done. intros w. by left. Qed.

Lemma assignedOnly_nodeId t0 t v :
  assignedOnly t0 t -> getCorrespondingNodeId t v = getCorrespondingNodeId t0 v.
Proof.
  intros (_ & _ & _ & _ & _ & _ & _ & _ & _ & H).
  unfold getCorrespondingNodeId.
  destruct (H v) as [->|[-> [a ->]]]; done.
Qed.

Lemma assignedOnly_arcOf t0 t pv k :
  assignedOnly t0 t -> backboneArc cfg t pv k = backboneArc cfg t0 pv k.
Proof.
  intros H. unfold backboneArc, upArcFromVert, getNode.
  rewrite (assignedOnly_nodeId t0 t _ H).
  destruct H as (-> & _). done.
Qed.

Lemma assignedOnly_null t0 t w :
  assignedOnly t0 t -> corresp t w = CNull -> corresp t0 w = CNull.
Proof.
  intros (_ & _ & _ & _ & _ & _ & _ & _ & _ & H) Hw.
  destruct (H w) as [E|[E [a E']]]; congruence.
Qed.

(** One more vertex on an arc. *)
Lemma assignedOnly_assign t0 t s a :
  assignedOnly t0 t -> corresp t s = CNull ->
  assignedOnly t0 (updateCorrespondingArc s a t).
Proof.
  intros H Hs. pose proof (assignedOnly_null _ _ _ H Hs) as Hs0.
  destruct H as (H1 & H2 & H3 & H4 & H5 & H6 & H7 & H9 & H10 & H11).
  repeat split; try done.
  - cbn. by rewrite size_set.
  - intros w. unfold corresp, updateCorrespondingArc in *. cbn.
    destruct (Z.eq_dec w s) as [->|Hne].
    + destruct (decide (0 <= s < Vec.size (vert2tree t))) as [Hin|Hout].
      * rewrite get_set_eq by done. right. split; [done|]. by exists a.
      * left. unfold Vec.get. rewrite at_out by (by rewrite size_set).
        cbn. unfold Vec.get in Hs0. by rewrite Hs0.
    + rewrite get_set_ne by done. apply H11.
Qed.

(** One more visit counted. *)
Lemma assignedOnly_count t0 t a n :
  assignedOnly t0 t ->
  assignedOnly t0 (set_superArcs (Vec.upd a (ArcOps.atomicIncVisited n)) t).
Proof.
  intros (H1 & H2 & H3 & H4 & H5 & H6 & H7 & H9 & H10 & H11).
  repeat split; try done.
  cbn. by rewrite map_upd_keeps.
Qed.

Lemma visitCount_count t a b n :
  0 <= a < Vec.size (superArcs t) ->
  visitCount cfg (set_superArcs (Vec.upd b (ArcOps.atomicIncVisited n)) t) a
  = visitCount cfg t a + (if a =? b then n else 0).
Proof.
  intros Ha. unfold visitCount, getSuperArc. cbn [superArcs set_superArcs].
  destruct (Z.eqb_spec a b) as [->|Hne].
  - by rewrite get_upd_eq.
  - rewrite get_upd_ne by done. lia.
Qed.

(** The count of the newly assigned vertices after one more assignment. *)
Lemma newlyAssigned_assign t0 t s b a :
  assignedOnly t0 t -> corresp t s = CNull ->
  0 <= s < Vec.size (vert2tree t0) ->
  Vec.size (newlyAssigned t0 (updateCorrespondingArc s b t) a)
  = Vec.size (newlyAssigned t0 t a) + (if a =? b then 1 else 0).
Proof.
  intros H Hs Hr. pose proof (assignedOnly_null _ _ _ H Hs) as Hs0.
  assert (Hsz : Vec.size (vert2tree t) = Vec.size (vert2tree t0)) by apply H.
  assert (Hnew : corresp (updateCorrespondingArc s b t) s = CArc b).
  { unfold corresp, updateCorrespondingArc. cbn. apply get_set_eq. lia. }
  assert (Hother : forall w, w <> s ->
            corresp (updateCorrespondingArc s b t) w = corresp t w).
  { intros w Hw. unfold corresp, updateCorrespondingArc. cbn. by apply get_set_ne. }
  unfold newlyAssigned.
  destruct (Z.eqb_spec a b) as [->|Hne].
  - unfold Vec.size in Hr |- *. fold (@Vec.size Z).
    apply filter_count_change with (s := s); [done| | |].
    + intros w Hw. unfold assignedTo. by rewrite Hother.
    + unfold assignedTo. by rewrite Hs, andb_false_r.
    + unfold assignedTo, isCorrespondingNull. rewrite Hs0, Hnew. cbn. lia.
  - rewrite Z.add_0_r. f_equal. apply filter_count_same. intros w _.
    unfold assignedTo. destruct (Z.eq_dec w s) as [->|Hw].
    + rewrite Hnew, Hs. destruct (Z.eqb_spec b a); [lia|done].
    + by rewrite Hother.
Qed.

Lemma size_arcs t0 t :
  assignedOnly t0 t -> Vec.size (superArcs t) = Vec.size (superArcs t0).
Proof.
  intros H. destruct H as (_ & _ & _ & _ & _ & _ & _ & H & _).
  unfold Vec.size. f_equal.
  by rewrite <- (length_map arcEnds), H, length_map.
Qed.

Lemma chunkInv_start t0 pv t : counted cfg t0 t -> chunkInv cfg t0 pv (t, 0, 0).
Proof.
  intros [H1 H2]. split; [done|]. intros a Ha. cbn [fst snd]. rewrite H2 by done.
  destruct (a =? _); lia.
Qed.

Lemma chunkInv_step t0 pv v st :
  0 <= Vec.get 0 (sortedVertices scalars_) v < Vec.size (vert2tree t0) ->
  chunkInv cfg t0 pv st -> chunkInv cfg t0 pv (assignChunkTrunk cfg scalars_ pv v st).
Proof.
  intros Hsorted. destruct st as [[t last] acc]. intros [H1 H2]. cbn [fst snd] in *.
  unfold assignChunkTrunk.
  set (s := Vec.get 0 (sortedVertices scalars_) v).
  destruct (isCorrespondingNull t s) eqn:Hnull; [|done].
  assert (Hs : corresp t s = CNull).
  { unfold isCorrespondingNull in Hnull. by destruct (corresp t s). }
  cbv zeta.
  set (last' := getVertInRange cfg t pv s last).
  change (upArcFromVert cfg t (Vec.get 0 pv last')) with (backboneArc cfg t pv last').
  rewrite (assignedOnly_arcOf t0 t pv last' H1).
  set (thisArc := backboneArc cfg t0 pv last').
  pose proof (assignedOnly_assign t0 t s thisArc H1 Hs) as H1'.
  pose proof (size_arcs _ _ H1) as Hsz.
  destruct (Z.eqb_spec last last') as [E|E].
  - split; [done|]. intros a Ha. cbn [fst snd].
    rewrite newlyAssigned_assign by (done || apply Hsorted).
    specialize (H2 a Ha). rewrite E in H2. fold thisArc in H2.
    change (visitCount cfg (updateCorrespondingArc s thisArc t) a) with (visitCount cfg t a).
    fold thisArc. destruct (a =? thisArc); lia.
  - change (upArcFromVert cfg (updateCorrespondingArc s thisArc t) (Vec.get 0 pv last))
      with (backboneArc cfg (updateCorrespondingArc s thisArc t) pv last).
    rewrite (assignedOnly_arcOf t0 _ pv last H1').
    split; [by apply assignedOnly_count|]. intros a Ha. cbn [fst snd].
    rewrite visitCount_count by (cbn; lia).
    change (newlyAssigned t0 (set_superArcs ?f ?x) a) with (newlyAssigned t0 x a).
    rewrite newlyAssigned_assign by (done || apply Hsorted).
    specialize (H2 a Ha).
    change (visitCount cfg (updateCorrespondingArc s thisArc t) a) with (visitCount cfg t a).
    fold thisArc. destruct (a =? thisArc), (a =? backboneArc cfg t0 pv last); lia.
Qed.

Lemma chunkInv_flush t0 pv st :
  chunkInv cfg t0 pv st -> counted cfg t0 (flushChunk cfg pv st).
Proof.
  destruct st as [[t last] acc]. intros [H1 H2]. cbn [fst snd] in *. unfold flushChunk.
  change (getUpSuperArcId (getNode cfg t (getCorrespondingNodeId t (Vec.get 0 pv last))) 0)
    with (backboneArc cfg t pv last).
  rewrite (assignedOnly_arcOf t0 t pv last H1).
  split; [by apply assignedOnly_count|]. intros a Ha.
  rewrite visitCount_count by (rewrite (size_arcs _ _ H1); lia).
  change (newlyAssigned t0 (set_superArcs ?f ?x) a) with (newlyAssigned t0 x a).
  by apply H2.
Qed.

Lemma counted_refl t : counted cfg t t.
Proof.
  split; [apply assignedOnly_refl|]. intros a Ha.
  assert (E : newlyAssigned t t a = []); [|rewrite E; change (Vec.size (@nil Z)) with 0; lia].
  unfold newlyAssigned.
  induction (seqZ 0 (Vec.size (vert2tree t))) as [|w l IH]; [done|].
  cbn. rewrite IH. unfold assignedTo, isCorrespondingNull.
  by destruct (corresp t w).
Qed.

Lemma assignChunkTrunk_keeps t0 pv v st :
  assignedOnly t0 st.1.1 -> assignedOnly t0 (assignChunkTrunk cfg scalars_ pv v st).1.1.
Proof.
  destruct st as [[t last] acc]. cbn [fst snd]. intros H. unfold assignChunkTrunk.
  destruct (isCorrespondingNull t _) eqn:Hnull; [|done].
  assert (Hs : corresp t (Vec.get 0 (sortedVertices scalars_) v) = CNull).
  { unfold isCorrespondingNull in Hnull. by destruct (corresp t _). }
  cbv zeta. destruct (_ =? _); cbn [fst snd].
  - by apply assignedOnly_assign.
  - by apply assignedOnly_count, assignedOnly_assign.
Qed.

Lemma flushChunk_keeps t0 pv st :
  assignedOnly t0 st.1.1 -> assignedOnly t0 (flushChunk cfg pv st).
Proof.
  destruct st as [[t last] acc]. cbn [fst snd]. intros H. unfold flushChunk.
  by apply assignedOnly_count.
Qed.

(** What [trunkSegmentation] returns: the tree of the loops over the
    chunks, with the line of [printTime]. *)
Lemma trunkSegmentation_loops t pv :
  fst (trunkSegmentation cfg scalars_ t pv)
  = printTime cfg scalars_ "Backbone para." (-1) 3 (trunkChunks cfg scalars_ t pv).
Proof.
  unfold trunkSegmentation, trunkChunks.
  by destruct (getBoundsFromVerts scalars_ t pv) as [begin stop].
Qed.

(** The loops over the chunks only assign vertices. *)
Lemma trunkChunks_assignedOnly t pv : assignedOnly t (trunkChunks cfg scalars_ t pv).
Proof.
  unfold trunkChunks.
  destruct (getBoundsFromVerts scalars_ t pv) as [begin stop]. cbv zeta.
  destruct (isJT t).
  - apply (forRange_keeps (assignedOnly t)); [|apply assignedOnly_refl].
    intros c tc _ Hc. apply flushChunk_keeps.
    apply (forRange_keeps (fun st => assignedOnly t st.1.1)); [|done].
    intros v st _ Hst. by apply assignChunkTrunk_keeps.
  - apply (forRangeDown_keeps (assignedOnly t)); [|apply assignedOnly_refl].
    intros c tc Hc. apply flushChunk_keeps.
    apply (forRangeDown_keeps (fun st => assignedOnly t st.1.1)); [|done].
    intros v st Hst. by apply assignChunkTrunk_keeps.
Qed.

(** A line written keeps what the loops over the chunks did. *)
Lemma assignedOnly_log t t' items : assignedOnly t t' -> assignedOnly t (log items t').
Proof. intros H. exact H. Qed.

Lemma assignedOnly_printTime t t' s n l :
  assignedOnly t t' -> assignedOnly t (printTime cfg scalars_ s n l t').
Proof. intros H. timings. exact H. Qed.

(** The assignment of the chunks writes nothing. *)
Lemma assignChunkTrunk_console pv v st :
  console (assignChunkTrunk cfg scalars_ pv v st).1.1 = console st.1.1.
Proof.
  destruct st as [[t last] acc]. unfold assignChunkTrunk. cbn [fst snd].
  destruct (isCorrespondingNull t _); [|done].
  destruct (_ =? _); done.
Qed.

Lemma trunkChunks_console t pv : console (trunkChunks cfg scalars_ t pv) = console t.
Proof.
  unfold trunkChunks.
  destruct (getBoundsFromVerts scalars_ t pv) as [begin stop]. cbv zeta.
  destruct (isJT t).
  - apply (forRange_keeps (fun x => console x = console t)); [|done].
    intros c tc _ Hc. unfold flushChunk.
    destruct (forRange _ _ _ _) as [[t2 last] acc] eqn:E.
    assert (H : console (t2, last, acc).1.1 = console t).
    { rewrite <- E.
      apply (forRange_keeps (fun st => console st.1.1 = console t)); [|done].
      intros v st _ Hst. by rewrite assignChunkTrunk_console. }
    done.
  - apply (forRangeDown_keeps (fun x => console x = console t)); [|done].
    intros c tc Hc. unfold flushChunk.
    destruct (forRangeDown _ _ _ _) as [[t2 last] acc] eqn:E.
    assert (H : console (t2, last, acc).1.1 = console t).
    { rewrite <- E.
      apply (forRangeDown_keeps (fun st => console st.1.1 = console t)); [|done].
      intros v st Hst. by rewrite assignChunkTrunk_console. }
    done.
Qed.

(** X11.  The assignment of the trunk vertices to the arcs, for a join
    tree as for a split tree and whatever the chunks, makes and moves no
    node, root or leaf, changes no end of a super-arc, and changes a vertex
    to tree entry only from nil to an arc.  It writes the line of
    [printTime] at the end and nothing else: at a debug level below 3 it
    writes nothing, and from 3 on it does write. *)
Theorem trunkSegmentation_assigns_only t pendingVerts :
  let t' := fst (trunkSegmentation cfg scalars_ t pendingVerts) in
  nodes t' = nodes t /\ roots t' = roots t /\ leaves t' = leaves t
  /\ console t' = console (printTime cfg scalars_ "Backbone para." (-1) 3 t)
  /\ (if debugLevel_ cfg <? 3 then console t' = console t
      else exists line, line <> [] /\ console t' = console t ++ line)
  /\ map arcEnds (superArcs t') = map arcEnds (superArcs t)
  /\ Vec.size (vert2tree t') = Vec.size (vert2tree t)
  /\ (forall w, isCorrespondingNull t w = false -> corresp t' w = corresp t w)
  /\ (forall w, isCorrespondingNull t w = true ->
        isCorrespondingNull t' w = true \/ isCorrespondingArc t' w = true).
Proof.
  intros t'.
  assert (Hc : console (trunkChunks cfg scalars_ t pendingVerts) = console t)
    by apply trunkChunks_console.
  assert (Hp : console t' = console (printTime cfg scalars_ "Backbone para." (-1) 3 t)).
  { subst t'. rewrite trunkSegmentation_loops. unfold printTime.
    destruct (debugLevel_ cfg >=? 3); [|done].
    cbn [console log set_console]. by rewrite Hc. }
  assert (H : assignedOnly t t').
  { subst t'. rewrite trunkSegmentation_loops.
    apply assignedOnly_printTime, trunkChunks_assignedOnly. }
  destruct H as (H1 & H2 & H3 & H4 & H5 & H6 & H7 & H9 & H10 & H11).
  repeat split; try done.
  - rewrite Hp. unfold printTime.
    destruct (Z.ltb_spec (debugLevel_ cfg) 3) as [Hlt|Hge].
    + replace (debugLevel_ cfg >=? 3) with false by (symmetry; rewrite Z.geb_leb; lia).
      done.
    + replace (debugLevel_ cfg >=? 3) with true by (symmetry; rewrite Z.geb_leb; lia).
      eexists. split; [|reflexivity].
      cbn. discriminate.
  - intros w Hw. destruct (H11 w) as [E|[E _]]; [done|].
    unfold isCorrespondingNull in Hw. by rewrite E in Hw.
  - intros w Hw. unfold isCorrespondingNull, isCorrespondingArc in *.
    destruct (H11 w) as [E|[_ [a E]]]; rewrite E; [by left|by right].
Qed.

(** X12.  The visit counts of the trunk.  When the sorted vertices are
    entries of the vertex to tree map, the assignment of the trunk vertices
    raises the visit count of every arc by exactly the number of vertices
    that were nil before and are on that arc afterwards, for a join tree as
    for a split tree and whatever the chunks. *)
Theorem trunkSegmentation_counts t pendingVerts :
  (forall i, 0 <= Vec.get 0 (sortedVertices scalars_) i < Vec.size (vert2tree t)) ->
  let t' := fst (trunkSegmentation cfg scalars_ t pendingVerts) in
  forall a, 0 <= a < getNumberOfSuperArcs t ->
    visitCount cfg t' a = visitCount cfg t a + Vec.size (newlyAssigned t t' a).
Proof.
  intros Hsorted t'.
  assert (H : counted cfg t t'); [|apply H].
  subst t'. rewrite trunkSegmentation_loops. timings. unlog. unfold trunkChunks.
  destruct (getBoundsFromVerts scalars_ t pendingVerts) as [begin stop]. cbv zeta.
  destruct (isJT t).
  - apply (forRange_keeps (counted cfg t)); [|apply counted_refl].
    intros c tc _ Hc. apply chunkInv_flush.
    apply (forRange_keeps (chunkInv cfg t pendingVerts)); [|by apply chunkInv_start].
    intros v st _ Hst. apply chunkInv_step; [apply Hsorted|done].
  - apply (forRangeDown_keeps (counted cfg t)); [|apply counted_refl].
    intros c tc Hc. apply chunkInv_flush.
    apply (forRangeDown_keeps (chunkInv cfg t pendingVerts)); [|by apply chunkInv_start].
    intros v st Hst. apply chunkInv_step; [apply Hsorted|done].
Qed.

(** A step of a loop that establishes [P], under an invariant [Q] of the
    loop that keeps [P]. *)
Lemma fold_left_reaches {S B} (P Q : S -> Prop) (f : S -> B -> S) (l : list B) x s :
  x ∈ l ->
  (forall y s', Q s' -> Q (f s' y)) ->
  (forall s', Q s' -> P (f s' x)) ->
  (forall y s', Q s' -> P s' -> P (f s' y)) ->
  Q s -> P (fold_left f l s).
Proof.
  intros Hx HQ HP Hkeep. revert s.
  induction l as [|y l IH]; intros s Hs; [by apply elem_of_nil in Hx|].
  cbn. apply elem_of_cons in Hx as [<-|Hx].
  - assert (Hkept : forall l' s', Q s' -> P s' -> P (fold_left f l' s')).
    { clear IH. induction l' as [|z l' IH']; intros s' Hq Hp; [done|].
      cbn. apply IH'; [by apply HQ|by apply Hkeep]. }
    apply Hkept; [by apply HQ|by apply HP].
  - apply IH; [done|by apply HQ].
Qed.

Lemma assignChunkTrunk_nonnull t0 pv v st w :
  assignedOnly t0 st.1.1 ->
  isCorrespondingNull st.1.1 w = false ->
  isCorrespondingNull (assignChunkTrunk cfg scalars_ pv v st).1.1 w = false.
Proof.
  intros H Hw.
  destruct (assignChunkTrunk_keeps t0 pv v st H)
    as (_ & _ & _ & _ & _ & _ & _ & _ & _ & H').
  pose proof (assignedOnly_refl st.1.1) as Hr.
  destruct (assignChunkTrunk_keeps st.1.1 pv v st Hr)
    as (_ & _ & _ & _ & _ & _ & _ & _ & _ & H'').
  unfold isCorrespondingNull in *.
  destruct (H'' w) as [E|[E _]]; [by rewrite E|].
  by rewrite E in Hw.
Qed.

Lemma assignChunkTrunk_assigns t0 pv v st :
  assignedOnly t0 st.1.1 ->
  0 <= Vec.get 0 (sortedVertices scalars_) v < Vec.size (vert2tree t0) ->
  isCorrespondingNull (assignChunkTrunk cfg scalars_ pv v st).1.1
                      (Vec.get 0 (sortedVertices scalars_) v) = false.
Proof.
  destruct st as [[t last] acc]. cbn [fst snd]. intros H Hv.
  assert (Hsz : Vec.size (vert2tree t) = Vec.size (vert2tree t0)) by apply H.
  unfold assignChunkTrunk.
  destruct (isCorrespondingNull t _) eqn:Hnull; [|done].
  cbv zeta.
  assert (E : forall a, isCorrespondingNull
                (updateCorrespondingArc (Vec.get 0 (sortedVertices scalars_) v) a t)
                (Vec.get 0 (sortedVertices scalars_) v) = false).
  { intros a. unfold isCorrespondingNull, corresp, updateCorrespondingArc. cbn.
    rewrite get_set_eq by lia. done. }
  destruct (_ =? _); cbn [fst snd]; apply E.
Qed.

Lemma flushChunk_corresp pv st w :
  corresp (flushChunk cfg pv st) w = corresp st.1.1 w.
Proof. by destruct st as [[t last] acc]. Qed.

(** A chunk task that goes through the position [i] leaves its vertex on a
    node or an arc. *)
Lemma chunk_assigns t pv i (l : list Z) tc :
  0 <= Vec.get 0 (sortedVertices scalars_) i < Vec.size (vert2tree t) ->
  i ∈ l -> assignedOnly t tc ->
  isCorrespondingNull
    (flushChunk cfg pv
       (fold_left (fun acc v => assignChunkTrunk cfg scalars_ pv v acc) l (tc, 0, 0)))
    (Vec.get 0 (sortedVertices scalars_) i) = false.
Proof.
  intros Hs Hl Htc. unfold isCorrespondingNull. rewrite flushChunk_corresp.
  apply (fold_left_reaches
           (fun st => isCorrespondingNull st.1.1 (Vec.get 0 (sortedVertices scalars_) i)
                      = false)
           (fun st => assignedOnly t st.1.1)) with (x := i); [done| | | |done].
  - intros y st. apply assignChunkTrunk_keeps.
  - intros st Hst. by apply (assignChunkTrunk_assigns t).
  - intros y st Hst. by apply (assignChunkTrunk_nonnull t).
Qed.

(** A chunk task only assigns, and leaves no vertex nil that was not. *)
Lemma chunk_keeps t pv s (l : list Z) tc :
  assignedOnly t tc ->
  assignedOnly t
    (flushChunk cfg pv
       (fold_left (fun acc v => assignChunkTrunk cfg scalars_ pv v acc) l (tc, 0, 0)))
  /\ (isCorrespondingNull tc s = false ->
      isCorrespondingNull
        (flushChunk cfg pv
           (fold_left (fun acc v => assignChunkTrunk cfg scalars_ pv v acc) l (tc, 0, 0)))
        s = false).
Proof.
  intros Htc. split.
  - apply flushChunk_keeps.
    apply (fold_left_keeps (fun st => assignedOnly t st.1.1)); [|done].
    intros y st _. apply assignChunkTrunk_keeps.
  - intros Hn. unfold isCorrespondingNull. rewrite flushChunk_corresp.
    apply (fold_left_keeps
             (fun st => assignedOnly t st.1.1
                        /\ isCorrespondingNull st.1.1 s = false)); [|done].
    intros y st _ [Hst Hs]. split; [by apply assignChunkTrunk_keeps|].
    by apply (assignChunkTrunk_nonnull t).
Qed.

(** X13.  With chunks that cover the range of the trunk (a positive chunk
    size, and a number of chunks whose product with it is not below the
    size of the range) and sorted vertices that are entries of the vertex
    to tree map, no vertex of the range is left nil by the assignment:
    every vertex from the first backbone vertex up to the last sorted
    vertex (join tree), or down to the first sorted vertex (split tree), is
    a node or on an arc afterwards. *)
Theorem trunkSegmentation_covers t pendingVerts :
  let begin := (getBoundsFromVerts scalars_ t pendingVerts).1 in
  let stop := (getBoundsFromVerts scalars_ t pendingVerts).2 in
  let cs := getChunkSize cfg (Some (Z.abs (stop - begin))) (Some 40) in
  let cn := getChunkCount cfg (Some (Z.abs (stop - begin))) (Some 40) in
  0 < cs ->
  Z.abs (stop - begin) <= cn * cs ->
  (forall i, trunkRange scalars_ t pendingVerts i ->
     0 <= Vec.get 0 (sortedVertices scalars_) i < Vec.size (vert2tree t)) ->
  let t' := fst (trunkSegmentation cfg scalars_ t pendingVerts) in
  forall i, trunkRange scalars_ t pendingVerts i ->
    isCorrespondingNull t' (Vec.get 0 (sortedVertices scalars_) i) = false.
Proof.
  pose proof (trunkSegmentation_loops t pendingVerts) as Hloops.
  unfold trunkChunks, trunkRange in *.
  destruct (getBoundsFromVerts scalars_ t pendingVerts) as [begin stop].
  cbv beta iota zeta in Hloops |- *. cbn [fst snd].
  set (cs := getChunkSize cfg (Some (Z.abs (stop - begin))) (Some 40)) in *.
  set (cn := getChunkCount cfg (Some (Z.abs (stop - begin))) (Some 40)) in *.
  intros Hcs Hcover Hsorted i Hi. rewrite Hloops. clear Hloops. cbv zeta.
  timings. unlog.
  set (s := Vec.get 0 (sortedVertices scalars_) i).
  assert (Hinner : forall (l : list Z) tc,
            i ∈ l -> assignedOnly t tc ->
            isCorrespondingNull
              (flushChunk cfg pendingVerts
                 (fold_left (fun acc v => assignChunkTrunk cfg scalars_ pendingVerts v acc)
                            l (tc, 0, 0))) s = false).
  { intros l tc Hl Htc. apply (chunk_assigns t); [by apply Hsorted|done|done]. }
  assert (Hkeep : forall (l : list Z) tc,
            assignedOnly t tc ->
            assignedOnly t
              (flushChunk cfg pendingVerts
                 (fold_left (fun acc v => assignChunkTrunk cfg scalars_ pendingVerts v acc)
                            l (tc, 0, 0)))
            /\ (isCorrespondingNull tc s = false ->
                isCorrespondingNull
                  (flushChunk cfg pendingVerts
                     (fold_left (fun acc v => assignChunkTrunk cfg scalars_ pendingVerts v acc)
                                l (tc, 0, 0))) s = false)).
  { intros l tc Htc. by apply (chunk_keeps t). }
  destruct (isJT t).
  - set (c := (i - begin) / cs).
    assert (Hc : c * cs <= i - begin < (c + 1) * cs).
    { pose proof (Z.mul_div_le (i - begin) cs Hcs).
      pose proof (Z.mul_succ_div_gt (i - begin) cs Hcs). subst c. lia. }
    assert (Hc0 : 0 <= c) by (subst c; apply Z.div_pos; lia).
    assert (Hcn : c < cn) by nia.
    unfold forRange at 1.
    apply (fold_left_reaches
             (fun tc => isCorrespondingNull tc s = false)
             (assignedOnly t)) with (x := c).
    + apply elem_of_seqZ. lia.
    + intros y tc Htc. by apply (Hkeep _ tc).
    + intros tc Htc. apply Hinner; [|done]. apply elem_of_seqZ. lia.
    + intros y tc Htc. by apply (Hkeep _ tc).
    + apply assignedOnly_refl.
  - set (c := (begin - i) / cs).
    assert (Hc : c * cs <= begin - i < (c + 1) * cs).
    { pose proof (Z.mul_div_le (begin - i) cs Hcs).
      pose proof (Z.mul_succ_div_gt (begin - i) cs Hcs). subst c. lia. }
    assert (Hc0 : 0 <= c) by (subst c; apply Z.div_pos; lia).
    assert (Hcn : c < cn) by nia.
    unfold forRangeDown at 1.
    apply (fold_left_reaches
             (fun tc => isCorrespondingNull tc s = false)
             (assignedOnly t)) with (x := c).
    + apply elem_of_reverse, elem_of_seqZ. lia.
    + intros y tc Htc. by apply (Hkeep _ tc).
    + intros tc Htc. apply Hinner; [|done]. apply elem_of_reverse, elem_of_seqZ. lia.
    + intros y tc Htc. by apply (Hkeep _ tc).
    + apply assignedOnly_refl.
Qed.

End TrunkSegmentation.

(** At debug level 3, on the chain after the leaf tasks: the one line of
    the trunk. *)
Lemma trunkSegmentation_assigns_only_witness :
  console (fst (trunkSegmentation Ex.verbose Ex.sc Ex.swept [1; 3]))
  = console Ex.swept
    ++ [LStr "-"; LStr "Backbone para."; LStr " in "; LPad 25; LElapsed; LPad 35;
        LStr " at "; LSpeed 5; LStr " vert/s"; LEndl].
Proof.
  destruct (trunkSegmentation_assigns_only Ex.verbose Ex.sc Ex.swept [1; 3])
    as (_ & _ & _ & H & _).
  rewrite H. vm_compute. reflexivity.
Defined.

Lemma scMono_sorted_in_range i :
  0 <= Vec.get 0 (sortedVertices Ex.scMono) i < 5.
Proof.
  unfold Vec.get, Vec.at_. destruct (i <? 0); [cbn; lia|].
  cbn [sortedVertices Ex.scMono].
  destruct (Z.to_nat i) as [|[|[|[|[|n]]]]]; simpl; lia.
Qed.

(** On the increasing chain after the backbone: the arc 0 had one visit
    and gets the vertices 1, 2 and 3. *)
Lemma trunkSegmentation_counts_witness :
  visitCount (Ex.cfg false)
             (fst (trunkSegmentation (Ex.cfg false) Ex.scMono Trees.monoBackbone [0])) 0
  = 1 + 3.
Proof.
  rewrite (trunkSegmentation_counts (Ex.cfg false) Ex.scMono Trees.monoBackbone [0]
             scMono_sorted_in_range 0 ltac:(vm_compute; split; [discriminate|reflexivity])).
  vm_compute. reflexivity.
Defined.

(** On the same tree the range of the trunk is the whole chain. *)
Lemma trunkSegmentation_covers_witness :
  isCorrespondingNull
    (fst (trunkSegmentation (Ex.cfg false) Ex.scMono Trees.monoBackbone [0]))
    (Vec.get 0 (sortedVertices Ex.scMono) 2) = false.
Proof.
  apply (trunkSegmentation_covers (Ex.cfg false) Ex.scMono Trees.monoBackbone [0]).
  - reflexivity.
  - vm_compute. discriminate.
  - intros i _. apply scMono_sorted_in_range.
  - vm_compute. split; [discriminate|reflexivity].
Defined.

(** ** The segmentation and the tree *)

Section SegmentationMore.

Variable cfg : Build.
Variable mesh_ : Triangulation.
Variable scalars_ : Scalars.

Lemma sameButRegions_refl t : sameButRegions t t.
Proof. by repeat split. Qed.

Lemma sameButRegions_segments t0 t f :
  sameButRegions t0 t -> sameButRegions t0 (set_segments_ f t).
Proof. intros H. exact H. Qed.

Lemma sameButRegions_concat t0 t a seg :
  sameButRegions t0 t ->
  sameButRegions t0 (set_superArcs (Vec.upd a (ArcOps.concat seg)) t).
Proof.
  intros (H1 & H2 & H3 & H4 & H5 & H6 & H7 & H8 & H9 & H10 & H11 & H12 & H14).
  repeat split; try done. cbn. by rewrite map_upd_keeps.
Qed.

Lemma fillSegments_sameButRegions t0 t :
  sameButRegions t0 t -> sameButRegions t0 (fillSegments cfg scalars_ t).
Proof.
  intros H. unfold fillSegments. cbv zeta.
  apply (forRange_keeps (fun st => sameButRegions t0 st.1)); [|done].
  intros c st _ Hst.
  apply (forRange_keeps (fun st => sameButRegions t0 st.1)); [|done].
  intros i [tc pos] _ Hc. unfold fillSegment. by destruct (isCorrespondingArc tc _).
Qed.

Lemma updateRegions_sameButRegions t0 t :
  sameButRegions t0 t -> sameButRegions t0 (updateRegions cfg t).
Proof.
  intros H. unfold updateRegions. cbv zeta.
  apply (forRange_keeps (sameButRegions t0)); [|done].
  intros c tc _ Hc.
  apply (forRange_keeps (sameButRegions t0)); [|done].
  intros a ta _ Ha. destruct (negb _); [|done]. by apply sameButRegions_concat.
Qed.

Lemma sameButRegions_printTime t0 t s n l :
  sameButRegions t0 t -> sameButRegions t0 (printTime cfg scalars_ s n l t).
Proof. intros H. timings. exact H. Qed.

Lemma buildSegmentation_sameButRegions t :
  sameButRegions t (buildSegmentation cfg scalars_ t).
Proof.
  unfold buildSegmentation. cbv zeta.
  apply updateRegions_sameButRegions, sameButRegions_printTime, sameButRegions_segments,
    sameButRegions_printTime, fillSegments_sameButRegions, sameButRegions_segments,
    sameButRegions_refl.
Qed.

(** The lines of a tree and of another with the same terminal output. *)
Lemma printTime_console s n l t t' :
  console t' = console t ->
  console (printTime cfg scalars_ s n l t') = console (printTime cfg scalars_ s n l t).
Proof.
  intros H. unfold printTime. destruct (debugLevel_ cfg >=? l); [|done].
  cbn [console log set_console]. by rewrite H.
Qed.

Lemma printTime_appends s n l t :
  exists more, console (printTime cfg scalars_ s n l t) = console t ++ more.
Proof.
  destruct (printTime_log cfg scalars_ s n l t) as [items ->]. by exists items.
Qed.

Lemma fillSegments_console t : console (fillSegments cfg scalars_ t) = console t.
Proof.
  unfold fillSegments. cbv zeta.
  apply (forRange_keeps (fun st => console st.1 = console t)); [|done].
  intros c st _ Hst.
  apply (forRange_keeps (fun st => console st.1 = console t)); [|done].
  intros i [tc pos] _ Hc. unfold fillSegment. by destruct (isCorrespondingArc tc _).
Qed.

Lemma updateRegions_console t : console (updateRegions cfg t) = console t.
Proof.
  unfold updateRegions. cbv zeta.
  apply (forRange_keeps (fun x => console x = console t)); [|done].
  intros c tc _ Hc.
  apply (forRange_keeps (fun x => console x = console t)); [|done].
  intros a ta _ Ha. by destruct (negb _).
Qed.

(** The segmentation writes its two lines of [printTime] and nothing
    else. *)
Lemma buildSegmentation_console t :
  console (buildSegmentation cfg scalars_ t)
  = console (printTime cfg scalars_ "segm. sort verts" (-1) 3
               (printTime cfg scalars_ "segm. set verts" (-1) 3 t)).
Proof.
  unfold buildSegmentation. cbv zeta. rewrite updateRegions_console.
  apply printTime_console. cbn [console set_segments_].
  apply printTime_console. by rewrite fillSegments_console.
Qed.

(** X14.  The segmentation is the last step of [build] and only fills
    regions and writes its timings: the build with segmentation fails
    exactly when the build without it does, and gives the same tree type,
    nodes, roots, leaves, vertex to tree map and sweep arrays, and
    super-arcs with the same ends, last visited vertices and visit counts;
    only the segments, the regions of the arcs and the terminal output
    differ.  The terminal output is that of the build without segmentation
    followed by the three lines of [printTime] of the segmentation, each
    written when the debug level reaches its level; below these levels it
    is the same. *)
Theorem build_segmentation_only_regions fuel t :
  match build cfg mesh_ scalars_ fuel t false with
  | None => build cfg mesh_ scalars_ fuel t true = None
  | Some t1 =>
      let timed := printTime cfg scalars_ (String.append "6 segmentation " (treeString t))
                             (scalars_size scalars_) (printTimeLevel cfg) in
      build cfg mesh_ scalars_ fuel t true = Some (timed (buildSegmentation cfg scalars_ t1))
      /\ sameButRegions t1 (timed (buildSegmentation cfg scalars_ t1))
      /\ console (timed (buildSegmentation cfg scalars_ t1))
         = console (timed (printTime cfg scalars_ "segm. sort verts" (-1) 3
                             (printTime cfg scalars_ "segm. set verts" (-1) 3 t1)))
      /\ (if (debugLevel_ cfg <? 3) && (debugLevel_ cfg <? printTimeLevel cfg)
          then console (timed (buildSegmentation cfg scalars_ t1)) = console t1
          else True)
  end.
Proof.
  unfold build. cbv zeta.
  destruct (precompute cfg mesh_ scalars_ (initComp scalars_ t)) as [t1 d].
  destruct (leaves_ cfg mesh_ scalars_ fuel _) as [t2|]; [|done].
  destruct (trunk cfg mesh_ scalars_ _) as [t3 bb].
  set (t4 := printTime cfg scalars_ (String.append "5 trunk " (treeString t)) bb
                       (printTimeLevel cfg) t3).
  split; [done|]. split.
  { apply sameButRegions_printTime, buildSegmentation_sameButRegions. }
  split.
  { apply printTime_console, buildSegmentation_console. }
  destruct (Z.ltb_spec (debugLevel_ cfg) 3) as [H3|H3]; [|done].
  destruct (Z.ltb_spec (debugLevel_ cfg) (printTimeLevel cfg)) as [Hl|Hl]; [|done].
  cbn [andb]. rewrite printTime_quiet by done.
  rewrite buildSegmentation_console. by rewrite !printTime_quiet by done.
Qed.

(** X15.  With chunks that cover the arcs, [buildSegmentation] appends to
    the region of every super-arc the final segment of that arc, the
    sorted one, as one more vertex list, and nothing when that segment is
    empty. *)
Theorem buildSegmentation_region_is_segment t a :
  0 < getChunkSize cfg (Some (getNumberOfSuperArcs t)) None ->
  getNumberOfSuperArcs t
  <= getChunkCount cfg (Some (getNumberOfSuperArcs t)) None
     * getChunkSize cfg (Some (getNumberOfSuperArcs t)) None ->
  0 <= a < getNumberOfSuperArcs t ->
  let t' := buildSegmentation cfg scalars_ t in
  let segment := Vec.get [] (segments_ t') a in
  region_ (getSuperArc cfg t' a)
  = region_ (getSuperArc cfg t a) ++ (if Vec.size segment =? 0 then [] else [segment]).
Proof. apply buildSegmentation_region. Qed.

End SegmentationMore.

(** At debug level 3, on the increasing chain: the build with segmentation
    is the build without it, its regions filled, and the three lines of the
    segmentation written. *)
Lemma build_segmentation_only_regions_witness :
  exists t1 t',
    build Ex.verbose Ex.chain5 Ex.scMono 10 (Ex.fresh Join 5) false = Some t1
    /\ build Ex.verbose Ex.chain5 Ex.scMono 10 (Ex.fresh Join 5) true = Some t'
    /\ nodes t' = nodes t1 /\ vert2tree t' = vert2tree t1
    /\ console t'
       = console t1
         ++ [LStr "-"; LStr "segm. set verts"; LStr " in "; LPad 25; LElapsed; LPad 35;
             LStr " at "; LSpeed 5; LStr " vert/s"; LEndl;
             LStr "-"; LStr "segm. sort verts"; LStr " in "; LPad 25; LElapsed; LPad 35;
             LStr " at "; LSpeed 5; LStr " vert/s"; LEndl;
             LStr "6 segmentation JT"; LStr " in "; LPad 25; LElapsed; LPad 35;
             LStr " at "; LSpeed 5; LStr " vert/s"; LEndl].
Proof.
  pose proof (build_segmentation_only_regions Ex.verbose Ex.chain5 Ex.scMono 10
                (Ex.fresh Join 5)) as H.
  destruct (build Ex.verbose Ex.chain5 Ex.scMono 10 (Ex.fresh Join 5) false) as [t1|] eqn:E.
  - destruct H as (H1 & H2 & H3 & _).
    exists t1. eexists. split; [reflexivity|]. split; [exact H1|].
    split; [apply H2|]. split; [apply H2|].
    rewrite H3. cbn. rewrite <- !app_assoc. reflexivity.
  - exfalso. vm_compute in E. discriminate E.
Defined.

(** The join tree of the increasing chain: the region of its arc is the
    one segment [1, 2, 3]. *)
Lemma buildSegmentation_region_is_segment_witness :
  region_ (getSuperArc (Ex.cfg false)
             (buildSegmentation (Ex.cfg false) Ex.scMono (Ex.monoTree Join)) 0)
  = [[1; 2; 3]].
Proof.
  rewrite (buildSegmentation_region_is_segment (Ex.cfg false) Ex.scMono (Ex.monoTree Join) 0
             eq_refl ltac:(vm_compute; discriminate)
             ltac:(vm_compute; split; [discriminate|reflexivity])).
  vm_compute. reflexivity.
Defined.

(** ** The end of a task *)

Section CloseRoot.

Variable cfg : Build.
Variable scalars_ : Scalars.

Lemma set_app_new {A} (l : list A) (d x : A) :
  Vec.set (Vec.size l) x (l ++ [d]) = l ++ [x].
Proof.
  unfold Vec.set, Vec.size. destruct (Z.ltb_spec (Z.of_nat (length l)) 0); [lia|].
  rewrite Nat2Z.id. rewrite insert_app_r_alt by lia.
  by rewrite Nat.sub_diag.
Qed.

Lemma makeNode_roots t v term : roots (fst (makeNode cfg scalars_ t v term)) = roots t.
Proof.
  unfold makeNode. destruct (negb _ && _); [done|].
  by destruct (isCorrespondingNode t v).
Qed.

(** X16.  The end of [processTask], when the queue of the task is empty:
    on a tree with consistent node entries, for an existing arc whose last
    visited vertex is a vertex of the scalars, the arc is closed on a node
    that sits on that vertex (the one that is there, or a new one), its
    visit count is lowered by one, the node is appended to the roots, and
    no other super-arc changes. *)
Theorem closeRoot_closes_on_last_visited t currentArc :
  let closeVert := lastVisited_ (getSuperArc cfg t currentArc) in
  0 <= currentArc < getNumberOfSuperArcs t ->
  0 <= closeVert < scalars_size scalars_ ->
  Vec.size (vert2tree t) = scalars_size scalars_ ->
  nodesConsistent t ->
  let t' := closeRoot cfg scalars_ t currentArc in
  exists closeNode,
    corresp t' closeVert = CNode closeNode
    /\ Vec.at_ (nodeVerts t') closeNode = Some closeVert
    /\ roots t' = roots t ++ [closeNode]
    /\ getSuperArc cfg t' currentArc
       = ArcOps.decrNbSeen (ArcOps.setUpNodeId closeNode (getSuperArc cfg t currentArc))
    /\ currentArc ∈ vect_downSuperArcList_ (getNode cfg t' closeNode)
    /\ getNumberOfSuperArcs t' = getNumberOfSuperArcs t
    /\ (forall a, a <> currentArc -> Vec.at_ (superArcs t') a = Vec.at_ (superArcs t) a)
    /\ nodesConsistent t'.
Proof.
  intros closeVert Ha Hv Hsz Hcons t'. subst t'. unfold closeRoot. fold closeVert.
  assert (E : (if isCorrespondingNode t closeVert
               then (t, getCorrespondingNodeId t closeVert)
               else makeNode cfg scalars_ t closeVert (defaultTerm cfg))
              = makeNode cfg scalars_ t closeVert (defaultTerm cfg)).
  { destruct (isCorrespondingNode t closeVert) eqn:En; [|done].
    by rewrite makeNode_existing. }
  cbv zeta. rewrite E. clear E.
  destruct (makeNode_skeleton cfg scalars_ t closeVert (defaultTerm cfg) Hv Hsz Hcons)
    as (K1 & K2 & K3 & K4 & K5 & K6 & K7 & K8).
  pose proof (makeNode_roots t closeVert (defaultTerm cfg)) as K9.
  destruct (makeNode cfg scalars_ t closeVert (defaultTerm cfg)) as [t1 closeNode].
  cbn [fst snd] in *.
  assert (Hid : Vec.at_ (nodeVerts t1) closeNode = Some closeVert) by by apply K1.
  assert (Hn : 0 <= closeNode < getNumberOfNodes t1).
  { apply at_Some in Hid. unfold getNumberOfNodes, nodeVerts, Vec.size in *.
    by rewrite length_map in Hid. }
  unfold closeSuperArc.
  rewrite guard_in_range by (unfold getNumberOfSuperArcs in *; by rewrite K6).
  rewrite guard_in_range by done.
  unfold Vec.getNext. cbv beta iota zeta.
  unfold getNumberOfSuperArcs, getNumberOfNodes, getSuperArc, getNode, corresp,
    nodesConsistent, nodeVerts in *.
  cbn [nodes superArcs roots vert2tree set_nodes set_superArcs set_roots].
  exists closeNode.
  rewrite set_app_new, !size_upd, K6, map_upd_keeps by done.
  split; [done|]. split; [done|]. split; [by rewrite K9|].
  split. { rewrite !get_upd_eq by (rewrite ?size_upd; lia). done. }
  split. { rewrite get_upd_eq by done. cbn. apply elem_of_app. right. by left. }
  split; [done|].
  split. { intros a Hne. by rewrite !at_upd_ne. }
  intros v id Hc. unfold corresp in *. by apply K1.
Qed.

End CloseRoot.

(** On the root with two children, the arc 0 was last on vertex 3, where
    the node 0 sits. *)
Lemma closeRoot_closes_on_last_visited_witness :
  roots (closeRoot (Ex.cfg false) Ex.sc Ex.twoChildren 0) = [0; 0].
Proof.
  destruct (closeRoot_closes_on_last_visited (Ex.cfg false) Ex.sc Ex.twoChildren 0)
    as (closeNode & H1 & _ & H2 & _).
  - vm_compute. split; [discriminate|reflexivity].
  - vm_compute. split; [discriminate|reflexivity].
  - reflexivity.
  - exact twoChildren_consistent.
  - rewrite H2. f_equal. f_equal.
    assert (E : corresp (closeRoot (Ex.cfg false) Ex.sc Ex.twoChildren 0) 3 = CNode 0)
      by (vm_compute; reflexivity).
    change (lastVisited_ (getSuperArc (Ex.cfg false) Ex.twoChildren 0)) with 3 in H1.
    congruence.
Defined.

(** ** Closing the arcs of a front *)

Section CloseArcs.

Variable cfg : Build.

Lemma findFuel_openedArcs fuel h i :
  map openedArcs_ (fst (UFOps.findFuel fuel h i)) = map openedArcs_ h.
Proof.
  revert h i. induction fuel as [|fuel IH]; intros h i; [done|].
  cbn. destruct (UFOps.parentOf h i =? i); [done|].
  specialize (IH h (UFOps.parentOf h i)).
  destruct (UFOps.findFuel fuel h (UFOps.parentOf h i)) as [h1 r]. cbn [fst] in *.
  by rewrite map_upd_keeps.
Qed.

Lemma ufFind_openedArcs t u :
  map openedArcs_ (ufHeap (fst (ufFind t u))) = map openedArcs_ (ufHeap t).
Proof.
  unfold ufFind. pose proof (findFuel_openedArcs (length (ufHeap t)) (ufHeap t) u) as H.
  unfold UFOps.find. by destruct (UFOps.findFuel _ _ _).
Qed.

Lemma ufFind_tree t u :
  superArcs (fst (ufFind t u)) = superArcs t /\ nodes (fst (ufFind t u)) = nodes t.
Proof. unfold ufFind. by destruct (UFOps.find (ufHeap t) u). Qed.

Lemma ufCell_openedArcs t t' r :
  map openedArcs_ (ufHeap t') = map openedArcs_ (ufHeap t) ->
  openedArcs_ (ufCell t' r) = openedArcs_ (ufCell t r).
Proof.
  intros H. unfold ufCell, Vec.get, Vec.at_. destruct (r <? 0); [done|].
  assert (E : (openedArcs_ <$> ufHeap t') !! Z.to_nat r
              = (openedArcs_ <$> ufHeap t) !! Z.to_nat r).
  { change (map openedArcs_ (ufHeap t') !! Z.to_nat r
            = map openedArcs_ (ufHeap t) !! Z.to_nat r). by rewrite H. }
  rewrite !list_lookup_fmap in E.
  destruct (ufHeap t' !! Z.to_nat r), (ufHeap t !! Z.to_nat r); cbn in *; congruence.
Qed.

(** Closing a list of existing arcs on an existing node. *)
Lemma fold_closeSuperArc_spec n l t :
  0 <= n < getNumberOfNodes t ->
  (forall sa, sa ∈ l -> 0 <= sa < getNumberOfSuperArcs t) ->
  let t' := fold_left (fun t' sa => closeSuperArc cfg t' sa n) l t in
  ufHeap t' = ufHeap t /\ ufs t' = ufs t
  /\ getNumberOfNodes t' = getNumberOfNodes t
  /\ getNumberOfSuperArcs t' = getNumberOfSuperArcs t
  /\ (forall sa, sa ∈ l -> upNodeId_ (getSuperArc cfg t' sa) = n)
  /\ vect_downSuperArcList_ (getNode cfg t' n) = vect_downSuperArcList_ (getNode cfg t n) ++ l
  /\ (forall a, a ∉ l -> Vec.at_ (superArcs t') a = Vec.at_ (superArcs t) a)
  /\ (forall m, m <> n -> Vec.at_ (nodes t') m = Vec.at_ (nodes t) m).
Proof.
  revert t. induction l as [|sa l IH]; intros t Hn Hl; cbv zeta.
  - cbn. rewrite app_nil_r. repeat split; try done.
    intros sa Hsa. by apply elem_of_nil in Hsa.
  - cbn [fold_left].
    assert (Hsa : 0 <= sa < getNumberOfSuperArcs t) by (apply Hl; by left).
    rewrite closeSuperArc_valid by done.
    set (t1 := set_nodes _ _).
    assert (N1 : getNumberOfNodes t1 = getNumberOfNodes t).
    { unfold getNumberOfNodes, t1. cbn. by rewrite size_upd. }
    assert (A1 : getNumberOfSuperArcs t1 = getNumberOfSuperArcs t).
    { unfold getNumberOfSuperArcs, t1. cbn. by rewrite size_upd. }
    destruct (IH t1) as (I1 & I2 & I3 & I4 & I5 & I6 & I7 & I8).
    { by rewrite N1. }
    { intros x Hx. rewrite A1. apply Hl. by right. }
    split; [by rewrite I1|]. split; [by rewrite I2|].
    split; [by rewrite I3|]. split; [by rewrite I4|].
    split.
    { intros x Hx. destruct (decide (x ∈ l)) as [Hin|Hnin]; [by apply I5|].
      apply elem_of_cons in Hx as [->|Hx]; [|done].
      unfold getSuperArc, Vec.get. rewrite I7 by done.
      unfold t1, getNumberOfSuperArcs in *. cbn [superArcs set_nodes set_superArcs].
      destruct (at_in_range (superArcs t) sa Hsa) as [c Hc].
      by rewrite (at_upd_eq _ _ _ _ Hc). }
    split.
    { rewrite I6. unfold getNode, t1, getNumberOfNodes in *. cbn [nodes set_nodes].
      rewrite get_upd_eq by done. cbn. by rewrite <- app_assoc. }
    split.
    { intros a Ha. apply not_elem_of_cons in Ha as [Ha1 Ha2].
      rewrite I7 by done. unfold t1. cbn [superArcs set_nodes set_superArcs].
      by rewrite at_upd_ne. }
    intros m Hm. rewrite I8 by done. unfold t1. cbn [nodes set_nodes].
    by rewrite at_upd_ne.
Qed.

(** X17.  [closeArcsUF] on a front of an acyclic union-find whose
    representative is an element of the arena, for an existing node and
    open arcs that exist: every arc that the representative holds open gets
    the node as its up node and is appended, in the order of the list, to
    the down arcs of the node; the list of open arcs of the representative
    is left empty; the other super-arcs and nodes and the classes of the
    union-find do not change. *)
Theorem closeArcsUF_closes_all t closeNode u :
  wfUF (ufHeap t) ->
  let r := rootOf (ufHeap t) u in
  let opened := openedArcs_ (ufCell t r) in
  0 <= r < Vec.size (ufHeap t) ->
  0 <= closeNode < getNumberOfNodes t ->
  (forall sa, sa ∈ opened -> 0 <= sa < getNumberOfSuperArcs t) ->
  let t' := closeArcsUF cfg t closeNode (Some u) in
  openedArcs_ (ufCell t' r) = []
  /\ (forall sa, sa ∈ opened -> upNodeId_ (getSuperArc cfg t' sa) = closeNode)
  /\ vect_downSuperArcList_ (getNode cfg t' closeNode)
     = vect_downSuperArcList_ (getNode cfg t closeNode) ++ opened
  /\ (forall a, a ∉ opened -> Vec.at_ (superArcs t') a = Vec.at_ (superArcs t) a)
  /\ (forall m, m <> closeNode -> Vec.at_ (nodes t') m = Vec.at_ (nodes t) m)
  /\ (forall i, rootOf (ufHeap t') i = rootOf (ufHeap t) i).
Proof.
  intros Hwf r opened Hr Hn Hopen t'. subst t'. unfold closeArcsUF.
  change (deref (Some u)) with u.
  destruct (ufFind_spec t u Hwf) as (F1 & F2 & _).
  pose proof (ufFind_openedArcs t u) as F3.
  destruct (ufFind_tree t u) as [F4 F5].
  destruct (ufFind t u) as [t1 r1]. cbn [fst snd] in *. subst r1. fold r.
  rewrite (ufCell_openedArcs t t1 r F3). fold opened.
  destruct (fold_closeSuperArc_spec closeNode opened t1)
    as (C1 & C2 & C3 & C4 & C5 & C6 & C7 & C8).
  { unfold getNumberOfNodes in *. by rewrite F5. }
  { intros sa Hsa. unfold getNumberOfSuperArcs in *. rewrite F4. by apply Hopen. }
  set (t2 := fold_left _ opened t1) in *.
  assert (Hwf1 : wfUF (ufHeap t1)) by by eapply relinked_wf.
  assert (Hwf2 : wfUF (ufHeap t2)) by by rewrite C1.
  destruct (ufFind_spec t2 u Hwf2) as (G1 & G2 & _).
  pose proof (ufFind_openedArcs t2 u) as G3.
  destruct (ufFind_tree t2 u) as [G4 G5].
  destruct (ufFind t2 u) as [t3 r3]. cbn [fst snd] in *.
  assert (Er : r3 = r).
  { rewrite G1, C1. by apply relinked_rootOf. }
  clear G1. rewrite Er in *. clear Er r3.
  assert (Hlen : Vec.size (ufHeap t3) = Vec.size (ufHeap t)).
  { destruct F2 as [L1 _], G2 as [L2 _]. unfold Vec.size. rewrite L2, C1, L1. done. }
  assert (Hwf3 : wfUF (ufHeap t3)) by by eapply relinked_wf.
  split.
  { unfold ufCell. cbn [ufHeap set_ufHeap]. by rewrite get_upd_eq by lia. }
  unfold getSuperArc, getNode in *. cbn [superArcs nodes ufHeap set_ufHeap].
  rewrite G4, G5.
  split; [done|]. split. { rewrite C6. by rewrite F5. }
  split. { intros a Ha. rewrite C7 by done. by rewrite F4. }
  split. { intros m Hm. rewrite C8 by done. by rewrite F5. }
  intros i.
  rewrite (relinked_rootOf (ufHeap t3)); [|done|by apply relinked_upd_same].
  rewrite (relinked_rootOf (ufHeap t2)) by done.
  rewrite C1. by apply relinked_rootOf.
Qed.

End CloseArcs.

(** The task of the leaf 0 of the chain holds the arc 0 open; closed on the
    node 1. *)
Lemma closeArcsUF_closes_all_witness :
  upNodeId_ (getSuperArc (Ex.cfg false)
               (closeArcsUF (Ex.cfg false) Trees.opened0 1 (Some 0)) 0) = 1
  /\ openedArcs_ (ufCell (closeArcsUF (Ex.cfg false) Trees.opened0 1 (Some 0)) 0) = [].
Proof.
  destruct (closeArcsUF_closes_all (Ex.cfg false) Trees.opened0 1 0) as (H1 & H2 & _).
  - apply wfUFb_sound. vm_compute. reflexivity.
  - vm_compute. split; [discriminate|reflexivity].
  - vm_compute. split; [discriminate|reflexivity].
  - intros sa Hsa. vm_compute in Hsa.
    apply elem_of_cons in Hsa as [->|Hsa]; [|by apply elem_of_nil in Hsa].
    vm_compute. split; [discriminate|reflexivity].
  - split; [|exact H1]. apply H2. vm_compute. left.
Defined.

(** ** The sweep, continued *)

Section SweepMore.

Variable cfg : Build.
Variable mesh_ : Triangulation.
Variable scalars_ : Scalars.

(** X18.  [leaves] on a tree with exactly one leaf launches no task,
    whatever the fuel: it returns at once, with the opened-nodes bit of the
    vertex of node 0 set and a fresh union-find element for that vertex;
    no node, super-arc, root or vertex to tree entry changes and the number
    of active tasks is not set. *)
Theorem leaves_single_leaf fuel t :
  Vec.size (leaves t) = 1 ->
  let v := vertexId_ (getNode cfg t 0) in
  0 <= v < Vec.size (ufs t) ->
  0 <= v < Vec.size (openedNodes t) ->
  exists t',
    leaves_ cfg mesh_ scalars_ fuel t = Some t'
    /\ superArcs t' = superArcs t /\ nodes t' = nodes t /\ roots t' = roots t
    /\ leaves t' = leaves t /\ vert2tree t' = vert2tree t
    /\ activeTasks t' = activeTasks t
    /\ Vec.get false (openedNodes t') v = true
    /\ (forall w, w <> v ->
          Vec.get false (openedNodes t') w = Vec.get false (openedNodes t) w)
    /\ Vec.get None (ufs t') v = Some (Vec.size (ufHeap t))
    /\ (forall w, w <> v -> Vec.get None (ufs t') w = Vec.get None (ufs t) w)
    /\ ufHeap t' = ufHeap t ++ [mkUF (Vec.size (ufHeap t)) v [] []].
Proof.
  intros Hone v Hv1 Hv2. unfold leaves_. cbv zeta. rewrite Hone. cbn [Z.eqb Pos.eqb].
  fold v. unfold UFOps.alloc. eexists. split; [done|].
  cbn [superArcs nodes roots leaves vert2tree activeTasks openedNodes ufs ufHeap
       set_ufs set_ufHeap set_openedNodes].
  repeat split; try done.
  - by apply get_set_eq.
  - intros w Hw. by apply get_set_ne.
  - by apply get_set_eq.
  - intros w Hw. by apply get_set_ne.
Qed.

Lemma ufFind_sameTree t0 t u : sameTree t0 t -> sameTree t0 (fst (ufFind t u)).
Proof. intros H. unfold ufFind. by destruct (UFOps.find (ufHeap t) u). Qed.

Lemma ufFind_arrays t u :
  valences (fst (ufFind t u)) = valences t
  /\ propagation (fst (ufFind t u)) = propagation t
  /\ length (ufHeap (fst (ufFind t u))) = length (ufHeap t)
  /\ map openedArcs_ (ufHeap (fst (ufFind t u))) = map openedArcs_ (ufHeap t).
Proof.
  pose proof (ufFind_openedArcs t u) as H.
  assert (L : length (map openedArcs_ (ufHeap (fst (ufFind t u))))
              = length (map openedArcs_ (ufHeap t))) by (by rewrite H).
  rewrite !length_map in L.
  unfold ufFind in *. by destruct (UFOps.find (ufHeap t) u).
Qed.

(** X19.  [propage] never touches the tree: the super-arcs, the nodes,
    the roots, the leaves, the vertex to tree map, the [ufs] array, the
    opened-nodes bits, the number of active tasks and the terminal output
    are those of the call state.  It changes the valence of the current
    vertex only, keeps the sizes of the valence and propagation arrays and
    of the arena, and the open arcs of every union-find element. *)
Theorem propage_keeps_tree t owner curUF :
  let t' := (propage mesh_ t owner curUF).1.1 in
  let v := vertex (getFirstState t owner) in
  sameTree t t'
  /\ (forall w, w <> v -> Vec.get 0 (valences t') w = Vec.get 0 (valences t) w)
  /\ Vec.size (valences t') = Vec.size (valences t)
  /\ Vec.size (propagation t') = Vec.size (propagation t)
  /\ length (ufHeap t') = length (ufHeap t)
  /\ map openedArcs_ (ufHeap t') = map openedArcs_ (ufHeap t).
Proof.
  intros t' v. subst t'. unfold propage. fold v. cbv zeta.
  pose proof (ufFind_sameTree t t curUF ltac:(by repeat split)) as F1.
  destruct (ufFind_arrays t curUF) as (F2 & F3 & F4 & F5).
  destruct (ufFind t curUF) as [t0 curUFF]. cbn [fst] in *.
  set (Inv := fun acc : MergeTree * bool * valence =>
         sameTree t acc.1.1 /\ valences acc.1.1 = valences t
         /\ Vec.size (propagation acc.1.1) = Vec.size (propagation t)
         /\ length (ufHeap acc.1.1) = length (ufHeap t)
         /\ map openedArcs_ (ufHeap acc.1.1) = map openedArcs_ (ufHeap t)).
  assert (Hloop : Inv (forRange 0 (getVertexNeighborNumber mesh_ v)
                         (propageNeighbor mesh_ owner curUFF v) (t0, false, 0))).
  { apply (forRange_keeps Inv).
    - intros n [[tc bs] decr] _ (I1 & I2 & I3 & I4 & I5). unfold Inv in *. cbn [fst] in *.
      unfold propageNeighbor.
      assert (Henq : forall tx,
                sameTree t tx -> valences tx = valences t ->
                Vec.size (propagation tx) = Vec.size (propagation t) ->
                length (ufHeap tx) = length (ufHeap t) ->
                map openedArcs_ (ufHeap tx) = map openedArcs_ (ufHeap t) ->
                let te := set_propagation
                            (Vec.set (getVertexNeighbor mesh_ v n) (Some curUFF))
                            (updFirstState owner
                               (StateOps.addNewVertex (getVertexNeighbor mesh_ v n)) tx) in
                sameTree t te /\ valences te = valences t
                /\ Vec.size (propagation te) = Vec.size (propagation t)
                /\ length (ufHeap te) = length (ufHeap t)
                /\ map openedArcs_ (ufHeap te) = map openedArcs_ (ufHeap t)).
      { intros tx X1 X2 X3 X4 X5 te. subst te. unfold updFirstState.
        cbn [valences propagation ufHeap set_propagation set_ufHeap].
        split; [exact X1|]. split; [done|]. split; [by rewrite size_set|].
        split.
        - rewrite <- X4. apply Nat2Z.inj. apply (size_upd (ufHeap tx)).
        - rewrite <- X5. by apply map_upd_keeps. }
      destruct (vertLower (comp_ tc) (getVertexNeighbor mesh_ v n) v).
      + destruct (Vec.get None (ufs tc) (getVertexNeighbor mesh_ v n)) as [neighUF|];
          [|done].
        pose proof (ufFind_sameTree t tc neighUF I1) as G1.
        destruct (ufFind_arrays tc neighUF) as (G2 & G3 & G4 & G5).
        destruct (ufFind tc neighUF) as [t1 r]. cbn [fst] in *.
        destruct (negb (r =? curUFF)); cbn [fst]; repeat split; try congruence;
          apply G1.
      + destruct (Vec.get None (propagation tc) (getVertexNeighbor mesh_ v n)) as [p|].
        * pose proof (ufFind_sameTree t tc p I1) as G1.
          destruct (ufFind_arrays tc p) as (G2 & G3 & G4 & G5).
          destruct (ufFind tc p) as [t1 r]. cbn [fst] in *.
          destruct (negb (r =? curUFF)); cbn [fst].
          -- apply Henq; congruence.
          -- repeat split; try congruence; apply G1.
        * cbn [fst]. by apply Henq.
    - unfold Inv. cbn [fst]. repeat split; try congruence; apply F1. }
  destruct (forRange 0 _ _ _) as [[t1 bs] decr]. unfold Inv in Hloop. cbn [fst] in *.
  destruct Hloop as (L1 & L2 & L3 & L4 & L5).
  cbn [valences propagation ufHeap set_valences].
  split; [exact L1|]. split.
  { intros w Hw. rewrite get_upd_ne by done. by rewrite L2. }
  split; [by rewrite size_upd, L2|]. done.
Qed.

End SweepMore.

(** The increasing chain has the one leaf 0. *)
Lemma leaves_single_leaf_witness :
  exists t',
    leaves_ (Ex.cfg false) Ex.chain5 Ex.scMono 0
            (fst (precompute (Ex.cfg false) Ex.chain5 Ex.scMono
                    (initComp Ex.scMono (Ex.fresh Join 5)))) = Some t'
    /\ superArcs t' = [].
Proof.
  destruct (leaves_single_leaf (Ex.cfg false) Ex.chain5 Ex.scMono 0
              (fst (precompute (Ex.cfg false) Ex.chain5 Ex.scMono
                      (initComp Ex.scMono (Ex.fresh Join 5)))))
    as (t' & H1 & H2 & _).
  - reflexivity.
  - vm_compute. split; [discriminate|reflexivity].
  - vm_compute. split; [discriminate|reflexivity].
  - exists t'. split; [exact H1|]. rewrite H2. reflexivity.
Defined.

(** ** What the build keeps *)

Section Invariants.

Variable cfg : Build.
Variable mesh_ : Triangulation.
Variable scalars_ : Scalars.

Lemma set_out {A} (l : list A) i x : ~ (0 <= i < Vec.size l) -> Vec.set i x l = l.
Proof.
  intros H. unfold Vec.set, Vec.size in *. destruct (Z.ltb_spec i 0); [done|].
  apply list_insert_ge. lia.
Qed.

Lemma grows_refl t : grows t t.
Proof.
  repeat split; try done; try (exists []; by rewrite app_nil_r).
Qed.

Lemma grows_trans t1 t2 t3 : grows t1 t2 -> grows t2 t3 -> grows t1 t3.
Proof.
  intros (A1 & A0 & A2 & A3 & A4 & A5 & A6 & [n1 A7] & [a1 A8] & [c1 A9] & A10)
         (B1 & B0 & B2 & B3 & B4 & B5 & B6 & [n2 B7] & [a2 B8] & [c2 B9] & B10).
  repeat split; try congruence.
  - exists (n1 ++ n2). by rewrite B7, A7, app_assoc.
  - exists (a1 ++ a2). by rewrite B8, A8, app_assoc.
  - exists (c1 ++ c2). by rewrite B9, A9, app_assoc.
  - intros H. by apply B10, A10.
Qed.

Lemma sameCore_grows t t' : sameCore t t' -> grows t t'.
Proof.
  intros (A1 & A0 & A2 & A3 & A4 & A5 & A6 & A7 & A8 & A9).
  repeat split; try congruence; try (exists []; by rewrite app_nil_r).
  intros H v id Hv. unfold corresp in *. rewrite A2 in Hv. rewrite A3. by apply H.
Qed.

Lemma sameCore_refl t : sameCore t t.
Proof. by repeat split. Qed.

Lemma sameCore_trans t1 t2 t3 : sameCore t1 t2 -> sameCore t2 t3 -> sameCore t1 t3.
Proof.
  intros (A1 & A0 & A2 & A3 & A4 & A5 & A6 & A7 & A8 & A9)
         (B1 & B0 & B2 & B3 & B4 & B5 & B6 & B7 & B8 & B9).
  repeat split; congruence.
Qed.

(** The steps that keep the core. *)

Lemma sameCore_arcs t a (f : SuperArc -> SuperArc) :
  (forall x, downNodeId_ (f x) = downNodeId_ x) ->
  sameCore t (set_superArcs (Vec.upd a f) t).
Proof. intros Hf. repeat split; try done. cbn. by apply map_upd_keeps. Qed.

Lemma sameCore_nodes t n (f : Node -> Node) :
  (forall x, vertexId_ (f x) = vertexId_ x) ->
  sameCore t (set_nodes (Vec.upd n f) t).
Proof. intros Hf. repeat split; try done. unfold nodeVerts. cbn. by apply map_upd_keeps. Qed.

Lemma sameCore_ufs t v x : sameCore t (set_ufs (Vec.set v x) t).
Proof. repeat split; try done. cbn. apply size_set. Qed.

Lemma sameCore_propagation t v x : sameCore t (set_propagation (Vec.set v x) t).
Proof. repeat split; try done. cbn. apply size_set. Qed.

Lemma sameCore_openedNodes t v x : sameCore t (set_openedNodes (Vec.set v x) t).
Proof. repeat split; try done. cbn. apply size_set. Qed.

Lemma sameCore_valences_set t v x : sameCore t (set_valences (Vec.set v x) t).
Proof. repeat split; try done. cbn. apply size_set. Qed.

Lemma sameCore_valences_upd t v f : sameCore t (set_valences (Vec.upd v f) t).
Proof. repeat split; try done. cbn. apply size_upd. Qed.

Lemma sameCore_ufFind t u : sameCore t (fst (ufFind t u)).
Proof. unfold ufFind. destruct (UFOps.find (ufHeap t) u). by repeat split. Qed.

Lemma grows_log t msg : grows t (log msg t).
Proof.
  repeat split; try done; try (exists []; by rewrite app_nil_r).
  by exists msg.
Qed.

Lemma grows_printTime t s n l : grows t (printTime cfg scalars_ s n l t).
Proof. timings. apply grows_log. Qed.

Lemma grows_assign t v a : grows t (updateCorrespondingArc v a t).
Proof.
  repeat split; try done; try (exists []; by rewrite app_nil_r).
  - cbn. apply size_set.
  - intros H w id Hw. apply H. unfold corresp, updateCorrespondingArc in *. cbn in Hw.
    destruct (Z.eq_dec w v) as [->|Hne]; [|by rewrite get_set_ne in Hw].
    destruct (decide (0 <= v < Vec.size (vert2tree t))) as [Hin|Hout].
    + by rewrite get_set_eq in Hw.
    + by rewrite set_out in Hw.
Qed.

Lemma grows_makeNode t v term : grows t (fst (makeNode cfg scalars_ t v term)).
Proof.
  unfold makeNode. destruct (negb _ && _); [apply grows_log|].
  destruct (isCorrespondingNode t v); [apply grows_refl|].
  unfold Vec.getNext. cbv beta iota zeta. cbn [fst].
  unfold updateCorrespondingNode.
  assert (En : nodeVerts
                 (set_vert2tree (Vec.set v (CNode (Vec.size (nodes t))))
                    (set_nodes (Vec.upd (Vec.size (nodes t)) (NodeOps.setTerminaison term))
                       (set_nodes (Vec.upd (Vec.size (nodes t)) (NodeOps.setVertexId v))
                          (set_nodes (fun _ => nodes t ++ [defaultNode cfg]) t))))
               = nodeVerts t ++ [v]).
  { unfold nodeVerts. cbn. rewrite !upd_app_new. by rewrite List.map_app. }
  repeat split; try done; try (exists []; by rewrite app_nil_r).
  - cbn. apply size_set.
  - exists [v]. exact En.
  - intros H w id Hw. rewrite En. unfold corresp in *. cbn in Hw.
    assert (Hlen : Vec.size (nodeVerts t) = Vec.size (nodes t)).
    { unfold nodeVerts, Vec.size. by rewrite length_map. }
    destruct (Z.eq_dec w v) as [->|Hne].
    + destruct (decide (0 <= v < Vec.size (vert2tree t))) as [Hin|Hout].
      * rewrite get_set_eq in Hw by done. injection Hw as <-.
        rewrite <- Hlen. apply at_app_new.
      * rewrite set_out in Hw by done. specialize (H v id Hw).
        rewrite at_app_l; [done|]. by apply at_Some in H.
    + rewrite get_set_ne in Hw by done. specialize (H w id Hw).
      rewrite at_app_l; [done|]. by apply at_Some in H.
Qed.

Lemma grows_closeSuperArc t a n : grows t (closeSuperArc cfg t a n).
Proof.
  unfold closeSuperArc.
  destruct (negb _ && _); [apply grows_log|].
  destruct (negb _ && _); [apply grows_log|].
  apply sameCore_grows.
  eapply sameCore_trans; [by apply (sameCore_arcs t a (ArcOps.setUpNodeId n))|].
  by apply sameCore_nodes.
Qed.

(** A step that appends super-arcs and keeps the rest of the core. *)
Lemma grows_arcs t t' more :
  treeType t' = treeType t -> comp_ t' = comp_ t ->
  vert2tree t' = vert2tree t -> nodeVerts t' = nodeVerts t ->
  map downNodeId_ (superArcs t') = map downNodeId_ (superArcs t) ++ more ->
  console t' = console t ->
  Vec.size (ufs t') = Vec.size (ufs t) ->
  Vec.size (propagation t') = Vec.size (propagation t) ->
  Vec.size (valences t') = Vec.size (valences t) ->
  Vec.size (openedNodes t') = Vec.size (openedNodes t) ->
  grows t t'.
Proof.
  intros A1 A0 A2 A3 A4 A5 A6 A7 A8 A9.
  repeat split; try congruence; try (exists []; by rewrite ?A3, ?A5, app_nil_r).
  - by exists more.
  - intros H v id Hv. unfold corresp in *. rewrite A2 in Hv. rewrite A3. by apply H.
Qed.

Lemma grows_openSuperArc t d : grows t (fst (openSuperArc cfg t d)).
Proof.
  unfold openSuperArc. destruct (negb _ && _); [apply grows_log|].
  unfold Vec.getNext. cbv beta iota zeta. cbn [fst].
  eapply grows_arcs; try done.
  - unfold nodeVerts. cbn. by apply map_upd_keeps.
  - cbn. rewrite upd_app_new, List.map_app. done.
Qed.

Lemma grows_makeSuperArc t d u : grows t (fst (makeSuperArc cfg t d u)).
Proof.
  unfold makeSuperArc, Vec.getNext. cbv beta iota zeta. cbn [fst].
  eapply grows_arcs; try done.
  - unfold nodeVerts. cbn. by rewrite !map_upd_keeps.
  - cbn. rewrite !upd_app_new, List.map_app. done.
Qed.

(** The union-find steps of the sweep. *)

Lemma sameCore_ufHeap t f : sameCore t (set_ufHeap f t).
Proof. by repeat split. Qed.

Lemma sameCore_updFirstState t u f : sameCore t (updFirstState u f t).
Proof. by repeat split. Qed.

Lemma sameCore_propageNeighbor owner curUFF v n acc :
  sameCore acc.1.1 (propageNeighbor mesh_ owner curUFF v n acc).1.1.
Proof.
  destruct acc as [[t bs] decr]. cbn [fst]. unfold propageNeighbor.
  destruct (vertLower (comp_ t) _ v).
  - destruct (Vec.get None (ufs t) _) as [neighUF|]; [|apply sameCore_refl].
    pose proof (sameCore_ufFind t neighUF) as H.
    destruct (ufFind t neighUF) as [t1 r]. by destruct (negb _).
  - destruct (Vec.get None (propagation t) _) as [p|].
    + pose proof (sameCore_ufFind t p) as H.
      destruct (ufFind t p) as [t1 r]. cbn [fst] in H.
      destruct (negb _); cbn [fst]; [|done].
      eapply sameCore_trans; [exact H|].
      eapply sameCore_trans; [apply sameCore_updFirstState|apply sameCore_propagation].
    + cbn [fst].
      eapply sameCore_trans; [apply sameCore_updFirstState|apply sameCore_propagation].
Qed.

Lemma sameCore_propage t owner curUF :
  sameCore t (propage mesh_ t owner curUF).1.1.
Proof.
  unfold propage. cbv zeta.
  pose proof (sameCore_ufFind t curUF) as H.
  destruct (ufFind t curUF) as [t0 curUFF]. cbn [fst] in H.
  assert (L : sameCore t
                (forRange 0 (getVertexNeighborNumber mesh_ (vertex (getFirstState t owner)))
                   (propageNeighbor mesh_ owner curUFF (vertex (getFirstState t owner)))
                   (t0, false, 0)).1.1).
  { apply (forRange_keeps (fun acc => sameCore t acc.1.1)); [|done].
    intros n acc _ Hacc. eapply sameCore_trans; [exact Hacc|].
    apply sameCore_propageNeighbor. }
  destruct (forRange 0 _ _ _) as [[t1 bs] decr]. cbn [fst] in *.
  eapply sameCore_trans; [exact L|apply sameCore_valences_upd].
Qed.

Lemma sameCore_unionNeighbor b v n t :
  sameCore t (unionNeighbor mesh_ b v n t).
Proof.
  unfold unionNeighbor. destruct (vertLower (comp_ t) _ v); [|apply sameCore_refl].
  assert (H : forall neighUF,
            sameCore t
              (let '(t1, rn) := ufFind t (deref neighUF) in
               let '(t2, rs) := ufFind t1 (deref (Vec.get None (ufs t1) v)) in
               if negb (rn =? rs)
               then let '(h, r) := UFOps.makeUnion (vertLower (comp_ t2)) (ufHeap t2)
                                     (deref (Vec.get None (ufs t2) v))
                                     (deref (Vec.get None (ufs t2)
                                               (getVertexNeighbor mesh_ v n))) in
                    set_ufs (Vec.set v (Some r)) (set_ufHeap (fun _ => h) t2)
               else t2)).
  { intros neighUF.
    pose proof (sameCore_ufFind t (deref neighUF)) as H1.
    destruct (ufFind t (deref neighUF)) as [t1 rn]. cbn [fst] in H1.
    pose proof (sameCore_ufFind t1 (deref (Vec.get None (ufs t1) v))) as H2.
    destruct (ufFind t1 _) as [t2 rs]. cbn [fst] in H2.
    pose proof (sameCore_trans _ _ _ H1 H2) as H12.
    destruct (negb _); [|done].
    destruct (UFOps.makeUnion _ _ _ _) as [h r].
    eapply sameCore_trans; [exact H12|].
    eapply sameCore_trans; [apply (sameCore_ufHeap t2 (fun _ => h))|apply sameCore_ufs]. }
  destruct b; [|apply H].
  destruct (Vec.get None (ufs t) _) as [u|] eqn:E; [|apply sameCore_refl].
  apply (H (Some u)).
Qed.

Lemma grows_fold {B} (f : MergeTree -> B -> MergeTree) (l : list B) t :
  (forall x s, grows s (f s x)) -> grows t (fold_left f l t).
Proof.
  intros Hf. apply (fold_left_keeps (grows t)); [|apply grows_refl].
  intros x s _ Hs. eapply grows_trans; [exact Hs|apply Hf].
Qed.

Lemma grows_forRange lo hi (body : Z -> MergeTree -> MergeTree) t :
  (forall i s, grows s (body i s)) -> grows t (forRange lo hi body t).
Proof. intros Hb. unfold forRange. apply grows_fold. intros x s. apply Hb. Qed.

Lemma grows_closeArcsUF t n uf : grows t (closeArcsUF cfg t n uf).
Proof.
  unfold closeArcsUF.
  pose proof (sameCore_ufFind t (deref uf)) as H1.
  destruct (ufFind t (deref uf)) as [t1 r]. cbn [fst] in H1.
  pose proof (grows_fold (fun t' sa => closeSuperArc cfg t' sa n)
                (openedArcs_ (ufCell t1 r)) t1
                (fun x s => grows_closeSuperArc s x n)) as H2.
  set (t2 := fold_left _ _ t1) in *.
  pose proof (sameCore_ufFind t2 (deref uf)) as H3.
  destruct (ufFind t2 (deref uf)) as [t3 r']. cbn [fst] in H3.
  eapply grows_trans; [by apply sameCore_grows|].
  eapply grows_trans; [exact H2|].
  eapply grows_trans; [by apply sameCore_grows|].
  apply sameCore_grows, sameCore_ufHeap.
Qed.

Lemma grows_closeAndMergeOnSaddle t v : grows t (closeAndMergeOnSaddle cfg mesh_ scalars_ t v).
Proof.
  unfold closeAndMergeOnSaddle.
  pose proof (grows_makeNode t v (defaultTerm cfg)) as H1.
  destruct (makeNode cfg scalars_ t v (defaultTerm cfg)) as [t1 closeNode]. cbn [fst] in H1.
  cbv zeta.
  set (t2 := forRange 0 _ (unionNeighbor mesh_ false v) t1).
  assert (H2 : grows t1 t2).
  { apply grows_forRange. intros i s. apply sameCore_grows, sameCore_unionNeighbor. }
  pose proof (grows_closeArcsUF t2 closeNode (Vec.get None (ufs t2) v)) as H3.
  set (t3 := closeArcsUF cfg t2 closeNode _) in *.
  pose proof (sameCore_ufFind t3 (deref (Vec.get None (ufs t3) v))) as H4.
  destruct (ufFind t3 _) as [t4 r]. cbn [fst] in H4.
  set (t5 := set_ufHeap (Vec.upd r UFOps.mergeStates) t4).
  pose proof (sameCore_ufFind t5 (deref (Vec.get None (ufs t5) v))) as H6.
  destruct (ufFind t5 _) as [t6 r']. cbn [fst] in H6.
  eapply grows_trans; [exact H1|]. eapply grows_trans; [exact H2|].
  eapply grows_trans; [exact H3|]. apply sameCore_grows.
  eapply sameCore_trans; [exact H4|].
  eapply sameCore_trans; [apply (sameCore_ufHeap t4)|].
  eapply sameCore_trans; [exact H6|apply sameCore_ufHeap].
Qed.

Lemma grows_closeOnBackBone t v : grows t (closeOnBackBone cfg mesh_ scalars_ t v).
Proof.
  unfold closeOnBackBone.
  pose proof (grows_makeNode t v (defaultTerm cfg)) as H1.
  destruct (makeNode cfg scalars_ t v (defaultTerm cfg)) as [t1 closeNode]. cbn [fst] in H1.
  cbv zeta.
  eapply grows_trans; [exact H1|].
  eapply grows_trans; [|apply grows_closeArcsUF].
  apply grows_forRange. intros i s. apply sameCore_grows, sameCore_unionNeighbor.
Qed.

(** The steps of a task. *)

Lemma grows_openTask t v : grows t (openTask cfg t v).1.1.
Proof.
  unfold openTask.
  pose proof (sameCore_ufFind t (deref (Vec.get None (ufs t) v))) as H1.
  destruct (ufFind t _) as [t1 startUF]. cbn [fst] in H1. cbv zeta.
  set (t2 := if negb _ then t1 else _).
  assert (H2 : sameCore t1 t2).
  { unfold t2. destruct (negb _); [apply sameCore_refl|apply sameCore_ufHeap]. }
  set (t3 := updFirstState startUF _ t2).
  pose proof (grows_openSuperArc t3 (getCorrespondingNodeId t3 v)) as H4.
  destruct (openSuperArc cfg t3 _) as [t4 currentArc]. cbn [fst] in *.
  eapply grows_trans; [by apply sameCore_grows|].
  eapply grows_trans; [by apply sameCore_grows|].
  eapply grows_trans; [apply sameCore_grows, sameCore_updFirstState|].
  eapply grows_trans; [exact H4|]. apply sameCore_grows, sameCore_ufHeap.
Qed.

Lemma grows_saddleCase t cur d orig isLast :
  grows t (ctlState (saddleCase cfg mesh_ scalars_ t cur d orig isLast)).
Proof.
  unfold saddleCase. cbv zeta.
  pose proof (sameCore_grows _ _ (sameCore_openedNodes t cur true)) as H1.
  destruct isLast; [|by cbn].
  destruct (_ =? 1); [by cbn|]. cbn [ctlState].
  eapply grows_trans; [exact H1|].
  eapply grows_trans; [apply grows_closeAndMergeOnSaddle|].
  apply sameCore_grows, sameCore_openedNodes.
Qed.

Lemma grows_processVertex t startVert d orig startUF currentArc sf cur :
  grows t (ctlState (processVertex cfg mesh_ scalars_ t startVert d orig startUF
                                   currentArc sf cur)).
Proof.
  unfold processVertex.
  pose proof (sameCore_propage t startUF startUF) as H1.
  destruct (propage mesh_ t startUF startUF) as [[t1 isSaddle] isLast]. cbn [fst] in H1.
  cbv zeta.
  pose proof (sameCore_ufs t1 cur (Some startUF)) as H2.
  set (t2 := set_ufs _ t1) in *.
  assert (H12 : grows t t2).
  { apply sameCore_grows. by eapply sameCore_trans. }
  destruct isSaddle.
  - eapply grows_trans; [exact H12|apply grows_saddleCase].
  - cbn [ctlState]. eapply grows_trans; [exact H12|].
    eapply grows_trans;
      [|by apply sameCore_grows, (sameCore_arcs _ currentArc (ArcOps.setLastVisited cur))].
    destruct (negb _); [apply grows_assign|apply grows_refl].
Qed.

Lemma grows_loopBody t startVert d orig startUF currentArc sf :
  grows t (ctlState (loopBody cfg mesh_ scalars_ t startVert d orig startUF currentArc sf)).
Proof.
  unfold loopBody.
  destruct (StateOps.getNextMinVertex (getFirstState t startUF)) as [s cur].
  cbv zeta.
  pose proof (sameCore_grows _ _ (sameCore_updFirstState t startUF (fun _ => s))) as H1.
  set (t1 := updFirstState startUF _ t) in *.
  destruct (negb _ && negb _); [done|].
  destruct (cur =? startVert).
  - destruct (negb sf); [|done].
    eapply grows_trans; [exact H1|apply grows_processVertex].
  - eapply grows_trans; [exact H1|apply grows_processVertex].
Qed.

Lemma grows_closeRoot t currentArc : grows t (closeRoot cfg scalars_ t currentArc).
Proof.
  unfold closeRoot. cbv zeta.
  set (closeVert := lastVisited_ (getSuperArc cfg t currentArc)).
  assert (H1 : grows t (if isCorrespondingNode t closeVert
                        then (t, getCorrespondingNodeId t closeVert)
                        else makeNode cfg scalars_ t closeVert (defaultTerm cfg)).1).
  { destruct (isCorrespondingNode t closeVert); [apply grows_refl|apply grows_makeNode]. }
  destruct (if isCorrespondingNode t closeVert then _ else _) as [t1 closeNode].
  cbn [fst] in H1. unfold Vec.getNext. cbv beta iota zeta.
  eapply grows_trans; [exact H1|].
  eapply grows_trans; [apply (grows_closeSuperArc t1 currentArc closeNode)|].
  eapply grows_trans;
    [by apply sameCore_grows, (sameCore_arcs _ currentArc ArcOps.decrNbSeen)|].
  apply sameCore_grows. by repeat split.
Qed.

(** [processTask] and its loop. *)
Lemma grows_sweep fuel :
  (forall t startVert d orig t',
     processTask cfg mesh_ scalars_ fuel t startVert d orig = Some t' -> grows t t')
  /\ (forall t startVert d orig startUF currentArc sf t',
        sweep cfg mesh_ scalars_ fuel t startVert d orig startUF currentArc sf = Some t' ->
        grows t t').
Proof.
  induction fuel as [|fuel [IHp IHs]]; [split; intros; discriminate|].
  split.
  - intros t startVert d orig t' H. cbn [processTask] in H.
    pose proof (grows_openTask t startVert) as H1.
    destruct (openTask cfg t startVert) as [[t1 startUF] currentArc]. cbn [fst] in H1.
    eapply grows_trans; [exact H1|]. by eapply IHs.
  - intros t startVert d orig startUF currentArc sf t' H. cbn [sweep] in H.
    destruct (StateOps.empty (getFirstState t startUF)).
    + injection H as <-. apply grows_closeRoot.
    + pose proof (grows_loopBody t startVert d orig startUF currentArc sf) as H1.
      destruct (loopBody cfg mesh_ scalars_ t startVert d orig startUF currentArc sf)
        as [tc sf'|tc|tc v d' orig']; cbn [ctlState] in H1.
      * eapply grows_trans; [exact H1|]. by eapply IHs.
      * by injection H as <-.
      * eapply grows_trans; [exact H1|]. by eapply IHp.
Qed.

(** [leaves]. *)
Lemma grows_leaves fuel t t' :
  leaves_ cfg mesh_ scalars_ fuel t = Some t' -> grows t t'.
Proof.
  unfold leaves_. cbv zeta. destruct (_ =? 1).
  - unfold UFOps.alloc. intros [= <-]. apply sameCore_grows.
    eapply sameCore_trans; [eapply (sameCore_openedNodes t _ true)|].
    eapply sameCore_trans; [eapply sameCore_ufHeap|eapply sameCore_ufs].
  - set (t2 := set_leaves _ _).
    assert (H2 : grows t t2) by (apply sameCore_grows; by repeat split).
    intros H. eapply grows_trans; [exact H2|]. revert t' H.
    apply (forRange_keeps (fun acc => forall t', acc = Some t' -> grows t2 t')).
    + intros n acc _ Hacc t' H. unfold launchLeaf in H.
      destruct acc as [s|]; [|discriminate]. unfold UFOps.alloc in H.
      eapply grows_trans; [by apply Hacc|].
      eapply grows_trans; [|by eapply (proj1 (grows_sweep fuel))].
      apply sameCore_grows.
      eapply sameCore_trans; [apply sameCore_ufHeap|apply sameCore_ufs].
    + intros t' [= <-]. apply grows_refl.
Qed.

(** [precompute]. *)
Lemma grows_precompute t : grows t (fst (precompute cfg mesh_ scalars_ t)).
Proof.
  unfold precompute.
  set (t1 := if getNumberOfNodes t =? 0 then _ else _).
  assert (H1 : grows t t1.1).
  { unfold t1. destruct (_ =? 0); [|apply grows_refl]. cbv zeta. cbn [fst].
    apply grows_forRange. intros c s. apply grows_forRange. intros v s'.
    unfold precomputeVertex. cbv zeta.
    eapply grows_trans; [apply sameCore_grows, sameCore_valences_set|].
    destruct (_ =? 0); [apply grows_makeNode|apply grows_refl]. }
  destruct t1 as [t1' ret]. cbn [fst] in *. cbv zeta.
  eapply grows_trans; [exact H1|].
  destruct (_ >=? 3); cbn [fst].
  - eapply grows_trans; [|apply grows_log]. apply sameCore_grows. by repeat split.
  - apply sameCore_grows. by repeat split.
Qed.

(** [trunk]. *)
Lemma grows_trunkBackBone t : grows t (fst (trunkBackBone cfg mesh_ scalars_ t)).
Proof.
  unfold trunkBackBone. cbv zeta.
  set (pv := pendingVertsOf scalars_ t).
  set (t1 := fold_left (closeOnBackBone cfg mesh_ scalars_) pv t).
  assert (H1 : grows t t1) by (apply grows_fold; intros x s; apply grows_closeOnBackBone).
  set (t2 := forRange 1 (Vec.size pv) (chainArc cfg pv) t1).
  assert (H2 : grows t1 t2).
  { apply grows_forRange. intros n s. unfold chainArc.
    pose proof (grows_makeSuperArc s (getCorrespondingNodeId s (Vec.get 0 pv (n - 1)))
                  (getCorrespondingNodeId s (Vec.get 0 pv n))) as M.
    destruct (makeSuperArc cfg s _ _) as [s1 na]. cbn [fst] in M.
    eapply grows_trans; [exact M|]. by apply sameCore_grows, sameCore_arcs. }
  pose proof (grows_trans _ _ _ H1 H2) as H12.
  destruct (_ =? 0); [done|].
  pose proof (grows_openSuperArc t2
                (getCorrespondingNodeId t2 (Vec.get 0 pv (Vec.size pv - 1)))) as H3.
  destruct (openSuperArc cfg t2 _) as [t3 lastArc]. cbn [fst] in H3.
  pose proof (grows_makeNode t3
                (Vec.get 0 (sortedVertices scalars_)
                   (if isJT t3 then scalars_size scalars_ - 1 else 0))
                (defaultTerm cfg)) as H4.
  destruct (makeNode cfg scalars_ t3 _ _) as [t4 rootNode]. cbn [fst] in *.
  eapply grows_trans; [exact H12|]. eapply grows_trans; [exact H3|].
  eapply grows_trans; [exact H4|].
  eapply grows_trans; [apply (grows_closeSuperArc t4 lastArc rootNode)|].
  eapply grows_trans; [|apply grows_printTime].
  by apply sameCore_grows, sameCore_arcs.
Qed.

Lemma grows_assignChunkTrunk pv v st :
  grows st.1.1 (assignChunkTrunk cfg scalars_ pv v st).1.1.
Proof.
  destruct st as [[t last] acc]. cbn [fst]. unfold assignChunkTrunk.
  destruct (isCorrespondingNull t _); [|apply grows_refl]. cbv zeta.
  destruct (_ =? _); cbn [fst]; [apply grows_assign|].
  eapply grows_trans; [apply grows_assign|]. by apply sameCore_grows, sameCore_arcs.
Qed.

Lemma grows_flushChunk pv st : grows st.1.1 (flushChunk cfg pv st).
Proof.
  destruct st as [[t last] acc]. cbn [fst]. unfold flushChunk.
  by apply sameCore_grows, sameCore_arcs.
Qed.

Lemma grows_trunkSegmentation t pv : grows t (fst (trunkSegmentation cfg scalars_ t pv)).
Proof.
  rewrite trunkSegmentation_loops. eapply grows_trans; [|apply grows_printTime].
  unfold trunkChunks.
  destruct (getBoundsFromVerts scalars_ t pv) as [begin stop]. cbv zeta.
  destruct (isJT t).
  - apply grows_forRange. intros c s.
    eapply grows_trans; [|apply grows_flushChunk].
    apply (forRange_keeps (fun st => grows s st.1.1)); [|apply grows_refl].
    intros v st _ Hst. eapply grows_trans; [exact Hst|apply grows_assignChunkTrunk].
  - apply (forRangeDown_keeps (grows t)); [|apply grows_refl].
    intros c s Hs. eapply grows_trans; [exact Hs|].
    eapply grows_trans; [|apply grows_flushChunk].
    apply (forRangeDown_keeps (fun st => grows s st.1.1)); [|apply grows_refl].
    intros v st Hst. eapply grows_trans; [exact Hst|apply grows_assignChunkTrunk].
Qed.

Lemma grows_trunk t : grows t (fst (trunk cfg mesh_ scalars_ t)).
Proof.
  unfold trunk. pose proof (grows_trunkBackBone t) as H1.
  destruct (trunkBackBone cfg mesh_ scalars_ t) as [t1 [pv|]]; cbn [fst] in *; [|done].
  eapply grows_trans; [exact H1|apply grows_trunkSegmentation].
Qed.

(** [buildSegmentation]. *)
Lemma grows_buildSegmentation t : grows t (buildSegmentation cfg scalars_ t).
Proof.
  pose proof (buildSegmentation_sameButRegions cfg scalars_ t) as H.
  destruct H as (H1 & H2 & H3 & H4 & H5 & H6 & H7 & H8 & H9 & H10 & H11 & H12 & H14).
  pose proof (buildSegmentation_console cfg scalars_ t) as Hc.
  assert (E : forall l, map downNodeId_ l = map (fun x => x.1.1.1.1) (map arcLinks l)).
  { intros l. rewrite List.map_map. done. }
  unfold grows, nodesConsistent, corresp, nodeVerts.
  rewrite H1, H2, H5, H6, H7, H8, H9, H11, !E, H14, Hc.
  repeat split; try done; try (exists []; by rewrite app_nil_r).
  destruct (printTime_appends cfg scalars_ "segm. set verts" (-1) 3 t) as [m1 E1].
  destruct (printTime_appends cfg scalars_ "segm. sort verts" (-1) 3
              (printTime cfg scalars_ "segm. set verts" (-1) 3 t)) as [m2 E2].
  exists (m1 ++ m2). by rewrite E2, E1, app_assoc.
Qed.

(** The steps of a build that ends. *)
Lemma build_steps fuel t ct t' :
  build cfg mesh_ scalars_ fuel t ct = Some t' ->
  exists t1 d t2 t3 bb,
    precompute cfg mesh_ scalars_ (initComp scalars_ t) = (t1, d)
    /\ leaves_ cfg mesh_ scalars_ fuel
         (printTime cfg scalars_ (String.append "3 precompute " (treeString t))
                    (scalars_size scalars_) (2 + d) t1) = Some t2
    /\ trunk cfg mesh_ scalars_
         (printTime cfg scalars_ (String.append "4 leaves " (treeString t))
                    (scalars_size scalars_) (printTimeLevel cfg) t2) = (t3, bb)
    /\ t' = (if ct
             then printTime cfg scalars_ (String.append "6 segmentation " (treeString t))
                            (scalars_size scalars_) (printTimeLevel cfg)
                            (buildSegmentation cfg scalars_
                               (printTime cfg scalars_
                                  (String.append "5 trunk " (treeString t)) bb
                                  (printTimeLevel cfg) t3))
             else printTime cfg scalars_ (String.append "5 trunk " (treeString t)) bb
                            (printTimeLevel cfg) t3).
Proof.
  unfold build. cbv zeta. intros H.
  destruct (precompute cfg mesh_ scalars_ (initComp scalars_ t)) as [t1 d].
  destruct (leaves_ cfg mesh_ scalars_ fuel _) as [t2|] eqn:E2; [|discriminate].
  destruct (trunk cfg mesh_ scalars_ _) as [t3 bb] eqn:E3.
  injection H as <-. by exists t1, d, t2, t3, bb.
Qed.

(** X20.  What [build] keeps, whenever it returns, for every mesh, tree
    type, build and chunk policy: the tree type and the sizes of the arrays
    indexed by the vertices; every node that was there, under its id and on
    its vertex (nodes are only appended); every super-arc that was there,
    under its id and with its down node (super-arcs are only appended);
    what was written on the terminal (output is only appended); and the
    consistency of the node entries of the vertex to tree map.  The
    comparators of the result are those of the tree type: the order of the
    scalars for a join tree, the reverse order for every other type. *)
Theorem build_keeps fuel t ct t' :
  build cfg mesh_ scalars_ fuel t ct = Some t' ->
  treeType t' = treeType t
  /\ comp_ t' = (if isJT t then mkComp (isLower scalars_) (isHigher scalars_)
                 else mkComp (isHigher scalars_) (isLower scalars_))
  /\ Vec.size (vert2tree t') = Vec.size (vert2tree t)
  /\ Vec.size (ufs t') = Vec.size (ufs t)
  /\ Vec.size (propagation t') = Vec.size (propagation t)
  /\ Vec.size (valences t') = Vec.size (valences t)
  /\ Vec.size (openedNodes t') = Vec.size (openedNodes t)
  /\ (exists more, nodeVerts t' = nodeVerts t ++ more)
  /\ (exists more, map downNodeId_ (superArcs t') = map downNodeId_ (superArcs t) ++ more)
  /\ (exists more, console t' = console t ++ more)
  /\ (nodesConsistent t -> nodesConsistent t').
Proof.
  intros H.
  assert (G : grows (initComp scalars_ t) t').
  { destruct (build_steps _ _ _ _ H) as (t1 & d & t2 & t3 & bb & E1 & E2 & E3 & ->).
    pose proof (grows_precompute (initComp scalars_ t)) as H1.
    rewrite E1 in H1. cbn [fst] in H1.
    apply grows_leaves in E2.
    pose proof (grows_trunk (printTime cfg scalars_
                               (String.append "4 leaves " (treeString t))
                               (scalars_size scalars_) (printTimeLevel cfg) t2)) as H3.
    rewrite E3 in H3. cbn [fst] in H3.
    eapply grows_trans; [exact H1|].
    eapply grows_trans; [|eapply grows_trans; [exact E2|]]; [apply grows_printTime|].
    eapply grows_trans; [|eapply grows_trans; [exact H3|]]; [apply grows_printTime|].
    destruct ct; [|apply grows_printTime].
    eapply grows_trans; [apply grows_printTime|].
    eapply grows_trans; [apply grows_buildSegmentation|apply grows_printTime]. }
  destruct G as (G1 & G0 & G2 & G3 & G4 & G5 & G6 & G7 & G8 & G9 & G10).
  assert (E : treeType (initComp scalars_ t) = treeType t
              /\ vert2tree (initComp scalars_ t) = vert2tree t
              /\ ufs (initComp scalars_ t) = ufs t
              /\ propagation (initComp scalars_ t) = propagation t
              /\ valences (initComp scalars_ t) = valences t
              /\ openedNodes (initComp scalars_ t) = openedNodes t
              /\ nodes (initComp scalars_ t) = nodes t
              /\ superArcs (initComp scalars_ t) = superArcs t
              /\ console (initComp scalars_ t) = console t
              /\ comp_ (initComp scalars_ t)
                 = (if isJT t then mkComp (isLower scalars_) (isHigher scalars_)
                    else mkComp (isHigher scalars_) (isLower scalars_))).
  { unfold initComp, isJT. destruct (treeType t) eqn:Et; cbn; by rewrite ?Et. }
  destruct E as (E1 & E2 & E3 & E4 & E5 & E6 & E7 & E8 & E9 & E10).
  unfold nodesConsistent, nodeVerts, corresp in *.
  rewrite E1, E2, E3, E4, E5, E6, E7, E8, E9, E10 in *.
  by repeat split.
Qed.

(** X21.  What a task of the sweep keeps, whenever it returns, recursive
    calls on the saddles included: the tree type, the comparators and the
    sizes of the arrays indexed by the vertices; every node under its id
    and on its vertex, every super-arc under its id and with its down node,
    and the terminal output, to which it only appends; and the consistency
    of the node entries of the vertex to tree map.  No task deletes a node
    or a super-arc or moves the down end of an arc. *)
Theorem processTask_keeps fuel t startVert d orig t' :
  processTask cfg mesh_ scalars_ fuel t startVert d orig = Some t' ->
  treeType t' = treeType t
  /\ comp_ t' = comp_ t
  /\ Vec.size (vert2tree t') = Vec.size (vert2tree t)
  /\ Vec.size (ufs t') = Vec.size (ufs t)
  /\ Vec.size (propagation t') = Vec.size (propagation t)
  /\ Vec.size (valences t') = Vec.size (valences t)
  /\ Vec.size (openedNodes t') = Vec.size (openedNodes t)
  /\ (exists more, nodeVerts t' = nodeVerts t ++ more)
  /\ (exists more, map downNodeId_ (superArcs t') = map downNodeId_ (superArcs t) ++ more)
  /\ (exists more, console t' = console t ++ more)
  /\ (nodesConsistent t -> nodesConsistent t').
Proof.
  intros H. change (grows t t'). revert H. apply (proj1 (grows_sweep fuel)).
Qed.

End Invariants.

Lemma fresh_consistent ty n : nodesConsistent (Ex.fresh ty n).
Proof.
  intros v id H. unfold corresp, Ex.fresh, Vec.get, Vec.at_ in H. cbn in H.
  destruct (v <? 0); [done|].
  destruct (replicate n CNull !! Z.to_nat v) as [c|] eqn:E; [|done].
  apply lookup_replicate in E as [-> _]. done.
Qed.

(** The join tree of the chain: its five nodes are consistent with the
    vertex to tree map. *)
Lemma build_keeps_witness :
  exists t',
    build (Ex.cfg false) Ex.chain5 Ex.sc 10 (Ex.fresh Join 5) true = Some t'
    /\ Vec.size (vert2tree t') = 5
    /\ nodesConsistent t'.
Proof.
  destruct (build (Ex.cfg false) Ex.chain5 Ex.sc 10 (Ex.fresh Join 5) true) as [t'|] eqn:E.
  - exists t'. split; [reflexivity|].
    destruct (build_keeps (Ex.cfg false) Ex.chain5 Ex.sc 10 (Ex.fresh Join 5) true t' E)
      as (_ & _ & H1 & _ & _ & _ & _ & _ & _ & _ & H2).
    split; [exact H1|]. apply H2, fresh_consistent.
  - exfalso. vm_compute in E. discriminate E.
Defined.

(** The task of the leaf 0 of the chain, which stops on the saddle 1. *)
Lemma processTask_keeps_witness :
  exists t',
    processTask (Ex.cfg false) Ex.chain5 Ex.sc 10 (Ex.launch 0 Ex.started) 0 0 0 = Some t'
    /\ exists more, nodeVerts t' = nodeVerts (Ex.launch 0 Ex.started) ++ more.
Proof.
  destruct (processTask (Ex.cfg false) Ex.chain5 Ex.sc 10 (Ex.launch 0 Ex.started) 0 0 0)
    as [t'|] eqn:E.
  - exists t'. split; [reflexivity|].
    destruct (processTask_keeps (Ex.cfg false) Ex.chain5 Ex.sc 10 (Ex.launch 0 Ex.started)
                0 0 0 t' E) as (_ & _ & _ & _ & _ & _ & _ & H & _).
    exact H.
  - exfalso. vm_compute in E. discriminate E.
Defined.

(** ** What the trunk leaves to the sweep *)

Section TrunkFrame.

Variable cfg : Build.
Variable mesh_ : Triangulation.
Variable scalars_ : Scalars.

Lemma lists_makeNode t v term :
  sweepLists (fst (makeNode cfg scalars_ t v term)) = sweepLists t.
Proof.
  unfold makeNode. destruct (negb _ && _); [done|].
  by destruct (isCorrespondingNode t v).
Qed.

Lemma lists_closeSuperArc t a n : sweepLists (closeSuperArc cfg t a n) = sweepLists t.
Proof.
  unfold closeSuperArc. destruct (negb _ && _); [done|]. by destruct (negb _ && _).
Qed.

Lemma lists_openSuperArc t d : sweepLists (fst (openSuperArc cfg t d)) = sweepLists t.
Proof. unfold openSuperArc. by destruct (negb _ && _). Qed.

Lemma lists_ufFind t u : sweepLists (fst (ufFind t u)) = sweepLists t.
Proof. unfold ufFind. by destruct (UFOps.find (ufHeap t) u). Qed.

Lemma lists_unionNeighbor b v n t :
  sweepLists (unionNeighbor mesh_ b v n t) = sweepLists t.
Proof.
  unfold unionNeighbor. destruct (vertLower (comp_ t) _ v); [|done].
  assert (H : forall neighUF,
            sweepLists
              (let '(t1, rn) := ufFind t (deref neighUF) in
               let '(t2, rs) := ufFind t1 (deref (Vec.get None (ufs t1) v)) in
               if negb (rn =? rs)
               then let '(h, r) := UFOps.makeUnion (vertLower (comp_ t2)) (ufHeap t2)
                                     (deref (Vec.get None (ufs t2) v))
                                     (deref (Vec.get None (ufs t2)
                                               (getVertexNeighbor mesh_ v n))) in
                    set_ufs (Vec.set v (Some r)) (set_ufHeap (fun _ => h) t2)
               else t2) = sweepLists t).
  { intros neighUF.
    pose proof (lists_ufFind t (deref neighUF)) as H1.
    destruct (ufFind t (deref neighUF)) as [t1 rn]. cbn [fst] in H1.
    pose proof (lists_ufFind t1 (deref (Vec.get None (ufs t1) v))) as H2.
    destruct (ufFind t1 _) as [t2 rs]. cbn [fst] in H2.
    destruct (negb _); [|congruence].
    destruct (UFOps.makeUnion _ _ _ _) as [h r].
    rewrite <- H1, <- H2. done. }
  destruct b; [|apply H].
  destruct (Vec.get None (ufs t) _) as [u|] eqn:E; [|done].
  apply (H (Some u)).
Qed.

Lemma lists_closeArcsUF t n uf : sweepLists (closeArcsUF cfg t n uf) = sweepLists t.
Proof.
  unfold closeArcsUF.
  pose proof (lists_ufFind t (deref uf)) as H1.
  destruct (ufFind t (deref uf)) as [t1 r]. cbn [fst] in H1.
  assert (H2 : sweepLists (fold_left (fun t' sa => closeSuperArc cfg t' sa n)
                              (openedArcs_ (ufCell t1 r)) t1) = sweepLists t1).
  { apply (fold_left_keeps (fun s => sweepLists s = sweepLists t1)); [|done].
    intros sa s _ Hs. by rewrite lists_closeSuperArc. }
  set (t2 := fold_left _ _ t1) in *.
  pose proof (lists_ufFind t2 (deref uf)) as H3.
  destruct (ufFind t2 (deref uf)) as [t3 r']. cbn [fst] in H3.
  rewrite <- H1, <- H2, <- H3. done.
Qed.

Lemma lists_closeOnBackBone t v :
  sweepLists (closeOnBackBone cfg mesh_ scalars_ t v) = sweepLists t.
Proof.
  unfold closeOnBackBone.
  pose proof (lists_makeNode t v (defaultTerm cfg)) as H1.
  destruct (makeNode cfg scalars_ t v (defaultTerm cfg)) as [t1 closeNode]. cbn [fst] in H1.
  cbv zeta. rewrite lists_closeArcsUF, <- H1.
  apply (forRange_keeps (fun s => sweepLists s = sweepLists t1)); [|done].
  intros i s _ Hs. by rewrite lists_unionNeighbor.
Qed.

(** The sequential part of [trunk]. *)
Lemma lists_trunkBackBone t :
  sweepLists (fst (trunkBackBone cfg mesh_ scalars_ t)) = sweepLists t.
Proof.
  unfold trunkBackBone. cbv zeta.
  set (pv := pendingVertsOf scalars_ t).
  set (t1 := fold_left (closeOnBackBone cfg mesh_ scalars_) pv t).
  assert (H1 : sweepLists t1 = sweepLists t).
  { apply (fold_left_keeps (fun s => sweepLists s = sweepLists t)); [|done].
    intros v s _ Hs. by rewrite lists_closeOnBackBone. }
  set (t2 := forRange 1 (Vec.size pv) (chainArc cfg pv) t1).
  assert (H2 : sweepLists t2 = sweepLists t).
  { apply (forRange_keeps (fun s => sweepLists s = sweepLists t)); [|done].
    intros n s _ Hs. by rewrite <- Hs. }
  destruct (_ =? 0); [done|].
  pose proof (lists_openSuperArc t2
                (getCorrespondingNodeId t2 (Vec.get 0 pv (Vec.size pv - 1)))) as H3.
  destruct (openSuperArc cfg t2 _) as [t3 lastArc]. cbn [fst] in H3.
  pose proof (lists_makeNode t3
                (Vec.get 0 (sortedVertices scalars_)
                   (if isJT t3 then scalars_size scalars_ - 1 else 0))
                (defaultTerm cfg)) as H4.
  destruct (makeNode cfg scalars_ t3 _ _) as [t4 rootNode]. cbn [fst] in *.
  rewrite <- H2, <- H3, <- H4, <- (lists_closeSuperArc t4 lastArc rootNode).
  timings. done.
Qed.

(** X22.  [trunk] writes none of the lists and arrays of the sweep: the
    roots, the leaves, the valences, the propagation marks, the
    opened-nodes bits and the number of active tasks are those of the call
    state.  So the node that [trunk] makes on the last sorted vertex to
    close the last arc is not appended to the roots, and the opened-nodes
    bits of the backbone vertices stay set. *)
Theorem trunk_keeps_sweep_lists t :
  let t' := fst (trunk cfg mesh_ scalars_ t) in
  roots t' = roots t /\ leaves t' = leaves t /\ valences t' = valences t
  /\ propagation t' = propagation t /\ openedNodes t' = openedNodes t
  /\ activeTasks t' = activeTasks t.
Proof.
  intros t'.
  assert (H : sweepLists t' = sweepLists t); [|by injection H].
  subst t'. unfold trunk.
  pose proof (lists_trunkBackBone t) as HB.
  destruct (trunkBackBone cfg mesh_ scalars_ t) as [t1 [pv|]]; cbn [fst] in *; [|done].
  rewrite <- HB. rewrite trunkSegmentation_loops. timings. unlog. unfold trunkChunks.
  destruct (getBoundsFromVerts scalars_ t1 pv) as [begin stop]. cbv zeta.
  assert (Hstep : forall v st,
            sweepLists (assignChunkTrunk cfg scalars_ pv v st).1.1 = sweepLists st.1.1).
  { intros v [[s last] acc]. cbn [fst]. unfold assignChunkTrunk.
    destruct (isCorrespondingNull s _); [|done]. cbv zeta. by destruct (_ =? _). }
  assert (Hflush : forall st, sweepLists (flushChunk cfg pv st) = sweepLists st.1.1).
  { by intros [[s last] acc]. }
  destruct (isJT t1).
  - apply (forRange_keeps (fun s => sweepLists s = sweepLists t1)); [|done].
    intros c s _ Hs. rewrite Hflush, <- Hs.
    apply (forRange_keeps (fun st => sweepLists st.1.1 = sweepLists s)); [|done].
    intros v st _ Hst. by rewrite Hstep.
  - apply (forRangeDown_keeps (fun s => sweepLists s = sweepLists t1)); [|done].
    intros c s Hs. rewrite Hflush, <- Hs.
    apply (forRangeDown_keeps (fun st => sweepLists st.1.1 = sweepLists s)); [|done].
    intros v st Hst. by rewrite Hstep.
Qed.

(** X23.  A second [precompute] computes nothing: on a tree that already
    has nodes it returns 1 and leaves the valences, the nodes, the vertex
    to tree map and the super-arcs as they are; it only resets the leaves
    to the node ids in increasing order (and writes their number at a debug
    level of 3 or more).  In particular [precompute] run on its own result,
    when that has a node and the debug level is below 3, changes
    nothing. *)
Theorem precompute_already_done t :
  getNumberOfNodes t <> 0 ->
  let t' := fst (precompute cfg mesh_ scalars_ t) in
  snd (precompute cfg mesh_ scalars_ t) = 1
  /\ valences t' = valences t /\ nodes t' = nodes t /\ vert2tree t' = vert2tree t
  /\ superArcs t' = superArcs t
  /\ leaves t' = seqZ 0 (getNumberOfNodes t)
  /\ (debugLevel_ cfg < 3 ->
      console t' = console t
      /\ precompute cfg mesh_ scalars_ t' = (t', 1)).
Proof.
  intros Hn t'. subst t'. unfold precompute.
  destruct (Z.eqb_spec (getNumberOfNodes t) 0) as [E|_]; [done|].
  cbv zeta.
  destruct (Z.geb_spec (debugLevel_ cfg) 3) as [Hd|Hd]; cbn [fst snd].
  - repeat split; try done; lia.
  - repeat split; try done.
    change (getNumberOfNodes (set_leaves (fun _ => seqZ 0 (Vec.size (nodes t))) t))
      with (getNumberOfNodes t).
    destruct (Z.eqb_spec (getNumberOfNodes t) 0) as [E|_]; [done|].
    destruct (Z.geb_spec (debugLevel_ cfg) 3) as [Hd'|_]; [lia|]. done.
Qed.

End TrunkFrame.

(** On the root with two children, which has three nodes. *)
Lemma precompute_already_done_witness :
  snd (precompute (Ex.cfg false) Ex.chain5 Ex.sc Ex.twoChildren) = 1
  /\ leaves (fst (precompute (Ex.cfg false) Ex.chain5 Ex.sc Ex.twoChildren)) = [0; 1; 2].
Proof.
  destruct (precompute_already_done (Ex.cfg false) Ex.chain5 Ex.sc Ex.twoChildren)
    as (H1 & _ & _ & _ & _ & H2 & _).
  - vm_compute. discriminate.
  - split; [exact H1|exact H2].
Defined.

(** ** The arcs of the trunk vertices *)

Section TrunkArcs.

Variable cfg : Build.
Variable scalars_ : Scalars.

Lemma chunkPos_start t0 pv t :
  assignedOnly t0 t -> onBackbone cfg t0 pv t -> chunkPos cfg t0 pv (t, 0, 0).
Proof. intros H1 H2. unfold chunkPos. cbn [fst snd]. split; [done|]. split; [done|]. lia. Qed.

Lemma chunkPos_step t0 pv v st :
  chunkPos cfg t0 pv st -> chunkPos cfg t0 pv (assignChunkTrunk cfg scalars_ pv v st).
Proof.
  destruct st as [[t last] acc]. unfold chunkPos. cbn [fst snd].
  intros (H1 & H2 & H3 & H4).
  unfold assignChunkTrunk.
  set (s := Vec.get 0 (sortedVertices scalars_) v).
  destruct (isCorrespondingNull t s) eqn:Hnull; [|done].
  assert (Hs : corresp t s = CNull).
  { unfold isCorrespondingNull in Hnull. by destruct (corresp t s). }
  cbv zeta.
  destruct (getVertInRange_bounds cfg t pv s last H3 H4) as (B1 & B2).
  set (last' := getVertInRange cfg t pv s last) in *.
  change (upArcFromVert cfg t (Vec.get 0 pv last')) with (backboneArc cfg t pv last').
  rewrite (assignedOnly_arcOf cfg t0 t pv last' H1).
  set (thisArc := backboneArc cfg t0 pv last').
  assert (Hpos : 0 <= last' /\ (last' = 0 \/ last' < Vec.size pv)).
  { pose proof (toIdNode_le cfg (Vec.size pv) (size_nonneg pv)). lia. }
  assert (Hon : onBackbone cfg t0 pv (updateCorrespondingArc s thisArc t)).
  { intros w. destruct (Z.eq_dec w s) as [->|Hne].
    - destruct (decide (0 <= s < Vec.size (vert2tree t))) as [Hin|Hout].
      + right. exists last'. split; [lia|]. split; [tauto|].
        unfold corresp, updateCorrespondingArc. cbn [vert2tree set_vert2tree].
        by rewrite get_set_eq.
      + replace (corresp (updateCorrespondingArc s thisArc t) s) with (corresp t s);
          [apply H2|].
        rewrite Hs. unfold corresp, updateCorrespondingArc, Vec.get.
        cbn [vert2tree set_vert2tree]. by rewrite at_out by (by rewrite size_set).
    - replace (corresp (updateCorrespondingArc s thisArc t) w) with (corresp t w);
        [apply H2|].
      unfold corresp, updateCorrespondingArc. cbn [vert2tree set_vert2tree].
      by rewrite get_set_ne. }
  pose proof (assignedOnly_assign t0 t s thisArc H1 Hs) as H1'.
  destruct (last =? last'); cbn [fst snd].
  - split; [done|]. split; [done|]. split; [lia|done].
  - split; [by apply assignedOnly_count|]. split; [done|]. split; [lia|done].
Qed.

Lemma chunkPos_flush t0 pv st :
  chunkPos cfg t0 pv st ->
  assignedOnly t0 (flushChunk cfg pv st) /\ onBackbone cfg t0 pv (flushChunk cfg pv st).
Proof.
  intros (H1 & H2 & _). split; [by apply flushChunk_keeps|].
  intros w. rewrite flushChunk_corresp. apply H2.
Qed.

(** The loops of [trunk] over the chunks keep the assignment on the arcs of
    the backbone. *)
Lemma trunkSegmentation_onBackbone t pv :
  assignedOnly t (fst (trunkSegmentation cfg scalars_ t pv))
  /\ onBackbone cfg t pv (fst (trunkSegmentation cfg scalars_ t pv)).
Proof.
  rewrite trunkSegmentation_loops. timings. unlog. unfold trunkChunks.
  destruct (getBoundsFromVerts scalars_ t pv) as [begin stop]. cbv zeta.
  assert (H0 : assignedOnly t t /\ onBackbone cfg t pv t).
  { split; [apply assignedOnly_refl|]. intros w. by left. }
  destruct (isJT t).
  - apply (forRange_keeps (fun tc => assignedOnly t tc /\ onBackbone cfg t pv tc)); [|done].
    intros c tc _ [Hc1 Hc2]. apply chunkPos_flush.
    apply (forRange_keeps (chunkPos cfg t pv)); [|by apply chunkPos_start].
    intros v st _. apply chunkPos_step.
  - apply (forRangeDown_keeps (fun tc => assignedOnly t tc /\ onBackbone cfg t pv tc));
      [|done].
    intros c tc [Hc1 Hc2]. apply chunkPos_flush.
    apply (forRangeDown_keeps (chunkPos cfg t pv)); [|by apply chunkPos_start].
    intros v st. apply chunkPos_step.
Qed.

(** X24.  The arc of a trunk vertex.  With a backbone that is not empty,
    every vertex that the assignment of the trunk moves from nil to an arc
    is on the first up arc of the node of a backbone vertex, for a join
    tree as for a split tree and whatever the chunks: the trunk puts no
    vertex on an arc that does not leave the backbone. *)
Theorem trunkSegmentation_arcs_of_backbone t pendingVerts :
  pendingVerts <> [] ->
  let t' := fst (trunkSegmentation cfg scalars_ t pendingVerts) in
  forall w a, isCorrespondingNull t w = true -> corresp t' w = CArc a ->
    exists k, 0 <= k < Vec.size pendingVerts
              /\ a = upArcFromVert cfg t (Vec.get 0 pendingVerts k).
Proof.
  intros Hne t' w a Hw Ha.
  destruct (trunkSegmentation_onBackbone t pendingVerts) as [_ H].
  fold t' in H.
  destruct (H w) as [E|(k & K1 & K2 & E)].
  - unfold isCorrespondingNull in Hw. rewrite <- E, Ha in Hw. done.
  - rewrite Ha in E. injection E as ->. exists k. split; [|done].
    assert (0 < Vec.size pendingVerts).
    { destruct pendingVerts; [done|]. unfold Vec.size. cbn. lia. }
    lia.
Qed.

End TrunkArcs.

(** On the increasing chain after the backbone, vertex 2 goes on the arc 0,
    the up arc of the node of the only backbone vertex. *)
Lemma trunkSegmentation_arcs_of_backbone_witness :
  exists k, 0 <= k < 1 /\ 0 = upArcFromVert (Ex.cfg false) Trees.monoBackbone (Vec.get 0 [0] k).
Proof.
  apply (trunkSegmentation_arcs_of_backbone (Ex.cfg false) Ex.scMono Trees.monoBackbone [0]
           ltac:(discriminate) 2 0); vm_compute; reflexivity.
Defined.

(** ** The tree of a field with one minimum *)

Lemma filter_none (p : Z -> bool) (l : list Z) :
  (forall w, w ∈ l -> p w = false) -> List.filter p l = [].
Proof.
  induction l as [|x l IH]; intros H; [done|]. cbn.
  rewrite H by (by left). apply IH. intros w Hw. apply H. by right.
Qed.

Lemma filter_only (p : Z -> bool) n v0 :
  0 <= v0 < n -> p v0 = true -> (forall w, w <> v0 -> p w = false) ->
  List.filter p (seqZ 0 n) = [v0].
Proof.
  intros Hv Hp Hother.
  replace n with (v0 + (1 + (n - v0 - 1))) by lia.
  rewrite seqZ_app by lia. rewrite (seqZ_app _ 1) by lia.
  rewrite !List.filter_app.
  rewrite (filter_none p (seqZ 0 v0)).
  2: { intros w Hw. apply Hother. apply elem_of_seqZ in Hw. lia. }
  rewrite (filter_none p (seqZ (0 + v0 + 1) _)).
  2: { intros w Hw. apply Hother. apply elem_of_seqZ in Hw. lia. }
  change (seqZ (0 + v0) 1) with [0 + v0]. cbn [List.filter]. by rewrite Z.add_0_l, Hp.
Qed.

Lemma filter_all (l : list Z) : List.filter (fun _ : Z => true) l = l.
Proof. induction l as [|x l IH]; [done|]. cbn. by rewrite IH. Qed.

Lemma count_but_two (p : Z -> bool) (n : nat) a b :
  0 <= a < Z.of_nat n -> 0 <= b < Z.of_nat n -> a <> b ->
  (forall w, 0 <= w < Z.of_nat n -> p w = negb (w =? a) && negb (w =? b)) ->
  Vec.size (List.filter p (seqZ 0 (Z.of_nat n))) = Z.of_nat n - 2.
Proof.
  intros Ha Hb Hab Hp.
  rewrite (filter_count_same (fun w => negb (w =? a) && negb (w =? b)) p).
  2: { intros w Hw. apply Hp. apply elem_of_seqZ in Hw. lia. }
  assert (H1 : Vec.size (List.filter (fun w => negb (w =? a)) (seqZ 0 (Z.of_nat n)))
               = Vec.size (List.filter (fun w => negb (w =? a) && negb (w =? b))
                                       (seqZ 0 (Z.of_nat n))) + 1).
  { apply filter_count_change with (s := b); [done| | |].
    - intros w Hw. destruct (Z.eqb_spec w b); [done|]. by rewrite andb_true_r.
    - rewrite Z.eqb_refl. by rewrite andb_false_r.
    - destruct (Z.eqb_spec b a); [lia|done]. }
  assert (H2 : Vec.size (List.filter (fun _ : Z => true) (seqZ 0 (Z.of_nat n)))
               = Vec.size (List.filter (fun w => negb (w =? a)) (seqZ 0 (Z.of_nat n))) + 1).
  { apply filter_count_change with (s := a); [done| | |done].
    - intros w Hw. by destruct (Z.eqb_spec w a).
    - by rewrite Z.eqb_refl. }
  rewrite filter_all in H2. unfold Vec.size in H2 at 1. rewrite length_seqZ in H2. lia.
Qed.

Section SingleMinimum.

Variable cfg : Build.
Variable mesh_ : Triangulation.
Variable scalars_ : Scalars.

Lemma makeNode_frame t v term :
  let t' := fst (makeNode cfg scalars_ t v term) in
  superArcs t' = superArcs t /\ openedNodes t' = openedNodes t
  /\ roots t' = roots t /\ treeType t' = treeType t.
Proof.
  cbv zeta. unfold makeNode. destruct (negb _ && _); [done|].
  by destruct (isCorrespondingNode t v).
Qed.

(** [precompute] makes nodes and writes valences and leaves. *)
Lemma precompute_frame t :
  let t' := fst (precompute cfg mesh_ scalars_ t) in
  superArcs t' = superArcs t /\ openedNodes t' = openedNodes t
  /\ roots t' = roots t /\ treeType t' = treeType t.
Proof.
  cbv zeta.
  set (P := fun s : MergeTree =>
              superArcs s = superArcs t /\ openedNodes s = openedNodes t
              /\ roots s = roots t /\ treeType s = treeType t).
  assert (Hv : forall v s, P s -> P (precomputeVertex cfg mesh_ scalars_ v s)).
  { intros v s Hs. unfold precomputeVertex.
    set (val := forRange _ _ _ _).
    destruct (val =? 0); [|exact Hs].
    destruct (makeNode_frame (set_valences (Vec.set v val) s) v (defaultTerm cfg))
      as (A & B & C & D).
    destruct Hs as (A' & B' & C' & D'). unfold P. rewrite A, B, C, D. done. }
  change (P (fst (precompute cfg mesh_ scalars_ t))).
  unfold precompute.
  destruct (getNumberOfNodes t =? 0); cbv beta iota zeta.
  - assert (HL : P (forRange 0 (getChunkCount cfg None None)
                      (fun chunkId t' =>
                         forRange (chunkId * getChunkSize cfg None None)
                           (Z.min (scalars_size scalars_)
                                  ((chunkId + 1) * getChunkSize cfg None None))
                           (precomputeVertex cfg mesh_ scalars_) t') t)).
    { apply (forRange_keeps P); [|done]. intros c s _ Hs.
      apply (forRange_keeps P); [|done]. intros v s' _. apply Hv. }
    destruct (debugLevel_ cfg >=? 3); exact HL.
  - destruct (debugLevel_ cfg >=? 3); done.
Qed.

(** [precompute] on a tree without node. *)
Lemma precompute_fresh t :
  0 <= scalars_size scalars_ ->
  0 < getChunkSize cfg None None ->
  scalars_size scalars_ <= getChunkCount cfg None None * getChunkSize cfg None None ->
  Vec.size (valences t) = scalars_size scalars_ ->
  Vec.size (vert2tree t) = scalars_size scalars_ ->
  nodes t = [] ->
  (forall v, 0 <= v < scalars_size scalars_ -> corresp t v = CNull) ->
  let t' := fst (precompute cfg mesh_ scalars_ t) in
  precomputedUpTo cfg mesh_ t (scalars_size scalars_) t'
  /\ leaves t' = seqZ 0 (Vec.size (nodes t')).
Proof.
  intros Hn Hcs Hcover Hsv Hs2 Hnodes Hnull. cbv zeta.
  unfold precompute, getNumberOfNodes. rewrite Hnodes, size_nil.
  change (0 =? 0) with true. cbv iota.
  rewrite chunks_cover by done.
  pose proof (precompute_loop cfg mesh_ scalars_ t (Z.to_nat (scalars_size scalars_))) as Hloop.
  rewrite Z2Nat.id in Hloop by done.
  specialize (Hloop ltac:(lia) Hsv Hs2 Hnodes Hnull).
  set (t1 := forRange _ _ _ _) in *.
  destruct (debugLevel_ cfg >=? 3); cbn [fst]; (split; [exact Hloop|done]).
Qed.

(** The up arcs of the nodes through [closeOnBackBone]. *)
Lemma closeSuperArc_ups t a n :
  map vect_upSuperArcList_ (nodes (closeSuperArc cfg t a n))
  = map vect_upSuperArcList_ (nodes t).
Proof.
  unfold closeSuperArc.
  destruct (negb (withKamikaze cfg) && _); [done|].
  destruct (negb (withKamikaze cfg) && _); [done|].
  cbn. by rewrite map_upd_keeps.
Qed.

Lemma unionNeighbor_nodes b v n t : nodes (unionNeighbor mesh_ b v n t) = nodes t.
Proof.
  unfold unionNeighbor.
  destruct (vertLower (comp_ t) (getVertexNeighbor mesh_ v n) v); [|done].
  assert (Hgo : forall u,
    nodes
      (let '(t1, rn) := ufFind t (deref u) in
       let '(t2, rs) := ufFind t1 (deref (Vec.get None (ufs t1) v)) in
       if negb (rn =? rs)
       then let '(h, r) := UFOps.makeUnion (vertLower (comp_ t2)) (ufHeap t2)
                             (deref (Vec.get None (ufs t2) v))
                             (deref (Vec.get None (ufs t2) (getVertexNeighbor mesh_ v n))) in
            set_ufs (Vec.set v (Some r)) (set_ufHeap (fun _ => h) t2)
       else t2) = nodes t).
  { intros u. destruct (ufFind_tree t (deref u)) as [_ H1].
    destruct (ufFind t (deref u)) as [t1 rn]. cbn [fst] in H1.
    destruct (ufFind_tree t1 (deref (Vec.get None (ufs t1) v))) as [_ H2].
    destruct (ufFind t1 (deref (Vec.get None (ufs t1) v))) as [t2 rs]. cbn [fst] in H2.
    destruct (negb (rn =? rs)); [|congruence].
    destruct (UFOps.makeUnion _ _ _ _) as [h r]. cbn. congruence. }
  destruct b; [|apply Hgo].
  destruct (Vec.get None (ufs t) (getVertexNeighbor mesh_ v n)) as [u|] eqn:E.
  - apply (Hgo (Some u)).
  - done.
Qed.

Lemma closeArcsUF_ups t n uf :
  map vect_upSuperArcList_ (nodes (closeArcsUF cfg t n uf))
  = map vect_upSuperArcList_ (nodes t).
Proof.
  unfold closeArcsUF.
  destruct (ufFind_tree t (deref uf)) as [_ H1].
  destruct (ufFind t (deref uf)) as [t1 r]. cbn [fst] in H1.
  assert (H2 : map vect_upSuperArcList_
                 (nodes (fold_left (fun t' sa => closeSuperArc cfg t' sa n)
                                   (openedArcs_ (ufCell t1 r)) t1))
               = map vect_upSuperArcList_ (nodes t1)).
  { apply (fold_left_keeps (fun s => map vect_upSuperArcList_ (nodes s)
                                     = map vect_upSuperArcList_ (nodes t1))); [|done].
    intros sa s _ Hs. by rewrite closeSuperArc_ups. }
  set (t2 := fold_left _ _ t1) in *.
  destruct (ufFind_tree t2 (deref uf)) as [_ H3].
  destruct (ufFind t2 (deref uf)) as [t3 r']. cbn [fst] in H3.
  cbn [nodes set_ufHeap]. by rewrite H3, H2, H1.
Qed.

Lemma closeOnBackBone_ups t v :
  0 <= v < scalars_size scalars_ ->
  isCorrespondingNode t v = true ->
  map vect_upSuperArcList_ (nodes (closeOnBackBone cfg mesh_ scalars_ t v))
  = map vect_upSuperArcList_ (nodes t).
Proof.
  intros Hv Hn. unfold closeOnBackBone. rewrite makeNode_existing by done.
  rewrite closeArcsUF_ups. f_equal.
  apply (forRange_keeps (fun s => nodes s = nodes t)); [|done].
  intros i s _ Hs. by rewrite unionNeighbor_nodes.
Qed.

(** The backbone of a tree with one leaf and no arc: [trunk] closes nothing
    on the leaf and makes the arc from its node to a new node, on the last
    sorted vertex. *)
Lemma trunkBackBone_single t v0 :
  let n := scalars_size scalars_ in
  let vmax := Vec.get 0 (sortedVertices scalars_) (n - 1) in
  treeType t = Join -> 0 <= v0 < n -> 0 <= vmax < n -> vmax <> v0 ->
  nodeVerts t = [v0] ->
  map vect_upSuperArcList_ (nodes t) = [[]] ->
  superArcs t = [] ->
  Vec.size (vert2tree t) = n ->
  corresp t v0 = CNode 0 ->
  (forall w, w <> v0 -> corresp t w = CNull) ->
  pendingVertsOf scalars_ t = [v0] ->
  exists t7,
    trunkBackBone cfg mesh_ scalars_ t = (t7, Some [v0])
    /\ treeType t7 = Join
    /\ nodeVerts t7 = [v0; vmax]
    /\ vect_upSuperArcList_ (getNode cfg t7 0) = [0]
    /\ superArcs t7
       = [ArcOps.setLastVisited vmax
            (ArcOps.setUpNodeId 1 (ArcOps.setDownNodeId 0 (defaultSuperArc cfg)))]
    /\ Vec.size (vert2tree t7) = n
    /\ corresp t7 v0 = CNode 0 /\ corresp t7 vmax = CNode 1
    /\ (forall w, w <> v0 -> w <> vmax -> corresp t7 w = CNull)
    /\ roots t7 = roots t.
Proof.
  intros n vmax Hty Hv0 Hvmax Hneq Hnv Hups Harcs Hsz C0 Cn Hpv.
  assert (Hnode : isCorrespondingNode t v0 = true).
  { unfold isCorrespondingNode. by rewrite C0. }
  unfold trunkBackBone. rewrite Hpv. cbn [fold_left].
  change (Vec.size [v0]) with 1. rewrite forRange_empty by lia.
  change (1 =? 0) with false. cbv iota.
  change (Vec.get 0 [v0] (1 - 1)) with v0.
  pose proof (closeOnBackBone_skeleton cfg mesh_ scalars_ t v0) as Hsk.
  rewrite makeNode_existing in Hsk by done. cbn [fst] in Hsk.
  pose proof (closeOnBackBone_ups t v0 Hv0 Hnode) as Hups3.
  pose proof (lists_closeOnBackBone cfg mesh_ scalars_ t v0) as Hl.
  set (t3 := closeOnBackBone cfg mesh_ scalars_ t v0) in *.
  destruct Hsk as (S1 & S2 & S3 & S4 & S5).
  assert (R3 : roots t3 = roots t).
  { unfold sweepLists in Hl. congruence. }
  assert (A3 : superArcs t3 = []).
  { apply size_zero_nil. by rewrite S3, Harcs. }
  assert (N3 : exists x, nodes t3 = [x] /\ vertexId_ x = v0 /\ vect_upSuperArcList_ x = []).
  { rewrite Hups in Hups3. rewrite Hnv in S2. unfold nodeVerts in S2.
    destruct (nodes t3) as [|x [|y l]]; [done| |done].
    exists x. cbn in S2, Hups3. split; [done|]. split; congruence. }
  destruct N3 as (x & N3 & X1 & X2).
  assert (G3 : getCorrespondingNodeId t3 v0 = 0).
  { unfold getCorrespondingNodeId, corresp. rewrite S1. fold (corresp t v0). by rewrite C0. }
  rewrite G3.
  unfold openSuperArc. unfold getNumberOfNodes at 1. rewrite N3.
  rewrite guard_in_range by (unfold Vec.size; cbn; lia).
  unfold Vec.getNext. rewrite A3. cbv beta iota zeta.
  change (Vec.size (@nil SuperArc)) with 0.
  set (t4 := set_nodes (Vec.upd 0 (NodeOps.addUpSuperArcId 0)) _).
  assert (N4 : nodes t4 = [NodeOps.addUpSuperArcId 0 x]).
  { unfold t4. cbn [nodes set_nodes set_superArcs]. by rewrite N3. }
  assert (A4 : superArcs t4 = [ArcOps.setDownNodeId 0 (defaultSuperArc cfg)]).
  { unfold t4. by cbn [superArcs set_nodes set_superArcs]. }
  assert (V4 : vert2tree t4 = vert2tree t) by (by rewrite <- S1).
  assert (J4 : isJT t4 = true).
  { unfold isJT. change (treeType t4) with (treeType t3). by rewrite S5, Hty. }
  rewrite J4. fold n. fold vmax.
  rewrite makeNode_fresh; [|done|].
  2: { unfold isCorrespondingNode, corresp. rewrite V4. fold (corresp t vmax).
       by rewrite Cn. }
  assert (NN4 : getNumberOfNodes t4 = 1) by (unfold getNumberOfNodes; by rewrite N4).
  rewrite NN4.
  set (t5 := updateCorrespondingNode vmax 1 _).
  assert (N5 : nodes t5 = [NodeOps.addUpSuperArcId 0 x;
                           NodeOps.setTerminaison (defaultTerm cfg)
                             (NodeOps.setVertexId vmax (defaultNode cfg))]).
  { unfold t5. cbn [nodes set_nodes updateCorrespondingNode set_vert2tree]. by rewrite N4. }
  assert (A5 : superArcs t5 = [ArcOps.setDownNodeId 0 (defaultSuperArc cfg)]) by exact A4.
  rewrite closeSuperArc_valid.
  2: { unfold getNumberOfSuperArcs. rewrite A5. unfold Vec.size. cbn. lia. }
  2: { unfold getNumberOfNodes. rewrite N5. unfold Vec.size. cbn. lia. }
  set (t6 := set_nodes (Vec.upd 1 (NodeOps.addDownSuperArcId 0)) _).
  assert (N6 : nodes t6 = [NodeOps.addUpSuperArcId 0 x;
                           NodeOps.addDownSuperArcId 0
                             (NodeOps.setTerminaison (defaultTerm cfg)
                                (NodeOps.setVertexId vmax (defaultNode cfg)))]).
  { unfold t6. cbn [nodes set_nodes set_superArcs]. by rewrite N5. }
  assert (A6 : superArcs t6
               = [ArcOps.setUpNodeId 1 (ArcOps.setDownNodeId 0 (defaultSuperArc cfg))]).
  { unfold t6. cbn [superArcs set_nodes set_superArcs]. by rewrite A5. }
  assert (V6 : vert2tree t6 = Vec.set vmax (CNode 1) (vert2tree t)).
  { unfold t6, t5. cbn [vert2tree set_nodes set_superArcs updateCorrespondingNode
                         set_vert2tree]. by rewrite V4. }
  assert (G6 : vertexId_ (getNode cfg t6 1) = vmax).
  { unfold getNode. by rewrite N6. }
  rewrite G6. timings.
  eexists. split; [reflexivity|]. unlog.
  split. { change (treeType t3 = Join). by rewrite S5. }
  split. { unfold nodeVerts. cbn [nodes set_superArcs]. rewrite N6. cbn. by rewrite X1. }
  split.
  { unfold getNode. cbn [nodes set_superArcs]. rewrite N6.
    change (vect_upSuperArcList_ x ++ [0] = [0]). by rewrite X2. }
  split. { cbn [superArcs set_superArcs]. by rewrite A6. }
  unfold corresp. cbn [vert2tree set_superArcs]. rewrite V6.
  split. { by rewrite size_set. }
  split. { rewrite get_set_ne by done. exact C0. }
  split. { apply get_set_eq. lia. }
  split. { intros w Hw1 Hw2. rewrite get_set_ne by done. by apply Cn. }
  exact R3.
Qed.

(** The assignment of the trunk above a backbone of one node [v0], the
    first sorted vertex, with one arc, that leaves it: every nil vertex
    goes on that arc and is counted there. *)
Lemma trunkSegmentation_single t v0 arc :
  let n := scalars_size scalars_ in
  let vmax := Vec.get 0 (sortedVertices scalars_) (n - 1) in
  treeType t = Join -> 0 <= v0 < n -> 0 <= vmax < n -> vmax <> v0 ->
  vect_upSuperArcList_ (getNode cfg t 0) = [0] ->
  superArcs t = [arc] ->
  Vec.size (vert2tree t) = n ->
  corresp t v0 = CNode 0 -> corresp t vmax = CNode 1 ->
  (forall w, w <> v0 -> w <> vmax -> corresp t w = CNull) ->
  0 < getChunkSize cfg (Some n) (Some 40) ->
  n <= getChunkCount cfg (Some n) (Some 40) * getChunkSize cfg (Some n) (Some 40) ->
  (forall i, 0 <= i < n -> 0 <= Vec.get 0 (sortedVertices scalars_) i < n) ->
  (forall w, 0 <= w < n -> exists i, 0 <= i < n /\ Vec.get 0 (sortedVertices scalars_) i = w) ->
  Vec.get 0 (mirrorVertices scalars_) v0 = 0 ->
  let t' := fst (trunkSegmentation cfg scalars_ t [v0]) in
  nodes t' = nodes t /\ roots t' = roots t
  /\ superArcs t' = [ArcOps.atomicIncVisited (n - 2) arc]
  /\ corresp t' v0 = CNode 0 /\ corresp t' vmax = CNode 1
  /\ (forall w, 0 <= w < n -> w <> v0 -> w <> vmax -> corresp t' w = CArc 0).
Proof.
  intros n vmax Hty Hv0 Hvmax Hneq Hup Harcs Hsz C0 C1 Cn Hcs Hcov Hsorted Hsurj Hmir t'.
  destruct (trunkSegmentation_onBackbone cfg scalars_ t [v0]) as [Hao Hob].
  fold t' in Hao, Hob.
  assert (J : isJT t = true) by (unfold isJT; by rewrite Hty).
  set (cs := getChunkSize cfg (Some n) (Some 40)) in *.
  set (cn := getChunkCount cfg (Some n) (Some 40)) in *.
  assert (EL : exists items,
            t' = log items
                   (forRange 0 cn (fun c tc =>
                      flushChunk cfg [v0]
                        (forRange (0 + c * cs) (Z.min n (0 + (c + 1) * cs))
                                  (assignChunkTrunk cfg scalars_ [v0]) (tc, 0, 0))) t)).
  { unfold t'. rewrite trunkSegmentation_loops. timings. eexists.
    unfold trunkChunks, getBoundsFromVerts. rewrite J.
    change (Vec.get 0 [v0] 0) with v0. rewrite Hmir. cbv beta iota zeta. fold n.
    replace (Z.abs (n - 0)) with n by lia. done. }
  destruct EL as [items EL].
  assert (Hcnt : counted cfg t t').
  { rewrite EL. unlog. apply (forRange_keeps (counted cfg t)); [|apply counted_refl].
    intros c tc Hc Htc. apply chunkInv_flush.
    apply (forRange_keeps (chunkInv cfg t [v0])); [|by apply chunkInv_start].
    intros v st Hv Hst. apply chunkInv_step; [|done].
    rewrite Hsz. apply Hsorted. nia. }
  assert (Hcover : forall i, 0 <= i < n ->
            isCorrespondingNull t' (Vec.get 0 (sortedVertices scalars_) i) = false).
  { intros i Hi. rewrite EL. unlog.
    set (c := i / cs).
    assert (Hc : c * cs <= i < (c + 1) * cs).
    { pose proof (Z.mul_div_le i cs Hcs).
      pose proof (Z.mul_succ_div_gt i cs Hcs). subst c. lia. }
    assert (Hc0 : 0 <= c) by (subst c; apply Z.div_pos; lia).
    assert (Hcn : c < cn) by nia.
    unfold forRange at 1.
    apply (fold_left_reaches
             (fun tc => isCorrespondingNull tc (Vec.get 0 (sortedVertices scalars_) i) = false)
             (assignedOnly t)) with (x := c).
    + apply elem_of_seqZ. lia.
    + intros y tc Htc. by apply (chunk_keeps cfg scalars_ t [v0] 0 _ tc).
    + intros tc Htc. apply (chunk_assigns cfg scalars_ t); [|apply elem_of_seqZ; lia|done].
      rewrite Hsz. by apply Hsorted.
    + intros y tc Htc. by apply (chunk_keeps cfg scalars_ t [v0]).
    + apply assignedOnly_refl. }
  assert (B0 : backboneArc cfg t [v0] 0 = 0).
  { unfold backboneArc, upArcFromVert. change (Vec.get 0 [v0] 0) with v0.
    unfold getCorrespondingNodeId. rewrite C0. unfold getUpSuperArcId. by rewrite Hup. }
  destruct Hcnt as [_ Hcnt].
  destruct Hao as (H1 & H2 & H3 & H4 & H5 & H6 & H7 & H9 & H10 & H11).
  assert (C0' : corresp t' v0 = CNode 0).
  { destruct (H11 v0) as [E|[E _]]; congruence. }
  assert (C1' : corresp t' vmax = CNode 1).
  { destruct (H11 vmax) as [E|[E _]]; congruence. }
  assert (Ca : forall w, 0 <= w < n -> w <> v0 -> w <> vmax -> corresp t' w = CArc 0).
  { intros w Hw Hw0 Hw1. destruct (Hsurj w Hw) as (i & Hi & Ei).
    specialize (Hcover i Hi). rewrite Ei in Hcover.
    destruct (Hob w) as [E|(k & K1 & K2 & E)].
    - rewrite Cn in E by done. unfold isCorrespondingNull in Hcover. by rewrite E in Hcover.
    - assert (k = 0) by (unfold Vec.size in K2; cbn in K2; lia). subst k.
      by rewrite B0 in E. }
  split; [done|]. split; [done|]. split; [|done].
  assert (Hnew : Vec.size (newlyAssigned t t' 0) = n - 2).
  { unfold newlyAssigned. rewrite Hsz.
    assert (Hgen : forall m : nat, Z.of_nat m = n ->
              Vec.size (List.filter (assignedTo t t' 0) (seqZ 0 (Z.of_nat m)))
              = Z.of_nat m - 2).
    { intros m Hm. apply count_but_two with (a := v0) (b := vmax); [lia|lia|done|].
      intros w Hw. unfold assignedTo, isCorrespondingNull.
      destruct (Z.eqb_spec w v0) as [->|Hw0]; [by rewrite C0|].
      destruct (Z.eqb_spec w vmax) as [->|Hw1]; [by rewrite C1|].
      rewrite Cn by done. rewrite Ca by (done || lia). done. }
    specialize (Hgen (Z.to_nat n)). rewrite Z2Nat.id in Hgen by lia. by apply Hgen. }
  specialize (Hcnt 0). rewrite Hnew in Hcnt.
  unfold visitCount, getSuperArc in Hcnt. rewrite Harcs in Hcnt, H9.
  destruct (superArcs t') as [|a' [|a'' l]]; [done| |done].
  specialize (Hcnt ltac:(unfold Vec.size; cbn; lia)).
  change (verticesSeen_ a' = verticesSeen_ arc + (n - 2)) in Hcnt.
  cbn in H9. injection H9 as E1 E2 E3 E4 E5.
  f_equal. destruct a', arc. cbn in *. unfold ArcOps.atomicIncVisited. cbn. congruence.
Qed.

(** The build of a field with one minimum, step by step. *)
Lemma build_single fuel t v0 :
  let n := scalars_size scalars_ in
  let vmax := Vec.get 0 (sortedVertices scalars_) (n - 1) in
  treeType t = Join -> nodes t = [] -> superArcs t = [] ->
  Vec.size (vert2tree t) = n -> (forall v, corresp t v = CNull) ->
  Vec.size (valences t) = n ->
  Vec.size (openedNodes t) = n -> (forall v, Vec.get false (openedNodes t) v = false) ->
  vect_upSuperArcList_ (defaultNode cfg) = [] ->
  0 < getChunkSize cfg None None ->
  n <= getChunkCount cfg None None * getChunkSize cfg None None ->
  0 < getChunkSize cfg (Some n) (Some 40) ->
  n <= getChunkCount cfg (Some n) (Some 40) * getChunkSize cfg (Some n) (Some 40) ->
  (forall i, 0 <= i < n -> 0 <= Vec.get 0 (sortedVertices scalars_) i < n) ->
  (forall w, 0 <= w < n -> exists i, 0 <= i < n /\ Vec.get 0 (sortedVertices scalars_) i = w) ->
  localMinima mesh_ (initComp scalars_ t) n = [v0] ->
  Vec.get 0 (mirrorVertices scalars_) v0 = 0 ->
  vmax <> v0 ->
  exists t',
    build cfg mesh_ scalars_ fuel t false = Some t'
    /\ nodeVerts t' = [v0; vmax]
    /\ superArcs t'
       = [ArcOps.atomicIncVisited (n - 2)
            (ArcOps.setLastVisited vmax
               (ArcOps.setUpNodeId 1 (ArcOps.setDownNodeId 0 (defaultSuperArc cfg))))]
    /\ corresp t' v0 = CNode 0 /\ corresp t' vmax = CNode 1
    /\ (forall w, 0 <= w < n -> w <> v0 -> w <> vmax -> corresp t' w = CArc 0)
    /\ roots t' = roots t.
Proof.
  intros n vmax Hty Hnodes Harcs Hv2t Hnull Hval Hopsz Hop Hup Hcs0 Hcov0 Hcs Hcov
         Hsorted Hsurj Hmin Hmir Hneq.
  set (t0 := initComp scalars_ t) in *.
  assert (E0 : t0 = set_comp_ (fun _ => mkComp (isLower scalars_) (isHigher scalars_)) t).
  { unfold t0, initComp. by rewrite Hty. }
  assert (Hv0 : 0 <= v0 < n /\ lowerCount mesh_ t0 v0 = 0).
  { assert (Hin : In v0 (localMinima mesh_ t0 n)) by (rewrite Hmin; by left).
    unfold localMinima in Hin. apply filter_In in Hin as [Hin Hz].
    apply list_elem_of_In, elem_of_seqZ in Hin. split; lia. }
  destruct Hv0 as [Hv0 Hlow0].
  assert (Hothers : forall v, 0 <= v < n -> v <> v0 -> lowerCount mesh_ t0 v <> 0).
  { intros v Hv Hne Hz. apply Hne.
    assert (Hin : In v (localMinima mesh_ t0 n)).
    { unfold localMinima. apply filter_In.
      split; [apply list_elem_of_In, elem_of_seqZ; lia|lia]. }
    rewrite Hmin in Hin. by destruct Hin as [->|[]]. }
  assert (Hvmax : 0 <= vmax < n) by (apply Hsorted; lia).
  (* precompute *)
  destruct (precompute_fresh t0) as [(P1 & P2 & P3 & P4 & P5 & P6 & P7) PL];
    [lia|done|done|rewrite E0; exact Hval|rewrite E0; exact Hv2t|rewrite E0; exact Hnodes
    |intros v _; rewrite E0; apply Hnull|].
  destruct (precompute_frame t0) as (F1 & F2 & F3 & F4).
  unfold build. fold t0.
  destruct (precompute cfg mesh_ scalars_ t0) as [p ad]. cbn [fst] in *.
  absorb p.
  fold n in P5. rewrite Hmin in P5. cbn [map] in P5.
  assert (C0 : corresp p v0 = CNode 0).
  { specialize (P6 v0 Hv0). destruct (corresp p v0) as [|id|a]; [done| |done].
    destruct P6 as [_ Hat]. apply at_Some in Hat. rewrite P5 in Hat.
    f_equal. unfold Vec.size in Hat. cbn in Hat. lia. }
  assert (Cn : forall w, w <> v0 -> corresp p w = CNull).
  { intros w Hw. destruct (decide (0 <= w < n)) as [Hin|Hout].
    - specialize (P6 w Hin). pose proof (Hothers w Hin Hw).
      destruct (corresp p w); [done|by destruct P6|done].
    - destruct (decide (n <= w)) as [Hge|Hlt].
      + rewrite P7 by done. rewrite E0. apply Hnull.
      + unfold corresp, Vec.get, Vec.at_. by replace (w <? 0) with true by lia. }
  (* leaves: one leaf, no task *)
  unfold leaves_. rewrite PL, P5.
  change (Vec.size (seqZ 0 (Vec.size [leafNodeOf cfg v0])) =? 1) with true. cbv iota.
  assert (G0 : getNode cfg p 0 = leafNodeOf cfg v0) by (unfold getNode; by rewrite P5).
  rewrite G0. change (vertexId_ (leafNodeOf cfg v0)) with v0.
  unfold UFOps.alloc. cbv beta iota zeta. timings.
  set (t2 := log _ (set_ufs _ _)).
  (* trunk *)
  destruct (trunkBackBone_single t2 v0) as (t7 & Etb & T1 & T2 & T3 & T4 & T5 & T6 & T7 & T8 & T9);
    try done.
  - change (treeType p = Join). rewrite F4, E0. exact Hty.
  - unfold nodeVerts. change (nodes t2) with (nodes p). by rewrite P5.
  - change (nodes t2) with (nodes p). rewrite P5. cbn. by rewrite Hup.
  - change (superArcs p = []). rewrite F1, E0. exact Harcs.
  - change (Vec.size (vert2tree p) = n). rewrite P3, E0. exact Hv2t.
  - unfold pendingVertsOf.
    change (openedNodes t2) with (Vec.set v0 true (openedNodes p)).
    rewrite F2, E0. change (openedNodes (set_comp_ _ t)) with (openedNodes t).
    fold n. rewrite (filter_only _ n v0); [done|done| |].
    + apply get_set_eq. lia.
    + intros w Hw. rewrite get_set_ne by done. apply Hop.
  - unfold trunk. rewrite Etb.
    destruct (trunkSegmentation_single t7 v0 _ T1 Hv0 Hvmax Hneq T3 T4 T5 T6 T7 T8
                Hcs Hcov Hsorted Hsurj Hmir) as (S1 & S2 & S3 & S4 & S5 & S6).
    destruct (trunkSegmentation cfg scalars_ t7 [v0]) as [t3 bb]. cbn [fst] in *.
    timings. eexists. split; [reflexivity|]. unlog.
    split. { unfold nodeVerts. rewrite S1. exact T2. }
    split; [done|]. split; [done|]. split; [done|]. split; [done|].
    rewrite S2, T9. change (roots p = roots t). rewrite F3, E0. done.
Qed.

(** X25.  The join tree of a field with one minimum.  Let the tree be new
    (no node, no arc, every vertex nil, no opened-nodes bit set) and of
    type join, the scalars have [n] vertices whose sorted order holds
    every vertex and starts with [v0], [v0] be the only vertex without a
    lower neighbour, and the last sorted vertex be another one; let the
    chunks cover their ranges and a default node have no up arc.  Then
    [build] without segmentation returns, whatever the fuel (no task is
    launched), the tree with the two nodes [v0] and the last sorted vertex,
    in this order, and the one arc from the first to the second, whose
    last visited vertex is the second; every other vertex is on that arc,
    which has counted each of them once; the roots are as they were. *)
Theorem build_single_minimum fuel t v0 :
  let n := scalars_size scalars_ in
  let vmax := Vec.get 0 (sortedVertices scalars_) (n - 1) in
  treeType t = Join -> nodes t = [] -> superArcs t = [] ->
  Vec.size (vert2tree t) = n -> (forall v, corresp t v = CNull) ->
  Vec.size (valences t) = n ->
  Vec.size (openedNodes t) = n -> (forall v, Vec.get false (openedNodes t) v = false) ->
  vect_upSuperArcList_ (defaultNode cfg) = [] ->
  0 < getChunkSize cfg None None ->
  n <= getChunkCount cfg None None * getChunkSize cfg None None ->
  0 < getChunkSize cfg (Some n) (Some 40) ->
  n <= getChunkCount cfg (Some n) (Some 40) * getChunkSize cfg (Some n) (Some 40) ->
  (forall i, 0 <= i < n -> 0 <= Vec.get 0 (sortedVertices scalars_) i < n) ->
  (forall w, 0 <= w < n -> exists i, 0 <= i < n /\ Vec.get 0 (sortedVertices scalars_) i = w) ->
  localMinima mesh_ (initComp scalars_ t) n = [v0] ->
  Vec.get 0 (mirrorVertices scalars_) v0 = 0 ->
  vmax <> v0 ->
  exists t',
    build cfg mesh_ scalars_ fuel t false = Some t'
    /\ nodeVerts t' = [v0; vmax]
    /\ superArcs t'
       = [ArcOps.atomicIncVisited (n - 2)
            (ArcOps.setLastVisited vmax
               (ArcOps.setUpNodeId 1 (ArcOps.setDownNodeId 0 (defaultSuperArc cfg))))]
    /\ corresp t' v0 = CNode 0 /\ corresp t' vmax = CNode 1
    /\ (forall w, 0 <= w < n -> w <> v0 -> w <> vmax -> corresp t' w = CArc 0)
    /\ roots t' = roots t.
Proof. exact (build_single fuel t v0). Qed.

Lemma filter_Permutation (p : Z -> bool) (l l' : list Z) :
  l ≡ₚ l' -> List.filter p l ≡ₚ List.filter p l'.
Proof.
  induction 1 as [|x l l' _ IH|x y l|l l' l'' _ IH1 _ IH2]; cbn.
  - done.
  - destruct (p x); [by constructor|done].
  - destruct (p x), (p y); try done. apply Permutation_swap.
  - by rewrite IH1.
Qed.

(** The sorted vertices, when they are vertices and every vertex is among
    them, are the vertices in another order. *)
Lemma sorted_Permutation :
  0 <= scalars_size scalars_ ->
  (forall i, 0 <= i < scalars_size scalars_ ->
     0 <= Vec.get 0 (sortedVertices scalars_) i < scalars_size scalars_) ->
  (forall w, 0 <= w < scalars_size scalars_ ->
     exists i, 0 <= i < scalars_size scalars_ /\ Vec.get 0 (sortedVertices scalars_) i = w) ->
  map (Vec.get 0 (sortedVertices scalars_)) (seqZ 0 (scalars_size scalars_))
  ≡ₚ seqZ 0 (scalars_size scalars_).
Proof.
  intros Hn Hin Hsurj. symmetry. apply submseteq_length_Permutation.
  - apply NoDup_submseteq; [apply NoDup_seqZ|].
    intros w Hw%elem_of_seqZ. destruct (Hsurj w) as (i & Hi & <-); [lia|].
    apply list_elem_of_fmap. exists i. split; [done|]. apply elem_of_seqZ. lia.
  - by rewrite length_map.
Qed.

(** X27.  The segments of a field with one minimum have room.  Under the
    hypotheses of the build of such a field, and when a default-constructed
    super-arc has seen no vertex: the tree that [build] returns before its
    segmentation has one arc, the vertices that [buildSegmentation] scans
    for it are the vertices other than the minimum and the last sorted
    vertex, each once, and the size that [buildSegmentation] allocates for
    its segment is their number. *)
Theorem build_single_minimum_room fuel t v0 :
  let n := scalars_size scalars_ in
  let vmax := Vec.get 0 (sortedVertices scalars_) (n - 1) in
  treeType t = Join -> nodes t = [] -> superArcs t = [] ->
  Vec.size (vert2tree t) = n -> (forall v, corresp t v = CNull) ->
  Vec.size (valences t) = n ->
  Vec.size (openedNodes t) = n -> (forall v, Vec.get false (openedNodes t) v = false) ->
  vect_upSuperArcList_ (defaultNode cfg) = [] ->
  0 < getChunkSize cfg None None ->
  n <= getChunkCount cfg None None * getChunkSize cfg None None ->
  0 < getChunkSize cfg (Some n) (Some 40) ->
  n <= getChunkCount cfg (Some n) (Some 40) * getChunkSize cfg (Some n) (Some 40) ->
  (forall i, 0 <= i < n -> 0 <= Vec.get 0 (sortedVertices scalars_) i < n) ->
  (forall w, 0 <= w < n -> exists i, 0 <= i < n /\ Vec.get 0 (sortedVertices scalars_) i = w) ->
  localMinima mesh_ (initComp scalars_ t) n = [v0] ->
  Vec.get 0 (mirrorVertices scalars_) v0 = 0 ->
  vmax <> v0 ->
  verticesSeen_ (defaultSuperArc cfg) = 0 ->
  exists t',
    build cfg mesh_ scalars_ fuel t false = Some t'
    /\ getNumberOfSuperArcs t' = 1
    /\ arcVertices scalars_ t' 0 n
       ≡ₚ List.filter (fun w => negb (w =? v0) && negb (w =? vmax)) (seqZ 0 n)
    /\ Vec.size (arcVertices scalars_ t' 0 n) = n - 2
    /\ segmentSizeOf cfg t' 0 = n - 2.
Proof.
  intros n vmax Hty Hnodes Harcs Hv2t Hnull Hval Hopsz Hop Hup Hcs0 Hcov0 Hcs Hcov
         Hsorted Hsurj Hmin Hmir Hneq Hseen.
  destruct (build_single fuel t v0 Hty Hnodes Harcs Hv2t Hnull Hval Hopsz Hop Hup
              Hcs0 Hcov0 Hcs Hcov Hsorted Hsurj Hmin Hmir Hneq)
    as (t' & Hb & _ & Ha & C0 & C1 & Ca & _).
  fold n vmax in Ha, C1, Ca.
  assert (Hv0 : 0 <= v0 < n).
  { assert (Hin : In v0 (localMinima mesh_ (initComp scalars_ t) n)) by (rewrite Hmin; by left).
    unfold localMinima in Hin. apply filter_In in Hin as [Hin _].
    apply list_elem_of_In, elem_of_seqZ in Hin. lia. }
  assert (Hvmax : 0 <= vmax < n) by (apply Hsorted; lia).
  assert (Hperm : arcVertices scalars_ t' 0 n
                  ≡ₚ List.filter (fun w => negb (w =? v0) && negb (w =? vmax)) (seqZ 0 n)).
  { unfold arcVertices. etransitivity.
    - apply filter_Permutation, sorted_Permutation; [fold n; lia|done|done].
    - fold n.
      rewrite (List.filter_ext_in _ (fun w => negb (w =? v0) && negb (w =? vmax)));
        [done|].
      intros w Hw. apply list_elem_of_In, elem_of_seqZ in Hw.
      destruct (Z.eqb_spec w v0) as [->|H0]; [by rewrite C0|].
      destruct (Z.eqb_spec w vmax) as [->|H1]; [by rewrite C1|].
      rewrite Ca by lia. done. }
  exists t'. split; [done|]. split.
  { unfold getNumberOfSuperArcs. by rewrite Ha. }
  split; [done|]. split.
  { unfold Vec.size. rewrite (Permutation_length Hperm).
    pose proof (count_but_two (fun w => negb (w =? v0) && negb (w =? vmax)) (Z.to_nat n)
                  v0 vmax) as Hc.
    rewrite Z2Nat.id in Hc by lia. unfold Vec.size in Hc. by apply Hc. }
  unfold segmentSizeOf, getSuperArc. rewrite Ha.
  change (ArcOps.getNbVertSeen (Vec.get (defaultSuperArc cfg) [?a] 0))
    with (verticesSeen_ (defaultSuperArc cfg) + 1 + (n - 2)).
  rewrite Hseen. lia.
Qed.

End SingleMinimum.

Lemma fresh_null ty v : corresp (Ex.fresh ty 5) v = CNull.
Proof.
  unfold corresp, Vec.get, Vec.at_. destruct (v <? 0); [done|].
  cbn [vert2tree Ex.fresh].
  by destruct (Z.to_nat v) as [|[|[|[|[|k]]]]].
Qed.

Lemma fresh_closed ty v : Vec.get false (openedNodes (Ex.fresh ty 5)) v = false.
Proof.
  unfold Vec.get, Vec.at_. destruct (v <? 0); [done|].
  cbn [openedNodes Ex.fresh].
  by destruct (Z.to_nat v) as [|[|[|[|[|k]]]]].
Qed.

(** The increasing chain: the nodes 0 and 4, the three other vertices on
    the arc between them; no fuel is needed. *)
Lemma build_single_minimum_witness :
  exists t',
    build (Ex.cfg false) Ex.chain5 Ex.scMono 0 (Ex.fresh Join 5) false = Some t'
    /\ nodeVerts t' = [0; 4]
    /\ superArcs t' = [mkSuperArc 0 1 4 (1 + 3) [] (-1)]
    /\ corresp t' 0 = CNode 0 /\ corresp t' 4 = CNode 1
    /\ (forall w, 0 <= w < 5 -> w <> 0 -> w <> 4 -> corresp t' w = CArc 0)
    /\ roots t' = [].
Proof.
  apply (build_single_minimum (Ex.cfg false) Ex.chain5 Ex.scMono 0 (Ex.fresh Join 5) 0).
  - reflexivity.
  - reflexivity.
  - reflexivity.
  - reflexivity.
  - apply fresh_null.
  - reflexivity.
  - reflexivity.
  - apply fresh_closed.
  - reflexivity.
  - reflexivity.
  - vm_compute. discriminate.
  - reflexivity.
  - vm_compute. discriminate.
  - intros i _. apply scMono_sorted_in_range.
  - intros w Hw. exists w. split; [exact Hw|]. change (0 <= w < 5) in Hw.
    assert (Hc : w = 0 \/ w = 1 \/ w = 2 \/ w = 3 \/ w = 4) by lia.
    destruct Hc as [-> | [-> | [-> | [-> | ->]]]]; reflexivity.
  - vm_compute. reflexivity.
  - reflexivity.
  - vm_compute. discriminate.
Defined.

(** The increasing chain: the arc has the three vertices 1, 2 and 3, and
    its segment three entries. *)
Lemma build_single_minimum_room_witness :
  exists t',
    build (Ex.cfg false) Ex.chain5 Ex.scMono 0 (Ex.fresh Join 5) false = Some t'
    /\ getNumberOfSuperArcs t' = 1
    /\ Vec.size (arcVertices Ex.scMono t' 0 5) = 3
    /\ segmentSizeOf (Ex.cfg false) t' 0 = 3.
Proof.
  destruct (build_single_minimum_room (Ex.cfg false) Ex.chain5 Ex.scMono 0
              (Ex.fresh Join 5) 0) as (t' & H1 & H2 & _ & H3 & H4).
  - reflexivity.
  - reflexivity.
  - reflexivity.
  - reflexivity.
  - apply fresh_null.
  - reflexivity.
  - reflexivity.
  - apply fresh_closed.
  - reflexivity.
  - reflexivity.
  - vm_compute. discriminate.
  - reflexivity.
  - vm_compute. discriminate.
  - intros i _. apply scMono_sorted_in_range.
  - intros w Hw. exists w. split; [exact Hw|]. change (0 <= w < 5) in Hw.
    assert (Hc : w = 0 \/ w = 1 \/ w = 2 \/ w = 3 \/ w = 4) by lia.
    destruct Hc as [-> | [-> | [-> | [-> | ->]]]]; reflexivity.
  - vm_compute. reflexivity.
  - reflexivity.
  - vm_compute. discriminate.
  - reflexivity.
  - exists t'. split; [exact H1|]. split; [exact H2|]. split; [exact H3|exact H4].
Defined.

(** ** The leaves of the built tree *)

Lemma insertBy_ext (lt lt' : Z -> Z -> bool) x l :
  (forall y, y ∈ l -> lt y x = lt' y x) -> insertBy lt x l = insertBy lt' x l.
Proof.
  induction l as [|y l IH]; intros H; [done|]. cbn.
  rewrite <- (H y) by (by left). destruct (lt y x); [|done].
  f_equal. apply IH. intros z Hz. apply H. by right.
Qed.

(** The sort only looks at the comparator on the elements of the list. *)
Lemma sortBy_ext (lt lt' : Z -> Z -> bool) l :
  (forall a b, a ∈ l -> b ∈ l -> lt a b = lt' a b) -> sortBy lt l = sortBy lt' l.
Proof.
  induction l as [|x l IH]; intros H; [done|].
  change (insertBy lt x (sortBy lt l) = insertBy lt' x (sortBy lt' l)).
  rewrite IH by (intros a b Ha Hb; apply H; by right).
  apply insertBy_ext. intros y Hy. apply H; [right|by left].
  by rewrite (sortBy_perm lt' l) in Hy.
Qed.

Section LeavesKept.

Variable cfg : Build.
Variable mesh_ : Triangulation.
Variable scalars_ : Scalars.

Lemma leaves_ufFind t u : leaves (fst (ufFind t u)) = leaves t.
Proof. unfold ufFind. by destruct (UFOps.find (ufHeap t) u). Qed.

Lemma leaves_makeNode t v term : leaves (fst (makeNode cfg scalars_ t v term)) = leaves t.
Proof.
  unfold makeNode. destruct (negb _ && _); [done|].
  by destruct (isCorrespondingNode t v).
Qed.

Lemma leaves_closeSuperArc t a n : leaves (closeSuperArc cfg t a n) = leaves t.
Proof.
  unfold closeSuperArc. destruct (negb _ && _); [done|]. by destruct (negb _ && _).
Qed.

Lemma leaves_openSuperArc t d : leaves (fst (openSuperArc cfg t d)) = leaves t.
Proof. unfold openSuperArc. by destruct (negb _ && _). Qed.

Lemma leaves_propageNeighbor owner curUFF v n acc :
  leaves (propageNeighbor mesh_ owner curUFF v n acc).1.1 = leaves acc.1.1.
Proof.
  destruct acc as [[t bs] decr]. cbn [fst]. unfold propageNeighbor.
  destruct (vertLower (comp_ t) _ v).
  - destruct (Vec.get None (ufs t) _) as [neighUF|]; [|done].
    pose proof (leaves_ufFind t neighUF) as H.
    destruct (ufFind t neighUF) as [t1 r]. by destruct (negb _).
  - destruct (Vec.get None (propagation t) _) as [p|]; [|done].
    pose proof (leaves_ufFind t p) as H.
    destruct (ufFind t p) as [t1 r]. cbn [fst] in H. by destruct (negb _).
Qed.

Lemma leaves_propage t owner curUF : leaves (propage mesh_ t owner curUF).1.1 = leaves t.
Proof.
  unfold propage. cbv zeta.
  pose proof (leaves_ufFind t curUF) as H.
  destruct (ufFind t curUF) as [t0 curUFF]. cbn [fst] in H.
  assert (L : leaves
                (forRange 0 (getVertexNeighborNumber mesh_ (vertex (getFirstState t owner)))
                   (propageNeighbor mesh_ owner curUFF (vertex (getFirstState t owner)))
                   (t0, false, 0)).1.1 = leaves t).
  { apply (forRange_keeps (fun acc => leaves acc.1.1 = leaves t)); [|done].
    intros n acc _ Hacc. by rewrite leaves_propageNeighbor. }
  destruct (forRange 0 _ _ _) as [[t1 bs] decr]. cbn [fst] in *. done.
Qed.

Lemma leaves_unionNeighbor b v n t : leaves (unionNeighbor mesh_ b v n t) = leaves t.
Proof.
  pose proof (lists_unionNeighbor mesh_ b v n t) as H. unfold sweepLists in H. congruence.
Qed.

Lemma leaves_closeArcsUF t n uf : leaves (closeArcsUF cfg t n uf) = leaves t.
Proof.
  pose proof (lists_closeArcsUF cfg t n uf) as H. unfold sweepLists in H. congruence.
Qed.

Lemma leaves_closeAndMergeOnSaddle t v :
  leaves (closeAndMergeOnSaddle cfg mesh_ scalars_ t v) = leaves t.
Proof.
  unfold closeAndMergeOnSaddle.
  pose proof (leaves_makeNode t v (defaultTerm cfg)) as H1.
  destruct (makeNode cfg scalars_ t v (defaultTerm cfg)) as [t1 closeNode]. cbn [fst] in H1.
  cbv zeta.
  set (t2 := forRange 0 _ (unionNeighbor mesh_ false v) t1).
  assert (H2 : leaves t2 = leaves t1).
  { apply (forRange_keeps (fun s => leaves s = leaves t1)); [|done].
    intros i s _ Hs. by rewrite leaves_unionNeighbor. }
  pose proof (leaves_closeArcsUF t2 closeNode (Vec.get None (ufs t2) v)) as H3.
  set (t3 := closeArcsUF cfg t2 closeNode _) in *.
  pose proof (leaves_ufFind t3 (deref (Vec.get None (ufs t3) v))) as H4.
  destruct (ufFind t3 _) as [t4 r]. cbn [fst] in H4.
  set (t5 := set_ufHeap (Vec.upd r UFOps.mergeStates) t4).
  pose proof (leaves_ufFind t5 (deref (Vec.get None (ufs t5) v))) as H6.
  destruct (ufFind t5 _) as [t6 r']. cbn [fst] in H6.
  change (leaves t6 = leaves t). rewrite H6. change (leaves t4 = leaves t). congruence.
Qed.

Lemma leaves_openTask t v : leaves (openTask cfg t v).1.1 = leaves t.
Proof.
  unfold openTask.
  pose proof (leaves_ufFind t (deref (Vec.get None (ufs t) v))) as H1.
  destruct (ufFind t _) as [t1 startUF]. cbn [fst] in H1. cbv zeta.
  set (t2 := if negb _ then t1 else _).
  assert (H2 : leaves t2 = leaves t1). { unfold t2. by destruct (negb _). }
  set (t3 := updFirstState startUF _ t2).
  pose proof (leaves_openSuperArc t3 (getCorrespondingNodeId t3 v)) as H4.
  destruct (openSuperArc cfg t3 _) as [t4 currentArc]. cbn [fst] in *.
  change (leaves t4 = leaves t). rewrite H4. change (leaves t2 = leaves t). congruence.
Qed.

Lemma leaves_saddleCase t cur d orig isLast :
  leaves (ctlState (saddleCase cfg mesh_ scalars_ t cur d orig isLast)) = leaves t.
Proof.
  unfold saddleCase. cbv zeta.
  destruct isLast; [|done].
  destruct (_ =? 1); [done|]. cbn [ctlState].
  change (leaves (closeAndMergeOnSaddle cfg mesh_ scalars_
                    (set_openedNodes (Vec.set cur true) t) cur) = leaves t).
  by rewrite leaves_closeAndMergeOnSaddle.
Qed.

Lemma leaves_processVertex t startVert d orig startUF currentArc sf cur :
  leaves (ctlState (processVertex cfg mesh_ scalars_ t startVert d orig startUF
                                  currentArc sf cur)) = leaves t.
Proof.
  unfold processVertex.
  pose proof (leaves_propage t startUF startUF) as H1.
  destruct (propage mesh_ t startUF startUF) as [[t1 isSaddle] isLast]. cbn [fst] in H1.
  cbv zeta.
  destruct isSaddle.
  - by rewrite leaves_saddleCase.
  - cbn [ctlState]. by destruct (negb _).
Qed.

Lemma leaves_loopBody t startVert d orig startUF currentArc sf :
  leaves (ctlState (loopBody cfg mesh_ scalars_ t startVert d orig startUF currentArc sf))
  = leaves t.
Proof.
  unfold loopBody.
  destruct (StateOps.getNextMinVertex (getFirstState t startUF)) as [s cur].
  cbv zeta.
  destruct (negb _ && negb _); [done|].
  destruct (cur =? startVert).
  - destruct (negb sf); [|done]. by rewrite leaves_processVertex.
  - by rewrite leaves_processVertex.
Qed.

Lemma leaves_closeRoot t currentArc : leaves (closeRoot cfg scalars_ t currentArc) = leaves t.
Proof.
  unfold closeRoot. cbv zeta.
  set (closeVert := lastVisited_ (getSuperArc cfg t currentArc)).
  assert (H1 : leaves (if isCorrespondingNode t closeVert
                       then (t, getCorrespondingNodeId t closeVert)
                       else makeNode cfg scalars_ t closeVert (defaultTerm cfg)).1
               = leaves t).
  { destruct (isCorrespondingNode t closeVert); [done|apply leaves_makeNode]. }
  destruct (if isCorrespondingNode t closeVert then _ else _) as [t1 closeNode].
  cbn [fst] in H1. unfold Vec.getNext. cbv beta iota zeta.
  change (leaves (closeSuperArc cfg t1 currentArc closeNode) = leaves t).
  by rewrite leaves_closeSuperArc.
Qed.

(** No task of the sweep writes the leaves. *)
Lemma leaves_sweep fuel :
  (forall t startVert d orig t',
     processTask cfg mesh_ scalars_ fuel t startVert d orig = Some t' ->
     leaves t' = leaves t)
  /\ (forall t startVert d orig startUF currentArc sf t',
        sweep cfg mesh_ scalars_ fuel t startVert d orig startUF currentArc sf = Some t' ->
        leaves t' = leaves t).
Proof.
  induction fuel as [|fuel [IHp IHs]]; [split; intros; discriminate|].
  split.
  - intros t startVert d orig t' H. cbn [processTask] in H.
    pose proof (leaves_openTask t startVert) as H1.
    destruct (openTask cfg t startVert) as [[t1 startUF] currentArc]. cbn [fst] in H1.
    rewrite <- H1. by eapply IHs.
  - intros t startVert d orig startUF currentArc sf t' H. cbn [sweep] in H.
    destruct (StateOps.empty (getFirstState t startUF)).
    + injection H as <-. apply leaves_closeRoot.
    + pose proof (leaves_loopBody t startVert d orig startUF currentArc sf) as H1.
      destruct (loopBody cfg mesh_ scalars_ t startVert d orig startUF currentArc sf)
        as [tc sf'|tc|tc v d' orig']; cbn [ctlState] in H1.
      * rewrite <- H1. by eapply IHs.
      * by injection H as <-.
      * rewrite <- H1. by eapply IHp.
Qed.

(** [leaves] sorts the leaves, unless there is one. *)
Lemma leaves_leaves fuel t t' :
  leaves_ cfg mesh_ scalars_ fuel t = Some t' ->
  leaves t' = if Vec.size (leaves t) =? 1 then leaves t
              else sortBy (nodeLower cfg t) (leaves t).
Proof.
  unfold leaves_. cbv zeta. destruct (_ =? 1).
  - unfold UFOps.alloc. by intros [= <-].
  - set (t2 := set_leaves _ _).
    change (sortBy (nodeLower cfg t) (leaves t)) with (leaves t2).
    revert t'.
    apply (forRange_keeps (fun acc => forall t', acc = Some t' -> leaves t' = leaves t2)).
    + intros n acc _ Hacc t' H. unfold launchLeaf in H.
      destruct acc as [s|]; [|discriminate]. unfold UFOps.alloc in H.
      apply (proj1 (leaves_sweep fuel)) in H. rewrite H.
      change (leaves s = leaves t2). by apply Hacc.
    + by intros t' [= <-].
Qed.

Lemma leaves_trunk t : leaves (fst (trunk cfg mesh_ scalars_ t)) = leaves t.
Proof.
  unfold trunk. pose proof (lists_trunkBackBone cfg mesh_ scalars_ t) as H1.
  destruct (trunkBackBone cfg mesh_ scalars_ t) as [t1 [pv|]]; cbn [fst] in *.
  - destruct (trunkSegmentation_onBackbone cfg scalars_ t1 pv) as [(_ & _ & H & _) _].
    rewrite H. unfold sweepLists in H1. congruence.
  - unfold sweepLists in H1. congruence.
Qed.

Lemma leaves_buildSegmentation t : leaves (buildSegmentation cfg scalars_ t) = leaves t.
Proof.
  pose proof (buildSegmentation_sameButRegions cfg scalars_ t) as H.
  apply H.
Qed.

Lemma node_vertex t i :
  0 <= i < Vec.size (nodes t) ->
  vertexId_ (getNode cfg t i) = Vec.get 0 (nodeVerts t) i.
Proof.
  intros Hi. destruct (at_in_range (nodes t) i Hi) as [x Hx].
  unfold getNode, nodeVerts, Vec.get. rewrite Hx.
  unfold Vec.at_ in *. destruct (i <? 0); [done|].
  change (map vertexId_ (nodes t)) with (vertexId_ <$> nodes t).
  by rewrite list_lookup_fmap, Hx.
Qed.

Lemma leafNodes_verts (l : list idVertex) : map vertexId_ (map (leafNodeOf cfg) l) = l.
Proof. induction l as [|v l IH]; [done|]. cbn. by rewrite IH. Qed.

Lemma leaves_printTime t s n l : leaves (printTime cfg scalars_ s n l t) = leaves t.
Proof. by timings. Qed.

(** The values of a function that reads a list, over the indices of the
    list. *)
Lemma map_get_seqZ (f : Z -> Z) (l : list Z) :
  (forall i, 0 <= i < Vec.size l -> f i = Vec.get 0 l i) ->
  map f (seqZ 0 (Vec.size l)) = l.
Proof.
  induction l as [|x l IH] using rev_ind; intros H; [done|].
  rewrite size_app. change (Vec.size [x]) with 1.
  pose proof (size_nonneg l) as Hl.
  rewrite seqZ_app by lia. rewrite map_app. f_equal.
  - apply IH. intros i Hi. rewrite H by (rewrite size_app; change (Vec.size [x]) with 1; lia).
    unfold Vec.get. by rewrite at_app_l.
  - change (seqZ (0 + Vec.size l) 1) with [0 + Vec.size l]. cbn [map]. f_equal.
    rewrite Z.add_0_l, H by (rewrite size_app; change (Vec.size [x]) with 1; lia).
    unfold Vec.get, Vec.at_, Vec.size.
    destruct (Z.ltb_spec (Z.of_nat (length l)) 0) as [Hneg|_]; [lia|].
    rewrite Nat2Z.id. by rewrite list_lookup_middle.
Qed.

Lemma sortedBy_map (lt : Z -> Z -> bool) (f : Z -> Z) l :
  sortedBy lt (map f l) = sortedBy (fun a b => lt (f a) (f b)) l.
Proof.
  induction l as [|x l IH]; [done|].
  destruct l as [|y l]; [done|].
  change (map f (x :: y :: l)) with (f x :: f y :: map f l).
  change (map f (y :: l)) with (f y :: map f l) in IH.
  rewrite !sortedBy_cons. by rewrite IH.
Qed.

(** X26.  The leaves of the built tree.  On a new tree (no node, every
    vertex nil) and with chunks that cover the vertices, whenever [build]
    returns, with or without segmentation and for every tree type: the
    list of the leaves holds the ids of the first nodes, as many as there
    are vertices without a lower neighbour, each once; the vertices of
    these nodes are these vertices, each once; and the list is sorted by
    the sweep order of the vertices of its nodes (the order of the scalars
    for a join tree, the reverse order otherwise): with a strict order, no
    leaf is followed by one whose vertex the sweep puts before its own.
    Which leaf is on which vertex is not stated.  No task of the sweep,
    nor the trunk nor the segmentation, writes that list after [leaves] has
    sorted it. *)
Theorem build_leaves fuel t ct t' :
  let n := scalars_size scalars_ in
  let minima := localMinima mesh_ (initComp scalars_ t) n in
  let verts := map (fun l => vertexId_ (getNode cfg t' l)) (leaves t') in
  0 <= n ->
  0 < getChunkSize cfg None None ->
  n <= getChunkCount cfg None None * getChunkSize cfg None None ->
  Vec.size (valences t) = n -> Vec.size (vert2tree t) = n ->
  nodes t = [] ->
  (forall v, 0 <= v < n -> corresp t v = CNull) ->
  build cfg mesh_ scalars_ fuel t ct = Some t' ->
  leaves t' ≡ₚ seqZ 0 (Vec.size minima)
  /\ verts ≡ₚ minima
  /\ (asymmetric (vertLower (comp_ (initComp scalars_ t))) ->
      sortedBy (vertLower (comp_ (initComp scalars_ t))) verts = true
      /\ sortedBy (nodeLower cfg t') (leaves t') = true).
Proof.
  intros n minima verts Hn Hcs Hcov Hval Hv2t Hnodes Hnull Hb.
  set (before := fun a b =>
         vertLower (comp_ (initComp scalars_ t)) (Vec.get 0 minima a) (Vec.get 0 minima b)).
  set (t0 := initComp scalars_ t) in *.
  assert (E0 : nodes t0 = nodes t /\ valences t0 = valences t /\ vert2tree t0 = vert2tree t).
  { unfold t0, initComp. by destruct (treeType t). }
  destruct E0 as (E1 & E2 & E3).
  destruct (precompute_fresh cfg mesh_ scalars_ t0) as [(P1 & P2 & P3 & P4 & P5 & P6 & P7) PL];
    [done|done|done|by rewrite E2|by rewrite E3|by rewrite E1
    |intros v Hv; unfold corresp; rewrite E3; by apply Hnull|].
  destruct (build_steps cfg mesh_ scalars_ _ _ _ _ Hb)
    as (p & ad & t2 & t3 & bb & Ep & El & Et & Ht').
  fold t0 in Ep. rewrite Ep in P1, P2, P3, P4, P5, P6, P7, PL. cbn [fst] in *.
  destruct (printTime_log cfg scalars_ (String.append "3 precompute " (treeString t))
              (scalars_size scalars_) (2 + ad) p) as [items Ei].
  rewrite Ei in El. clear Ei Ep.
  set (p' := log items p) in *. relog p p'. clearbody p'. clear items p.
  pose proof (leaves_leaves fuel p' t2 El) as L2.
  pose proof (grows_leaves cfg mesh_ scalars_ fuel p' t2 El) as G2.
  set (t2' := printTime cfg scalars_ (String.append "4 leaves " (treeString t))
                        (scalars_size scalars_) (printTimeLevel cfg) t2) in *.
  pose proof (grows_trunk cfg mesh_ scalars_ t2') as G3.
  pose proof (leaves_trunk t2') as L3.
  rewrite Et in G3, L3. cbn [fst] in *.
  set (t3' := printTime cfg scalars_ (String.append "5 trunk " (treeString t)) bb
                        (printTimeLevel cfg) t3) in *.
  assert (G : grows p' t' /\ leaves t' = leaves t2).
  { assert (G4 : grows p' t3').
    { apply (grows_trans _ t2); [done|]. apply (grows_trans _ t2'); [apply grows_printTime|].
      apply (grows_trans _ t3); [done|apply grows_printTime]. }
    assert (L4 : leaves t3' = leaves t2).
    { unfold t3'. rewrite leaves_printTime, L3. apply leaves_printTime. }
    rewrite Ht'. destruct ct; [|done]. split.
    - apply (grows_trans _ t3'); [done|].
      apply (grows_trans _ (buildSegmentation cfg scalars_ t3'));
        [apply grows_buildSegmentation|apply grows_printTime].
    - by rewrite leaves_printTime, leaves_buildSegmentation. }
  destruct G as [(_ & Gc & _ & _ & _ & _ & _ & [more Gn] & _) L].
  fold n minima in P5.
  assert (Hnv : nodeVerts p' = minima).
  { unfold nodeVerts. rewrite P5. apply leafNodes_verts. }
  assert (Hk : Vec.size (nodes p') = Vec.size minima).
  { rewrite P5. unfold Vec.size. by rewrite length_map. }
  assert (Hvert : forall i, 0 <= i < Vec.size minima ->
            vertexId_ (getNode cfg p' i) = Vec.get 0 minima i).
  { intros i Hi. rewrite node_vertex by lia. by rewrite Hnv. }
  rewrite Hnv in Gn.
  assert (Hvert' : forall i, 0 <= i < Vec.size minima ->
            vertexId_ (getNode cfg t' i) = Vec.get 0 minima i).
  { intros i Hi. rewrite node_vertex.
    - rewrite Gn. unfold Vec.get. by rewrite at_app_l.
    - assert (Vec.size (nodeVerts t') = Vec.size (nodes t')).
      { unfold nodeVerts, Vec.size. by rewrite length_map. }
      rewrite Gn, size_app in H. pose proof (size_nonneg more). lia. }
  assert (EL : leaves t' = sortBy before (seqZ 0 (Vec.size minima))).
  { rewrite L, L2, PL, Hk.
    destruct (Z.eqb_spec (Vec.size (seqZ 0 (Vec.size minima))) 1) as [E|E].
    - unfold Vec.size in E at 1. rewrite length_seqZ in E.
      pose proof (size_nonneg minima).
      replace (Vec.size minima) with 1 by lia. done.
    - apply sortBy_ext. intros a b Ha Hb'.
      apply elem_of_seqZ in Ha. apply elem_of_seqZ in Hb'.
      unfold nodeLower, before. rewrite !Hvert by lia. by rewrite P1. }
  assert (Eb : sortBy before (seqZ 0 (Vec.size minima))
               = sortBy (nodeLower cfg t') (seqZ 0 (Vec.size minima))).
  { apply sortBy_ext. intros a b Ha Hb'.
    apply elem_of_seqZ in Ha. apply elem_of_seqZ in Hb'.
    unfold nodeLower, before. rewrite !Hvert' by lia. by rewrite Gc, P1. }
  split; [rewrite EL; apply sortBy_perm|]. split.
  - unfold verts. rewrite EL, (sortBy_perm before).
    rewrite (map_get_seqZ _ minima); [done|]. intros i Hi. by apply Hvert'.
  - intros Hasym.
    assert (Hs : sortedBy (nodeLower cfg t') (leaves t') = true).
    { rewrite EL, Eb. apply sortBy_sorted. intros a b. unfold nodeLower.
      rewrite Gc, P1. apply Hasym. }
    split; [|done]. unfold verts. rewrite sortedBy_map.
    unfold nodeLower in Hs. by rewrite Gc, P1 in Hs.
Qed.

End LeavesKept.

(** The chain with the scalars [0, 3, 2, 4, 1]: the leaves are on the
    vertices 0, 2 and 4, sorted by their scalars. *)
Lemma build_leaves_witness :
  exists t',
    build (Ex.cfg false) Ex.chain5 Ex.sc 10 (Ex.fresh Join 5) false = Some t'
    /\ leaves t' ≡ₚ [0; 1; 2]
    /\ map (fun l => vertexId_ (getNode (Ex.cfg false) t' l)) (leaves t') ≡ₚ [0; 2; 4]
    /\ sortedBy (nodeLower (Ex.cfg false) t') (leaves t') = true.
Proof.
  destruct (build (Ex.cfg false) Ex.chain5 Ex.sc 10 (Ex.fresh Join 5) false) as [t'|] eqn:E.
  - exists t'. split; [reflexivity|].
    destruct (build_leaves (Ex.cfg false) Ex.chain5 Ex.sc 10 (Ex.fresh Join 5) false t')
      as (H1 & H2 & H3).
    + vm_compute. discriminate.
    + reflexivity.
    + vm_compute. discriminate.
    + reflexivity.
    + reflexivity.
    + reflexivity.
    + intros v _. apply fresh_null.
    + exact E.
    + split; [exact H1|]. split; [exact H2|]. apply H3.
      intros a b. unfold vertLower. cbn. unfold Ex.sc. cbn.
      intros H. apply Z.ltb_lt in H. apply Z.ltb_ge. lia.
  - exfalso. vm_compute in E. discriminate E.
Defined.
